(** * Arraymap: a fixed-depth radix trie keyed by the bytes of the key

  A shallow embedding of [arraymap.h] (namespace [arraymap]) and the
  verification of its ordering transform, trie engine, iterators and
  public operations.

  Conventions of the embedding.
  - Machine integers are [Z] with conversions written out
    ([to_unsigned], [to_signed]); [unsigned char] is a [Z] in [0, 256).
  - The object representation of a key is little-endian (the layout the
    digit numbering of [tetradeValue] assumes: tetrade [2 * sizeof - 1]
    is the high nibble of the last byte in memory).
  - A [float]/[double] key is represented by its IEEE 754 bit pattern,
    which is what the source manipulates through its integer pointer
    casts.
  - The heap reachable from [root] is tree shaped (every node array is
    owned by exactly one slot), so the address of a slot is the path of
    digits that leads to it from [root]; the shared [empty_node] array
    is a separate address space. *)

From Stdlib Require Import ZArith List Lia Bool ZifyNat.
From Stdlib Require Import Sorting.Sorted Sorting.Permutation.
From Stdlib Require Import Floats.SpecFloat.
From stdpp Require Import base numbers list.
Import ListNotations.

Local Open Scope Z_scope.

(** ** Machine integers and object representations *)

Module Machine.

Definition to_unsigned (w : Z) (x : Z) : Z := x mod 2 ^ w.

Definition to_signed (w : Z) (x : Z) : Z :=
  let u := x mod 2 ^ w in
  if u <? 2 ^ (w - 1) then u else u - 2 ^ w.

(** [unsigned char] arithmetic: the result of [+=] / [-=] on a byte. *)
Definition uchar (x : Z) : Z := x mod 256.

(** Little-endian bytes of an unsigned number, [n] of them. *)
Fixpoint le_bytes (n : nat) (x : Z) : list Z :=
  match n with
  | O => []
  | S n' => x mod 256 :: le_bytes n' (x / 256)
  end.

(** The unsigned number a little-endian byte sequence denotes. *)
Fixpoint le_num (bs : list Z) : Z :=
  match bs with
  | [] => 0
  | b :: bs' => b + 256 * le_num bs'
  end.

Definition is_byte (b : Z) : Prop := 0 <= b < 256.

(** [memcmp]-style comparison, most significant byte first: the bytes
    are stored least significant first, so the comparison runs over
    the reversed sequences. *)
Fixpoint lex_ltb (xs ys : list Z) : bool :=
  match xs, ys with
  | x :: xs', y :: ys' => (x <? y) || ((x =? y) && lex_ltb xs' ys')
  | _, _ => false
  end.

Definition msb_first_ltb (a b : list Z) : bool := lex_ltb (rev a) (rev b).

End Machine.
Import Machine.

(** ** Key types and the ordering transform *)

Inductive key_type := int8_t | int16_t | int32_t | int64_t | float | double.

Definition sizeof (T : key_type) : nat :=
match T with
| int8_t => 1
| int16_t => 2
| int32_t | float => 4
| int64_t | double => 8
end%nat.

Definition bit_width (T : key_type) : Z := 8 * Z.of_nat (sizeof T).

Definition is_integer (T : key_type) : bool :=
match T with float | double => false | _ => true end.

(** A key value: the integer itself for the integer types, the IEEE bit
  pattern for [float] and [double]. *)
Definition representable (T : key_type) (k : Z) : Prop :=
if is_integer T
then - 2 ^ (bit_width T - 1) <= k < 2 ^ (bit_width T - 1)
else 0 <= k < 2 ^ bit_width T.

Definition representableb (T : key_type) (k : Z) : bool :=
if is_integer T
then (- 2 ^ (bit_width T - 1) <=? k) && (k <? 2 ^ (bit_width T - 1))
else (0 <=? k) && (k <? 2 ^ bit_width T).

(** [memcpy(key_bytes, &key, sizeof(key_type))] *)
Definition to_bytes (T : key_type) (k : Z) : list Z :=
le_bytes (sizeof T) (to_unsigned (bit_width T) k).

(** [*(key_type* ) key_bytes] *)
Definition of_bytes (T : key_type) (bs : list Z) : Z :=
if is_integer T then to_signed (bit_width T) (le_num bs) else le_num bs.

Definition bool_to_int (b : bool) : Z := if b then 1 else 0.

Module ordering_none.
Definition apply (value : Z) : Z := value.
Definition restore (value : Z) : Z := value.
End ordering_none.

Module ordering_default.

Definition apply (T : key_type) (value : Z) : Z :=
  match T with
  | int64_t => to_signed 64 (Z.lxor value (to_signed 64 (Z.shiftl 1 63)))
  | int32_t => to_signed 32 (Z.lxor value (to_signed 32 (Z.shiftl 1 31)))
  | int16_t => to_signed 16 (Z.lxor value (Z.shiftl 1 15))
  | int8_t => to_signed 8 (Z.lxor value (Z.shiftl 1 7))
  | float =>
      let pf := value in
      let pf := Z.lxor pf 0x80000000 in
      let pf :=
        Z.lxor pf (0x7FFFFFFF * bool_to_int (Z.land pf 0x80000000 =? 0)) in
      pf
  | double =>
      let pf := value in
      let pf := Z.lxor pf 0x8000000000000000 in
      let pf :=
        Z.lxor pf (0x7FFFFFFFFFFFFFFF
                   * bool_to_int (Z.land pf 0x8000000000000000 =? 0)) in
      pf
  end.

Definition restore (T : key_type) (value : Z) : Z :=
  match T with
  | int64_t => to_signed 64 (Z.lxor value (to_signed 64 (Z.shiftl 1 63)))
  | int32_t => to_signed 32 (Z.lxor value (to_signed 32 (Z.shiftl 1 31)))
  | int16_t => to_signed 16 (Z.lxor value (Z.shiftl 1 15))
  | int8_t => to_signed 8 (Z.lxor value (Z.shiftl 1 7))
  | float =>
      let pf := value in
      let pf := Z.lxor pf 0x80000000 in
      let pf :=
        Z.lxor pf (0x7FFFFFFF
                   * bool_to_int (negb (Z.land pf 0x80000000 =? 0))) in
      pf
  | double =>
      let pf := value in
      let pf := Z.lxor pf 0x8000000000000000 in
      let pf :=
        Z.lxor pf (0x7FFFFFFFFFFFFFFF
                   * bool_to_int (negb (Z.land pf 0x8000000000000000 =? 0))) in
      pf
  end.

End ordering_default.

(** ** The native comparison of the key types

  The integer types compare as integers.  [float] and [double] compare
  as IEEE 754 binary32 / binary64 values: the bit pattern is decoded
  into a [spec_float] and compared with [SFltb]. *)

Module IEEE.

(** [mw]: stored mantissa bits, [ew]: exponent bits. *)
Definition decode (mw ew : Z) (bits : Z) : spec_float :=
  let s := Z.testbit bits (mw + ew) in
  let e := (bits / 2 ^ mw) mod 2 ^ ew in
  let m := bits mod 2 ^ mw in
  let bias := 2 ^ (ew - 1) - 1 in
  if e =? 0 then
    if m =? 0 then S754_zero s
    else S754_finite s (Z.to_pos m) (1 - bias - mw)
  else if e =? 2 ^ ew - 1 then
    if m =? 0 then S754_infinity s else S754_nan
  else S754_finite s (Z.to_pos (m + 2 ^ mw)) (e - bias - mw).

Definition is_nan (x : spec_float) : bool :=
  match x with S754_nan => true | _ => false end.

Definition is_zero (x : spec_float) : bool :=
  match x with S754_zero _ => true | _ => false end.

Definition binary32 (bits : Z) : spec_float := decode 23 8 bits.
Definition binary64 (bits : Z) : spec_float := decode 52 11 bits.

End IEEE.

Definition float_value (T : key_type) (k : Z) : spec_float :=
match T with
| double => IEEE.binary64 k
| _ => IEEE.binary32 k
end.

(** [a < b] on values of the key type. *)
Definition native_ltb (T : key_type) (a b : Z) : bool :=
if is_integer T then a <? b
else SFltb (float_value T a) (float_value T b).

(** Unsigned byte-wise comparison of two radix keys, most significant
  byte first. *)
Definition radix_ltb (T : key_type) (ra rb : Z) : bool :=
msb_first_ltb (to_bytes T ra) (to_bytes T rb).

(** ** Bounded iteration

  The loops of the source are run by [while_loop], which performs at
  most [fuel] steps of a body that either continues with a new state
  ([inl]) or leaves the loop with a result ([inr]).  The fuel is a
  binary number, so a bound that is exponential in the key width costs
  nothing to state or to evaluate; every use below comes with a proof
  that its bound is never exhausted. *)

Section Loops.
Context {St Res : Type}.
Variable body : St -> St + Res.

Fixpoint while_nat (fuel : nat) (s : St) : St + Res :=
  match fuel with
  | O => inl s
  | S fuel' =>
      match body s with
      | inl s' => while_nat fuel' s'
      | inr r => inr r
      end
  end.

Fixpoint while_loop (fuel : positive) (s : St) : St + Res :=
  match fuel with
  | xH => body s
  | xO f =>
      match while_loop f s with
      | inl s' => while_loop f s'
      | inr r => inr r
      end
  | xI f =>
      match body s with
      | inl s' =>
          match while_loop f s' with
          | inl s'' => while_loop f s''
          | inr r => inr r
          end
      | inr r => inr r
      end
  end.
End Loops.

(** ** Trie nodes and slot addresses *)

(** [ptr_t]: the union of a value pointer and a node-array pointer.
  [empty_node_ptr] is the word whose [next] is the shared [empty_node]
  array; [next arr] points to an array obtained from
  [node_add_empty_node]; [val v] points to an allocated value. *)
#[local] Set Warnings "-register-all".
Inductive ptr_t {mapped_type : Type} : Type :=
| empty_node_ptr : ptr_t
| next (arr : list ptr_t) : ptr_t
| val (v : mapped_type) : ptr_t.
Arguments ptr_t : clear implicits.

Global Instance ptr_t_inhabited {mapped_type} : Inhabited (ptr_t mapped_type) :=
populate empty_node_ptr.

(** [ptr_t*]: the address of a slot.  [at_path p] is the slot reached from
  [root] through the digits [p] (so [at_path []] is [&root]);
  [at_empty_node i] is [&empty_node[i]]; [indeterminate] is a pointer
  that was never assigned. *)
Inductive ptr_ref : Type :=
| at_path (p : list nat)
| at_empty_node (i : nat)
| indeterminate.

Global Instance ptr_ref_inhabited : Inhabited ptr_ref := populate indeterminate.

Section Heap.
Context {mapped_type : Type}.
Abbreviation ptr_t := (ptr_t mapped_type).

(** [p == *empty_node] *)
Definition is_empty_node (p : ptr_t) : bool :=
  match p with empty_node_ptr => true | _ => false end.

(** [p.next[i]].  Every slot of [empty_node] points back to
    [empty_node].  A value pointer is never followed: the depth
    discipline ([well_formed] below) keeps values at depth 0. *)
Definition next_at (p : ptr_t) (i : nat) : ptr_t :=
  match p with
  | empty_node_ptr => empty_node_ptr
  | next arr => arr !!! i
  | val _ => empty_node_ptr
  end.

Fixpoint load (root : ptr_t) (path : list nat) : ptr_t :=
  match path with
  | [] => root
  | i :: rest => load (next_at root i) rest
  end.

Fixpoint store (root : ptr_t) (path : list nat) (x : ptr_t) : ptr_t :=
  match path with
  | [] => x
  | i :: rest =>
      match root with
      | next arr => next (<[i := store (arr !!! i) rest x]> arr)
      | other => other
      end
  end.

(** [*r] *)
Definition deref (root : ptr_t) (r : ptr_ref) : ptr_t :=
  match r with
  | at_path p => load root p
  | at_empty_node _ => empty_node_ptr
  | indeterminate => empty_node_ptr
  end.

(** [r->next + i] *)
Definition next_plus (root : ptr_t) (r : ptr_ref) (i : nat) : ptr_ref :=
  match deref root r, r with
  | next _, at_path p => at_path (p ++ [i])
  | _, _ => at_empty_node i
  end.

(** [*r = x] for a slot of the tree. *)
Definition assign (root : ptr_t) (r : ptr_ref) (x : ptr_t) : ptr_t :=
  match r with
  | at_path p => store root p x
  | _ => root
  end.

(** [node_add_empty_node] *)
Definition node_add_empty_node : ptr_t := next (replicate 0x10 empty_node_ptr).

(** [is_node_empty] *)
Definition is_node_empty (node : ptr_t) : bool :=
  forallb (fun i => is_empty_node (next_at node i)) (seq 0 0x10).

(** [free_node_tree]: the values it destroys, in order. *)
Fixpoint free_node_tree (p : ptr_t) (depth : nat) : list mapped_type :=
  if is_empty_node p then []
  else
    match depth with
    | O => match p with val v => [v] | _ => [] end
    | S depth' =>
        flat_map (fun i => free_node_tree (next_at p i) depth') (seq 0 0x10)
    end.

(** The number of leaf slots reachable from a slot at height [depth]. *)
Fixpoint leaf_count (depth : nat) (p : ptr_t) : Z :=
  match depth, p with
  | O, val _ => 1
  | S depth', next arr =>
      fold_right Z.add 0 (map (leaf_count depth') arr)
  | _, _ => 0
  end.

(** The depth discipline: a slot at height 0 is empty or a value, a
    slot at height [depth + 1] is empty or points to an array of 16
    slots of height [depth]. *)
Fixpoint well_formed (depth : nat) (p : ptr_t) : bool :=
  match depth, p with
  | _, empty_node_ptr => true
  | O, val _ => true
  | S depth', next arr =>
      (length arr =? 0x10)%nat && forallb (well_formed depth') arr
  | _, _ => false
  end.

(** No empty subtree: every internal node reachable from the slot has
    a child that is not the sentinel. *)
Fixpoint pruned (depth : nat) (p : ptr_t) : bool :=
  match depth, p with
  | S depth', next arr =>
      existsb (fun c => negb (is_empty_node c)) arr
      && forallb (pruned depth') arr
  | _, _ => true
  end.

End Heap.

(** ** The container and its iterators *)

Record arraymap {mapped_type : Type} : Type := {
  root : ptr_t mapped_type;
  element_count : Z
}.
Arguments arraymap : clear implicits.

(** [iterator_base].  [currentValue] pairs the restored key (if one was
    ever assigned) with the slot whose value it refers to ([None]: the
    iterator's own [empty_element]). *)
Record iterator_base : Type := {
  stack : list ptr_ref;
  depth : nat;
  key_bytes : list Z;
  currentValue : option Z * option ptr_ref
}.

Definition set_stack (it : iterator_base) (s : list ptr_ref) : iterator_base :=
  {| stack := s; depth := depth it; key_bytes := key_bytes it;
     currentValue := currentValue it |}.
Definition set_depth (it : iterator_base) (d : nat) : iterator_base :=
  {| stack := stack it; depth := d; key_bytes := key_bytes it;
     currentValue := currentValue it |}.
Definition set_key_bytes (it : iterator_base) (b : list Z) : iterator_base :=
  {| stack := stack it; depth := depth it; key_bytes := b;
     currentValue := currentValue it |}.
Definition set_currentValue (it : iterator_base) (v : option Z * option ptr_ref)
  : iterator_base :=
  {| stack := stack it; depth := depth it; key_bytes := key_bytes it;
     currentValue := v |}.

(** [size_type] is a 64-bit unsigned integer. *)
Definition size_type (n : Z) : Z := to_unsigned 64 n.

(** [memset(bytes, c, n)] *)
Definition memset (bytes : list Z) (c : Z) (n : nat) : list Z :=
  replicate n c ++ drop n bytes.

(** [memcmp(a, b, n)]: negative, zero or positive. *)
Fixpoint memcmp (a b : list Z) (n : nat) : Z :=
  match n, a, b with
  | S n', x :: a', y :: b' =>
      if x <? y then -1 else if y <? x then 1 else memcmp a' b' n'
  | _, _, _ => 0
  end.

Section Arraymap.
Context {mapped_type : Type}.
Variable T : key_type.

Abbreviation ptr_t := (ptr_t mapped_type).
Abbreviation arraymap := (arraymap mapped_type).

Definition key_size : nat := sizeof T.
Definition MAX_DEPTH : nat := (sizeof T * 2)%nat.

Definition bitShift : list Z := [0; 4].

(** [tetradeValue]; [Nr >> 1] is [Nr / 2] and [Nr & 1] is [Nr mod 2]. *)
Definition tetradeValue (bytes : list Z) (Nr : nat) : nat :=
  Z.to_nat
    (Z.land (Z.shiftr (bytes !!! (Nr / 2)%nat) (bitShift !!! (Nr mod 2)%nat))
            0xF).

(** *** Descent without and with allocation *)

Fixpoint element_fast_find_loop (root : ptr_t) (key_bytes : list Z)
    (tetradeNr : nat) (current_Node : ptr_ref) : ptr_ref :=
  let current_Node :=
    next_plus root current_Node (tetradeValue key_bytes tetradeNr) in
  match tetradeNr with
  | O => current_Node
  | S tetradeNr' =>
      element_fast_find_loop root key_bytes tetradeNr' current_Node
  end.

Definition element_fast_find (m : arraymap) (key : Z) : ptr_t :=
  let key_bytes := to_bytes T key in
  let current_Node :=
    element_fast_find_loop (root m) key_bytes (MAX_DEPTH - 1) (at_path []) in
  deref (root m) current_Node.

Fixpoint element_fast_add_loop (key_bytes : list Z) (tetradeNr : nat)
    (root : ptr_t) (current_Node : ptr_ref) : ptr_t * ptr_ref :=
  let root :=
    if is_empty_node (deref root current_Node)
    then assign root current_Node node_add_empty_node
    else root in
  let current_Node :=
    next_plus root current_Node (tetradeValue key_bytes tetradeNr) in
  match tetradeNr with
  | O => (root, current_Node)
  | S tetradeNr' =>
      element_fast_add_loop key_bytes tetradeNr' root current_Node
  end.

(** [element_fast_add]: the three overloads differ only in how the value
    is constructed; [value] is the constructed value.  Returns the new
    heap and [*current_Node]. *)
Definition element_fast_add (m : arraymap) (key : Z) (value : mapped_type)
  : arraymap * ptr_t :=
  let key_bytes := to_bytes T key in
  let '(root1, current_Node) :=
    element_fast_add_loop key_bytes (MAX_DEPTH - 1) (root m) (at_path []) in
  let root2 := assign root1 current_Node (val value) in
  ({| root := root2; element_count := element_count m |},
   deref root2 current_Node).

(** *** [iterator_base] *)

(** [stack[depth]->next[tetradeValue(key_bytes, depth)]] as a slot
    address and as its content. *)
Definition target_slot (root : ptr_t) (it : iterator_base) (d : nat) : ptr_ref :=
  next_plus root (stack it !!! d) (tetradeValue (key_bytes it) d).

Definition target (root : ptr_t) (it : iterator_base) (d : nat) : ptr_t :=
  deref root (target_slot root it d).

(** [iterator_base(ptr_t *root)]: only [stack[MAX_DEPTH - 1]] is
    assigned; [depth] and [key_bytes] are set by the callers. *)
Definition iterator_base_root : iterator_base :=
  {| stack := <[(MAX_DEPTH - 1)%nat := at_path []]>
                (replicate MAX_DEPTH indeterminate);
     depth := 0;
     key_bytes := replicate (key_size + 1) 0;
     currentValue := (None, None) |}.

Definition target_valid (root : ptr_t) (it : iterator_base) : bool :=
  (depth it =? 0)%nat && negb (is_empty_node (target root it 0)).

Fixpoint fill_ptr_stack_loop (root : ptr_t) (key_bytes : list Z)
    (tetradeNr : nat) (current_Node : ptr_ref) (stack : list ptr_ref)
  : list ptr_ref :=
  let current_Node :=
    next_plus root current_Node (tetradeValue key_bytes (tetradeNr + 1)) in
  let stack := <[tetradeNr := current_Node]> stack in
  match tetradeNr with
  | O => stack
  | S tetradeNr' =>
      fill_ptr_stack_loop root key_bytes tetradeNr' current_Node stack
  end.

Definition fill_ptr_stack (root : ptr_t) (it : iterator_base) : iterator_base :=
  let current_Node := stack it !!! (MAX_DEPTH - 1)%nat in
  set_stack it
    (fill_ptr_stack_loop root (key_bytes it) (MAX_DEPTH - 2) current_Node
       (stack it)).

(** [for(depth = MAX_DEPTH - 1; depth > 0 && *stack[depth] != *empty_node;
    depth--);] *)
Fixpoint seek_depth (root : ptr_t) (stack : list ptr_ref) (depth : nat) : nat :=
  match depth with
  | O => O
  | S depth' =>
      if negb (is_empty_node (deref root (stack !!! depth)))
      then seek_depth root stack depth'
      else depth
  end.

(** The value an iterator that denotes an element caches. *)
Definition found_value (root : ptr_t) (it : iterator_base) (key : Z)
  : option Z * option ptr_ref :=
  (Some (ordering_default.restore T key), Some (target_slot root it 0)).

(** [iterator_base(ptr_t *root, const key_type &key)] *)
Definition iterator_base_key (root : ptr_t) (key : Z) : iterator_base :=
  let it := iterator_base_root in
  let it := set_key_bytes it (to_bytes T key ++ [0]) in
  let it := fill_ptr_stack root it in
  let it := set_depth it (seek_depth root (stack it) (MAX_DEPTH - 1)) in
  if target_valid root it
  then set_currentValue it (found_value root it key)
  else it.

Definition bool_to_nat (b : bool) : nat := if b then 1%nat else 0%nat.

(** [incrQuartet] / [decrQuartet].  The recursion is on [quartetNr],
    which grows until it exceeds [MAX_DEPTH]; [n] bounds the number of
    nested calls. *)
Fixpoint incrQuartet_rec (n : nat) (bytes : list Z) (quartetNr : nat)
  : list Z * nat :=
  if (MAX_DEPTH <? quartetNr)%nat then (bytes, 0%nat)
  else
    let i := (quartetNr / 2)%nat in
    let sh := Z.of_nat (quartetNr mod 2) * 4 in
    let even := bool_to_nat (quartetNr mod 2 =? 0)%nat in
    let bytes := <[i := uchar (bytes !!! i + Z.shiftl 1 sh)]> bytes in
    if Z.shiftr (bytes !!! i) sh =? 0 then
      match n with
      | O => (bytes, 0%nat)
      | S n' =>
          let '(bytes', r) :=
            incrQuartet_rec n' bytes (quartetNr + 1 + even) in
          (bytes', (even + 1 + r)%nat)
      end
    else
      (bytes, bool_to_nat (Z.land (Z.shiftr (bytes !!! i) sh) 0xF =? 0)).

Definition incrQuartet (bytes : list Z) (quartetNr : nat) : list Z * nat :=
  incrQuartet_rec (MAX_DEPTH + 2) bytes quartetNr.

Fixpoint decrQuartet_rec (n : nat) (bytes : list Z) (quartetNr : nat)
  : list Z * nat :=
  if (MAX_DEPTH <? quartetNr)%nat then (bytes, 0%nat)
  else
    let i := (quartetNr / 2)%nat in
    let sh := Z.of_nat (quartetNr mod 2) * 4 in
    let even := bool_to_nat (quartetNr mod 2 =? 0)%nat in
    let bytes := <[i := uchar (bytes !!! i - Z.shiftl 1 sh)]> bytes in
    if Z.shiftr (bytes !!! i) sh =? Z.shiftr 0xFF sh then
      match n with
      | O => (bytes, 0%nat)
      | S n' =>
          let '(bytes', r) :=
            decrQuartet_rec n' bytes (quartetNr + 1 + even) in
          (bytes', (even + 1 + r)%nat)
      end
    else
      (bytes, bool_to_nat (Z.land (Z.shiftr (bytes !!! i) sh) 0xF =? 0xF)).

Definition decrQuartet (bytes : list Z) (quartetNr : nat) : list Z * nat :=
  decrQuartet_rec (MAX_DEPTH + 2) bytes quartetNr.

(** The key an iterator yields: [Ordering::restore] applied to the key
    read back from [key_bytes]. *)
Definition restored_key (it : iterator_base) : Z :=
  ordering_default.restore T (of_bytes T (take key_size (key_bytes it))).

(** One round of the [while(depth < MAX_DEPTH)] loop shared by
    [increment] and [decrement]; [quartet] is [incrQuartet] or
    [decrQuartet].  [inr (it, true)] is the [return] inside the loop,
    [inr (it, false)] the exit through the loop condition. *)
Definition seek_body (quartet : list Z -> nat -> list Z * nat) (root : ptr_t)
    (it : iterator_base) : iterator_base + (iterator_base * bool) :=
  if (depth it <? MAX_DEPTH)%nat then
    let it :=
      if negb (depth it =? 0)%nat
         && negb (is_empty_node (target root it (depth it)))
      then
        let it :=
          set_stack it
            (<[(depth it - 1)%nat := target_slot root it (depth it)]> (stack it)) in
        set_depth it (depth it - 1)
      else
        let '(bytes, r) := quartet (key_bytes it) (depth it) in
        set_depth (set_key_bytes it bytes) (depth it + r) in
    if (depth it =? 0)%nat && negb (is_empty_node (target root it 0))
    then
      inr (set_currentValue it
             (Some (restored_key it), Some (target_slot root it 0)), true)
    else inl it
  else inr (it, false).

(** A bound on the number of rounds of the loop: every round either
    descends or moves the key-plus-overflow counter. *)
Definition seek_bound : positive :=
  Z.to_pos (256 ^ (Z.of_nat key_size + 1) * (Z.of_nat MAX_DEPTH + 1)
            + Z.of_nat MAX_DEPTH + 1).

Definition seek_loop (quartet : list Z -> nat -> list Z * nat) (root : ptr_t)
    (it : iterator_base) : iterator_base * bool :=
  match while_loop (seek_body quartet root) seek_bound it with
  | inr r => r
  | inl it' => (it', false)
  end.

(** [increment].  The nested call happens at most once: it starts with
    overflow byte 0, which the loop never turns into 0xFF. *)
Fixpoint increment_rec (n : nat) (root : ptr_t) (it : iterator_base)
  : iterator_base :=
  match seek_loop incrQuartet root it with
  | (it, true) => it
  | (it, false) =>
      if key_bytes it !!! key_size =? 0xFF then
        let it := set_key_bytes it (<[key_size := 0x00]> (key_bytes it)) in
        let it := set_key_bytes it (memset (key_bytes it) 0x00 key_size) in
        let it := set_depth it (MAX_DEPTH - 1) in
        match n with
        | O => it
        | S n' => increment_rec n' root it
        end
      else
        let it := set_key_bytes it (memset (key_bytes it) 0 key_size) in
        set_key_bytes it (<[key_size := 1]> (key_bytes it))
  end.

Definition increment (root : ptr_t) (it : iterator_base) : iterator_base :=
  increment_rec 1 root it.

Fixpoint decrement_rec (n : nat) (root : ptr_t) (it : iterator_base)
  : iterator_base :=
  match seek_loop decrQuartet root it with
  | (it, true) => it
  | (it, false) =>
      if key_bytes it !!! key_size =? 0x01 then
        let it := set_key_bytes it (<[key_size := 0x00]> (key_bytes it)) in
        let it := set_key_bytes it (memset (key_bytes it) 0xFF key_size) in
        let it := set_depth it (MAX_DEPTH - 1) in
        match n with
        | O => it
        | S n' => decrement_rec n' root it
        end
      else
        let it := set_key_bytes it (memset (key_bytes it) 0 key_size) in
        set_key_bytes it (<[key_size := 0xFF]> (key_bytes it))
  end.

Definition decrement (root : ptr_t) (it : iterator_base) : iterator_base :=
  decrement_rec 1 root it.

(** [erase_elem]: the pruning loop, [n] rounds at most. *)
Fixpoint erase_elem_loop (n : nat) (root : ptr_t) (it : iterator_base)
  : ptr_t * iterator_base :=
  match n with
  | O => (root, it)
  | S n' =>
      if (depth it <? MAX_DEPTH)%nat then
        if is_node_empty (deref root (stack it !!! depth it)) then
          let root := assign root (stack it !!! depth it) empty_node_ptr in
          erase_elem_loop n' root (set_depth it (depth it + 1))
        else (root, it)
      else (root, it)
  end.

Definition erase_elem (root : ptr_t) (it : iterator_base)
  : ptr_t * iterator_base * bool :=
  if (depth it =? 0)%nat then
    if negb (is_empty_node (target root it 0)) then
      let root := assign root (target_slot root it 0) empty_node_ptr in
      let '(root, it) := erase_elem_loop MAX_DEPTH root it in
      (root, it, true)
    else (root, it, false)
  else (root, it, false).

(** [operator==] of the iterators *)
Definition iterator_eqb (a b : iterator_base) : bool :=
  memcmp (key_bytes a) (key_bytes b) (key_size + 1) =? 0.

(** *** The iterator classes

    [iterator] and [reverse_iterator] share the state of [iterator_base];
    they differ in the position their constructors use for a missing key
    and in which of [increment] / [decrement] the operators call. *)

(** [iterator(ptr_t *root)] *)
Definition iterator_root : iterator_base :=
  let it := iterator_base_root in
  let it := set_key_bytes it (memset (key_bytes it) 0 key_size) in
  let it := set_key_bytes it (<[key_size := 1]> (key_bytes it)) in
  set_depth it MAX_DEPTH.

(** [iterator(ptr_t *root, key_type key, bool findNext)] *)
Definition iterator_key (root : ptr_t) (key : Z) (findNext : bool)
  : iterator_base :=
  let it := iterator_base_key root key in
  if negb (target_valid root it) then
    if findNext then increment root it
    else
      let it := set_key_bytes it (memset (key_bytes it) 0 key_size) in
      let it := set_key_bytes it (<[key_size := 1]> (key_bytes it)) in
      set_depth it MAX_DEPTH
  else it.

(** [reverse_iterator(ptr_t *root)] *)
Definition reverse_iterator_root : iterator_base :=
  let it := iterator_base_root in
  let it := set_key_bytes it (memset (key_bytes it) 0 key_size) in
  let it := set_key_bytes it (<[key_size := 0xFF]> (key_bytes it)) in
  set_depth it MAX_DEPTH.

(** [reverse_iterator(ptr_t *root, key_type key, bool findNext)] *)
Definition reverse_iterator_key (root : ptr_t) (key : Z) (findNext : bool)
  : iterator_base :=
  let it := iterator_base_key root key in
  if negb (target_valid root it) then
    if findNext then decrement root it
    else
      let it := set_key_bytes it (memset (key_bytes it) 0 key_size) in
      let it := set_key_bytes it (<[key_size := 0xFF]> (key_bytes it)) in
      set_depth it MAX_DEPTH
  else it.

(** [operator++] and [operator--] of [iterator] (pre-increment forms;
    the post forms return a copy of the old state). *)
Definition iterator_incr (m : arraymap) (it : iterator_base) : iterator_base :=
  increment (root m) it.
Definition iterator_decr (m : arraymap) (it : iterator_base) : iterator_base :=
  decrement (root m) it.

(** [operator++] and [operator--] of [reverse_iterator]. *)
Definition reverse_iterator_incr (m : arraymap) (it : iterator_base)
  : iterator_base := decrement (root m) it.
Definition reverse_iterator_decr (m : arraymap) (it : iterator_base)
  : iterator_base := increment (root m) it.

(** [operator*]: the key and the value the iterator refers to. *)
Definition iterator_deref (m : arraymap) (it : iterator_base)
  : option Z * option mapped_type :=
  (fst (currentValue it),
   match snd (currentValue it) with
   | Some r => match deref (root m) r with val v => Some v | _ => None end
   | None => None
   end).

(** *** Public operations *)

(** [arraymap(void)] *)
Definition empty_map : arraymap :=
  {| root := empty_node_ptr; element_count := 0 |}.

Definition begin (m : arraymap) : iterator_base :=
  let bytes := memset (replicate key_size 0) 0 key_size in
  iterator_key (root m) (of_bytes T bytes) true.

(** [end()] returns [end_it], built by [iterator(&this->root)]. *)
Definition end_ (m : arraymap) : iterator_base := iterator_root.

Definition rbegin (m : arraymap) : iterator_base :=
  let bytes := memset (replicate key_size 0) 0xFF key_size in
  reverse_iterator_key (root m) (of_bytes T bytes) true.

Definition rend (m : arraymap) : iterator_base := reverse_iterator_root.

Definition find (m : arraymap) (key : Z) : iterator_base :=
  iterator_key (root m) (ordering_default.apply T key) false.

Definition lower_bound (m : arraymap) (key : Z) : iterator_base :=
  iterator_key (root m) (ordering_default.apply T key) true.

Definition upper_bound (m : arraymap) (key : Z) : iterator_base :=
  let it := iterator_key (root m) (ordering_default.apply T key) false in
  if iterator_eqb it (end_ m)
  then iterator_key (root m) (ordering_default.apply T key) true
  else iterator_incr m it.

Definition empty (m : arraymap) : bool := element_count m =? 0.

Definition size (m : arraymap) : Z := element_count m.

Definition contains (m : arraymap) (k : Z) : bool :=
  let result := element_fast_find m (ordering_default.apply T k) in
  negb (is_empty_node result).

(** [clear]: [free_node_tree] releases every node and value; what
    remains is the empty root. *)
Definition clear (m : arraymap) : arraymap :=
  let _ := free_node_tree (root m) MAX_DEPTH in
  {| root := empty_node_ptr; element_count := 0 |}.

(** [insert(const value_type&)] and [insert(value_type&&)] *)
Definition insert (m : arraymap) (value : Z * mapped_type)
  : arraymap * (iterator_base * bool) :=
  let added := false in
  let result := element_fast_find m (ordering_default.apply T (fst value)) in
  let '(m, added) :=
    if is_empty_node result then
      let '(m, _) :=
        element_fast_add m (ordering_default.apply T (fst value)) (snd value) in
      ({| root := root m; element_count := size_type (element_count m + 1) |},
       true)
    else (m, added) in
  (m, (iterator_key (root m) (ordering_default.apply T (fst value)) false,
       added)).

(** [emplace(args...)] builds the pair and forwards to [insert]. *)
Definition emplace (m : arraymap) (k : Z) (v : mapped_type)
  : arraymap * (iterator_base * bool) := insert m (k, v).

(** [try_emplace(k, args...)]; [v] is the value [args] construct. *)
Definition try_emplace (m : arraymap) (k : Z) (v : mapped_type)
  : arraymap * (iterator_base * bool) :=
  let added := false in
  let result := element_fast_find m (ordering_default.apply T k) in
  let '(m, added) :=
    if is_empty_node result then
      let '(m, _) := element_fast_add m (ordering_default.apply T k) v in
      ({| root := root m; element_count := size_type (element_count m + 1) |},
       true)
    else (m, added) in
  (m, (iterator_key (root m) (ordering_default.apply T k) false, added)).

(** [operator[]]; [default_value] is the default-constructed
    [mapped_type].  Returns the slot content whose [val] is
    dereferenced. *)
Definition index (default_value : mapped_type) (m : arraymap) (k : Z)
  : arraymap * ptr_t :=
  let result := element_fast_find m (ordering_default.apply T k) in
  if is_empty_node result then
    let '(m, result) :=
      element_fast_add m (ordering_default.apply T k) default_value in
    ({| root := root m; element_count := size_type (element_count m + 1) |},
     result)
  else (m, result).

(** [erase(const key_type&)] *)
Definition erase (m : arraymap) (key : Z) : arraymap * Z :=
  let it := iterator_key (root m) (ordering_default.apply T key) false in
  if negb (iterator_eqb it (end_ m)) then
    let '(root', _, _) := erase_elem (root m) it in
    ({| root := root'; element_count := size_type (element_count m - 1) |}, 1)
  else (m, 0).

(** [erase(iterator pos)] *)
Definition erase_pos (m : arraymap) (pos : iterator_base)
  : arraymap * iterator_base :=
  let '(root', pos, _) := erase_elem (root m) pos in
  let m := {| root := root'; element_count := size_type (element_count m - 1) |} in
  (m, iterator_incr m pos).

(** [insert(std::initializer_list<value_type> ilist)] *)
Definition insert_list (m : arraymap) (ilist : list (Z * mapped_type))
  : arraymap :=
  fold_left (fun m val => fst (insert m val)) ilist m.

(** *** Traversal

    The loop [for(auto it = first; it != last; it++)] of the copy
    constructor and of [insert(const arraymap&)], with the elements the
    iterator yields collected in order.  [advance] is the [operator++]
    of the iterator class in use. *)
Definition visited : Type := option Z * option mapped_type.

Definition traverse_body (m : arraymap)
    (advance : arraymap -> iterator_base -> iterator_base)
    (last : iterator_base) (st : iterator_base * list visited)
  : iterator_base * list visited + list visited :=
  let '(it, out) := st in
  if iterator_eqb it last then inr out
  else inl (advance m it, out ++ [iterator_deref m it]).

(** One more than the number of keys of the type. *)
Definition traverse_bound : positive := Z.to_pos (2 ^ bit_width T + 1).

Definition traverse (m : arraymap)
    (advance : arraymap -> iterator_base -> iterator_base)
    (first last : iterator_base)
  : iterator_base * list visited + list visited :=
  while_loop (traverse_body m advance last) traverse_bound (first, []).

(** From [begin()] to [end()]. *)
Definition forward (m : arraymap) :=
  traverse m iterator_incr (begin m) (end_ m).

(** From [rbegin()] to [rend()]. *)
Definition backward (m : arraymap) :=
  traverse m reverse_iterator_incr (rbegin m) (rend m).

End Arraymap.


(** ** Vocabulary of the specification *)

(** The float transform as arithmetic on the bit pattern; [n] is the
    position of the sign bit. *)
Definition flip_float (n x : Z) : Z :=
  if x <? 2 ^ n then x + 2 ^ n else 2 * 2 ^ n - 1 - x.

Definition unflip_float (n y : Z) : Z :=
  if y <? 2 ^ n then 2 * 2 ^ n - 1 - y else y - 2 ^ n.

Definition sign_pos (T : key_type) : Z := bit_width T - 1.

(** The unsigned reading of the radix key of [k]. *)
Definition radix_of (T : key_type) (k : Z) : Z :=
  to_unsigned (bit_width T) (ordering_default.apply T k).

(** The base-16 digit of [K] at position [i]. *)
Definition digit (K : Z) (i : nat) : nat :=
  Z.to_nat ((K / 16 ^ Z.of_nat i) mod 16).

Section PathVocabulary.
Context {mapped_type : Type}.
Variable T : key_type.

(** The digits of [K] from the top of the trie down to position [j]:
    the path from [root] to the slot that holds the subtree of all keys
    agreeing with [K] on these digits. *)
Definition path_of (K : Z) (j : nat) : list nat :=
  map (digit K) (rev (seq j (MAX_DEPTH T - j))).

(** Following [r->next + i] along a sequence of digits. *)
Fixpoint walk (root : ptr_t mapped_type) (r : ptr_ref) (ds : list nat) : ptr_ref :=
  match ds with
  | [] => r
  | i :: ds' => walk root (next_plus root r i) ds'
  end.

(** The slot [stack[j]] must hold for a position with radix key [K]. *)
Definition slot_of (root : ptr_t mapped_type) (K : Z) (j : nat) : ptr_ref :=
  walk root (at_path []) (path_of K (j + 1)).

(** The content of the leaf slot of radix key [K]. *)
Definition leaf (root : ptr_t mapped_type) (K : Z) : ptr_t mapped_type :=
  load root (path_of K 0).

(** Radix key [K] is stored in the trie. *)
Definition present (root : ptr_t mapped_type) (K : Z) : bool :=
  negb (is_empty_node (leaf root K)).

(** A path that stays inside allocated arrays. *)
Fixpoint valid_path (p : ptr_t mapped_type) (path : list nat) : Prop :=
  match path with
  | [] => True
  | i :: rest =>
      match p with
      | next arr => (i < length arr)%nat /\ valid_path (arr !!! i) rest
      | _ => False
      end
  end.

(** Descend-or-create as a recursive function: the subtree that results
    from storing [x] at the end of the path [ds], allocating the missing
    nodes. *)
Fixpoint add_rec (p : ptr_t mapped_type) (ds : list nat) (x : ptr_t mapped_type)
  : ptr_t mapped_type :=
  match ds with
  | [] => x
  | i :: rest =>
      let arr :=
        match p with
        | next arr => arr
        | _ => replicate 0x10 empty_node_ptr
        end in
      next (<[i := add_rec (arr !!! i) rest x]> arr)
  end.

(** Prune-on-delete as a recursive function: the slot at the end of
    [ds] becomes the sentinel and every node left without children on
    the way up is replaced by the sentinel. *)
Fixpoint erase_rec (p : ptr_t mapped_type) (ds : list nat) : ptr_t mapped_type :=
  match ds with
  | [] => empty_node_ptr
  | i :: rest =>
      match p with
      | next arr =>
          let p' := next (<[i := erase_rec (arr !!! i) rest]> arr) in
          if is_node_empty p' then empty_node_ptr else p'
      | other => other
      end
  end.

(** Pruning alone, from the slot at [path] upwards. *)
Fixpoint prune_at (p : ptr_t mapped_type) (path : list nat) : ptr_t mapped_type :=
  match path with
  | [] => if is_node_empty p then empty_node_ptr else p
  | i :: rest =>
      match p with
      | next arr =>
          let p' := next (<[i := prune_at (arr !!! i) rest]> arr) in
          if is_node_empty p' then empty_node_ptr else p'
      | other => other
      end
  end.

End PathVocabulary.

(** *** Positions and the successor / predecessor search *)

Inductive direction := Up | Down.

Definition sgn (dir : direction) : Z :=
  match dir with Up => 1 | Down => -1 end.

(** [k] lies at or beyond [L] in the direction of travel. *)
Definition ahead (dir : direction) (L k : Z) : Prop :=
  match dir with Up => L <= k | Down => k <= L end.

(** [N] is the first key, in the direction of travel, of its block of
    [16 ^ d] keys. *)
Definition aligned (dir : direction) (N : Z) (d : nat) : Prop :=
  N mod 16 ^ Z.of_nat d
  = match dir with Up => 0 | Down => 16 ^ Z.of_nat d - 1 end.

(** The overflow byte after the counter left the key range. *)
Definition exit_byte (dir : direction) : Z :=
  match dir with Up => 1 | Down => 0xFF end.

Section SearchVocabulary.
Context {mapped_type : Type}.
Variable T : key_type.

Definition quartet_of (dir : direction) : list Z -> nat -> list Z * nat :=
  match dir with Up => incrQuartet T | Down => decrQuartet T end.

(** The number of radix keys. *)
Definition key_space : Z := 16 ^ Z.of_nat (MAX_DEPTH T).

(** [K'] is the first stored key at or beyond [L]. *)
Definition first_from (root : ptr_t mapped_type) (dir : direction) (L K' : Z)
  : Prop :=
  present T root K' = true /\ 0 <= K' < key_space /\ ahead dir L K'
  /\ forall k, 0 <= k < key_space -> present T root k = true ->
               ahead dir L k -> ahead dir K' k.

(** No stored key lies at or beyond [L]. *)
Definition none_from (root : ptr_t mapped_type) (dir : direction) (L : Z) : Prop :=
  forall k, 0 <= k < key_space -> ahead dir L k -> present T root k = false.

(** The bound of the search an iterator state stands for: at depth 0 the
    key itself has been dealt with. *)
Definition bound_of (dir : direction) (N : Z) (d : nat) : Z :=
  if (d =? 0)%nat then N + sgn dir else N.

(** The iterator state is consistent with the trie: the overflow byte is
    clear and the stack holds, from [depth] upwards, the slots on the
    path of the key. *)
Definition tracks (root : ptr_t mapped_type) (it : iterator_base) : Prop :=
  length (key_bytes it) = (key_size T + 1)%nat
  /\ Forall is_byte (key_bytes it)
  /\ key_bytes it !!! key_size T = 0
  /\ length (stack it) = MAX_DEPTH T
  /\ forall j, (depth it <= j < MAX_DEPTH T)%nat ->
               stack it !!! j = slot_of T root (le_num (key_bytes it)) j.

(** The iterator denotes the stored element with radix key [K]. *)
Definition denotes (root : ptr_t mapped_type) (it : iterator_base) (K : Z)
  : Prop :=
  tracks root it /\ depth it = 0%nat /\ le_num (key_bytes it) = K
  /\ present T root K = true
  /\ currentValue it
     = (Some (restored_key T it), Some (target_slot root it 0)).

(** Rounds the search loop still needs at most. *)
Definition seek_measure (dir : direction) (it : iterator_base) : nat :=
  let N := le_num (key_bytes it) in
  let rest := match dir with Up => key_space - N | Down => N + 1 end in
  (Z.to_nat rest * (MAX_DEPTH T + 1) + depth it)%nat.

End SearchVocabulary.

(** *** Further vocabulary *)

(** Every digit of a path indexes a 16-slot array. *)
Definition digits_ok (ds : list nat) : Prop := Forall (fun i => (i < 16)%nat) ds.

(** The array a descent step works on: the node's own array, or the
    fresh one [node_add_empty_node] allocates. *)
Definition node_array {mapped_type : Type} (p : ptr_t mapped_type)
  : list (ptr_t mapped_type) :=
  match p with
  | next arr => arr
  | _ => replicate 0x10 empty_node_ptr
  end.

(** A well-formed key buffer: [sizeof(key_type) + 1] bytes. *)
Definition key_buffer (T : key_type) (bytes : list Z) : Prop :=
  length bytes = (key_size T + 1)%nat /\ Forall is_byte bytes.

(** The counter has left the key range. *)
Definition beyond (T : key_type) (dir : direction) (N : Z) : Prop :=
  match dir with Up => key_space T <= N | Down => N < 0 end.

(** The check that ends a round of the search loop. *)
Definition seek_check {mapped_type : Type} (T : key_type)
    (root : ptr_t mapped_type) (it : iterator_base)
  : iterator_base + (iterator_base * bool) :=
  if (depth it =? 0)%nat && negb (is_empty_node (target root it 0))
  then
    inr (set_currentValue it
           (Some (restored_key T it), Some (target_slot root it 0)), true)
  else inl it.

(** The representation invariant of a container: the depth discipline,
    no empty subtree, and [element_count] equal to the number of leaf
    slots reachable from [root]. *)
Definition invariant {mapped_type : Type} (T : key_type)
    (m : arraymap mapped_type) : bool :=
  well_formed (MAX_DEPTH T) (root m)
  && pruned (MAX_DEPTH T) (root m)
  && (element_count m =? leaf_count (MAX_DEPTH T) (root m))
  && (element_count m <? 2 ^ 64).

(** The value stored under the native key [k], if any. *)
Definition lookup {mapped_type : Type} (T : key_type)
    (m : arraymap mapped_type) (k : Z) : option mapped_type :=
  match leaf T (root m) (radix_of T k) with
  | val v => Some v
  | _ => None
  end.

(** The native key whose radix key is [K]. *)
Definition native_of (T : key_type) (K : Z) : Z :=
  ordering_default.restore T (of_bytes T (le_bytes (key_size T) K)).

(** What a traversal yields at the element with radix key [K]. *)
Definition entry {mapped_type : Type} (T : key_type)
    (m : arraymap mapped_type) (K : Z) : visited :=
  (Some (native_of T K),
   match leaf T (root m) K with val v => Some v | _ => None end).

(** [ks] lists the stored radix keys at or beyond [L] in the order the
    direction of travel meets them. *)
Fixpoint enumerates {mapped_type : Type} (T : key_type)
    (root : ptr_t mapped_type) (dir : direction) (L : Z) (ks : list Z)
  : Prop :=
  match ks with
  | [] => none_from T root dir L
  | K :: ks' =>
      first_from T root dir L K /\ enumerates T root dir (K + sgn dir) ks'
  end.

(** A traversal in direction [dir]: the first key it looks at, its
    first position, its [operator++] and its past-the-end position. *)
Definition origin (T : key_type) (dir : direction) : Z :=
  match dir with Up => 0 | Down => key_space T - 1 end.

Definition start {mapped_type : Type} (T : key_type) (dir : direction)
    (m : arraymap mapped_type) : iterator_base :=
  match dir with Up => begin T m | Down => rbegin T m end.

Definition advance {mapped_type : Type} (T : key_type) (dir : direction)
    (m : arraymap mapped_type) (it : iterator_base) : iterator_base :=
  match dir with
  | Up => iterator_incr T m it
  | Down => reverse_iterator_incr T m it
  end.

Definition past_end {mapped_type : Type} (T : key_type) (dir : direction)
    (m : arraymap mapped_type) : iterator_base :=
  match dir with Up => end_ T m | Down => rend T m end.

(** Keys still ahead of [L], [L] included. *)
Definition remaining (T : key_type) (dir : direction) (L : Z) : nat :=
  Z.to_nat (match dir with Up => key_space T - L | Down => L + 1 end).

(** Keys that the native comparison orders pairwise: of any
    two, one is less than the other. *)
Fixpoint pairwise_ordered (T : key_type) (ks : list Z) : bool :=
  match ks with
  | [] => true
  | k :: rest =>
      forallb (fun k' => native_ltb T k k' || native_ltb T k' k) rest
      && pairwise_ordered T rest
  end.

(** [a] comes before [b] in a traversal in direction [dir]: the native
    order for [Up], its converse for [Down]. *)
Definition precedes (T : key_type) (dir : direction) (a b : Z) : Prop :=
  match dir with
  | Up => native_ltb T a b = true
  | Down => native_ltb T b a = true
  end.

(** The pairs of keys on which the order of the radix keys is the
    native order: any two integers; two floating-point values neither
    of which is a NaN, except -0.0 followed by +0.0 (equal natively,
    but with different bit patterns). *)
Definition order_preserved (T : key_type) (a b : Z) : bool :=
  is_integer T
  || (negb (IEEE.is_nan (float_value T a))
      && negb (IEEE.is_nan (float_value T b))
      && negb ((a =? 2 ^ sign_pos T) && (b =? 0))).

(** *** The public mutating operations *)

Inductive operation {mapped_type : Type} : Type :=
| op_insert (k : Z) (v : mapped_type)
| op_emplace (k : Z) (v : mapped_type)
| op_try_emplace (k : Z) (v : mapped_type)
| op_index (k : Z)
| op_erase (k : Z)
| op_erase_pos (pos : iterator_base)
| op_clear.
Arguments operation : clear implicits.

Section Operations.
Context {mapped_type : Type}.
Variable T : key_type.
Variable default_value : mapped_type.

(** The container after the operation. *)
Definition run (m : arraymap mapped_type) (op : operation mapped_type)
  : arraymap mapped_type :=
  match op with
  | op_insert k v => fst (insert T m (k, v))
  | op_emplace k v => fst (emplace T m k v)
  | op_try_emplace k v => fst (try_emplace T m k v)
  | op_index k => fst (index T default_value m k)
  | op_erase k => fst (erase T m k)
  | op_erase_pos pos => fst (erase_pos T m pos)
  | op_clear => clear T m
  end.

(** What an operation requires of its arguments: keys are values of the
    key type; an iterator handed to [erase] denotes an element; and an
    insertion finds [element_count] below the largest [size_t] (the
    address space cannot hold that many live allocations). *)
Definition admissible (m : arraymap mapped_type) (op : operation mapped_type)
  : Prop :=
  match op with
  | op_insert k _ | op_emplace k _ | op_try_emplace k _ | op_index k =>
      representable T k /\ element_count m + 1 < 2 ^ 64
  | op_erase k => representable T k
  | op_erase_pos pos => exists K, denotes T (root m) pos K
  | op_clear => True
  end.

(** The states a container goes through. *)
Inductive reachable : arraymap mapped_type -> Prop :=
| reachable_new : reachable empty_map
| reachable_run m op :
    reachable m -> admissible m op -> reachable (run m op).

End Operations.

(** *** The return expressions of [operator[]] and [at]

    Both functions hold the slot found in [ptr_t result], a value of
    the union type, and return an expression built from it.  The types
    and member accesses involved: *)

Inductive cxx_type : Type :=
| ty_ptr_t
| ty_mapped_type
| ty_pointer (t : cxx_type).

Inductive member : Type := member_val | member_next.

Inductive expr : Type :=
| e_result
| e_dot (e : expr) (f : member)
| e_arrow (e : expr) (f : member)
| e_deref (e : expr).

(** [mapped_type *val; ptr_s *next;] *)
Definition member_type (f : member) : cxx_type :=
  match f with
  | member_val => ty_pointer ty_mapped_type
  | member_next => ty_pointer ty_ptr_t
  end.

(** The type of an expression, if it has one: [.] selects a member of
    a union value, [->] of a pointer to one (the union declares no
    [operator->]), and [*] needs a pointer. *)
Fixpoint type_of (e : expr) : option cxx_type :=
  match e with
  | e_result => Some ty_ptr_t
  | e_dot e' f =>
      match type_of e' with
      | Some ty_ptr_t => Some (member_type f)
      | _ => None
      end
  | e_arrow e' f =>
      match type_of e' with
      | Some (ty_pointer ty_ptr_t) => Some (member_type f)
      | _ => None
      end
  | e_deref e' =>
      match type_of e' with
      | Some (ty_pointer t) => Some t
      | _ => None
      end
  end.

(** [return *result.val;] *)
Definition index_return : expr := e_deref (e_dot e_result member_val).

(** [return *result->val;] *)
Definition at_return : expr := e_deref (e_arrow e_result member_val).

(** ** Further operations of the container *)

Section Copies.
Context {mapped_type : Type}.
Variable T : key_type.

(** One round of [for(auto it = other.cbegin(); it != other.cend(); it++)
    insert( *it )], the loop of the copy constructor, of the copy
    assignment and of [insert(const arraymap&)].  The const iterators
    run the same code as the iterators modelled above.  [*it] is the
    iterator's [currentValue]; reading it before it was ever assigned
    is an indeterminate read ([inr None]). *)
Definition insert_other_body (other : arraymap mapped_type)
    (st : iterator_base * arraymap mapped_type)
  : iterator_base * arraymap mapped_type + option (arraymap mapped_type) :=
  let '(it, m) := st in
  if iterator_eqb T it (end_ T other) then inr (Some m)
  else
    match iterator_deref other it with
    | (Some k, Some v) =>
        inl (iterator_incr T other it, fst (insert T m (k, v)))
    | _ => inr None
    end.

(** [insert(const arraymap &other)], for [other] an object distinct
    from [*this]. *)
Definition insert_other (m other : arraymap mapped_type)
  : option (arraymap mapped_type) :=
  match while_loop (insert_other_body other) (traverse_bound T)
          (begin T other, m) with
  | inr r => r
  | inl _ => None
  end.

(** [arraymap(const arraymap &other)] *)
Definition copy_construct (other : arraymap mapped_type)
  : option (arraymap mapped_type) :=
  insert_other empty_map other.

(** [operator=(const arraymap& other)], for [other] an object distinct
    from [*this]. *)
Definition copy_assign (m other : arraymap mapped_type)
  : option (arraymap mapped_type) :=
  insert_other (clear T m) other.

(** The same loop when [other] is [*this]: the iterator walks the
    container the loop inserts into, and [cend()] is that of the
    container as it is in each round. *)
Definition insert_self_body (st : iterator_base * arraymap mapped_type)
  : iterator_base * arraymap mapped_type + option (arraymap mapped_type) :=
  let '(it, m) := st in
  if iterator_eqb T it (end_ T m) then inr (Some m)
  else
    match iterator_deref m it with
    | (Some k, Some v) =>
        let m := fst (insert T m (k, v)) in
        inl (iterator_incr T m it, m)
    | _ => inr None
    end.

(** [a.insert(a)] *)
Definition insert_self (m : arraymap mapped_type)
  : option (arraymap mapped_type) :=
  match while_loop insert_self_body (traverse_bound T) (begin T m, m) with
  | inr r => r
  | inl _ => None
  end.

(** [a = a]: [clear()] empties the one object, then the loop runs on
    it. *)
Definition copy_assign_self (m : arraymap mapped_type)
  : option (arraymap mapped_type) :=
  insert_self (clear T m).

End Copies.

(** ** Further vocabulary *)

(** The lowest [d] digits of [K], most significant first: the path
    from a slot at height [d] to the leaf of [K]. *)
Definition rel_path (K : Z) (d : nat) : list nat :=
  map (digit K) (rev (seq 0 d)).

(** The elements below a slot at height [depth] in the order of their
    radix keys; [base] is the number the digits above the slot spell. *)
Fixpoint in_order {mapped_type : Type} (depth : nat)
    (p : ptr_t mapped_type) (base : Z) : list (Z * mapped_type) :=
  match depth, p with
  | O, val v => [(base, v)]
  | S depth', next arr =>
      flat_map
        (fun i => in_order depth' (arr !!! i) (16 * base + Z.of_nat i))
        (seq 0 0x10)
  | _, _ => []
  end.

(** [stack[MAX_DEPTH - 1]] is [&root], as every constructor leaves it. *)
Definition rooted (T : key_type) (it : iterator_base) : Prop :=
  length (stack it) = MAX_DEPTH T
  /\ stack it !!! (MAX_DEPTH T - 1)%nat = at_path [].

(** A position outside the elements: [end()] for [Up], [rend()] for
    [Down], or what stepping off the last (first) element leaves. *)
Definition outside (T : key_type) (dir : direction) (it : iterator_base)
  : Prop :=
  key_bytes it = replicate (key_size T) 0 ++ [exit_byte dir]
  /\ (MAX_DEPTH T <= depth it)%nat
  /\ rooted T it.

(** The opposite direction. *)
Definition opposite (dir : direction) : direction :=
  match dir with Up => Down | Down => Up end.

(** The value of the first pair of a list with key [k]. *)
Definition first_value {mapped_type : Type} (kvs : list (Z * mapped_type))
    (k : Z) : option mapped_type :=
  option_map snd (List.find (fun kv => fst kv =? k) kvs).
(* ===================================================================== *)
(** * Verification *)
(* ===================================================================== *)

Ltac Zify.zify_post_hook ::= Z.to_euclidean_division_equations.

(** ** Bit-level facts about the ordering transform *)

Lemma lxor_pow2 (v n : Z) :
  0 <= n ->
  Z.lxor v (2 ^ n) = if Z.testbit v n then v - 2 ^ n else v + 2 ^ n.
Proof.
  intros Hn.
  assert (Hfalse : forall u, Z.testbit u n = false -> Z.lxor u (2 ^ n) = u + 2 ^ n).
  { intros u Hu. symmetry. apply Z.add_nocarry_lxor.
    apply Z.bits_inj'. intros i Hi.
    rewrite Z.land_spec, Z.pow2_bits_eqb, Z.bits_0 by lia.
    destruct (Z.eqb_spec n i) as [->|]; [rewrite Hu|]; auto using andb_false_r. }
  destruct (Z.testbit v n) eqn:Hv; [|auto].
  assert (Hx : Z.testbit (Z.lxor v (2 ^ n)) n = false).
  { rewrite Z.lxor_spec, Hv, Z.pow2_bits_eqb, Z.eqb_refl by lia. reflexivity. }
  apply Hfalse in Hx.
  rewrite Z.lxor_assoc, Z.lxor_nilpotent, Z.lxor_0_r in Hx. lia.
Qed.

Lemma testbit_top (x n : Z) :
  0 <= n -> 0 <= x < 2 ^ (n + 1) -> Z.testbit x n = (2 ^ n <=? x).
Proof.
  intros Hn Hx.
  replace (2 ^ (n + 1)) with (2 * 2 ^ n) in Hx by (rewrite Z.pow_add_r; lia).
  assert (0 < 2 ^ n) by (apply Z.pow_pos_nonneg; lia).
  destruct (Z.leb_spec (2 ^ n) x).
  - apply Z.testbit_true; [lia|].
    replace (x / 2 ^ n) with 1; [reflexivity|].
    apply Z.div_unique with (r := x - 2 ^ n); lia.
  - apply Z.testbit_false; [lia|]. rewrite Z.div_small by lia. reflexivity.
Qed.

Lemma testbit_sign (v n : Z) :
  0 <= n -> - 2 ^ n <= v < 2 ^ n -> Z.testbit v n = (v <? 0).
Proof.
  intros Hn Hv. destruct (Z.ltb_spec v 0).
  - assert (Hl : Z.testbit (Z.lnot v) n = false).
    { unfold Z.lnot.
      destruct (Z.eq_dec (Z.pred (- v)) 0) as [->|]; [apply Z.bits_0|].
      apply Z.bits_above_log2; [lia|]. apply Z.log2_lt_pow2; lia. }
    rewrite Z.lnot_spec in Hl by lia.
    destruct (Z.testbit v n); [reflexivity|discriminate].
  - destruct (Z.eq_dec v 0) as [->|]; [apply Z.bits_0|].
    apply Z.bits_above_log2; [lia|].
    apply Z.log2_lt_pow2; lia.
Qed.

Lemma land_pow2_eqb (a n : Z) :
  0 <= n -> (Z.land a (2 ^ n) =? 0) = negb (Z.testbit a n).
Proof.
  intros Hn. destruct (Z.testbit a n) eqn:Ha; simpl.
  - apply Z.eqb_neq. intros E.
    assert (Hb : Z.testbit (Z.land a (2 ^ n)) n = true).
    { rewrite Z.land_spec, Ha, Z.pow2_bits_eqb, Z.eqb_refl by lia. reflexivity. }
    rewrite E, Z.bits_0 in Hb. discriminate.
  - apply Z.eqb_eq. apply Z.bits_inj'. intros i Hi.
    rewrite Z.land_spec, Z.pow2_bits_eqb, Z.bits_0 by lia.
    destruct (Z.eqb_spec n i) as [->|]; [rewrite Ha|]; auto using andb_false_r.
Qed.

Lemma lxor_low_ones (y n : Z) :
  0 <= n -> 0 <= y < 2 ^ n -> Z.lxor y (2 ^ n - 1) = 2 ^ n - 1 - y.
Proof.
  intros Hn Hy.
  replace (2 ^ n - 1) with (Z.ones n) by (rewrite Z.ones_equiv; lia).
  assert (Hadd : y + Z.lxor y (Z.ones n) = Z.lxor y (Z.lxor y (Z.ones n))).
  { apply Z.add_nocarry_lxor. apply Z.bits_inj'. intros i Hi.
    rewrite Z.land_spec, Z.lxor_spec, Z.bits_0.
    destruct (Z.ltb_spec i n).
    - rewrite Z.ones_spec_low by lia. destruct (Z.testbit y i); reflexivity.
    - replace (Z.testbit y i) with false; [reflexivity|].
      symmetry. destruct (Z.eq_dec y 0) as [->|]; [apply Z.bits_0|].
      apply Z.bits_above_log2; [lia|].
      apply Z.lt_le_trans with n; [apply Z.log2_lt_pow2; lia|lia]. }
  rewrite <- Z.lxor_assoc, Z.lxor_nilpotent, Z.lxor_0_l in Hadd. lia.
Qed.

Lemma lxor_mod_pow2 (a b w : Z) :
  0 <= w -> Z.lxor a b mod 2 ^ w = Z.lxor (a mod 2 ^ w) (b mod 2 ^ w).
Proof.
  intros Hw. rewrite <- !Z.land_ones by lia.
  apply Z.bits_inj'. intros i Hi.
  rewrite !Z.lxor_spec, !Z.land_spec, Z.lxor_spec.
  destruct (Z.testbit (Z.ones w) i), (Z.testbit a i), (Z.testbit b i); reflexivity.
Qed.

(** The sign-bit flip on a signed integer of [w] bits, as arithmetic. *)
Lemma flip_sign_signed (w v s : Z) :
  0 < w -> - 2 ^ (w - 1) <= v < 2 ^ (w - 1) ->
  s mod 2 ^ w = 2 ^ (w - 1) ->
  to_signed w (Z.lxor v s) = if v <? 0 then v + 2 ^ (w - 1) else v - 2 ^ (w - 1).
Proof.
  intros Hw Hv Hs. unfold to_signed.
  assert (Hp : 2 ^ w = 2 * 2 ^ (w - 1)).
  { replace w with (w - 1 + 1) at 1 by lia. rewrite Z.pow_add_r; lia. }
  assert (0 < 2 ^ (w - 1)) by (apply Z.pow_pos_nonneg; lia).
  assert (Hm : Z.lxor v s mod 2 ^ w = Z.lxor v (2 ^ (w - 1)) mod 2 ^ w).
  { rewrite (lxor_mod_pow2 v s), Hs by lia.
    rewrite lxor_mod_pow2 by lia. f_equal.
    symmetry. apply Z.mod_small. lia. }
  rewrite Hm, lxor_pow2, testbit_sign by lia.
  destruct (Z.ltb_spec v 0).
  - replace ((v - 2 ^ (w - 1)) mod 2 ^ w) with (v + 2 ^ (w - 1)).
    + destruct (Z.ltb_spec (v + 2 ^ (w - 1)) (2 ^ (w - 1))); lia.
    + apply Z.mod_unique with (q := -1); lia.
  - rewrite Z.mod_small by lia.
    destruct (Z.ltb_spec (v + 2 ^ (w - 1)) (2 ^ (w - 1))); lia.
Qed.

Lemma apply_integer (T : key_type) (v : Z) :
  is_integer T = true -> representable T v ->
  ordering_default.apply T v =
    if v <? 0 then v + 2 ^ (bit_width T - 1) else v - 2 ^ (bit_width T - 1).
Proof.
  intros HT Hv. unfold representable in Hv. rewrite HT in Hv.
  destruct T; try discriminate; unfold ordering_default.apply;
    apply flip_sign_signed; try exact Hv; reflexivity.
Qed.

Lemma restore_integer (T : key_type) (v : Z) :
  is_integer T = true -> representable T v ->
  ordering_default.restore T v =
    if v <? 0 then v + 2 ^ (bit_width T - 1) else v - 2 ^ (bit_width T - 1).
Proof.
  intros HT Hv. unfold representable in Hv. rewrite HT in Hv.
  destruct T; try discriminate; unfold ordering_default.restore;
    apply flip_sign_signed; try exact Hv; reflexivity.
Qed.



Lemma apply_float_bits (n x : Z) :
  0 <= n -> 0 <= x < 2 ^ (n + 1) ->
  (let pf := Z.lxor x (2 ^ n) in
   Z.lxor pf ((2 ^ n - 1) * bool_to_int (Z.land pf (2 ^ n) =? 0)))
  = flip_float n x.
Proof.
  intros Hn Hx. cbv zeta. unfold flip_float.
  assert (Hp : 2 ^ (n + 1) = 2 * 2 ^ n) by (rewrite Z.pow_add_r; lia).
  assert (0 < 2 ^ n) by (apply Z.pow_pos_nonneg; lia).
  rewrite land_pow2_eqb, lxor_pow2, testbit_top by lia.
  destruct (Z.leb_spec (2 ^ n) x), (Z.ltb_spec x (2 ^ n)); try lia.
  - rewrite testbit_top by lia.
    destruct (Z.leb_spec (2 ^ n) (x - 2 ^ n)); try lia. simpl.
    rewrite Z.mul_1_r, lxor_low_ones by lia. lia.
  - rewrite testbit_top by lia.
    destruct (Z.leb_spec (2 ^ n) (x + 2 ^ n)); try lia. simpl.
    rewrite Z.mul_0_r, Z.lxor_0_r. reflexivity.
Qed.

Lemma restore_float_bits (n y : Z) :
  0 <= n -> 0 <= y < 2 ^ (n + 1) ->
  (let pf := Z.lxor y (2 ^ n) in
   Z.lxor pf ((2 ^ n - 1) * bool_to_int (negb (Z.land pf (2 ^ n) =? 0))))
  = unflip_float n y.
Proof.
  intros Hn Hy. cbv zeta. unfold unflip_float.
  assert (Hp : 2 ^ (n + 1) = 2 * 2 ^ n) by (rewrite Z.pow_add_r; lia).
  assert (0 < 2 ^ n) by (apply Z.pow_pos_nonneg; lia).
  rewrite land_pow2_eqb, lxor_pow2, testbit_top by lia.
  destruct (Z.leb_spec (2 ^ n) y), (Z.ltb_spec y (2 ^ n)); try lia.
  - rewrite testbit_top by lia.
    destruct (Z.leb_spec (2 ^ n) (y - 2 ^ n)); try lia. simpl.
    rewrite Z.mul_0_r, Z.lxor_0_r. reflexivity.
  - rewrite testbit_top by lia.
    destruct (Z.leb_spec (2 ^ n) (y + 2 ^ n)); try lia. simpl.
    rewrite Z.mul_1_r.
    rewrite <- (Z.lxor_0_r (y + 2 ^ n)) at 1.
    replace (y + 2 ^ n) with (Z.lxor y (2 ^ n)).
    2:{ rewrite lxor_pow2, testbit_top by lia.
        destruct (Z.leb_spec (2 ^ n) y); lia. }
    rewrite Z.lxor_0_r, Z.lxor_assoc, (Z.lxor_comm (2 ^ n)), <- Z.lxor_assoc.
    rewrite lxor_low_ones, lxor_pow2, testbit_top by lia.
    destruct (Z.leb_spec (2 ^ n) (2 ^ n - 1 - y)); lia.
Qed.


Lemma apply_float (T : key_type) (x : Z) :
  is_integer T = false -> representable T x ->
  ordering_default.apply T x = flip_float (sign_pos T) x.
Proof.
  intros HT Hx. unfold representable in Hx. rewrite HT in Hx.
  destruct T; try discriminate; unfold ordering_default.apply.
  - apply (apply_float_bits 31 x); [lia|exact Hx].
  - apply (apply_float_bits 63 x); [lia|exact Hx].
Qed.

Lemma restore_float (T : key_type) (y : Z) :
  is_integer T = false -> representable T y ->
  ordering_default.restore T y = unflip_float (sign_pos T) y.
Proof.
  intros HT Hy. unfold representable in Hy. rewrite HT in Hy.
  destruct T; try discriminate; unfold ordering_default.restore.
  - apply (restore_float_bits 31 y); [lia|exact Hy].
  - apply (restore_float_bits 63 y); [lia|exact Hy].
Qed.

Lemma bit_width_pos (T : key_type) : 0 < bit_width T.
Proof. destruct T; reflexivity. Qed.

Lemma pow2_bit_width (T : key_type) :
  2 ^ bit_width T = 2 * 2 ^ (bit_width T - 1) /\ 0 < 2 ^ (bit_width T - 1).
Proof. destruct T; split; reflexivity. Qed.

Lemma apply_representable (T : key_type) (k : Z) :
  representable T k -> representable T (ordering_default.apply T k).
Proof.
  intros Hk. destruct (is_integer T) eqn:HT.
  - rewrite apply_integer by assumption.
    unfold representable in *. rewrite HT in *.
    destruct (pow2_bit_width T). destruct (Z.ltb_spec k 0); lia.
  - rewrite apply_float by assumption.
    unfold representable, flip_float, sign_pos in *. rewrite HT in *.
    destruct (pow2_bit_width T).
    destruct (Z.ltb_spec k (2 ^ (bit_width T - 1))); lia.
Qed.

Lemma restore_representable (T : key_type) (k : Z) :
  representable T k -> representable T (ordering_default.restore T k).
Proof.
  intros Hk. destruct (is_integer T) eqn:HT.
  - rewrite restore_integer by assumption.
    unfold representable in *. rewrite HT in *.
    destruct (pow2_bit_width T). destruct (Z.ltb_spec k 0); lia.
  - rewrite restore_float by assumption.
    unfold representable, unflip_float, sign_pos in *. rewrite HT in *.
    destruct (pow2_bit_width T).
    destruct (Z.ltb_spec k (2 ^ (bit_width T - 1))); lia.
Qed.

Lemma restore_apply (T : key_type) (k : Z) :
  representable T k ->
  ordering_default.restore T (ordering_default.apply T k) = k.
Proof.
  intros Hk. pose proof (apply_representable T k Hk) as Ha.
  destruct (is_integer T) eqn:HT.
  - rewrite restore_integer, apply_integer by assumption.
    rewrite apply_integer in Ha by assumption.
    unfold representable in *. rewrite HT in *.
    destruct (pow2_bit_width T).
    destruct (Z.ltb_spec k 0);
      match goal with |- context [?a <? 0] => destruct (Z.ltb_spec a 0) end; lia.
  - rewrite restore_float, apply_float by assumption.
    unfold representable, flip_float, unflip_float, sign_pos in *. rewrite HT in *.
    destruct (pow2_bit_width T).
    destruct (Z.ltb_spec k (2 ^ (bit_width T - 1)));
      match goal with |- context [?a <? ?b] => destruct (Z.ltb_spec a b) end; lia.
Qed.

Lemma apply_restore (T : key_type) (k : Z) :
  representable T k ->
  ordering_default.apply T (ordering_default.restore T k) = k.
Proof.
  intros Hk. pose proof (restore_representable T k Hk) as Ha.
  destruct (is_integer T) eqn:HT.
  - rewrite apply_integer, restore_integer by assumption.
    rewrite restore_integer in Ha by assumption.
    unfold representable in *. rewrite HT in *.
    destruct (pow2_bit_width T).
    destruct (Z.ltb_spec k 0);
      match goal with |- context [?a <? 0] => destruct (Z.ltb_spec a 0) end; lia.
  - rewrite apply_float, restore_float by assumption.
    unfold representable, flip_float, unflip_float, sign_pos in *. rewrite HT in *.
    destruct (pow2_bit_width T).
    destruct (Z.ltb_spec k (2 ^ (bit_width T - 1)));
      match goal with |- context [?a <? ?b] => destruct (Z.ltb_spec a b) end; lia.
Qed.

(** ** Byte sequences and the numbers they denote *)

Lemma le_bytes_length (n : nat) (x : Z) : length (le_bytes n x) = n.
Proof. revert x. induction n; intros; simpl; auto. Qed.

Lemma le_bytes_bytes (n : nat) (x : Z) : Forall is_byte (le_bytes n x).
Proof.
  revert x. induction n; intros; simpl; constructor; auto.
  unfold is_byte. apply Z.mod_pos_bound. lia.
Qed.

Lemma le_num_bound (bs : list Z) :
  Forall is_byte bs -> 0 <= le_num bs < 256 ^ Z.of_nat (length bs).
Proof.
  induction 1 as [|b bs Hb _ IH]; simpl length; simpl le_num.
  - simpl. lia.
  - rewrite Nat2Z.inj_succ, Z.pow_succ_r by lia. unfold is_byte in Hb. lia.
Qed.

Lemma le_num_le_bytes (n : nat) (x : Z) :
  le_num (le_bytes n x) = x mod 256 ^ Z.of_nat n.
Proof.
  revert x. induction n; intros x.
  - simpl. rewrite Z.mod_1_r. reflexivity.
  - cbn [le_bytes le_num]. rewrite IHn.
    rewrite Nat2Z.inj_succ, Z.pow_succ_r by lia.
    assert (0 < 256 ^ Z.of_nat n) by (apply Z.pow_pos_nonneg; lia).
    rewrite Z.rem_mul_r by lia. reflexivity.
Qed.

Lemma le_bytes_le_num (bs : list Z) :
  Forall is_byte bs -> le_bytes (length bs) (le_num bs) = bs.
Proof.
  induction 1 as [|b bs Hb _ IH]; simpl; [reflexivity|].
  unfold is_byte in Hb.
  replace ((b + 256 * le_num bs) mod 256) with b
    by (apply Z.mod_unique with (q := le_num bs); lia).
  replace ((b + 256 * le_num bs) / 256) with (le_num bs)
    by (apply Z.div_unique with (r := b); lia).
  rewrite IH. reflexivity.
Qed.

Lemma lex_ltb_snoc (l1 l2 : list Z) (a b : Z) :
  length l1 = length l2 ->
  lex_ltb (l1 ++ [a]) (l2 ++ [b]) =
    if lex_ltb l1 l2 then true
    else if lex_ltb l2 l1 then false else (a <? b).
Proof.
  revert l2. induction l1 as [|x l1 IH]; intros [|y l2] Hlen;
    try discriminate; simpl.
  - destruct (a <? b), (a =? b); reflexivity.
  - injection Hlen as Hlen. rewrite IH by assumption.
    destruct (Z.ltb_spec x y), (Z.ltb_spec y x), (Z.eqb_spec x y),
      (Z.eqb_spec y x); try lia; simpl; try reflexivity;
      destruct (lex_ltb l1 l2); reflexivity.
Qed.

Lemma lex_ltb_rev_le_num (xs ys : list Z) :
  length xs = length ys -> Forall is_byte xs -> Forall is_byte ys ->
  lex_ltb (rev xs) (rev ys) = (le_num xs <? le_num ys)
  /\ lex_ltb (rev ys) (rev xs) = (le_num ys <? le_num xs).
Proof.
  revert ys.
  induction xs as [|x xs IH]; intros [|y ys] Hlen Hx Hy; try discriminate.
  - split; reflexivity.
  - injection Hlen as Hlen. inversion Hx; inversion Hy; subst.
    destruct (IH ys) as [IH1 IH2]; auto.
    simpl rev. rewrite !lex_ltb_snoc by (rewrite !length_rev; auto).
    rewrite IH1, IH2.
    unfold is_byte in *. simpl le_num.
    destruct (Z.ltb_spec (le_num xs) (le_num ys)),
      (Z.ltb_spec (le_num ys) (le_num xs)), (Z.ltb_spec x y), (Z.ltb_spec y x),
      (Z.ltb_spec (x + 256 * le_num xs) (y + 256 * le_num ys)),
      (Z.ltb_spec (y + 256 * le_num ys) (x + 256 * le_num xs)); split; lia.
Qed.

Lemma msb_first_ltb_le_num (xs ys : list Z) :
  length xs = length ys -> Forall is_byte xs -> Forall is_byte ys ->
  msb_first_ltb xs ys = (le_num xs <? le_num ys).
Proof.
  intros. unfold msb_first_ltb.
  destruct (lex_ltb_rev_le_num xs ys) as [E _]; auto.
Qed.

Lemma radix_ltb_unsigned (T : key_type) (ra rb : Z) :
  radix_ltb T ra rb =
    (to_unsigned (bit_width T) ra <? to_unsigned (bit_width T) rb).
Proof.
  unfold radix_ltb, to_bytes.
  rewrite msb_first_ltb_le_num
    by (rewrite ?le_bytes_length; auto using le_bytes_bytes).
  rewrite !le_num_le_bytes.
  assert (E : 256 ^ Z.of_nat (sizeof T) = 2 ^ bit_width T)
    by (destruct T; reflexivity).
  unfold to_unsigned. rewrite E, !Z.mod_mod; [reflexivity| |];
    destruct T; discriminate.
Qed.


Lemma radix_of_integer (T : key_type) (k : Z) :
  is_integer T = true -> representable T k ->
  radix_of T k = k + 2 ^ (bit_width T - 1).
Proof.
  intros HT Hk. unfold radix_of, to_unsigned. rewrite apply_integer by assumption.
  unfold representable in Hk. rewrite HT in Hk.
  destruct (pow2_bit_width T) as [E ?]. rewrite E.
  destruct (Z.ltb_spec k 0).
  - apply Z.mod_small. lia.
  - symmetry. apply Z.mod_unique with (q := -1); lia.
Qed.

Lemma radix_of_float (T : key_type) (k : Z) :
  is_integer T = false -> representable T k ->
  radix_of T k = flip_float (sign_pos T) k.
Proof.
  intros HT Hk. unfold radix_of, to_unsigned. rewrite apply_float by assumption.
  unfold representable in Hk. rewrite HT in Hk.
  destruct (pow2_bit_width T) as [E ?].
  apply Z.mod_small. unfold flip_float, sign_pos. rewrite E.
  destruct (Z.ltb_spec k (2 ^ (bit_width T - 1))); lia.
Qed.

Lemma radix_of_bound (T : key_type) (k : Z) :
  0 <= radix_of T k < 2 ^ bit_width T.
Proof.
  unfold radix_of, to_unsigned. apply Z.mod_pos_bound.
  apply Z.pow_pos_nonneg; [lia|]. pose proof (bit_width_pos T). lia.
Qed.

(** ** Bytes, tetrades and digits *)

Lemma pow16_even (i : nat) : 16 ^ Z.of_nat (2 * i) = 256 ^ Z.of_nat i.
Proof.
  rewrite Nat2Z.inj_mul, Z.pow_mul_r by lia. reflexivity.
Qed.

Lemma pow16_odd (i : nat) : 16 ^ Z.of_nat (2 * i + 1) = 16 * 256 ^ Z.of_nat i.
Proof.
  rewrite Nat2Z.inj_add, Z.pow_add_r, pow16_even by lia. simpl. lia.
Qed.

Lemma pow_pos_16 (n : nat) : 0 < 16 ^ Z.of_nat n.
Proof. apply Z.pow_pos_nonneg; lia. Qed.

Lemma pow_pos_256 (n : nat) : 0 < 256 ^ Z.of_nat n.
Proof. apply Z.pow_pos_nonneg; lia. Qed.

Lemma le_num_insert (bs : list Z) (i : nat) (v : Z) :
  (i < length bs)%nat ->
  le_num (<[i := v]> bs) = le_num bs + (v - bs !!! i) * 256 ^ Z.of_nat i.
Proof.
  revert i. induction bs as [|b bs IH]; intros [|i] Hi; cbn [length] in Hi;
    try lia.
  - change (<[0%nat := v]> (b :: bs)) with (v :: bs).
    change ((b :: bs) !!! 0%nat) with b. cbn [le_num].
    rewrite Z.pow_0_r. lia.
  - change (<[S i := v]> (b :: bs)) with (b :: <[i := v]> bs).
    change ((b :: bs) !!! S i) with (bs !!! i). cbn [le_num].
    rewrite IH by lia. rewrite Nat2Z.inj_succ, Z.pow_succ_r by lia. lia.
Qed.

Lemma byte_at (bs : list Z) (i : nat) :
  Forall is_byte bs -> (i < length bs)%nat ->
  bs !!! i = (le_num bs / 256 ^ Z.of_nat i) mod 256.
Proof.
  intros Hbs. revert i.
  induction Hbs as [|b bs Hb _ IH]; intros [|i] Hi; simpl length in *; try lia.
  - change ((b :: bs) !!! 0%nat) with b. simpl le_num. unfold is_byte in Hb.
    rewrite Z.pow_0_r, Z.div_1_r.
    apply Z.mod_unique with (q := le_num bs); lia.
  - change ((b :: bs) !!! S i) with (bs !!! i). rewrite IH by lia.
    simpl le_num. rewrite Nat2Z.inj_succ, Z.pow_succ_r by lia.
    rewrite <- Z.div_div by (pose proof (pow_pos_256 i); lia).
    unfold is_byte in Hb.
    replace ((b + 256 * le_num bs) / 256) with (le_num bs)
      by (apply Z.div_unique with (r := b); lia).
    reflexivity.
Qed.

Lemma is_byte_lookup (bs : list Z) (i : nat) :
  Forall is_byte bs -> is_byte (bs !!! i).
Proof.
  intros Hbs. destruct (decide (i < length bs)%nat) as [Hi|Hi].
  - eapply Forall_lookup_1; [exact Hbs|]. apply list_lookup_lookup_total_lt, Hi.
  - rewrite list_lookup_total_alt, lookup_ge_None_2 by lia. simpl.
    unfold is_byte, inhabitant, Z.inhabited. lia.
Qed.

Lemma is_byte_insert (bs : list Z) (i : nat) (v : Z) :
  Forall is_byte bs -> is_byte v -> Forall is_byte (<[i := v]> bs).
Proof. intros. apply Forall_insert; assumption. Qed.

Lemma is_byte_uchar (x : Z) : is_byte (uchar x).
Proof. unfold is_byte, uchar. apply Z.mod_pos_bound. lia. Qed.

(** The tetrade as arithmetic on its byte. *)
Lemma tetradeValue_even (bs : list Z) (i : nat) :
  tetradeValue bs (2 * i) = Z.to_nat (bs !!! i mod 16).
Proof.
  unfold tetradeValue.
  replace (2 * i / 2)%nat with i by lia.
  replace (2 * i mod 2)%nat with 0%nat by lia.
  change (bitShift !!! 0%nat) with 0. rewrite Z.shiftr_0_r.
  change 15 with (Z.ones 4). rewrite Z.land_ones by lia. reflexivity.
Qed.

Lemma tetradeValue_odd (bs : list Z) (i : nat) :
  is_byte (bs !!! i) ->
  tetradeValue bs (2 * i + 1) = Z.to_nat (bs !!! i / 16).
Proof.
  intros Hb. unfold tetradeValue.
  replace ((2 * i + 1) / 2)%nat with i by lia.
  replace ((2 * i + 1) mod 2)%nat with 1%nat by lia.
  change (bitShift !!! 1%nat) with 4. rewrite Z.shiftr_div_pow2 by lia.
  change 15 with (Z.ones 4). rewrite Z.land_ones by lia.
  unfold is_byte in Hb. rewrite Z.mod_small; [reflexivity|]. simpl. lia.
Qed.

Lemma tetradeValue_lt (bs : list Z) (Nr : nat) :
  (tetradeValue bs Nr < 16)%nat.
Proof.
  unfold tetradeValue. change 15 with (Z.ones 4).
  rewrite Z.land_ones by lia.
  pose proof (Z.mod_pos_bound
    (Z.shiftr (bs !!! (Nr / 2)%nat) (bitShift !!! (Nr mod 2)%nat)) (2 ^ 4)).
  lia.
Qed.

Lemma tetradeValue_insert_ne (bs : list Z) (i Nr : nat) (v : Z) :
  (Nr / 2)%nat <> i ->
  tetradeValue (<[i := v]> bs) Nr = tetradeValue bs Nr.
Proof.
  intros Hne. unfold tetradeValue.
  rewrite list_lookup_total_insert_ne by auto. reflexivity.
Qed.

(** The digit of a number at a position. *)
Lemma tetradeValue_digit (bs : list Z) (Nr : nat) :
  Forall is_byte bs -> (Nr / 2 < length bs)%nat ->
  tetradeValue bs Nr = digit (le_num bs) Nr.
Proof.
  intros Hbs Hlen. unfold digit.
  pose proof (is_byte_lookup bs (Nr / 2) Hbs) as Hb.
  pose proof (byte_at bs (Nr / 2) Hbs Hlen) as Hat.
  pose proof (pow_pos_256 (Nr / 2)) as Hp.
  assert (Hc : (Nr = 2 * (Nr / 2) \/ Nr = 2 * (Nr / 2) + 1)%nat) by lia.
  remember (Nr / 2)%nat as i eqn:Hi. clear Hi.
  destruct Hc as [->| ->].
  - rewrite tetradeValue_even, pow16_even, Hat. f_equal.
    generalize (le_num bs / 256 ^ Z.of_nat i). intros x. lia.
  - rewrite tetradeValue_odd, pow16_odd by assumption. rewrite Hat.
    f_equal. rewrite (Z.mul_comm 16), <- Z.div_div by lia.
    generalize (le_num bs / 256 ^ Z.of_nat i). intros x. lia.
Qed.

(** ** The quartet counters *)

Section Quartets.
Variable T : key_type.

Lemma key_size_pos : (0 < key_size T)%nat.
Proof. unfold key_size. destruct T; simpl; lia. Qed.

Lemma MAX_DEPTH_eq : MAX_DEPTH T = (2 * key_size T)%nat.
Proof. unfold MAX_DEPTH, key_size. lia. Qed.

Lemma incrQuartet_rec_spec (n : nat) (bytes : list Z) (q : nat) :
  key_buffer T bytes -> bytes !!! key_size T = 0 ->
  (q <= MAX_DEPTH T)%nat -> (MAX_DEPTH T + 1 - q <= n)%nat ->
  exists bytes' r,
    incrQuartet_rec T n bytes q = (bytes', r)
    /\ key_buffer T bytes'
    /\ le_num bytes' = le_num bytes + 16 ^ Z.of_nat q
    /\ (forall i, (q <= i < q + r)%nat -> tetradeValue bytes i = 15%nat)
    /\ tetradeValue bytes (q + r) <> 15%nat
    /\ (q + r <= MAX_DEPTH T)%nat
    /\ bytes' !!! key_size T = (if (q + r =? MAX_DEPTH T)%nat then 1 else 0).
Proof.
  revert bytes q. induction n as [|n IH]; intros bytes q [Hlen Hbs] Hov Hq Hn;
    [lia|].
  pose proof MAX_DEPTH_eq as HM. pose proof key_size_pos as HW.
  cbn [incrQuartet_rec].
  destruct (Nat.ltb_spec (MAX_DEPTH T) q) as [|_]; [lia|].
  remember (q / 2)%nat as i eqn:Hi.
  pose proof (is_byte_lookup bytes i Hbs) as Hb. unfold is_byte in Hb.
  assert (Hil : (i < length bytes)%nat) by lia.
  rewrite list_lookup_total_insert_eq by lia.
  assert (Hc : (q = 2 * i \/ q = 2 * i + 1)%nat) by lia.
  destruct Hc as [Hc|Hc].
  - (* even quartet: the whole byte is incremented *)
    replace (q mod 2)%nat with 0%nat by lia.
    change (Z.of_nat 0 * 4) with 0. rewrite Z.shiftl_0_r, !Z.shiftr_0_r.
    change (bool_to_nat (0 =? 0)%nat) with 1%nat.
    pose proof (tetradeValue_even bytes i) as Hlo.
    pose proof (tetradeValue_odd bytes i) as Hhi.
    rewrite <- Hc in Hlo. replace (2 * i + 1)%nat with (q + 1)%nat in Hhi by lia.
    specialize (Hhi ltac:(unfold is_byte; lia)).
    unfold uchar.
    destruct (Z.eqb_spec ((bytes !!! i + 1) mod 256) 0) as [Hz|Hz].
    + (* the byte wraps: carry out of both nibbles *)
      assert (Hb255 : bytes !!! i = 255) by lia.
      assert (Hi' : i <> key_size T) by (intros ->; lia).
      destruct (IH (<[i := (bytes !!! i + 1) mod 256]> bytes) (q + 1 + 1)%nat)
        as (bytes' & r & Hrec & Hkb & Hnum & Htr & Hstop & Hbound & Hov');
        [split; [rewrite length_insert; lia|apply is_byte_insert; auto;
                 apply is_byte_uchar]
        |rewrite list_lookup_total_insert_ne by auto; assumption
        |lia|lia|].
      rewrite Hrec. exists bytes', (1 + 1 + r)%nat.
      split; [reflexivity|]. split; [assumption|].
      split.
      { rewrite Hnum, le_num_insert by lia. rewrite Hz, Hb255.
        replace (q + 1 + 1)%nat with (2 * (i + 1))%nat by lia.
        rewrite Hc, !pow16_even.
        rewrite Nat2Z.inj_add, Z.pow_add_r by lia. simpl (256 ^ Z.of_nat 1). lia. }
      split.
      { intros j Hj.
        destruct (decide (j = q)) as [->|]; [rewrite Hlo, Hb255; reflexivity|].
        destruct (decide (j = q + 1)%nat) as [->|]; [rewrite Hhi, Hb255; reflexivity|].
        rewrite <- (tetradeValue_insert_ne bytes i j ((bytes !!! i + 1) mod 256))
          by lia.
        apply Htr. lia. }
      split.
      { replace (q + (1 + 1 + r))%nat with (q + 1 + 1 + r)%nat by lia.
        rewrite <- (tetradeValue_insert_ne bytes i _ ((bytes !!! i + 1) mod 256))
          by lia.
        exact Hstop. }
      split; [lia|].
      replace (q + (1 + 1 + r))%nat with (q + 1 + 1 + r)%nat by lia. exact Hov'.
    + change 15 with (Z.ones 4). rewrite Z.land_ones by lia.
      eexists _, _. split; [reflexivity|].
      split; [split; [rewrite length_insert; lia|apply is_byte_insert; auto;
                      apply is_byte_uchar]|].
      split.
      { rewrite le_num_insert by lia. rewrite Hc, pow16_even.
        rewrite Z.mod_small by lia. lia. }
      destruct (Z.eqb_spec (((bytes !!! i + 1) mod 256) mod 2 ^ 4) 0) as [Hl|Hl];
        cbn [bool_to_nat].
      * (* carry into the high nibble of the same byte *)
        assert (Hqi : i <> key_size T) by (intros ->; lia).
        split.
        { intros j Hj. replace j with q by lia. rewrite Hlo.
          change (2 ^ 4) with 16 in Hl.
          replace (bytes !!! i mod 16) with 15 by lia. reflexivity. }
        split.
        { rewrite Hhi. change (2 ^ 4) with 16 in Hl.
          intros E. assert (bytes !!! i / 16 = 15) by lia. lia. }
        split; [lia|].
        destruct (Nat.eqb_spec (q + 1) (MAX_DEPTH T)); [lia|].
        rewrite list_lookup_total_insert_ne by auto. assumption.
      * split; [intros j Hj; lia|].
        rewrite Nat.add_0_r.
        split.
        { rewrite Hlo. change (2 ^ 4) with 16 in Hl. intros E.
          assert (bytes !!! i mod 16 = 15) by lia. lia. }
        split; [lia|].
        destruct (Nat.eqb_spec q (MAX_DEPTH T)) as [E|E].
        -- assert (E2 : key_size T = i) by lia. rewrite E2 in Hov |- *.
           rewrite list_lookup_total_insert_eq by lia. rewrite Hov. reflexivity.
        -- rewrite list_lookup_total_insert_ne by lia. assumption.
  - (* odd quartet: the high nibble is incremented *)
    replace (q mod 2)%nat with 1%nat by lia.
    change (Z.of_nat 1 * 4) with 4.
    change (Z.shiftl 1 4) with 16. rewrite !Z.shiftr_div_pow2 by lia.
    change (2 ^ 4) with 16.
    change (bool_to_nat (1 =? 0)%nat) with 0%nat.
    pose proof (tetradeValue_odd bytes i ltac:(unfold is_byte; lia)) as Hhi.
    rewrite <- Hc in Hhi.
    assert (Hqi : i <> key_size T) by lia.
    unfold uchar.
    destruct (Z.eqb_spec ((bytes !!! i + 16) mod 256 / 16) 0) as [Hz|Hz].
    + assert (Hb15 : bytes !!! i / 16 = 15) by lia.
      destruct (IH (<[i := (bytes !!! i + 16) mod 256]> bytes) (q + 1 + 0)%nat)
        as (bytes' & r & Hrec & Hkb & Hnum & Htr & Hstop & Hbound & Hov');
        [split; [rewrite length_insert; lia|apply is_byte_insert; auto;
                 apply is_byte_uchar]
        |rewrite list_lookup_total_insert_ne by auto; assumption
        |lia|lia|].
      rewrite Hrec. exists bytes', (0 + 1 + r)%nat.
      split; [reflexivity|]. split; [assumption|].
      split.
      { rewrite Hnum, le_num_insert by lia.
        replace (q + 1 + 0)%nat with (2 * (i + 1))%nat by lia.
        rewrite Hc, pow16_odd, pow16_even.
        rewrite Nat2Z.inj_add, Z.pow_add_r by lia. simpl (256 ^ Z.of_nat 1).
        replace ((bytes !!! i + 16) mod 256) with (bytes !!! i - 240) by lia.
        generalize (256 ^ Z.of_nat i). intros P. lia. }
      split.
      { intros j Hj.
        destruct (decide (j = q)) as [->|]; [rewrite Hhi, Hb15; reflexivity|].
        rewrite <- (tetradeValue_insert_ne bytes i j ((bytes !!! i + 16) mod 256))
          by lia.
        apply Htr. lia. }
      split.
      { replace (q + (0 + 1 + r))%nat with (q + 1 + 0 + r)%nat by lia.
        rewrite <- (tetradeValue_insert_ne bytes i _ ((bytes !!! i + 16) mod 256))
          by lia.
        exact Hstop. }
      split; [lia|].
      replace (q + (0 + 1 + r))%nat with (q + 1 + 0 + r)%nat by lia. exact Hov'.
    + change 15 with (Z.ones 4). rewrite Z.land_ones by lia.
      change (2 ^ 4) with 16.
      destruct (Z.eqb_spec (((bytes !!! i + 16) mod 256 / 16) mod 16) 0) as [Hl|Hl];
        [exfalso; lia|].
      cbn [bool_to_nat]. eexists _, _. split; [reflexivity|].
      split; [split; [rewrite length_insert; lia|apply is_byte_insert; auto;
                      apply is_byte_uchar]|].
      split.
      { rewrite le_num_insert by lia. rewrite Hc, pow16_odd.
        rewrite Z.mod_small by lia. lia. }
      split; [intros j Hj; lia|].
      rewrite Nat.add_0_r.
      split; [rewrite Hhi; intros E; assert (bytes !!! i / 16 = 15) by lia; lia|].
      split; [lia|].
      destruct (Nat.eqb_spec q (MAX_DEPTH T)) as [E|E]; [lia|].
      rewrite list_lookup_total_insert_ne by lia. assumption.
Qed.


Lemma decrQuartet_rec_spec (n : nat) (bytes : list Z) (q : nat) :
  key_buffer T bytes -> bytes !!! key_size T = 0 ->
  (q <= MAX_DEPTH T)%nat -> (MAX_DEPTH T + 1 - q <= n)%nat ->
  exists bytes' r,
    decrQuartet_rec T n bytes q = (bytes', r)
    /\ key_buffer T bytes'
    /\ (forall i, (q <= i < q + r)%nat -> (i < MAX_DEPTH T)%nat ->
                  tetradeValue bytes i = 0%nat)
    /\ (((q + r < MAX_DEPTH T)%nat
         /\ tetradeValue bytes (q + r) <> 0%nat
         /\ le_num bytes' = le_num bytes - 16 ^ Z.of_nat q
         /\ bytes' !!! key_size T = 0)
        \/ ((MAX_DEPTH T <= q + r)%nat /\ bytes' !!! key_size T = 0xFF)).
Proof.
  revert bytes q. induction n as [|n IH]; intros bytes q [Hlen Hbs] Hov Hq Hn;
    [lia|].
  pose proof MAX_DEPTH_eq as HM. pose proof key_size_pos as HW.
  cbn [decrQuartet_rec].
  destruct (Nat.ltb_spec (MAX_DEPTH T) q) as [|_]; [lia|].
  remember (q / 2)%nat as i eqn:Hi.
  pose proof (is_byte_lookup bytes i Hbs) as Hb. unfold is_byte in Hb.
  assert (Hil : (i < length bytes)%nat) by lia.
  rewrite list_lookup_total_insert_eq by lia.
  assert (Hc : (q = 2 * i \/ q = 2 * i + 1)%nat) by lia.
  destruct Hc as [Hc|Hc].
  - (* even quartet: the whole byte is decremented *)
    replace (q mod 2)%nat with 0%nat by lia.
    change (Z.of_nat 0 * 4) with 0. rewrite Z.shiftl_0_r, !Z.shiftr_0_r.
    change (bool_to_nat (0 =? 0)%nat) with 1%nat.
    pose proof (tetradeValue_even bytes i) as Hlo.
    pose proof (tetradeValue_odd bytes i) as Hhi.
    rewrite <- Hc in Hlo. replace (2 * i + 1)%nat with (q + 1)%nat in Hhi by lia.
    specialize (Hhi ltac:(unfold is_byte; lia)).
    unfold uchar.
    assert (Hkb1 : key_buffer T (<[i := (bytes !!! i - 1) mod 256]> bytes)).
    { split; [rewrite length_insert; lia|].
      apply is_byte_insert; auto. apply is_byte_uchar. }
    destruct (Z.eqb_spec ((bytes !!! i - 1) mod 256) 255) as [Hz|Hz].
    + (* the byte wraps: borrow out of both nibbles *)
      assert (Hb0 : bytes !!! i = 0) by lia.
      destruct (decide (q = MAX_DEPTH T)) as [Hqm|Hqm].
      * (* the overflow byte itself wraps *)
        assert (E2 : key_size T = i) by lia.
        destruct n as [|n]; cbn [decrQuartet_rec];
          (destruct (Nat.ltb_spec (MAX_DEPTH T) (q + 1 + 1)) as [_|]; [|lia]);
          eexists _, _; (split; [reflexivity|]); (split; [assumption|]);
          (split; [intros j Hj Hjm; lia|]); right;
          (split; [lia|]); rewrite E2, list_lookup_total_insert_eq by lia;
          assumption.
      * assert (Hi' : i <> key_size T) by lia.
        destruct (IH (<[i := (bytes !!! i - 1) mod 256]> bytes) (q + 1 + 1)%nat)
          as (bytes' & r & Hrec & Hkb & Htr & Hres);
          [assumption
          |rewrite list_lookup_total_insert_ne by auto; assumption
          |lia|lia|].
        rewrite Hrec. exists bytes', (1 + 1 + r)%nat.
        split; [reflexivity|]. split; [assumption|].
        split.
        { intros j Hj Hjm.
          destruct (decide (j = q)) as [->|]; [rewrite Hlo, Hb0; reflexivity|].
          destruct (decide (j = q + 1)%nat) as [->|];
            [rewrite Hhi, Hb0; reflexivity|].
          rewrite <- (tetradeValue_insert_ne bytes i j ((bytes !!! i - 1) mod 256))
            by lia.
          apply Htr; lia. }
        replace (q + (1 + 1 + r))%nat with (q + 1 + 1 + r)%nat by lia.
        destruct Hres as [(Hlt & Hstop & Hnum & Hov')|(Hge & Hov')];
          [left|right; split; assumption].
        split; [assumption|]. split.
        { rewrite <- (tetradeValue_insert_ne bytes i _ ((bytes !!! i - 1) mod 256))
            by lia.
          exact Hstop. }
        split; [|assumption].
        rewrite Hnum, le_num_insert by lia. rewrite Hz, Hb0.
        replace (q + 1 + 1)%nat with (2 * (i + 1))%nat by lia.
        rewrite Hc, !pow16_even.
        rewrite Nat2Z.inj_add, Z.pow_add_r by lia. simpl (256 ^ Z.of_nat 1). lia.
    + assert (Hqm : q <> MAX_DEPTH T).
      { intros E. assert (E2 : key_size T = i) by lia. rewrite E2 in Hov. lia. }
      assert (Hi' : i <> key_size T) by lia.
      change 15 with (Z.ones 4). rewrite Z.land_ones by lia.
      change (2 ^ 4) with 16.
      eexists _, _. split; [reflexivity|]. split; [assumption|].
      destruct (Z.eqb_spec (((bytes !!! i - 1) mod 256) mod 16) (Z.ones 4)) as [Hl|Hl];
        change (Z.ones 4) with 15 in Hl; cbn [bool_to_nat].
      * split.
        { intros j Hj Hjm. replace j with q by lia. rewrite Hlo.
          replace (bytes !!! i mod 16) with 0 by lia. reflexivity. }
        left. split; [lia|]. split.
        { rewrite Hhi. intros E. assert (bytes !!! i / 16 = 0) by lia. lia. }
        split; [|rewrite list_lookup_total_insert_ne by auto; assumption].
        rewrite le_num_insert by lia. rewrite Hc, pow16_even.
        rewrite Z.mod_small by lia. lia.
      * split; [intros j Hj; lia|].
        rewrite Nat.add_0_r. left. split; [lia|]. split.
        { rewrite Hlo. intros E. assert (bytes !!! i mod 16 = 0) by lia. lia. }
        split; [|rewrite list_lookup_total_insert_ne by auto; assumption].
        rewrite le_num_insert by lia. rewrite Hc, pow16_even.
        rewrite Z.mod_small by lia. lia.
  - (* odd quartet: the high nibble is decremented *)
    replace (q mod 2)%nat with 1%nat by lia.
    change (Z.of_nat 1 * 4) with 4.
    change (Z.shiftl 1 4) with 16. rewrite !Z.shiftr_div_pow2 by lia.
    change (2 ^ 4) with 16. change (255 / 16) with 15.
    change (bool_to_nat (1 =? 0)%nat) with 0%nat.
    pose proof (tetradeValue_odd bytes i ltac:(unfold is_byte; lia)) as Hhi.
    rewrite <- Hc in Hhi.
    assert (Hqi : i <> key_size T) by lia.
    unfold uchar.
    assert (Hkb1 : key_buffer T (<[i := (bytes !!! i - 16) mod 256]> bytes)).
    { split; [rewrite length_insert; lia|].
      apply is_byte_insert; auto. apply is_byte_uchar. }
    destruct (Z.eqb_spec ((bytes !!! i - 16) mod 256 / 16) 15) as [Hz|Hz].
    + assert (Hb0 : bytes !!! i / 16 = 0) by lia.
      destruct (IH (<[i := (bytes !!! i - 16) mod 256]> bytes) (q + 1 + 0)%nat)
        as (bytes' & r & Hrec & Hkb & Htr & Hres);
        [assumption
        |rewrite list_lookup_total_insert_ne by auto; assumption
        |lia|lia|].
      rewrite Hrec. exists bytes', (0 + 1 + r)%nat.
      split; [reflexivity|]. split; [assumption|].
      split.
      { intros j Hj Hjm.
        destruct (decide (j = q)) as [->|]; [rewrite Hhi, Hb0; reflexivity|].
        rewrite <- (tetradeValue_insert_ne bytes i j ((bytes !!! i - 16) mod 256))
          by lia.
        apply Htr; lia. }
      replace (q + (0 + 1 + r))%nat with (q + 1 + 0 + r)%nat by lia.
      destruct Hres as [(Hlt & Hstop & Hnum & Hov')|(Hge & Hov')];
        [left|right; split; assumption].
      split; [assumption|]. split.
      { rewrite <- (tetradeValue_insert_ne bytes i _ ((bytes !!! i - 16) mod 256))
          by lia.
        exact Hstop. }
      split; [|assumption].
      rewrite Hnum, le_num_insert by lia.
      replace (q + 1 + 0)%nat with (2 * (i + 1))%nat by lia.
      rewrite Hc, pow16_odd, pow16_even.
      rewrite Nat2Z.inj_add, Z.pow_add_r by lia. simpl (256 ^ Z.of_nat 1).
      replace ((bytes !!! i - 16) mod 256) with (bytes !!! i + 240) by lia.
      generalize (256 ^ Z.of_nat i). intros P. lia.
    + change 15 with (Z.ones 4) at 1. rewrite Z.land_ones by lia.
      change (2 ^ 4) with 16.
      destruct (Z.eqb_spec (((bytes !!! i - 16) mod 256 / 16) mod 16) 15) as [Hl|Hl];
        [exfalso; lia|].
      cbn [bool_to_nat]. eexists _, _. split; [reflexivity|].
      split; [assumption|].
      split; [intros j Hj; lia|].
      rewrite Nat.add_0_r. left. split; [lia|]. split.
      { rewrite Hhi. intros E. assert (bytes !!! i / 16 = 0) by lia. lia. }
      split; [|rewrite list_lookup_total_insert_ne by auto; assumption].
      rewrite le_num_insert by lia. rewrite Hc, pow16_odd.
      rewrite Z.mod_small by lia. lia.
Qed.

End Quartets.

(** ** The heap: loads, stores and slot addresses *)

Section HeapFacts.
Context {mapped_type : Type}.
Implicit Types (p root : ptr_t mapped_type) (r : ptr_ref).

Lemma load_app root (p q : list nat) :
  load root (p ++ q) = load (load root p) q.
Proof. revert root. induction p as [|i p IH]; intros root; simpl; auto. Qed.

Lemma load_empty (p : list nat) :
  load (@empty_node_ptr mapped_type) p = empty_node_ptr.
Proof. induction p; simpl; auto. Qed.

Lemma load_val (v : mapped_type) (i : nat) (p : list nat) :
  load (val v) (i :: p) = empty_node_ptr.
Proof. simpl. apply load_empty. Qed.

Lemma deref_next_plus root r (i : nat) :
  deref root (next_plus root r i) = next_at (deref root r) i.
Proof.
  unfold next_plus. destruct r as [p|j|]; simpl; try reflexivity.
  destruct (load root p) eqn:E; simpl; try reflexivity.
  rewrite load_app, E. reflexivity.
Qed.

Lemma deref_walk root r (ds : list nat) :
  deref root (walk root r ds) = load (deref root r) ds.
Proof.
  revert r. induction ds as [|i ds IH]; intros r; simpl; [reflexivity|].
  rewrite IH, deref_next_plus. reflexivity.
Qed.

Lemma walk_app root r (ds1 ds2 : list nat) :
  walk root r (ds1 ++ ds2) = walk root (walk root r ds1) ds2.
Proof. revert r. induction ds1; intros; simpl; auto. Qed.

(** On a valid path the pointer walk stays in the tree. *)
Lemma walk_valid root (p ds : list nat) :
  valid_path (load root p) ds ->
  walk root (at_path p) ds = at_path (p ++ ds).
Proof.
  revert p. induction ds as [|i ds IH]; intros p Hv; simpl.
  - rewrite app_nil_r. reflexivity.
  - simpl in Hv. destruct (load root p) eqn:E; try contradiction.
    destruct Hv as [Hi Hv].
    unfold next_plus. simpl. rewrite E.
    rewrite IH; [rewrite <- app_assoc; reflexivity|].
    rewrite load_app, E. exact Hv.
Qed.

Lemma valid_path_app p (q1 q2 : list nat) :
  valid_path p (q1 ++ q2) <-> valid_path p q1 /\ valid_path (load p q1) q2.
Proof.
  revert p. induction q1 as [|i q1 IH]; intros p; simpl; [tauto|].
  destruct p; simpl; try tauto. rewrite IH. tauto.
Qed.

Lemma load_store p (path : list nat) (x : ptr_t mapped_type) :
  valid_path p path -> load (store p path x) path = x.
Proof.
  revert p. induction path as [|i path IH]; intros p Hv; simpl; [reflexivity|].
  simpl in Hv. destruct p; try contradiction. destruct Hv as [Hi Hv].
  simpl. rewrite list_lookup_total_insert_eq by assumption. auto.
Qed.

Lemma store_store p (path : list nat) (x y : ptr_t mapped_type) :
  store (store p path x) path y = store p path y.
Proof.
  revert p. induction path as [|i path IH]; intros p; simpl; [reflexivity|].
  destruct p; try reflexivity. f_equal.
  destruct (decide (i < length arr)%nat).
  - rewrite list_lookup_total_insert_eq by assumption.
    rewrite list_insert_insert_eq. rewrite IH. reflexivity.
  - rewrite !list_insert_ge by (rewrite ?length_insert; lia). reflexivity.
Qed.

Lemma store_app p (q1 q2 : list nat) (x : ptr_t mapped_type) :
  store p (q1 ++ q2) x = store p q1 (store (load p q1) q2 x).
Proof.
  revert p. induction q1 as [|i q1 IH]; intros p; simpl; [reflexivity|].
  destruct p; simpl; [reflexivity| |reflexivity].
  rewrite IH. reflexivity.
Qed.

Lemma store_load p (path : list nat) :
  store p path (load p path) = p.
Proof.
  revert p. induction path as [|i path IH]; intros p; simpl; [reflexivity|].
  destruct p; simpl; try reflexivity.
  rewrite IH.
  destruct (decide (i < length arr)%nat).
  - rewrite list_insert_id; [reflexivity|].
    apply list_lookup_lookup_total_lt. assumption.
  - rewrite list_insert_ge by lia. reflexivity.
Qed.

Lemma valid_path_store p (path : list nat) (x : ptr_t mapped_type) :
  valid_path p path -> valid_path (store p path x) path.
Proof.
  revert p. induction path as [|i path IH]; intros p Hv; simpl; [exact I|].
  simpl in Hv. destruct p; try contradiction. destruct Hv as [Hi Hv].
  rewrite length_insert. split; [assumption|].
  rewrite list_lookup_total_insert_eq by assumption. auto.
Qed.


(** *** Well-formed and pruned subtrees *)

Lemma forallb_Forall {A} (f : A -> bool) (l : list A) :
  forallb f l = true <-> Forall (fun x => f x = true) l.
Proof.
  induction l as [|x l IH]; simpl.
  - split; auto.
  - rewrite andb_true_iff, IH. split.
    + intros [? ?]. constructor; assumption.
    + intros H. inversion H; subst. split; assumption.
Qed.

Lemma well_formed_empty (d : nat) :
  well_formed d (@empty_node_ptr mapped_type) = true.
Proof. destruct d; reflexivity. Qed.

Lemma well_formed_next (d : nat) (arr : list (ptr_t mapped_type)) :
  well_formed (S d) (next arr) = true <->
  length arr = 16%nat /\ Forall (fun c => well_formed d c = true) arr.
Proof.
  cbn [well_formed]. rewrite andb_true_iff, forallb_Forall, Nat.eqb_eq.
  reflexivity.
Qed.

Lemma well_formed_S_inv (d : nat) p :
  well_formed (S d) p = true ->
  p = empty_node_ptr
  \/ exists arr, p = next arr /\ length arr = 16%nat
                 /\ Forall (fun c => well_formed d c = true) arr.
Proof.
  destruct p as [|arr|v]; intros H.
  - left. reflexivity.
  - right. exists arr. split; [reflexivity|]. apply well_formed_next, H.
  - discriminate.
Qed.

Lemma well_formed_0_inv p :
  well_formed 0 p = true -> p = empty_node_ptr \/ exists v, p = val v.
Proof. destruct p; intros H; try discriminate; eauto. Qed.

Lemma Forall_lookup_total_default {A} `{Inhabited A} (P : A -> Prop)
    (l : list A) (i : nat) :
  P inhabitant -> Forall P l -> P (l !!! i).
Proof.
  intros Hd Hl. destruct (decide (i < length l)%nat).
  - eapply Forall_lookup_1; [exact Hl|]. apply list_lookup_lookup_total_lt. lia.
  - rewrite list_lookup_total_alt, lookup_ge_None_2 by lia. exact Hd.
Qed.

Lemma well_formed_next_at (d : nat) p (i : nat) :
  well_formed (S d) p = true -> well_formed d (next_at p i) = true.
Proof.
  intros H. destruct (well_formed_S_inv d p H) as [->|(arr & -> & Hl & Ha)]; simpl.
  - apply well_formed_empty.
  - apply (Forall_lookup_total_default (fun c => well_formed d c = true));
      [apply well_formed_empty|assumption].
Qed.

Lemma well_formed_load (d : nat) p (ds : list nat) :
  well_formed (length ds + d) p = true -> well_formed d (load p ds) = true.
Proof.
  revert p. induction ds as [|i ds IH]; intros p H; simpl in *; [assumption|].
  apply IH. apply well_formed_next_at. assumption.
Qed.

Lemma is_node_empty_spec p :
  is_node_empty p = true <->
  forall i, (i < 16)%nat -> next_at p i = empty_node_ptr.
Proof.
  unfold is_node_empty. rewrite forallb_Forall, Forall_forall. split.
  - intros H i Hi. specialize (H i). rewrite elem_of_seq in H.
    specialize (H ltac:(lia)). destruct (next_at p i); try discriminate.
    reflexivity.
  - intros H i Hi. rewrite elem_of_seq in Hi. rewrite H by lia. reflexivity.
Qed.

Lemma sum_map_insert {A} `{Inhabited A} (f : A -> Z) (l : list A) (i : nat)
    (x : A) :
  (i < length l)%nat ->
  fold_right Z.add 0 (map f (<[i := x]> l))
  = fold_right Z.add 0 (map f l) - f (l !!! i) + f x.
Proof.
  revert i. induction l as [|a l IH]; intros [|i] Hi; cbn [length] in Hi;
    try lia.
  - change (<[0%nat := x]> (a :: l)) with (x :: l).
    change ((a :: l) !!! 0%nat) with a. simpl. lia.
  - change (<[S i := x]> (a :: l)) with (a :: <[i := x]> l).
    change ((a :: l) !!! S i) with (l !!! i). simpl. rewrite IH by lia. lia.
Qed.

Lemma sum_map_zero {A} (f : A -> Z) (l : list A) :
  Forall (fun a => f a = 0) l -> fold_right Z.add 0 (map f l) = 0.
Proof. induction 1; simpl; lia. Qed.

Lemma leaf_count_empty (d : nat) :
  leaf_count d (@empty_node_ptr mapped_type) = 0.
Proof. destruct d; reflexivity. Qed.

Lemma leaf_count_nonneg (d : nat) p : 0 <= leaf_count d p.
Proof.
  revert p. induction d as [|d IH]; intros [|arr|v]; simpl; try lia.
  induction arr as [|c arr IHa]; simpl; [lia|]. specialize (IH c). lia.
Qed.

Lemma pruned_empty (d : nat) :
  pruned d (@empty_node_ptr mapped_type) = true.
Proof. destruct d; reflexivity. Qed.

Lemma replicate_lookup_total {A} `{Inhabited A} (n i : nat) (x : A) :
  (i < n)%nat -> replicate n x !!! i = x.
Proof.
  intros Hi. apply list_lookup_total_correct. apply lookup_replicate_2. lia.
Qed.

(** *** The recursive forms of insertion and deletion *)

Lemma node_array_spec (d : nat) p :
  well_formed (S d) p = true ->
  length (node_array p) = 16%nat
  /\ Forall (fun c => well_formed d c = true) (node_array p)
  /\ forall i, node_array p !!! i = next_at p i.
Proof.
  intros H. destruct (well_formed_S_inv d p H) as [->|(arr & -> & Hl & Ha)]; simpl.
  - split; [reflexivity|]. split.
    + repeat constructor; apply well_formed_empty.
    + intros i. destruct (decide (i < 16)%nat).
      * apply (replicate_lookup_total 16). assumption.
      * rewrite list_lookup_total_alt, lookup_ge_None_2; [reflexivity|].
        simpl. lia.
  - auto.
Qed.

Lemma add_rec_cons p (i : nat) (ds : list nat) (x : ptr_t mapped_type) :
  add_rec p (i :: ds) x
  = next (<[i := add_rec (node_array p !!! i) ds x]> (node_array p)).
Proof. destruct p; reflexivity. Qed.

Lemma add_rec_well_formed (d : nat) p (ds : list nat) (x : ptr_t mapped_type) :
  length ds = d -> well_formed d p = true -> well_formed 0 x = true ->
  well_formed d (add_rec p ds x) = true.
Proof.
  revert p ds. induction d as [|d IH]; intros p [|i ds] Hlen Hp Hx;
    try discriminate; [exact Hx|].
  rewrite add_rec_cons.
  destruct (node_array_spec d p Hp) as (Hl & Ha & Hn).
  apply well_formed_next. split; [rewrite length_insert; assumption|].
  apply Forall_insert; [assumption|].
  apply IH; [simpl in Hlen; lia| |assumption].
  rewrite Hn. apply well_formed_next_at. assumption.
Qed.

Lemma load_add_rec_same (d : nat) p (ds : list nat) (x : ptr_t mapped_type) :
  length ds = d -> well_formed d p = true -> digits_ok ds ->
  load (add_rec p ds x) ds = x.
Proof.
  revert p ds. induction d as [|d IH]; intros p [|i ds] Hlen Hp Hds;
    try discriminate; [reflexivity|].
  rewrite add_rec_cons.
  destruct (node_array_spec d p Hp) as (Hl & Ha & Hn).
  inversion Hds; subst.
  cbn [load next_at]. rewrite list_lookup_total_insert_eq by lia.
  apply IH; [simpl in Hlen; lia| |assumption].
  rewrite Hn. apply well_formed_next_at. assumption.
Qed.

Lemma load_add_rec_other (d : nat) p (ds ds' : list nat) (x : ptr_t mapped_type) :
  length ds = d -> length ds' = d -> ds <> ds' ->
  well_formed d p = true -> digits_ok ds ->
  load (add_rec p ds x) ds' = load p ds'.
Proof.
  revert p ds ds'. induction d as [|d IH]; intros p [|i ds] [|i' ds'] Hlen Hlen' Hne
    Hp Hds; try discriminate; [congruence|].
  rewrite add_rec_cons.
  destruct (node_array_spec d p Hp) as (Hl & Ha & Hn).
  inversion Hds; subst.
  cbn [load next_at].
  destruct (decide (i = i')) as [->|Hi].
  - rewrite list_lookup_total_insert_eq by lia.
    rewrite IH; [rewrite Hn; reflexivity|simpl in *; lia|simpl in *; lia
                |congruence| |assumption].
    rewrite Hn. apply well_formed_next_at. assumption.
  - rewrite list_lookup_total_insert_ne by assumption. rewrite Hn. reflexivity.
Qed.

Lemma add_rec_not_empty p (ds : list nat) (x : ptr_t mapped_type) :
  is_empty_node x = false -> is_empty_node (add_rec p ds x) = false.
Proof. destruct ds; [auto|]. intros _. rewrite add_rec_cons. reflexivity. Qed.

Lemma leaf_count_next (d : nat) (arr : list (ptr_t mapped_type)) :
  leaf_count (S d) (next arr) = fold_right Z.add 0 (map (leaf_count d) arr).
Proof. reflexivity. Qed.

Lemma leaf_count_node_array (d : nat) p :
  well_formed (S d) p = true ->
  leaf_count (S d) p = fold_right Z.add 0 (map (leaf_count d) (node_array p)).
Proof.
  intros H. destruct (well_formed_S_inv d p H) as [->|(arr & -> & Hl & Ha)].
  - simpl. rewrite !leaf_count_empty. reflexivity.
  - reflexivity.
Qed.

Lemma leaf_count_add_rec (d : nat) p (ds : list nat) (v : mapped_type) :
  length ds = d -> well_formed d p = true -> digits_ok ds ->
  load p ds = empty_node_ptr ->
  leaf_count d (add_rec p ds (val v)) = leaf_count d p + 1.
Proof.
  revert p ds. induction d as [|d IH]; intros p [|i ds] Hlen Hp Hds Hload;
    try discriminate.
  - simpl in *. subst p. reflexivity.
  - rewrite add_rec_cons.
    destruct (node_array_spec d p Hp) as (Hl & Ha & Hn).
    inversion Hds; subst.
    rewrite leaf_count_next, sum_map_insert by lia.
    rewrite IH; [|simpl in Hlen; lia| |assumption|].
    + rewrite (leaf_count_node_array d p Hp). lia.
    + rewrite Hn. apply well_formed_next_at. assumption.
    + rewrite Hn. exact Hload.
Qed.

Lemma pruned_next (d : nat) (arr : list (ptr_t mapped_type)) :
  pruned (S d) (next arr) = true <->
  (exists c, In c arr /\ is_empty_node c = false)
  /\ Forall (fun c => pruned d c = true) arr.
Proof.
  cbn [pruned]. rewrite andb_true_iff, forallb_Forall, existsb_exists.
  split; intros [(c & Hc & He) Hf]; (split; [|assumption]); exists c;
    (split; [assumption|]); destruct (is_empty_node c); auto.
Qed.

Lemma pruned_next_at (d : nat) p (i : nat) :
  pruned (S d) p = true -> pruned d (next_at p i) = true.
Proof.
  destruct p as [|arr|v]; intros H; simpl; try apply pruned_empty.
  apply pruned_next in H. destruct H as [_ H].
  apply (Forall_lookup_total_default (fun c => pruned d c = true));
    [apply pruned_empty|assumption].
Qed.

Lemma pruned_add_rec (d : nat) p (ds : list nat) (v : mapped_type) :
  length ds = d -> well_formed d p = true -> digits_ok ds ->
  pruned d p = true ->
  pruned d (add_rec p ds (val v)) = true.
Proof.
  revert p ds. induction d as [|d IH]; intros p [|i ds] Hlen Hp Hds Hpr;
    try discriminate; [reflexivity|].
  rewrite add_rec_cons.
  destruct (node_array_spec d p Hp) as (Hl & Ha & Hn).
  inversion Hds; subst.
  apply pruned_next. split.
  - exists (add_rec (node_array p !!! i) ds (val v)). split.
    + apply list_elem_of_In. apply list_elem_of_lookup. exists i.
      apply list_lookup_insert_eq. lia.
    + apply add_rec_not_empty. reflexivity.
  - apply Forall_insert.
    + destruct p as [|arr|v']; simpl; try discriminate.
      * repeat constructor; apply pruned_empty.
      * apply pruned_next in Hpr. apply Hpr.
    + apply IH; [simpl in Hlen; lia| |assumption|].
      * rewrite Hn. apply well_formed_next_at. assumption.
      * rewrite Hn. apply pruned_next_at. assumption.
Qed.


Lemma is_node_empty_next (arr : list (ptr_t mapped_type)) :
  length arr = 16%nat -> is_node_empty (next arr) = forallb is_empty_node arr.
Proof.
  intros Hl.
  do 17 (destruct arr as [|? arr]; try discriminate). reflexivity.
Qed.

Lemma existsb_negb_forallb {A} (f : A -> bool) (l : list A) :
  existsb (fun a => negb (f a)) l = negb (forallb f l).
Proof.
  induction l as [|a l IH]; simpl; [reflexivity|].
  rewrite IH. destruct (f a); reflexivity.
Qed.

Lemma all_empty_leaf_count (d : nat) (arr : list (ptr_t mapped_type)) :
  forallb is_empty_node arr = true ->
  fold_right Z.add 0 (map (leaf_count d) arr) = 0.
Proof.
  intros H. apply sum_map_zero. apply forallb_Forall in H.
  eapply Forall_impl; [exact H|]. intros c Hc. simpl in Hc.
  destruct c; try discriminate. apply leaf_count_empty.
Qed.

Lemma erase_rec_next (arr : list (ptr_t mapped_type)) (i : nat) (ds : list nat) :
  erase_rec (next arr) (i :: ds)
  = let p' := next (<[i := erase_rec (arr !!! i) ds]> arr) in
    if is_node_empty p' then empty_node_ptr else p'.
Proof. reflexivity. Qed.

Lemma erase_rec_well_formed (d : nat) p (ds : list nat) :
  length ds = d -> well_formed d p = true ->
  well_formed d (erase_rec p ds) = true.
Proof.
  revert p ds. induction d as [|d IH]; intros p [|i ds] Hlen Hp;
    try discriminate; [reflexivity|].
  destruct (well_formed_S_inv d p Hp) as [->|(arr & -> & Hl & Ha)];
    [reflexivity|].
  rewrite erase_rec_next. cbv zeta.
  destruct (is_node_empty _); [reflexivity|].
  apply well_formed_next. split; [rewrite length_insert; assumption|].
  apply Forall_insert; [assumption|].
  apply IH; [simpl in Hlen; lia|].
  apply (Forall_lookup_total_default (fun c => well_formed d c = true));
    [apply well_formed_empty|assumption].
Qed.

Lemma load_erase_rec_same (d : nat) p (ds : list nat) :
  length ds = d -> well_formed d p = true -> digits_ok ds ->
  load (erase_rec p ds) ds = empty_node_ptr.
Proof.
  revert p ds. induction d as [|d IH]; intros p [|i ds] Hlen Hp Hds;
    try discriminate; [reflexivity|].
  destruct (well_formed_S_inv d p Hp) as [->|(arr & -> & Hl & Ha)];
    [apply load_empty|].
  rewrite erase_rec_next. cbv zeta. inversion Hds; subst.
  destruct (is_node_empty _); [apply load_empty|].
  cbn [load next_at]. rewrite list_lookup_total_insert_eq by lia.
  apply IH; [simpl in Hlen; lia| |assumption].
  apply (Forall_lookup_total_default (fun c => well_formed d c = true));
    [apply well_formed_empty|assumption].
Qed.

Lemma load_erase_rec_other (d : nat) p (ds ds' : list nat) :
  length ds = d -> length ds' = d -> ds <> ds' ->
  well_formed d p = true -> digits_ok ds -> digits_ok ds' ->
  load (erase_rec p ds) ds' = load p ds'.
Proof.
  revert p ds ds'. induction d as [|d IH]; intros p [|i ds] [|i' ds'] Hlen Hlen' Hne
    Hp Hds Hds'; try discriminate; [congruence|].
  destruct (well_formed_S_inv d p Hp) as [->|(arr & -> & Hl & Ha)];
    [reflexivity|].
  rewrite erase_rec_next. cbv zeta.
  inversion Hds; inversion Hds'; subst.
  assert (Hc : well_formed d (arr !!! i) = true).
  { apply (Forall_lookup_total_default (fun c => well_formed d c = true));
      [apply well_formed_empty|assumption]. }
  assert (Hrec : i = i' -> load (erase_rec (arr !!! i) ds) ds' = load (arr !!! i) ds').
  { intros ->. apply IH; simpl in *; try lia; try assumption. congruence. }
  destruct (is_node_empty _) eqn:He.
  - rewrite load_empty. cbn [load next_at].
    rewrite is_node_empty_spec in He.
    destruct (decide (i = i')) as [->|Hi].
    + specialize (He i' ltac:(lia)). simpl in He.
      rewrite list_lookup_total_insert_eq in He by lia.
      rewrite <- Hrec, He, load_empty by reflexivity. reflexivity.
    + specialize (He i' ltac:(lia)). simpl in He.
      rewrite list_lookup_total_insert_ne in He by assumption.
      rewrite He, load_empty. reflexivity.
  - cbn [load next_at].
    destruct (decide (i = i')) as [->|Hi].
    + rewrite list_lookup_total_insert_eq by lia. auto.
    + rewrite list_lookup_total_insert_ne by assumption. reflexivity.
Qed.

Lemma leaf_count_erase_rec (d : nat) p (ds : list nat) :
  length ds = d -> well_formed d p = true -> digits_ok ds ->
  is_empty_node (load p ds) = false ->
  leaf_count d (erase_rec p ds) = leaf_count d p - 1.
Proof.
  revert p ds. induction d as [|d IH]; intros p [|i ds] Hlen Hp Hds Hload;
    try discriminate.
  - simpl in *. destruct p; try discriminate. reflexivity.
  - destruct (well_formed_S_inv d p Hp) as [->|(arr & -> & Hl & Ha)].
    { simpl in Hload. rewrite load_empty in Hload. discriminate. }
    rewrite erase_rec_next. cbv zeta. inversion Hds; subst.
    assert (Hc : well_formed d (arr !!! i) = true).
    { apply (Forall_lookup_total_default (fun c => well_formed d c = true));
        [apply well_formed_empty|assumption]. }
    assert (Hsum : leaf_count (S d) (next (<[i := erase_rec (arr !!! i) ds]> arr))
                   = leaf_count (S d) (next arr) - 1).
    { rewrite !leaf_count_next, sum_map_insert by lia.
      rewrite IH; [lia|simpl in Hlen; lia|assumption|assumption|exact Hload]. }
    destruct (is_node_empty _) eqn:He; [|exact Hsum].
    rewrite is_node_empty_next in He by (rewrite length_insert; assumption).
    rewrite leaf_count_next in Hsum at 1.
    rewrite (all_empty_leaf_count d _ He) in Hsum.
    rewrite leaf_count_empty. lia.
Qed.

Lemma pruned_erase_rec (d : nat) p (ds : list nat) :
  length ds = d -> well_formed d p = true -> pruned d p = true ->
  pruned d (erase_rec p ds) = true.
Proof.
  revert p ds. induction d as [|d IH]; intros p [|i ds] Hlen Hp Hpr;
    try discriminate; [reflexivity|].
  destruct (well_formed_S_inv d p Hp) as [->|(arr & -> & Hl & Ha)];
    [reflexivity|].
  rewrite erase_rec_next. cbv zeta.
  destruct (is_node_empty _) eqn:He; [reflexivity|].
  rewrite is_node_empty_next in He by (rewrite length_insert; assumption).
  cbn [pruned]. rewrite existsb_negb_forallb, He. simpl.
  apply forallb_Forall. apply Forall_insert.
  - apply pruned_next in Hpr. apply Hpr.
  - apply IH; [simpl in Hlen; lia| |].
    + apply (Forall_lookup_total_default (fun c => well_formed d c = true));
        [apply well_formed_empty|assumption].
    + apply (pruned_next_at d (next arr) i). assumption.
Qed.

(** *** The loops of the source against the recursive forms *)

Lemma rev_seq_S (n : nat) : rev (seq 0 (S n)) = n :: rev (seq 0 n).
Proof. rewrite seq_S, rev_app_distr. reflexivity. Qed.

Lemma element_fast_find_loop_walk root (kb : list Z) (n : nat) r :
  element_fast_find_loop root kb n r
  = walk root r (map (tetradeValue kb) (rev (seq 0 (S n)))).
Proof.
  revert r. induction n as [|n IH]; intros r.
  - reflexivity.
  - rewrite rev_seq_S. cbn [map walk element_fast_find_loop]. apply IH.
Qed.

Lemma valid_path_snoc root (p : list nat) (i : nat)
    (arr : list (ptr_t mapped_type)) :
  valid_path root p -> load root p = next arr -> (i < length arr)%nat ->
  valid_path root (p ++ [i]).
Proof.
  intros Hv Hl Hi. apply valid_path_app. split; [assumption|].
  rewrite Hl. simpl. auto.
Qed.

Lemma element_fast_add_loop_spec (kb : list Z) (n : nat) root (p : list nat)
    (x : ptr_t mapped_type) :
  valid_path root p -> well_formed (S n) (load root p) = true ->
  let ds := map (tetradeValue kb) (rev (seq 0 (S n))) in
  let '(root1, cur) := element_fast_add_loop kb n root (at_path p) in
  cur = at_path (p ++ ds)
  /\ assign root1 cur x = store root p (add_rec (load root p) ds x)
  /\ valid_path root1 (p ++ ds).
Proof.
  revert root p. induction n as [|n IH]; intros root p Hv Hwf; cbv zeta.
  - (* last round *)
    cbn [element_fast_add_loop map rev seq app].
    set (i := tetradeValue kb 0).
    set (root' := if is_empty_node (deref root (at_path p))
                  then assign root (at_path p) node_add_empty_node else root).
    destruct (node_array_spec 0 _ Hwf) as (Hl & Ha & Hn).
    assert (Hload : load root' p = next (node_array (load root p))).
    { unfold root'. simpl.
      destruct (well_formed_S_inv 0 _ Hwf) as [E|(arr & E & _)]; rewrite E; simpl.
      - apply load_store. assumption.
      - assumption. }
    assert (Hst : forall y, store root' p y = store root p y).
    { intros y. unfold root'. simpl.
      destruct (is_empty_node (load root p)); [apply store_store|reflexivity]. }
    assert (Hv' : valid_path root' p).
    { unfold root'. simpl.
      destruct (is_empty_node (load root p));
        [apply valid_path_store|]; assumption. }
    unfold next_plus. simpl deref. rewrite Hload.
    split; [reflexivity|]. split.
    + simpl assign. rewrite store_app, Hload, Hst, add_rec_cons. reflexivity.
    + eapply valid_path_snoc; eauto. rewrite Hl. apply tetradeValue_lt.
  - rewrite rev_seq_S. cbn [element_fast_add_loop map].
    set (i := tetradeValue kb (S n)).
    set (ds := map (tetradeValue kb) (rev (seq 0 (S n)))).
    set (root' := if is_empty_node (deref root (at_path p))
                  then assign root (at_path p) node_add_empty_node else root).
    destruct (node_array_spec (S n) _ Hwf) as (Hl & Ha & Hn).
    assert (Hload : load root' p = next (node_array (load root p))).
    { unfold root'. simpl.
      destruct (well_formed_S_inv (S n) _ Hwf) as [E|(arr & E & _)]; rewrite E; simpl.
      - apply load_store. assumption.
      - assumption. }
    assert (Hst : forall y, store root' p y = store root p y).
    { intros y. unfold root'. simpl.
      destruct (is_empty_node (load root p)); [apply store_store|reflexivity]. }
    assert (Hv' : valid_path root' p).
    { unfold root'. simpl.
      destruct (is_empty_node (load root p));
        [apply valid_path_store|]; assumption. }
    assert (Hnp : next_plus root' (at_path p) i = at_path (p ++ [i])).
    { unfold next_plus. simpl deref. rewrite Hload. reflexivity. }
    rewrite Hnp.
    assert (Hi : (i < 16)%nat) by apply tetradeValue_lt.
    assert (Hchild : load root' (p ++ [i]) = node_array (load root p) !!! i).
    { rewrite load_app, Hload. reflexivity. }
    specialize (IH root' (p ++ [i])
                  ltac:(eapply valid_path_snoc; eauto; lia)).
    rewrite Hchild in IH.
    specialize (IH ltac:(rewrite Hn; apply well_formed_next_at; assumption)).
    cbv zeta in IH. fold ds in IH.
    destruct (element_fast_add_loop kb n root' (at_path (p ++ [i])))
      as [root1 cur].
    destruct IH as (Hcur & Hassign & Hvalid).
    rewrite <- app_assoc in Hcur, Hvalid. simpl in Hcur, Hvalid.
    split; [assumption|]. split; [|assumption].
    rewrite Hassign, store_app, Hload, Hst, add_rec_cons. reflexivity.
Qed.

(** Pruning stops at the first node that still has a child. *)
Lemma prune_at_stop p (path : list nat) :
  valid_path p path -> digits_ok path ->
  is_node_empty (load p path) = false ->
  prune_at p path = p.
Proof.
  revert p. induction path as [|i path IH]; intros p Hv Hds He.
  - simpl in *. rewrite He. reflexivity.
  - simpl in Hv. destruct p as [|arr|v]; try contradiction.
    destruct Hv as [Hi Hv]. inversion Hds; subst.
    cbn [prune_at]. cbn [load next_at] in He.
    rewrite IH by assumption.
    rewrite list_insert_id by (apply list_lookup_lookup_total_lt; assumption).
    destruct (is_node_empty (next arr)) eqn:Hn; [|reflexivity].
    rewrite is_node_empty_spec in Hn. specialize (Hn i ltac:(assumption)).
    simpl in Hn. rewrite Hn, load_empty in He. discriminate.
Qed.

Lemma prune_at_snoc p (pre : list nat) (i : nat) :
  valid_path p (pre ++ [i]) ->
  is_node_empty (load p (pre ++ [i])) = true ->
  prune_at p (pre ++ [i]) = prune_at (store p (pre ++ [i]) empty_node_ptr) pre.
Proof.
  revert p. induction pre as [|j pre IH]; intros p Hv He.
  - simpl in Hv. destruct p as [|arr|v]; try tauto.
    simpl in He. cbn [app prune_at store]. rewrite He. reflexivity.
  - simpl in Hv. destruct p as [|arr|v]; try tauto. destruct Hv as [Hj Hv].
    cbn [app load next_at] in He.
    cbn [app prune_at store]. rewrite IH by assumption.
    rewrite list_lookup_total_insert_eq by assumption.
    rewrite list_insert_insert_eq. reflexivity.
Qed.

Lemma erase_rec_prune_at p (pre : list nat) (i : nat) :
  valid_path p (pre ++ [i]) ->
  erase_rec p (pre ++ [i])
  = prune_at (store p (pre ++ [i]) empty_node_ptr) pre.
Proof.
  revert p. induction pre as [|j pre IH]; intros p Hv.
  - simpl in Hv. destruct p as [|arr|v]; try contradiction. reflexivity.
  - simpl in Hv. destruct p as [|arr|v]; try contradiction. destruct Hv as [Hj Hv].
    cbn [app erase_rec prune_at store]. rewrite IH by assumption.
    rewrite list_lookup_total_insert_eq by assumption.
    rewrite list_insert_insert_eq. reflexivity.
Qed.

End HeapFacts.

(** ** Digits, blocks and the arithmetic of carries *)

Lemma digit_lt (K : Z) (i : nat) : (digit K i < 16)%nat.
Proof.
  unfold digit. pose proof (Z.mod_pos_bound (K / 16 ^ Z.of_nat i) 16). lia.
Qed.

Lemma digit_eq (K : Z) (i : nat) (v : nat) :
  (v < 16)%nat ->
  digit K i = v <-> (K / 16 ^ Z.of_nat i) mod 16 = Z.of_nat v.
Proof.
  intros Hv. unfold digit.
  pose proof (Z.mod_pos_bound (K / 16 ^ Z.of_nat i) 16). lia.
Qed.

Lemma div_pow16_add (K : Z) (i j : nat) :
  K / 16 ^ Z.of_nat (i + j) = K / 16 ^ Z.of_nat j / 16 ^ Z.of_nat i.
Proof.
  rewrite Nat2Z.inj_add, Z.pow_add_r, Z.mul_comm by lia.
  rewrite Z.div_div; [reflexivity| |]; apply pow_pos_16 || pose proof (pow_pos_16 j); lia.
Qed.

Lemma div_pow16_S (K : Z) (j : nat) :
  K / 16 ^ Z.of_nat (S j) = K / 16 ^ Z.of_nat j / 16.
Proof.
  replace (S j) with (1 + j)%nat by lia. rewrite div_pow16_add. reflexivity.
Qed.

Lemma digit_block (K K' : Z) (i j : nat) :
  (j <= i)%nat -> K / 16 ^ Z.of_nat j = K' / 16 ^ Z.of_nat j ->
  digit K i = digit K' i.
Proof.
  intros Hji E. unfold digit.
  replace i with ((i - j) + j)%nat by lia.
  rewrite !div_pow16_add, E. reflexivity.
Qed.

Lemma div_block_mono (K K' : Z) (i j : nat) :
  (j <= i)%nat -> K / 16 ^ Z.of_nat j = K' / 16 ^ Z.of_nat j ->
  K / 16 ^ Z.of_nat i = K' / 16 ^ Z.of_nat i.
Proof.
  intros Hji E. replace i with ((i - j) + j)%nat by lia.
  rewrite !div_pow16_add, E. reflexivity.
Qed.

Lemma mod_pow16_S (K : Z) (j : nat) :
  K mod 16 ^ Z.of_nat (S j)
  = K mod 16 ^ Z.of_nat j + 16 ^ Z.of_nat j * ((K / 16 ^ Z.of_nat j) mod 16).
Proof.
  rewrite Nat2Z.inj_succ, Z.pow_succ_r, Z.mul_comm by lia.
  apply Z.rem_mul_r; [pose proof (pow_pos_16 j)|]; lia.
Qed.

(** Equal digits below [n] mean equal residues. *)
Lemma digits_mod (K K' : Z) (n : nat) :
  (forall i, (i < n)%nat -> digit K i = digit K' i) ->
  K mod 16 ^ Z.of_nat n = K' mod 16 ^ Z.of_nat n.
Proof.
  induction n as [|n IH]; intros H.
  - simpl. rewrite !Z.mod_1_r. reflexivity.
  - rewrite !mod_pow16_S, IH by (intros; apply H; lia).
    specialize (H n ltac:(lia)). unfold digit in H.
    pose proof (Z.mod_pos_bound (K / 16 ^ Z.of_nat n) 16).
    pose proof (Z.mod_pos_bound (K' / 16 ^ Z.of_nat n) 16).
    replace ((K / 16 ^ Z.of_nat n) mod 16) with ((K' / 16 ^ Z.of_nat n) mod 16)
      by lia.
    reflexivity.
Qed.

Lemma carry_arith (N : Z) (q r : nat) :
  (forall i, (q <= i < q + r)%nat -> digit N i = 15%nat) ->
  (N + 16 ^ Z.of_nat q) / 16 ^ Z.of_nat (q + r) = N / 16 ^ Z.of_nat (q + r) + 1
  /\ (N + 16 ^ Z.of_nat q) mod 16 ^ Z.of_nat (q + r) = N mod 16 ^ Z.of_nat q.
Proof.
  induction r as [|r IH]; intros H.
  - rewrite Nat.add_0_r. pose proof (pow_pos_16 q). split.
    + replace (N + 16 ^ Z.of_nat q) with (N + 1 * 16 ^ Z.of_nat q) by lia.
      rewrite Z.div_add by lia. reflexivity.
    + replace (N + 16 ^ Z.of_nat q) with (N + 1 * 16 ^ Z.of_nat q) by lia.
      rewrite Z.mod_add by lia. reflexivity.
  - destruct IH as [IHd IHm]; [intros; apply H; lia|].
    specialize (H (q + r)%nat ltac:(lia)).
    apply digit_eq in H; [|lia].
    replace (q + S r)%nat with (S (q + r)) by lia.
    rewrite !div_pow16_S, mod_pow16_S, IHd, IHm.
    generalize dependent (N / 16 ^ Z.of_nat (q + r)). intros a; intros.
    replace ((a + 1) mod 16) with 0 by lia. split; lia.
Qed.

Lemma carry_stop (N : Z) (q r : nat) :
  (forall i, (q <= i < q + r)%nat -> digit N i = 15%nat) ->
  digit N (q + r) <> 15%nat ->
  (N + 16 ^ Z.of_nat q) / 16 ^ Z.of_nat (q + r + 1)
  = N / 16 ^ Z.of_nat (q + r + 1).
Proof.
  intros H Hs. destruct (carry_arith N q r H) as [Hd _].
  rewrite digit_eq in Hs by lia.
  replace (q + r + 1)%nat with (S (q + r)) by lia.
  rewrite !div_pow16_S, Hd.
  generalize dependent (N / 16 ^ Z.of_nat (q + r)). intros a; intros. lia.
Qed.

Lemma borrow_arith (N : Z) (q r : nat) :
  (forall i, (q <= i < q + r)%nat -> digit N i = 0%nat) ->
  (N - 16 ^ Z.of_nat q) / 16 ^ Z.of_nat (q + r) = N / 16 ^ Z.of_nat (q + r) - 1
  /\ (N - 16 ^ Z.of_nat q) mod 16 ^ Z.of_nat (q + r)
     = N mod 16 ^ Z.of_nat q + 16 ^ Z.of_nat (q + r) - 16 ^ Z.of_nat q.
Proof.
  induction r as [|r IH]; intros H.
  - rewrite Nat.add_0_r. pose proof (pow_pos_16 q). split.
    + replace (N - 16 ^ Z.of_nat q) with (N + (-1) * 16 ^ Z.of_nat q) by lia.
      rewrite Z.div_add by lia. lia.
    + replace (N - 16 ^ Z.of_nat q) with (N + (-1) * 16 ^ Z.of_nat q) by lia.
      rewrite Z.mod_add by lia. lia.
  - destruct IH as [IHd IHm]; [intros; apply H; lia|].
    specialize (H (q + r)%nat ltac:(lia)).
    apply digit_eq in H; [|lia].
    replace (q + S r)%nat with (S (q + r)) by lia.
    rewrite !div_pow16_S, mod_pow16_S, IHd, IHm.
    rewrite (Nat2Z.inj_succ (q + r)), Z.pow_succ_r by lia.
    generalize dependent (N / 16 ^ Z.of_nat (q + r)). intros a; intros.
    replace ((a - 1) mod 16) with 15 by lia. split; lia.
Qed.

Lemma borrow_stop (N : Z) (q r : nat) :
  (forall i, (q <= i < q + r)%nat -> digit N i = 0%nat) ->
  digit N (q + r) <> 0%nat ->
  (N - 16 ^ Z.of_nat q) / 16 ^ Z.of_nat (q + r + 1)
  = N / 16 ^ Z.of_nat (q + r + 1).
Proof.
  intros H Hs. destruct (borrow_arith N q r H) as [Hd _].
  rewrite digit_eq in Hs by lia.
  replace (q + r + 1)%nat with (S (q + r)) by lia.
  rewrite !div_pow16_S, Hd.
  generalize dependent (N / 16 ^ Z.of_nat (q + r)). intros a; intros. lia.
Qed.

(** All digits from [q] up to [n] are zero: the number is below
    [16 ^ q]. *)
Lemma digits_zero_high (N : Z) (q n : nat) :
  0 <= N < 16 ^ Z.of_nat n -> (q <= n)%nat ->
  (forall i, (q <= i < n)%nat -> digit N i = 0%nat) ->
  N < 16 ^ Z.of_nat q.
Proof.
  intros HN Hq H.
  replace n with (q + (n - q))%nat in HN by lia.
  remember (n - q)%nat as r eqn:Hr.
  assert (Hd : forall i, (q <= i < q + r)%nat -> digit N i = 0%nat)
    by (intros; apply H; lia).
  clear H Hr Hq. induction r as [|r IH].
  - rewrite Nat.add_0_r in HN. lia.
  - apply IH; [|intros; apply Hd; lia].
    specialize (Hd (q + r)%nat ltac:(lia)). apply digit_eq in Hd; [|lia].
    replace (q + S r)%nat with (S (q + r)) in HN by lia.
    rewrite Nat2Z.inj_succ, Z.pow_succ_r in HN by lia.
    pose proof (pow_pos_16 (q + r)) as Hp.
    split; [lia|].
    destruct (Z.lt_ge_cases N (16 ^ Z.of_nat (q + r))) as [|Hge]; [assumption|].
    exfalso.
    assert (0 < N / 16 ^ Z.of_nat (q + r)) by (apply Z.div_str_pos; lia).
    assert (N / 16 ^ Z.of_nat (q + r) < 16)
      by (apply Z.div_lt_upper_bound; lia).
    lia.
Qed.

(** ** Paths, key buffers and tracked positions *)

Section Positions.
Context {mapped_type : Type}.
Variable T : key_type.
Implicit Types (root : ptr_t mapped_type) (it : iterator_base).

Local Abbreviation M := (MAX_DEPTH T).
Local Abbreviation W := (key_size T).

Lemma MAX_DEPTH_ge_2 : (2 <= M)%nat.
Proof. pose proof (key_size_pos T). pose proof (MAX_DEPTH_eq T). lia. Qed.

Lemma key_space_eq : key_space T = 256 ^ Z.of_nat W.
Proof.
  unfold key_space. rewrite MAX_DEPTH_eq. apply pow16_even.
Qed.

Lemma key_space_bits : key_space T = 2 ^ bit_width T.
Proof. rewrite key_space_eq. unfold key_size. destruct T; reflexivity. Qed.

Lemma key_space_pos : 0 < key_space T.
Proof. unfold key_space. apply pow_pos_16. Qed.

Lemma path_of_length (K : Z) (j : nat) : length (path_of T K j) = (M - j)%nat.
Proof. unfold path_of. rewrite length_map, length_rev, length_seq. reflexivity. Qed.

Lemma path_of_top (K : Z) (j : nat) : (M <= j)%nat -> path_of T K j = [].
Proof.
  intros H. unfold path_of. replace (M - j)%nat with 0%nat by lia. reflexivity.
Qed.

Lemma path_of_snoc (K : Z) (j : nat) :
  (j < M)%nat -> path_of T K j = path_of T K (S j) ++ [digit K j].
Proof.
  intros H. unfold path_of.
  replace (M - j)%nat with (S (M - S j)) by lia.
  cbn [seq rev]. rewrite map_app. reflexivity.
Qed.

Lemma path_of_digits_ok (K : Z) (j : nat) : digits_ok (path_of T K j).
Proof.
  unfold digits_ok, path_of. apply Forall_forall. intros x Hx.
  apply list_elem_of_In, in_map_iff in Hx. destruct Hx as (i & <- & _).
  apply digit_lt.
Qed.

Lemma path_of_block (K K' : Z) (j : nat) :
  K / 16 ^ Z.of_nat j = K' / 16 ^ Z.of_nat j ->
  path_of T K j = path_of T K' j.
Proof.
  intros E. unfold path_of. apply map_ext_in. intros i Hi.
  apply in_rev, in_seq in Hi. apply digit_block with j; [lia|assumption].
Qed.

Lemma path_of_inj (K K' : Z) :
  0 <= K < key_space T -> 0 <= K' < key_space T ->
  path_of T K 0 = path_of T K' 0 -> K = K'.
Proof.
  intros HK HK' E. unfold path_of in E.
  assert (Hd : forall i, (i < M)%nat -> digit K i = digit K' i).
  { intros i Hi. apply (proj1 map_ext_in_iff E).
    rewrite <- in_rev. apply in_seq. lia. }
  apply digits_mod in Hd. unfold key_space in *.
  rewrite !Z.mod_small in Hd by lia. exact Hd.
Qed.

(** The leaf of a key lies under every slot of its path. *)
Lemma path_of_split (K : Z) (j : nat) :
  (j <= M)%nat ->
  path_of T K 0 = path_of T K j ++ map (digit K) (rev (seq 0 j)).
Proof.
  intros H. unfold path_of. rewrite <- map_app, <- rev_app_distr.
  rewrite Nat.sub_0_r.
  replace M with (j + (M - j))%nat at 1 by lia.
  rewrite seq_app. reflexivity.
Qed.

Lemma leaf_under_empty root (K : Z) (j : nat) :
  (j <= M)%nat -> load root (path_of T K j) = empty_node_ptr ->
  present T root K = false.
Proof.
  intros Hj He. unfold present, leaf.
  rewrite (path_of_split K j Hj), load_app, He, load_empty. reflexivity.
Qed.

(** *** Key buffers as numbers *)

Lemma buffer_overflow_byte (kb : list Z) :
  key_buffer T kb ->
  kb !!! W = (le_num kb / key_space T) mod 256.
Proof.
  intros [Hl Hb]. rewrite key_space_eq. apply byte_at; [assumption|lia].
Qed.

Lemma buffer_bound (kb : list Z) :
  key_buffer T kb -> 0 <= le_num kb < 256 * key_space T.
Proof.
  intros [Hl Hb]. pose proof (le_num_bound kb Hb) as H.
  rewrite Hl, Nat2Z.inj_add, Z.pow_add_r in H by lia.
  rewrite key_space_eq. simpl (256 ^ Z.of_nat 1) in H. lia.
Qed.

Lemma buffer_in_range (kb : list Z) :
  key_buffer T kb -> kb !!! W = 0 -> 0 <= le_num kb < key_space T.
Proof.
  intros Hkb Hov. pose proof (buffer_bound kb Hkb) as Hb.
  rewrite (buffer_overflow_byte kb Hkb) in Hov.
  pose proof key_space_pos.
  assert (le_num kb / key_space T < 256)
    by (apply Z.div_lt_upper_bound; lia).
  assert (0 <= le_num kb / key_space T) by (apply Z.div_pos; lia).
  rewrite Z.mod_small in Hov by lia.
  split; [lia|]. apply Z.div_small_iff in Hov; lia.
Qed.

Lemma buffer_eq (kb kb' : list Z) :
  key_buffer T kb -> key_buffer T kb' -> le_num kb = le_num kb' -> kb = kb'.
Proof.
  intros [Hl Hb] [Hl' Hb'] E.
  rewrite <- (le_bytes_le_num kb Hb), <- (le_bytes_le_num kb' Hb').
  rewrite Hl, Hl', E. reflexivity.
Qed.

Lemma buffer_path (kb : list Z) (j : nat) :
  key_buffer T kb ->
  map (tetradeValue kb) (rev (seq j (M - j))) = path_of T (le_num kb) j.
Proof.
  intros [Hl Hb]. unfold path_of. apply map_ext_in. intros i Hi.
  apply in_rev, in_seq in Hi. apply tetradeValue_digit; [assumption|].
  pose proof (MAX_DEPTH_eq T). lia.
Qed.

Lemma buffer_digit (kb : list Z) (i : nat) :
  key_buffer T kb -> (i < M + 2)%nat ->
  tetradeValue kb i = digit (le_num kb) i.
Proof.
  intros [Hl Hb] Hi. apply tetradeValue_digit; [assumption|].
  pose proof (MAX_DEPTH_eq T). lia.
Qed.

Lemma le_num_app (xs ys : list Z) :
  le_num (xs ++ ys) = le_num xs + 256 ^ Z.of_nat (length xs) * le_num ys.
Proof.
  induction xs as [|x xs IH]; cbn [app le_num length].
  - simpl. lia.
  - rewrite IH, Nat2Z.inj_succ, Z.pow_succ_r by lia. lia.
Qed.

Lemma to_bytes_length (k : Z) : length (to_bytes T k) = W.
Proof. apply le_bytes_length. Qed.

Lemma to_bytes_num (k : Z) :
  le_num (to_bytes T k) = to_unsigned (bit_width T) k.
Proof.
  unfold to_bytes. rewrite le_num_le_bytes.
  change (256 ^ Z.of_nat (sizeof T)) with (256 ^ Z.of_nat W).
  rewrite <- key_space_eq, key_space_bits. unfold to_unsigned.
  apply Z.mod_mod. pose proof (bit_width_pos T).
  apply Z.pow_nonzero; lia.
Qed.

(** The buffer the iterator constructor builds from a key. *)
Lemma key_buffer_of_key (k : Z) :
  key_buffer T (to_bytes T k ++ [0])
  /\ (to_bytes T k ++ [0]) !!! W = 0
  /\ le_num (to_bytes T k ++ [0]) = to_unsigned (bit_width T) k.
Proof.
  split; [split|split].
  - rewrite length_app, to_bytes_length. reflexivity.
  - apply Forall_app. split; [apply le_bytes_bytes|].
    repeat constructor; unfold is_byte; lia.
  - rewrite lookup_total_app_r by (rewrite to_bytes_length; lia).
    rewrite to_bytes_length, Nat.sub_diag. reflexivity.
  - rewrite le_num_app, to_bytes_num. simpl. lia.
Qed.

(** *** The pointer stack *)

Lemma fill_ptr_stack_loop_spec root (kb : list Z) (n : nat) r
    (st : list ptr_ref) :
  (n < length st)%nat ->
  let st' := fill_ptr_stack_loop root kb n r st in
  length st' = length st
  /\ (forall j, (j <= n)%nat ->
        st' !!! j
        = walk root r (map (tetradeValue kb) (rev (seq (j + 1) (n + 1 - j)))))
  /\ (forall j, (n < j)%nat -> st' !!! j = st !!! j).
Proof.
  revert r st. induction n as [|n IH]; intros r st Hn; cbv zeta.
  - cbn [fill_ptr_stack_loop]. rewrite length_insert.
    split; [reflexivity|]. split.
    + intros j Hj. replace j with 0%nat by lia.
      rewrite list_lookup_total_insert_eq by lia. reflexivity.
    + intros j Hj. apply list_lookup_total_insert_ne. lia.
  - cbn [fill_ptr_stack_loop].
    set (r' := next_plus root r (tetradeValue kb (S n + 1))).
    specialize (IH r' (<[S n := r']> st) ltac:(rewrite length_insert; lia)).
    cbv zeta in IH. destruct IH as (Hlen & Hlow & Hhigh).
    rewrite length_insert in Hlen.
    split; [assumption|]. split.
    + intros j Hj. destruct (decide (j = S n)) as [->|Hne].
      * rewrite Hhigh by lia. rewrite list_lookup_total_insert_eq by lia.
        replace (S n + 1 - S n)%nat with 1%nat by lia. reflexivity.
      * rewrite Hlow by lia.
        replace (S n + 1 - j)%nat with (S (n + 1 - j)) by lia.
        rewrite seq_S, rev_app_distr. cbn [rev app map walk].
        replace (j + 1 + (n + 1 - j))%nat with (S n + 1)%nat by lia.
        reflexivity.
    + intros j Hj. rewrite Hhigh by lia.
      apply list_lookup_total_insert_ne. lia.
Qed.

Lemma slot_of_top root (K : Z) : slot_of T root K (M - 1) = at_path [].
Proof.
  unfold slot_of. rewrite path_of_top; [reflexivity|].
  pose proof MAX_DEPTH_ge_2. lia.
Qed.

Lemma deref_slot_of root (K : Z) (j : nat) :
  deref root (slot_of T root K j) = load root (path_of T K (j + 1)).
Proof. unfold slot_of. rewrite deref_walk. reflexivity. Qed.

Lemma slot_of_block root (K K' : Z) (j : nat) :
  K / 16 ^ Z.of_nat (j + 1) = K' / 16 ^ Z.of_nat (j + 1) ->
  slot_of T root K j = slot_of T root K' j.
Proof. intros E. unfold slot_of. rewrite (path_of_block K K' _ E). reflexivity. Qed.

Lemma slot_of_step root (K : Z) (j : nat) :
  (j < M)%nat ->
  next_plus root (slot_of T root K j) (digit K j)
  = walk root (at_path []) (path_of T K j).
Proof.
  intros Hj. unfold slot_of.
  rewrite (path_of_snoc K j Hj), walk_app.
  replace (j + 1)%nat with (S j) by lia. reflexivity.
Qed.

(** What the iterator reads at [stack[d]->next[tetrade d]]. *)
Lemma tracked_target_slot root it (d : nat) :
  tracks T root it -> (depth it <= d < M)%nat ->
  target_slot root it d
  = walk root (at_path []) (path_of T (le_num (key_bytes it)) d).
Proof.
  intros (Hl & Hb & Hov & Hs & Hst) Hd. unfold target_slot.
  rewrite Hst by lia.
  rewrite buffer_digit by first [lia|split; assumption].
  apply slot_of_step. lia.
Qed.

Lemma tracked_target root it (d : nat) :
  tracks T root it -> (depth it <= d < M)%nat ->
  target root it d = load root (path_of T (le_num (key_bytes it)) d).
Proof.
  intros Ht Hd. unfold target.
  rewrite tracked_target_slot, deref_walk by assumption. reflexivity.
Qed.

Lemma tracked_target_slot_pred root it (d : nat) :
  tracks T root it -> (depth it <= S d < M)%nat ->
  target_slot root it (S d) = slot_of T root (le_num (key_bytes it)) d.
Proof.
  intros Ht Hd. rewrite tracked_target_slot by assumption.
  unfold slot_of. replace (d + 1)%nat with (S d) by lia. reflexivity.
Qed.

End Positions.

(** ** Bounded loops *)

Section LoopFacts.
Context {St Res : Type}.
Variable body : St -> St + Res.

Lemma while_nat_add (a b : nat) (s : St) :
  while_nat body (a + b) s
  = match while_nat body a s with
    | inl s' => while_nat body b s'
    | inr r => inr r
    end.
Proof.
  revert s. induction a as [|a IH]; intros s; simpl; [reflexivity|].
  destruct (body s); [apply IH|reflexivity].
Qed.

Lemma while_loop_nat (fuel : positive) (s : St) :
  while_loop body fuel s = while_nat body (Pos.to_nat fuel) s.
Proof.
  revert s. induction fuel as [f IH|f IH|]; intros s; cbn [while_loop].
  - rewrite Pos2Nat.inj_xI. cbn [while_nat].
    destruct (body s) as [s'|r]; [|reflexivity].
    replace (2 * Pos.to_nat f)%nat with (Pos.to_nat f + Pos.to_nat f)%nat by lia.
    rewrite while_nat_add, <- IH.
    destruct (while_loop body f s'); [apply IH|reflexivity].
  - rewrite Pos2Nat.inj_xO.
    replace (2 * Pos.to_nat f)%nat with (Pos.to_nat f + Pos.to_nat f)%nat by lia.
    rewrite while_nat_add, <- IH.
    destruct (while_loop body f s); [apply IH|reflexivity].
  - simpl. destruct (body s); reflexivity.
Qed.

End LoopFacts.

(** ** The successor / predecessor search *)

Section Search.
Context {mapped_type : Type}.
Variable T : key_type.
Implicit Types (root : ptr_t mapped_type) (it : iterator_base).

Local Abbreviation M := (MAX_DEPTH T).
Local Abbreviation W := (key_size T).

Lemma aligned_lower (dir : direction) (N : Z) (d : nat) :
  aligned dir N (S d) -> aligned dir N d.
Proof.
  unfold aligned. rewrite mod_pow16_S.
  rewrite Nat2Z.inj_succ, Z.pow_succ_r by lia.
  pose proof (pow_pos_16 d) as Hp.
  pose proof (Z.mod_pos_bound N (16 ^ Z.of_nat d) Hp) as Hm.
  pose proof (Z.mod_pos_bound (N / 16 ^ Z.of_nat d) 16 ltac:(lia)) as Hc.
  generalize dependent (N mod 16 ^ Z.of_nat d). intros m.
  generalize dependent ((N / 16 ^ Z.of_nat d) mod 16). intros c.
  generalize dependent (16 ^ Z.of_nat d). intros p. intros.
  destruct dir; nia.
Qed.

Lemma aligned_0 (dir : direction) (N : Z) : aligned dir N 0.
Proof. unfold aligned. simpl. rewrite Z.mod_1_r. destruct dir; reflexivity. Qed.

Lemma block_of_aligned (dir : direction) (N k : Z) (d : nat) :
  aligned dir N d -> ahead dir N k ->
  ~ ahead dir (N + sgn dir * 16 ^ Z.of_nat d) k ->
  k / 16 ^ Z.of_nat d = N / 16 ^ Z.of_nat d.
Proof.
  unfold aligned, ahead, sgn. pose proof (pow_pos_16 d) as Hp.
  pose proof (Z.div_mod N (16 ^ Z.of_nat d) ltac:(lia)) as HN.
  generalize dependent (N / 16 ^ Z.of_nat d). intros a.
  generalize dependent (N mod 16 ^ Z.of_nat d). intros m.
  generalize dependent (16 ^ Z.of_nat d). intros p. intros.
  symmetry. destruct dir.
  - apply Z.div_unique with (r := k - N); nia.
  - apply Z.div_unique with (r := k - p * a); nia.
Qed.

Lemma ahead_step (dir : direction) (N k : Z) (d : nat) :
  ahead dir (N + sgn dir * 16 ^ Z.of_nat d) k -> ahead dir N k.
Proof.
  unfold ahead, sgn. pose proof (pow_pos_16 d). destruct dir; lia.
Qed.

Lemma ahead_refl (dir : direction) (N : Z) : ahead dir N N.
Proof. destruct dir; simpl; lia. Qed.

Lemma ahead_antisym (dir : direction) (a b : Z) :
  ahead dir a b -> ahead dir b a -> a = b.
Proof. destruct dir; simpl; lia. Qed.

Lemma ahead_strict (dir : direction) (N k : Z) :
  ahead dir N k -> k <> N -> ahead dir (N + sgn dir) k.
Proof. destruct dir; simpl; lia. Qed.

Lemma ahead_weaken (dir : direction) (N k : Z) :
  ahead dir (N + sgn dir) k -> ahead dir N k.
Proof. destruct dir; simpl; lia. Qed.

Lemma first_from_here root (dir : direction) (N K' : Z) :
  present T root N = true -> 0 <= N < key_space T ->
  first_from T root dir N K' -> K' = N.
Proof.
  intros Hp Hr (Hp' & Hr' & Ha & Hmin).
  apply (ahead_antisym dir); [|assumption].
  apply Hmin; [assumption|assumption|apply ahead_refl].
Qed.

Lemma none_from_here root (dir : direction) (N : Z) :
  present T root N = true -> 0 <= N < key_space T ->
  none_from T root dir N -> False.
Proof.
  intros Hp Hr Hn. rewrite (Hn N Hr (ahead_refl dir N)) in Hp. discriminate.
Qed.

Lemma first_from_skip root (dir : direction) (L L' K' : Z) :
  (forall k, 0 <= k < key_space T -> ahead dir L k -> ~ ahead dir L' k ->
             present T root k = false) ->
  (forall k, ahead dir L' k -> ahead dir L k) ->
  first_from T root dir L K' -> first_from T root dir L' K'.
Proof.
  intros Hgap Hmono (Hp & Hr & Ha & Hmin).
  split; [assumption|]. split; [assumption|]. split.
  - destruct dir; simpl in *.
    + destruct (Z.le_gt_cases L' K'); [assumption|].
      rewrite (Hgap K' Hr Ha ltac:(lia)) in Hp. discriminate.
    + destruct (Z.le_gt_cases K' L'); [assumption|].
      rewrite (Hgap K' Hr Ha ltac:(lia)) in Hp. discriminate.
  - intros k Hk Hpk Hak. apply Hmin; auto.
Qed.

Lemma none_from_mono root (dir : direction) (L L' : Z) :
  (forall k, ahead dir L' k -> ahead dir L k) ->
  none_from T root dir L -> none_from T root dir L'.
Proof. intros Hmono Hn k Hk Ha. apply Hn; auto. Qed.

Lemma first_from_beyond root (dir : direction) (N K' : Z) :
  beyond T dir N -> first_from T root dir N K' -> False.
Proof.
  intros Hb (_ & Hr & Ha & _). destruct dir; simpl in *; lia.
Qed.

Lemma none_from_beyond root (dir : direction) (N : Z) :
  beyond T dir N -> none_from T root dir N.
Proof.
  intros Hb k Hk Ha. destruct dir; simpl in *; lia.
Qed.

(** The two counters, in the terms the search needs. *)
Lemma quartet_spec (dir : direction) (kb : list Z) (d : nat) :
  key_buffer T kb -> kb !!! W = 0 -> (d < M)%nat ->
  aligned dir (le_num kb) d ->
  exists kb' r,
    quartet_of T dir kb d = (kb', r)
    /\ key_buffer T kb'
    /\ let N := le_num kb in
       let N' := N + sgn dir * 16 ^ Z.of_nat d in
       ((0 <= N' < key_space T /\ le_num kb' = N' /\ kb' !!! W = 0
         /\ (d + r < M)%nat /\ aligned dir N' (d + r)
         /\ N' / 16 ^ Z.of_nat (d + r + 1) = N / 16 ^ Z.of_nat (d + r + 1))
        \/ (beyond T dir N' /\ (M <= d + r)%nat /\ kb' !!! W = exit_byte dir)).
Proof.
  intros Hkb Hov Hd Hal. pose proof (buffer_in_range T kb Hkb Hov) as HN.
  destruct dir; cbn [quartet_of sgn].
  - unfold incrQuartet.
    destruct (incrQuartet_rec_spec T (M + 2) kb d Hkb Hov ltac:(lia) ltac:(lia))
      as (kb' & r & Hrun & Hkb' & Hnum & Htr & Hstop & Hbound & Hov').
    exists kb', r. split; [assumption|]. split; [assumption|]. cbv zeta.
    rewrite Z.mul_1_l.
    assert (Htr' : forall i, (d <= i < d + r)%nat -> digit (le_num kb) i = 15%nat).
    { intros i Hi. rewrite <- (buffer_digit T) by (assumption || lia). auto. }
    assert (Hstop' : digit (le_num kb) (d + r) <> 15%nat).
    { rewrite <- (buffer_digit T) by (assumption || lia). assumption. }
    destruct (Nat.eqb_spec (d + r) M) as [E|E].
    + right. split; [|split; [lia|assumption]].
      simpl. rewrite <- Hnum.
      pose proof (buffer_overflow_byte T kb' Hkb') as Hb. rewrite Hov' in Hb.
      pose proof (key_space_pos T).
      destruct (Z.le_gt_cases (key_space T) (le_num kb')); [assumption|].
      pose proof (buffer_bound T kb' Hkb').
      rewrite Z.div_small in Hb by lia. discriminate.
    + left. pose proof (buffer_in_range T kb' Hkb' Hov') as HN'.
      rewrite Hnum in HN'. split; [assumption|]. split; [assumption|].
      split; [assumption|]. split; [lia|]. split.
      * unfold aligned in *. destruct (carry_arith _ _ _ Htr') as [_ Hm].
        rewrite Hm. assumption.
      * apply carry_stop; assumption.
  - unfold decrQuartet.
    destruct (decrQuartet_rec_spec T (M + 2) kb d Hkb Hov ltac:(lia) ltac:(lia))
      as (kb' & r & Hrun & Hkb' & Htr & Hres).
    exists kb', r. split; [assumption|]. split; [assumption|]. cbv zeta.
    replace (le_num kb + -1 * 16 ^ Z.of_nat d) with (le_num kb - 16 ^ Z.of_nat d)
      by lia.
    destruct Hres as [(Hlt & Hstop & Hnum & Hov')|(Hge & Hov')].
    + left.
      assert (Htr' : forall i, (d <= i < d + r)%nat -> digit (le_num kb) i = 0%nat).
      { intros i Hi. rewrite <- (buffer_digit T) by (assumption || lia).
        apply Htr; lia. }
      assert (Hstop' : digit (le_num kb) (d + r) <> 0%nat).
      { rewrite <- (buffer_digit T) by (assumption || lia). assumption. }
      pose proof (buffer_in_range T kb' Hkb' Hov') as HN'.
      rewrite Hnum in HN'. split; [assumption|]. split; [assumption|].
      split; [assumption|]. split; [lia|]. split.
      * unfold aligned in *. destruct (borrow_arith _ _ _ Htr') as [_ Hm].
        rewrite Hm, Hal. lia.
      * apply borrow_stop; assumption.
    + right. split; [|split; assumption].
      simpl. enough (le_num kb < 16 ^ Z.of_nat d) by lia.
      apply digits_zero_high with M; [exact HN|lia|].
      intros i Hi. rewrite <- (buffer_digit T) by (assumption || lia).
      apply Htr; lia.
Qed.


Lemma seek_body_exhausted (dir : direction) root it :
  (M <= depth it)%nat ->
  seek_body T (quartet_of T dir) root it = inr (it, false).
Proof.
  intros H. unfold seek_body.
  destruct (Nat.ltb_spec (depth it) M); [lia|reflexivity].
Qed.

Lemma present_target root it :
  tracks T root it -> depth it = 0%nat ->
  negb (is_empty_node (target root it 0))
  = present T root (le_num (key_bytes it)).
Proof.
  intros Ht Hd. rewrite (tracked_target T root it 0 Ht).
  - reflexivity.
  - pose proof (MAX_DEPTH_ge_2 T). lia.
Qed.

Lemma bound_settle_first root (dir : direction) (N K' : Z) (d : nat) :
  (d = 0%nat -> present T root N = false) ->
  first_from T root dir N K' -> first_from T root dir (bound_of dir N d) K'.
Proof.
  intros Hp Hf. unfold bound_of. destruct (Nat.eqb_spec d 0); [|assumption].
  apply first_from_skip with N; [| |assumption].
  - intros k Hk Ha Hn. destruct (Z.eq_dec k N) as [->|Hne]; [auto|].
    exfalso. apply Hn. apply ahead_strict; assumption.
  - intros k. apply ahead_weaken.
Qed.

Lemma bound_settle_none root (dir : direction) (N : Z) (d : nat) :
  none_from T root dir N -> none_from T root dir (bound_of dir N d).
Proof.
  intros Hn. unfold bound_of. destruct (Nat.eqb_spec d 0); [|assumption].
  apply none_from_mono with N; [|assumption]. intros k. apply ahead_weaken.
Qed.

Lemma seek_body_unfold (quartet : list Z -> nat -> list Z * nat) root it :
  seek_body T quartet root it
  = if (depth it <? M)%nat then
      seek_check T root
        (if negb (depth it =? 0)%nat
            && negb (is_empty_node (target root it (depth it)))
         then
           set_depth
             (set_stack it
                (<[(depth it - 1)%nat := target_slot root it (depth it)]>
                   (stack it)))
             (depth it - 1)
         else
           set_depth (set_key_bytes it (fst (quartet (key_bytes it) (depth it))))
             (depth it + snd (quartet (key_bytes it) (depth it))))
    else inr (it, false).
Proof.
  unfold seek_body, seek_check.
  destruct (depth it <? M)%nat; [|reflexivity].
  destruct (negb (depth it =? 0)%nat
            && negb (is_empty_node (target root it (depth it))));
    [reflexivity|].
  destruct (quartet (key_bytes it) (depth it)). reflexivity.
Qed.

(** The check that ends a round of the loop. *)
Lemma seek_finish root it1 :
  tracks T root it1 ->
  let N1 := le_num (key_bytes it1) in
  (exists it', seek_check T root it1 = inr (it', true) /\ denotes T root it' N1)
  \/ (seek_check T root it1 = inl it1
      /\ (depth it1 = 0%nat -> present T root N1 = false)).
Proof.
  intros Ht. cbv zeta. unfold seek_check.
  destruct (Nat.eqb_spec (depth it1) 0) as [Hd|Hd]; cbn [andb].
  - rewrite (present_target root it1 Ht Hd).
    destruct (present T root (le_num (key_bytes it1))) eqn:Hp.
    + left. eexists. split; [reflexivity|].
      split; [exact Ht|]. split; [exact Hd|]. split; [reflexivity|].
      split; [exact Hp|reflexivity].
    + right. split; [reflexivity|]. intros _. reflexivity.
  - right. split; [reflexivity|]. intros E. contradiction.
Qed.

Lemma seek_measure_descend (dir : direction) it (st : list ptr_ref) (d : nat) :
  (d < depth it)%nat ->
  (seek_measure T dir (set_depth (set_stack it st) d) < seek_measure T dir it)%nat.
Proof. intros H. unfold seek_measure. simpl. lia. Qed.

Lemma seek_measure_move (dir : direction) it (kb' : list Z) (d' : nat) :
  0 <= le_num (key_bytes it) < key_space T ->
  0 <= le_num kb' < key_space T ->
  ahead dir (le_num (key_bytes it) + sgn dir) (le_num kb') ->
  (d' < M)%nat ->
  (seek_measure T dir (set_depth (set_key_bytes it kb') d')
   < seek_measure T dir it)%nat.
Proof.
  intros HN HN' Ha Hd. unfold seek_measure. simpl.
  destruct dir; simpl in Ha; nia.
Qed.

(** One round of the loop from a tracked, aligned position. *)
Lemma seek_body_spec (dir : direction) root it :
  tracks T root it -> (depth it < M)%nat ->
  aligned dir (le_num (key_bytes it)) (depth it) ->
  let L := bound_of dir (le_num (key_bytes it)) (depth it) in
  (exists it',
      seek_body T (quartet_of T dir) root it = inr (it', true)
      /\ denotes T root it' (le_num (key_bytes it'))
      /\ (forall K', first_from T root dir L K' -> K' = le_num (key_bytes it'))
      /\ (none_from T root dir L -> False))
  \/ (exists it1,
      seek_body T (quartet_of T dir) root it = inl it1
      /\ tracks T root it1 /\ (depth it1 < M)%nat
      /\ aligned dir (le_num (key_bytes it1)) (depth it1)
      /\ (seek_measure T dir it1 < seek_measure T dir it)%nat
      /\ (forall K', first_from T root dir L K' ->
            first_from T root dir
              (bound_of dir (le_num (key_bytes it1)) (depth it1)) K')
      /\ (none_from T root dir L ->
            none_from T root dir
              (bound_of dir (le_num (key_bytes it1)) (depth it1))))
  \/ (exists it1,
      seek_body T (quartet_of T dir) root it = inl it1
      /\ (M <= depth it1)%nat
      /\ key_buffer T (key_bytes it1)
      /\ key_bytes it1 !!! W = exit_byte dir
      /\ (forall K', ~ first_from T root dir L K')).
Proof.
  intros Ht Hd Hal. cbv zeta.
  pose proof Ht as (Hl & Hb & Hov & Hs & Hst).
  assert (Hkb : key_buffer T (key_bytes it)) by (split; assumption).
  pose proof (buffer_in_range T _ Hkb Hov) as HN.
  set (N := le_num (key_bytes it)) in *.
  rewrite seek_body_unfold.
  destruct (Nat.ltb_spec (depth it) M) as [_|]; [|lia].
  destruct (negb (depth it =? 0)%nat
            && negb (is_empty_node (target root it (depth it)))) eqn:Hbr.
  - (* descend into the child *)
    apply andb_true_iff in Hbr. destruct Hbr as [Hd0 Hne].
    apply negb_true_iff, Nat.eqb_neq in Hd0.
    set (it1 := set_depth
                  (set_stack it
                     (<[(depth it - 1)%nat := target_slot root it (depth it)]>
                        (stack it)))
                  (depth it - 1)).
    assert (Ht1 : tracks T root it1).
    { split; [exact Hl|]. split; [exact Hb|]. split; [exact Hov|].
      split; [simpl; rewrite length_insert; exact Hs|].
      intros j Hj. simpl in Hj |- *.
      destruct (decide (j = depth it - 1)%nat) as [->|Hne'].
      - rewrite list_lookup_total_insert_eq by lia.
        replace (depth it) with (S (depth it - 1)) at 1 by lia.
        apply tracked_target_slot_pred; [assumption|lia].
      - rewrite list_lookup_total_insert_ne by lia. apply Hst. lia. }
    assert (Hal1 : aligned dir N (depth it - 1)).
    { apply aligned_lower. replace (S (depth it - 1)) with (depth it) by lia.
      assumption. }
    assert (HL : bound_of dir N (depth it) = N).
    { unfold bound_of. destruct (Nat.eqb_spec (depth it) 0); [lia|reflexivity]. }
    rewrite HL.
    fold it1.
    destruct (seek_finish root it1 Ht1) as [(it' & Hout & Hden)|(Hout & Hp)];
      rewrite Hout.
    + left. exists it'. split; [reflexivity|].
      assert (HK : le_num (key_bytes it') = N) by apply Hden.
      rewrite HK. split; [exact Hden|]. split.
      * intros K' HK'. apply (first_from_here root dir); try assumption.
        apply Hden.
      * intros Hn. apply (none_from_here root dir N); try assumption.
        apply Hden.
    + right. left. exists it1. split; [reflexivity|].
      split; [assumption|]. split; [simpl; lia|]. split; [exact Hal1|].
      split; [apply seek_measure_descend; lia|]. split.
      * intros K' HK'. apply bound_settle_first; assumption.
      * intros Hn. apply bound_settle_none; assumption.
  - (* move the counter *)
    assert (Hgap : depth it <> 0%nat ->
                   load root (path_of T N (depth it)) = empty_node_ptr).
    { intros Hd0. apply andb_false_iff in Hbr. destruct Hbr as [Hbr|Hbr].
      - apply negb_false_iff, Nat.eqb_eq in Hbr. contradiction.
      - apply negb_false_iff in Hbr.
        rewrite (tracked_target T root it (depth it) Ht) in Hbr by lia.
        fold N in Hbr.
        destruct (load root (path_of T N (depth it))); try discriminate.
        reflexivity. }
    set (N' := N + sgn dir * 16 ^ Z.of_nat (depth it)).
    assert (Hmove_first : forall K',
              first_from T root dir (bound_of dir N (depth it)) K' ->
              first_from T root dir N' K').
    { intros K' HK'. unfold bound_of in HK'.
      destruct (Nat.eqb_spec (depth it) 0) as [E|E].
      - unfold N'. rewrite E. simpl (16 ^ Z.of_nat 0). rewrite Z.mul_1_r.
        assumption.
      - apply first_from_skip with N; [| |assumption].
        + intros k Hk Ha Hn. apply leaf_under_empty with (depth it); [lia|].
          rewrite (path_of_block T k N); [auto|].
          apply (block_of_aligned dir); assumption.
        + intros k. apply ahead_step. }
    assert (Hmove_none : none_from T root dir (bound_of dir N (depth it)) ->
                         none_from T root dir N').
    { intros Hn. unfold bound_of in Hn.
      destruct (Nat.eqb_spec (depth it) 0) as [E|E].
      - unfold N'. rewrite E. simpl (16 ^ Z.of_nat 0). rewrite Z.mul_1_r.
        assumption.
      - apply none_from_mono with N; [|assumption]. intros k. apply ahead_step. }
    destruct (quartet_spec dir (key_bytes it) (depth it) Hkb Hov Hd Hal)
      as (kb' & r & Hq & Hkb' & Hres).
    rewrite Hq. cbn [fst snd]. cbv zeta in Hres. fold N in Hres. fold N' in Hres.
    set (it1 := set_depth (set_key_bytes it kb') (depth it + r)).
    destruct Hres as [(HN' & Hnum & Hov' & Hlt & Hal' & Hdiv)|(Hbey & Hge & Hov')].
    + (* still inside the key range *)
      assert (Ht1 : tracks T root it1).
      { destruct Hkb' as [Hl' Hb'].
        split; [exact Hl'|]. split; [exact Hb'|]. split; [exact Hov'|].
        split; [exact Hs|].
        intros j Hj. simpl in Hj |- *. rewrite Hst by lia. rewrite Hnum.
        apply slot_of_block. symmetry.
        apply div_block_mono with (depth it + r + 1)%nat; [lia|assumption]. }
      assert (Hmeas : (seek_measure T dir it1 < seek_measure T dir it)%nat).
      { apply seek_measure_move; rewrite ?Hnum; try assumption.
        fold N. unfold N'. pose proof (pow_pos_16 (depth it)).
        destruct dir; simpl; lia. }
      destruct (seek_finish root it1 Ht1) as [(it' & Hout & Hden)|(Hout & Hp)];
        rewrite Hout.
      * left. exists it'. split; [reflexivity|].
        assert (HK : le_num (key_bytes it') = N').
        { destruct Hden as (_ & _ & E & _). simpl in E. rewrite E.
          exact Hnum. }
        rewrite HK.
        assert (Hden' : denotes T root it' N').
        { simpl in Hden. rewrite Hnum in Hden. exact Hden. }
        split; [exact Hden'|]. split.
        -- intros K' HK'. apply (first_from_here root dir); try assumption.
           ++ apply Hden'.
           ++ apply Hmove_first. assumption.
        -- intros Hn. apply (none_from_here root dir N'); try assumption.
           ++ apply Hden'.
           ++ apply Hmove_none. assumption.
      * right. left. exists it1. split; [reflexivity|].
        split; [assumption|]. split; [simpl; lia|].
        simpl key_bytes. simpl depth. rewrite Hnum.
        split; [exact Hal'|]. split; [exact Hmeas|]. split.
        -- intros K' HK'. apply bound_settle_first.
           ++ simpl in Hp. rewrite Hnum in Hp. exact Hp.
           ++ apply Hmove_first. assumption.
        -- intros Hn. apply bound_settle_none. apply Hmove_none. assumption.
    + (* the counter left the key range *)
      right. right. exists it1.
      pose proof (MAX_DEPTH_ge_2 T).
      split.
      { unfold seek_check.
        destruct (Nat.eqb_spec (depth it1) 0) as [E|E];
          [simpl in E; lia|reflexivity]. }
      split; [simpl; lia|]. split; [exact Hkb'|]. split; [exact Hov'|].
      intros K' HK'. apply (first_from_beyond root dir N' K'); [assumption|].
      apply Hmove_first. assumption.
Qed.

End Search.

Section SearchLoop.
Context {mapped_type : Type}.
Variable T : key_type.
Implicit Types (root : ptr_t mapped_type) (it : iterator_base).

Local Abbreviation M := (MAX_DEPTH T).
Local Abbreviation W := (key_size T).

(** The loop, by induction on the rounds it is allowed. *)
Lemma seek_nat_spec (dir : direction) root (fuel : nat) it :
  tracks T root it -> (depth it < M)%nat ->
  aligned dir (le_num (key_bytes it)) (depth it) ->
  (seek_measure T dir it + 1 < fuel)%nat ->
  let L := bound_of dir (le_num (key_bytes it)) (depth it) in
  (forall K', first_from T root dir L K' ->
     exists it',
       while_nat (seek_body T (quartet_of T dir) root) fuel it = inr (it', true)
       /\ denotes T root it' K')
  /\ (none_from T root dir L ->
      exists it',
        while_nat (seek_body T (quartet_of T dir) root) fuel it = inr (it', false)
        /\ (M <= depth it')%nat /\ key_buffer T (key_bytes it')
        /\ key_bytes it' !!! W = exit_byte dir).
Proof.
  revert it. induction fuel as [|fuel IH]; intros it Ht Hd Hal Hfuel; [lia|].
  cbv zeta. cbn [while_nat].
  destruct (seek_body_spec T dir root it Ht Hd Hal)
    as [(it' & Hrun & Hden & Hfirst & Hnone)
       |[(it1 & Hrun & Ht1 & Hd1 & Hal1 & Hmeas & Hfirst & Hnone)
        |(it1 & Hrun & Hd1 & Hkb1 & Hov1 & Hfirst)]];
    cbv zeta in *; rewrite Hrun.
  - split.
    + intros K' HK'. exists it'. split; [reflexivity|].
      rewrite (Hfirst K' HK'). exact Hden.
    + intros Hn. exfalso. auto.
  - destruct (IH it1 Ht1 Hd1 Hal1 ltac:(lia)) as [IHf IHn]. cbv zeta in *.
    split.
    + intros K' HK'. apply IHf. apply Hfirst. assumption.
    + intros Hn. apply IHn. apply Hnone. assumption.
  - split.
    + intros K' HK'. exfalso. apply (Hfirst K'). assumption.
    + intros _. exists it1.
      destruct fuel as [|fuel]; [lia|]. cbn [while_nat].
      rewrite seek_body_exhausted by assumption.
      split; [reflexivity|]. split; [assumption|]. split; assumption.
Qed.


Lemma seek_bound_enough (dir : direction) it :
  0 <= le_num (key_bytes it) < key_space T -> (depth it < M)%nat ->
  (seek_measure T dir it + 1 < Pos.to_nat (seek_bound T))%nat.
Proof.
  intros HN Hd. unfold seek_measure, seek_bound.
  rewrite Z.pow_add_r by lia.
  rewrite <- (key_space_eq T). change (256 ^ 1) with 256.
  pose proof (key_space_pos T) as Hk.
  set (k := key_space T) in *.
  assert (Hr : (Z.to_nat (match dir with Up => k - le_num (key_bytes it)
                                   | Down => le_num (key_bytes it) + 1 end)
                <= Z.to_nat k)%nat) by (destruct dir; lia).
  set (r := Z.to_nat (match dir with Up => k - le_num (key_bytes it)
                             | Down => le_num (key_bytes it) + 1 end)) in *.
  assert (Hpos : 0 < k * 256 * (Z.of_nat M + 1) + Z.of_nat M + 1) by nia.
  apply Nat2Z.inj_lt. rewrite positive_nat_Z, Z2Pos.id by exact Hpos.
  apply Nat2Z.inj_le in Hr. rewrite (Z2Nat.id k) in Hr by lia.
  rewrite !Nat2Z.inj_add, Nat2Z.inj_mul, Nat2Z.inj_add.
  simpl (Z.of_nat 1). nia.
Qed.

Lemma seek_loop_first (dir : direction) root it (K' : Z) :
  tracks T root it -> (depth it < M)%nat ->
  aligned dir (le_num (key_bytes it)) (depth it) ->
  first_from T root dir (bound_of dir (le_num (key_bytes it)) (depth it)) K' ->
  exists it',
    seek_loop T (quartet_of T dir) root it = (it', true)
    /\ denotes T root it' K'.
Proof.
  intros Ht Hd Hal HK'. unfold seek_loop. rewrite while_loop_nat.
  pose proof Ht as (Hl & Hb & Hov & _).
  pose proof (buffer_in_range T _ (conj Hl Hb) Hov) as HN.
  destruct (seek_nat_spec dir root _ it Ht Hd Hal (seek_bound_enough dir it HN Hd))
    as [Hf _].
  destruct (Hf K' HK') as (it' & Hrun & Hden). rewrite Hrun. eauto.
Qed.

Lemma seek_loop_none (dir : direction) root it :
  tracks T root it -> (depth it < M)%nat ->
  aligned dir (le_num (key_bytes it)) (depth it) ->
  none_from T root dir (bound_of dir (le_num (key_bytes it)) (depth it)) ->
  exists it',
    seek_loop T (quartet_of T dir) root it = (it', false)
    /\ (M <= depth it')%nat /\ key_buffer T (key_bytes it')
    /\ key_bytes it' !!! W = exit_byte dir.
Proof.
  intros Ht Hd Hal Hn. unfold seek_loop. rewrite while_loop_nat.
  pose proof Ht as (Hl & Hb & Hov & _).
  pose proof (buffer_in_range T _ (conj Hl Hb) Hov) as HN.
  destruct (seek_nat_spec dir root _ it Ht Hd Hal (seek_bound_enough dir it HN Hd))
    as [_ Hf].
  destruct (Hf Hn) as (it' & Hrun & Hres). rewrite Hrun. eauto.
Qed.

Lemma seek_loop_exhausted (dir : direction) root it :
  (M <= depth it)%nat ->
  seek_loop T (quartet_of T dir) root it = (it, false).
Proof.
  intros Hd. unfold seek_loop. rewrite while_loop_nat.
  destruct (Pos.to_nat (seek_bound T)) eqn:E; [lia|].
  cbn [while_nat]. rewrite seek_body_exhausted by assumption. reflexivity.
Qed.

(** Either some stored key lies at or beyond a bound, or none does. *)
Lemma first_or_none root (dir : direction) (L : Z) :
  (exists K', first_from T root dir L K') \/ none_from T root dir L.
Proof.
  remember (Z.to_nat (match dir with Up => key_space T - L | Down => L + 1 end))
    as n eqn:Hn.
  revert L Hn. induction n as [|n IH]; intros L Hn.
  - right. apply none_from_beyond. destruct dir; simpl; lia.
  - destruct (decide (0 <= L < key_space T /\ present T root L = true))
      as [[Hr Hp]|Hno].
    + left. exists L. split; [assumption|]. split; [assumption|].
      split; [apply ahead_refl|]. auto.
    + assert (Hgap : forall k, 0 <= k < key_space T -> ahead dir L k ->
                       ~ ahead dir (L + sgn dir) k -> present T root k = false).
      { intros k Hk Ha Hna. destruct (Z.eq_dec k L) as [->|Hne].
        - destruct (present T root L); [exfalso; auto|reflexivity].
        - exfalso. apply Hna. apply ahead_strict; assumption. }
      destruct (IH (L + sgn dir) ltac:(destruct dir; simpl; lia))
        as [(K' & HK')|Hnone].
      * left. exists K'. destruct HK' as (Hp & Hr & Ha & Hmin).
        split; [assumption|]. split; [assumption|].
        split; [apply ahead_weaken; assumption|].
        intros k Hk Hpk Hak. apply Hmin; try assumption.
        destruct dir; simpl in *.
        -- destruct (Z.le_gt_cases (L + 1) k); [assumption|].
           rewrite (Hgap k Hk Hak ltac:(lia)) in Hpk. discriminate.
        -- destruct (Z.le_gt_cases k (L + -1)); [assumption|].
           rewrite (Hgap k Hk Hak ltac:(lia)) in Hpk. discriminate.
      * right. intros k Hk Ha. destruct (Z.eq_dec k L) as [->|Hne].
        -- destruct (present T root L); [exfalso; auto|reflexivity].
        -- apply Hnone; [assumption|]. apply ahead_strict; assumption.
Qed.


(** ** The iterator operations *)

Lemma memset_edge (kb : list Z) (c x : Z) :
  length kb = (W + 1)%nat ->
  <[W := x]> (memset kb c W) = replicate W c ++ [x].
Proof.
  intros Hl. unfold memset.
  rewrite insert_app_r_alt by (rewrite length_replicate; lia).
  rewrite length_replicate, Nat.sub_diag.
  destruct (drop W kb) as [|y [|z l]] eqn:E.
  - apply (f_equal length) in E. rewrite length_drop in E. simpl in E. lia.
  - reflexivity.
  - apply (f_equal length) in E. rewrite length_drop in E. simpl in E. lia.
Qed.

Lemma memset_after_clear (kb : list Z) (c : Z) :
  length kb = (W + 1)%nat ->
  memset (<[W := 0]> kb) c W = replicate W c ++ [0].
Proof.
  intros Hl. unfold memset. f_equal.
  rewrite drop_insert_ge by lia. rewrite Nat.sub_diag.
  destruct (drop W kb) as [|y [|z l]] eqn:E.
  - apply (f_equal length) in E. rewrite length_drop in E. simpl in E. lia.
  - reflexivity.
  - apply (f_equal length) in E. rewrite length_drop in E. simpl in E. lia.
Qed.

Lemma le_num_replicate_0 (n : nat) : le_num (replicate n 0) = 0.
Proof. induction n; simpl; lia. Qed.

Lemma le_num_replicate_255 (n : nat) :
  le_num (replicate n 255) = 256 ^ Z.of_nat n - 1.
Proof.
  induction n as [|n IH]; [reflexivity|].
  cbn [replicate le_num]. rewrite IH, Nat2Z.inj_succ, Z.pow_succ_r by lia. lia.
Qed.

Lemma edge_buffer (c x : Z) :
  is_byte c -> is_byte x ->
  key_buffer T (replicate W c ++ [x])
  /\ (replicate W c ++ [x]) !!! W = x
  /\ le_num (replicate W c ++ [x]) = le_num (replicate W c) + key_space T * x.
Proof.
  intros Hc Hx. split; [split|split].
  - rewrite length_app, length_replicate. reflexivity.
  - apply Forall_app. split; [apply Forall_replicate; assumption|].
    constructor; [assumption|constructor].
  - rewrite lookup_total_app_r by (rewrite length_replicate; lia).
    rewrite length_replicate, Nat.sub_diag. reflexivity.
  - rewrite le_num_app, length_replicate, key_space_eq. simpl. lia.
Qed.

(** Reading a key back from its bytes and writing it again. *)
Lemma to_signed_unsigned (w x : Z) :
  0 < w -> to_unsigned w (to_signed w x) = to_unsigned w x.
Proof.
  intros Hw. unfold to_unsigned, to_signed.
  assert (0 < 2 ^ w) by (apply Z.pow_pos_nonneg; lia).
  destruct (x mod 2 ^ w <? 2 ^ (w - 1)).
  - apply Z.mod_mod. lia.
  - replace (x mod 2 ^ w - 2 ^ w) with (x mod 2 ^ w + (-1) * 2 ^ w) by lia.
    rewrite Z.mod_add by lia. apply Z.mod_mod. lia.
Qed.

Lemma of_bytes_unsigned (bs : list Z) :
  length bs = W -> Forall is_byte bs ->
  to_unsigned (bit_width T) (of_bytes T bs) = le_num bs.
Proof.
  intros Hl Hb. pose proof (le_num_bound bs Hb) as Hn.
  rewrite Hl, <- (key_space_eq T), key_space_bits in Hn.
  unfold of_bytes. destruct (is_integer T).
  - rewrite to_signed_unsigned by apply bit_width_pos.
    unfold to_unsigned. apply Z.mod_small. assumption.
  - unfold to_unsigned. apply Z.mod_small. assumption.
Qed.

Lemma to_bytes_of_bytes (bs : list Z) :
  length bs = W -> Forall is_byte bs -> to_bytes T (of_bytes T bs) = bs.
Proof.
  intros Hl Hb. unfold to_bytes. rewrite of_bytes_unsigned by assumption.
  change (sizeof T) with W. rewrite <- Hl. apply le_bytes_le_num. assumption.
Qed.

Lemma of_bytes_to_bytes (k : Z) :
  representable T k -> of_bytes T (to_bytes T k) = k.
Proof.
  intros Hk. unfold of_bytes. rewrite to_bytes_num.
  unfold representable in Hk. unfold to_unsigned, to_signed.
  destruct (pow2_bit_width T) as [E Hp].
  destruct (is_integer T).
  - rewrite Z.mod_mod by lia. rewrite E.
    destruct (Z.lt_ge_cases k 0).
    + assert (Hm : k mod (2 * 2 ^ (bit_width T - 1))
                   = k + 2 * 2 ^ (bit_width T - 1))
        by (symmetry; apply Z.mod_unique with (q := -1); lia).
      rewrite Hm.
      destruct (Z.ltb_spec (k + 2 * 2 ^ (bit_width T - 1))
                  (2 ^ (bit_width T - 1))); lia.
    + rewrite Z.mod_small by lia.
      destruct (Z.ltb_spec k (2 ^ (bit_width T - 1))); lia.
  - apply Z.mod_small. lia.
Qed.

Lemma of_bytes_representable (bs : list Z) :
  length bs = W -> Forall is_byte bs -> representable T (of_bytes T bs).
Proof.
  intros Hl Hb. pose proof (le_num_bound bs Hb) as Hn.
  rewrite Hl, <- (key_space_eq T), key_space_bits in Hn.
  unfold representable, of_bytes, to_signed.
  destruct (pow2_bit_width T) as [E Hp].
  destruct (is_integer T); [|assumption].
  rewrite Z.mod_small by assumption.
  destruct (Z.ltb_spec (le_num bs) (2 ^ (bit_width T - 1))); lia.
Qed.

Lemma seek_depth_le root (st : list ptr_ref) (d : nat) :
  (seek_depth root st d <= d)%nat.
Proof.
  induction d as [|d IH]; cbn [seek_depth]; [lia|].
  destruct (negb _); lia.
Qed.

Lemma seek_depth_0 root (st : list ptr_ref) (d : nat) :
  (forall j, (1 <= j <= d)%nat -> is_empty_node (deref root (st !!! j)) = false) ->
  seek_depth root st d = 0%nat.
Proof.
  induction d as [|d IH]; intros H; cbn [seek_depth]; [reflexivity|].
  rewrite (H (S d)) by lia. simpl. apply IH. intros j Hj. apply H. lia.
Qed.

(** The state [iterator_base(root, key)] builds, before it caches the
    value. *)
Lemma iterator_base_key_spec root (key : Z) :
  let K := to_unsigned (bit_width T) key in
  exists it0,
    tracks T root it0 /\ le_num (key_bytes it0) = K /\ (depth it0 < M)%nat
    /\ (present T root K = true -> depth it0 = 0%nat)
    /\ iterator_base_key T root key
       = (if target_valid root it0
          then set_currentValue it0 (found_value T root it0 key)
          else it0)
    /\ key_bytes it0 = to_bytes T key ++ [0].
Proof.
  cbv zeta. unfold iterator_base_key.
  set (it1 := set_key_bytes (iterator_base_root T) (to_bytes T key ++ [0])).
  set (it2 := fill_ptr_stack T root it1).
  set (it0 := set_depth it2 (seek_depth root (stack it2) (M - 1))).
  exists it0.
  destruct (key_buffer_of_key T key) as ([Hl Hb] & Hov & Hnum).
  pose proof (MAX_DEPTH_ge_2 T) as HM.
  assert (Hst0 : stack it1 !!! (M - 1)%nat = at_path []).
  { simpl. apply list_lookup_total_insert_eq. rewrite length_replicate. lia. }
  assert (Hlen0 : length (stack it1) = M).
  { simpl. rewrite length_insert, length_replicate. reflexivity. }
  destruct (fill_ptr_stack_loop_spec root (key_bytes it1) (M - 2)
              (stack it1 !!! (M - 1)%nat) (stack it1) ltac:(lia))
    as (Hlen & Hlow & Hhigh).
  assert (Hslots : forall j, (j < M)%nat ->
            stack it2 !!! j = slot_of T root (le_num (key_bytes it1)) j).
  { intros j Hj. unfold it2, fill_ptr_stack. cbn [stack set_stack].
    destruct (decide (j <= M - 2)%nat) as [Hle|Hgt].
    - rewrite Hlow by assumption. rewrite Hst0.
      replace (M - 2 + 1 - j)%nat with (M - (j + 1))%nat by lia.
      rewrite (buffer_path T) by (split; assumption). reflexivity.
    - rewrite Hhigh by lia. replace j with (M - 1)%nat by lia.
      rewrite Hst0, slot_of_top. reflexivity. }
  assert (Ht : tracks T root it0).
  { split; [exact Hl|]. split; [exact Hb|]. split; [exact Hov|].
    split; [unfold it0, it2, fill_ptr_stack; cbn [stack set_stack set_depth];
            rewrite Hlen; exact Hlen0|].
    intros j Hj. apply Hslots. lia. }
  split; [exact Ht|]. split; [exact Hnum|].
  split; [pose proof (seek_depth_le root (stack it2) (M - 1));
          unfold it0; cbn [depth set_depth]; lia|].
  split; [|split; reflexivity].
  intros Hp. unfold it0. cbn [depth set_depth]. apply seek_depth_0. intros j Hj.
  rewrite Hslots by lia. rewrite deref_slot_of.
  destruct (load root (path_of T (le_num (key_bytes it1)) (j + 1))) eqn:E;
    try reflexivity.
  apply (leaf_under_empty T) in E; [|lia].
  change (key_bytes it1) with (to_bytes T key ++ [0]) in E.
  rewrite Hnum in E. congruence.
Qed.

Lemma restored_key_of_key (it : iterator_base) (key : Z) :
  representable T key -> key_bytes it = to_bytes T key ++ [0] ->
  restored_key T it = ordering_default.restore T key.
Proof.
  intros Hk E. unfold restored_key. rewrite E.
  rewrite take_app_length' by (symmetry; apply to_bytes_length).
  rewrite of_bytes_to_bytes by assumption. reflexivity.
Qed.


Lemma target_valid_present root it0 :
  tracks T root it0 ->
  (present T root (le_num (key_bytes it0)) = true -> depth it0 = 0%nat) ->
  target_valid root it0 = present T root (le_num (key_bytes it0)).
Proof.
  intros Ht Hd. unfold target_valid.
  destruct (Nat.eqb_spec (depth it0) 0) as [E|E]; cbn [andb].
  - apply present_target; assumption.
  - destruct (present T root (le_num (key_bytes it0))); [|reflexivity].
    exfalso. auto.
Qed.

Lemma increment_from root it :
  tracks T root it -> (depth it < M)%nat ->
  aligned Up (le_num (key_bytes it)) (depth it) ->
  let L := bound_of Up (le_num (key_bytes it)) (depth it) in
  (forall K', first_from T root Up L K' ->
              denotes T root (increment T root it) K')
  /\ (none_from T root Up L ->
      key_bytes (increment T root it) = replicate W 0 ++ [1]
      /\ (M <= depth (increment T root it))%nat).
Proof.
  intros Ht Hd Hal. cbv zeta. unfold increment. cbn [increment_rec].
  change (incrQuartet T) with (quartet_of T Up). split.
  - intros K' HK'.
    destruct (seek_loop_first Up root it K' Ht Hd Hal HK') as (it' & Hrun & Hden).
    rewrite Hrun. exact Hden.
  - intros Hn.
    destruct (seek_loop_none Up root it Ht Hd Hal Hn)
      as (it' & Hrun & Hd' & [Hl' Hb'] & Hov').
    rewrite Hrun, Hov'. cbn [exit_byte]. change (1 =? 255) with false.
    cbn [key_bytes set_key_bytes depth]. split; [|assumption].
    apply memset_edge. assumption.
Qed.

Lemma decrement_from root it :
  tracks T root it -> (depth it < M)%nat ->
  aligned Down (le_num (key_bytes it)) (depth it) ->
  let L := bound_of Down (le_num (key_bytes it)) (depth it) in
  (forall K', first_from T root Down L K' ->
              denotes T root (decrement T root it) K')
  /\ (none_from T root Down L ->
      key_bytes (decrement T root it) = replicate W 0 ++ [0xFF]
      /\ (M <= depth (decrement T root it))%nat).
Proof.
  intros Ht Hd Hal. cbv zeta. unfold decrement. cbn [decrement_rec].
  change (decrQuartet T) with (quartet_of T Down). split.
  - intros K' HK'.
    destruct (seek_loop_first Down root it K' Ht Hd Hal HK')
      as (it' & Hrun & Hden).
    rewrite Hrun. exact Hden.
  - intros Hn.
    destruct (seek_loop_none Down root it Ht Hd Hal Hn)
      as (it' & Hrun & Hd' & [Hl' Hb'] & Hov').
    rewrite Hrun, Hov'. cbn [exit_byte]. change (255 =? 1) with false.
    cbn [key_bytes set_key_bytes depth]. split; [|assumption].
    apply memset_edge. assumption.
Qed.

Lemma aligned_top_down (d : nat) :
  (d <= M)%nat -> aligned Down (key_space T - 1) d.
Proof.
  intros Hd. unfold aligned, key_space.
  replace M with ((M - d) + d)%nat at 1 by lia.
  rewrite Nat2Z.inj_add, Z.pow_add_r by lia.
  pose proof (pow_pos_16 d). pose proof (pow_pos_16 (M - d)).
  symmetry. apply Z.mod_unique with (q := 16 ^ Z.of_nat (M - d) - 1); nia.
Qed.

Lemma aligned_zero_up (d : nat) : aligned Up 0 d.
Proof. unfold aligned. apply Z.mod_0_l. pose proof (pow_pos_16 d). lia. Qed.

(** Decrementing a past-the-end position. *)
Lemma decrement_from_end root it :
  key_bytes it = replicate W 0 ++ [1] -> (M <= depth it)%nat ->
  length (stack it) = M -> stack it !!! (M - 1)%nat = at_path [] ->
  (forall K', first_from T root Down (key_space T - 1) K' ->
              denotes T root (decrement T root it) K')
  /\ (none_from T root Down (key_space T - 1) ->
      key_bytes (decrement T root it) = replicate W 0 ++ [0xFF]
      /\ (M <= depth (decrement T root it))%nat).
Proof.
  intros Hkb Hd Hs Htop. pose proof (MAX_DEPTH_ge_2 T) as HM.
  destruct (edge_buffer 0 1) as ([Hl1 Hb1] & Hov1 & _);
    [unfold is_byte; lia..|].
  unfold decrement. cbn [decrement_rec].
  change (decrQuartet T) with (quartet_of T Down).
  rewrite seek_loop_exhausted by assumption.
  rewrite Hkb, Hov1. change (1 =? 1) with true. cbn iota.
  cbn [key_bytes set_key_bytes].
  rewrite memset_after_clear by assumption.
  set (it2 := set_depth
                (set_key_bytes
                   (set_key_bytes it (<[W := 0]> (replicate W 0 ++ [1])))
                   (replicate W 255 ++ [0]))
                (M - 1)).
  destruct (edge_buffer 255 0) as ([Hl2 Hb2] & Hov2 & Hnum2);
    [unfold is_byte; lia..|].
  rewrite le_num_replicate_255, <- (key_space_eq T), Z.mul_0_r, Z.add_0_r in Hnum2.
  assert (Ht2 : tracks T root it2).
  { split; [exact Hl2|]. split; [exact Hb2|]. split; [exact Hov2|].
    split; [exact Hs|]. intros j Hj. cbn [depth set_depth it2] in Hj.
    replace j with (M - 1)%nat by lia. cbn [stack set_depth set_key_bytes it2].
    rewrite Htop, slot_of_top. reflexivity. }
  assert (Hal2 : aligned Down (le_num (key_bytes it2)) (depth it2)).
  { cbn [key_bytes depth set_depth set_key_bytes it2]. rewrite Hnum2.
    apply aligned_top_down. lia. }
  assert (HL : bound_of Down (le_num (key_bytes it2)) (depth it2)
               = key_space T - 1).
  { cbn [key_bytes depth set_depth set_key_bytes it2]. rewrite Hnum2.
    unfold bound_of. destruct (Nat.eqb_spec (M - 1) 0); [lia|reflexivity]. }
  assert (Hd2 : (depth it2 < M)%nat) by (cbn [depth set_depth it2]; lia).
  split.
  - intros K' HK'. rewrite <- HL in HK'.
    destruct (seek_loop_first Down root it2 K' Ht2 Hd2 Hal2 HK')
      as (it' & Hrun & Hden).
    rewrite Hrun. exact Hden.
  - intros Hn. rewrite <- HL in Hn.
    destruct (seek_loop_none Down root it2 Ht2 Hd2 Hal2 Hn)
      as (it' & Hrun & Hd' & [Hl' Hb'] & Hov').
    rewrite Hrun, Hov'. cbn [exit_byte]. change (255 =? 1) with false.
    cbn [key_bytes set_key_bytes depth]. split; [|assumption].
    apply memset_edge. assumption.
Qed.

(** *** Positions built from a key *)

Lemma iterator_base_key_found root (key : Z) :
  representable T key ->
  present T root (to_unsigned (bit_width T) key) = true ->
  denotes T root (iterator_base_key T root key) (to_unsigned (bit_width T) key)
  /\ target_valid root (iterator_base_key T root key) = true
  /\ key_bytes (iterator_base_key T root key) = to_bytes T key ++ [0].
Proof.
  intros Hk Hp.
  destruct (iterator_base_key_spec root key)
    as (it0 & Ht & Hnum & Hd & Hd0 & Hrun & Hkb).
  cbv zeta in *.
  assert (Hv : target_valid root it0 = true).
  { rewrite target_valid_present; rewrite ?Hnum; assumption. }
  rewrite Hrun, Hv. split; [|split].
  - split; [exact Ht|]. split; [apply Hd0; assumption|].
    split; [exact Hnum|]. split; [assumption|].
    unfold found_value. cbn [currentValue set_currentValue].
    rewrite (restored_key_of_key _ key) by assumption. reflexivity.
  - exact Hv.
  - exact Hkb.
Qed.

End SearchLoop.

(** ** The trie operations against their recursive forms *)

Section Engine.
Context {mapped_type : Type}.
Variable T : key_type.
Implicit Types (root : ptr_t mapped_type) (it : iterator_base)
  (m : arraymap mapped_type).

Local Abbreviation M := (MAX_DEPTH T).
Local Abbreviation W := (key_size T).

Lemma bytes_path (bs : list Z) :
  length bs = W -> Forall is_byte bs ->
  map (tetradeValue bs) (rev (seq 0 M)) = path_of T (le_num bs) 0.
Proof.
  intros Hl Hb. unfold path_of. rewrite Nat.sub_0_r.
  apply map_ext_in. intros i Hi.
  apply in_rev, in_seq in Hi. apply tetradeValue_digit; [assumption|].
  pose proof (MAX_DEPTH_eq T). lia.
Qed.

Lemma element_fast_find_leaf m (key : Z) :
  element_fast_find T m key
  = leaf T (root m) (to_unsigned (bit_width T) key).
Proof.
  unfold element_fast_find, leaf.
  rewrite element_fast_find_loop_walk, deref_walk.
  pose proof (MAX_DEPTH_ge_2 T).
  replace (S (M - 1)) with M by lia.
  rewrite bytes_path by (apply to_bytes_length || apply le_bytes_bytes).
  rewrite to_bytes_num. reflexivity.
Qed.

Lemma element_fast_add_spec m (key : Z) (v : mapped_type) :
  well_formed M (root m) = true ->
  element_fast_add T m key v
  = ({| root := add_rec (root m)
                  (path_of T (to_unsigned (bit_width T) key) 0) (val v);
        element_count := element_count m |}, val v).
Proof.
  intros Hwf. unfold element_fast_add.
  pose proof (MAX_DEPTH_ge_2 T) as HM.
  pose proof (element_fast_add_loop_spec (to_bytes T key) (M - 1) (root m) []
                (val v) I) as H.
  replace (S (M - 1)) with M in H by lia.
  specialize (H Hwf). cbv zeta in H.
  rewrite bytes_path in H by (apply to_bytes_length || apply le_bytes_bytes).
  rewrite to_bytes_num in H.
  destruct (element_fast_add_loop (to_bytes T key) (M - 1) (root m) (at_path []))
    as [root1 cur].
  destruct H as (Hcur & Hassign & Hvalid).
  rewrite Hassign. cbn [store load]. rewrite Hcur. cbn [deref app].
  rewrite (load_add_rec_same M);
    [reflexivity|rewrite path_of_length; lia|assumption|apply path_of_digits_ok].
Qed.

Lemma valid_of_present (d : nat) root (ds : list nat) :
  length ds = d -> well_formed d root = true -> digits_ok ds ->
  is_empty_node (load root ds) = false -> valid_path root ds.
Proof.
  revert root ds. induction d as [|d IH]; intros root [|i ds] Hlen Hwf Hds Hne;
    try discriminate; [exact I|].
  destruct (well_formed_S_inv d root Hwf) as [->|(arr & -> & Hl & Ha)].
  - simpl in Hne. rewrite load_empty in Hne. discriminate.
  - inversion Hds; subst. simpl. split; [lia|].
    apply IH; [simpl in Hlen; lia| |assumption|exact Hne].
    apply (Forall_lookup_total_default (fun c => well_formed d c = true));
      [apply well_formed_empty|assumption].
Qed.

Lemma valid_path_of_present root (K : Z) (j : nat) :
  well_formed M root = true -> present T root K = true ->
  valid_path root (path_of T K j).
Proof.
  intros Hwf Hp.
  assert (Hfull : valid_path root (path_of T K 0)).
  { apply (valid_of_present M); try assumption.
    - rewrite path_of_length. lia.
    - apply path_of_digits_ok.
    - unfold present, leaf in Hp. apply negb_true_iff in Hp. exact Hp. }
  destruct (decide (j <= M)%nat) as [Hj|Hj].
  - rewrite (path_of_split T K j Hj) in Hfull.
    apply valid_path_app in Hfull. apply Hfull.
  - rewrite path_of_top by lia. exact I.
Qed.

Lemma slot_of_present root (K : Z) (j : nat) :
  well_formed M root = true -> present T root K = true ->
  slot_of T root K j = at_path (path_of T K (j + 1)).
Proof.
  intros Hwf Hp. unfold slot_of.
  rewrite (walk_valid root []); [reflexivity|].
  apply valid_path_of_present; assumption.
Qed.

Lemma erase_elem_loop_spec (K : Z) (n : nat) root1 it :
  (forall j, (depth it <= j < M)%nat ->
             stack it !!! j = at_path (path_of T K (j + 1))) ->
  valid_path root1 (path_of T K (depth it + 1)) ->
  (M <= n + depth it)%nat ->
  fst (erase_elem_loop T n root1 it)
  = if (depth it <? M)%nat then prune_at root1 (path_of T K (depth it + 1))
    else root1.
Proof.
  revert root1 it. induction n as [|n IH]; intros root1 it Hst Hv Hn.
  - cbn [erase_elem_loop fst].
    destruct (Nat.ltb_spec (depth it) M); [lia|reflexivity].
  - cbn [erase_elem_loop].
    destruct (Nat.ltb_spec (depth it) M) as [Hd|Hd]; [|reflexivity].
    rewrite Hst by lia. cbn [deref assign].
    destruct (is_node_empty (load root1 (path_of T K (depth it + 1)))) eqn:He.
    + rewrite IH; cbn [depth set_depth stack].
      * destruct (Nat.ltb_spec (depth it + 1) M) as [Hd'|Hd'].
        -- replace (depth it + 1)%nat with (S (depth it)) in *  by lia.
           rewrite (path_of_snoc T K (S (depth it))) in * by lia.
           replace (S (depth it) + 1)%nat with (S (S (depth it))) by lia.
           symmetry. apply prune_at_snoc; assumption.
        -- rewrite path_of_top in * by lia. cbn [prune_at store load] in *.
           rewrite He. reflexivity.
      * intros j Hj. apply Hst. lia.
      * destruct (Nat.ltb_spec (depth it + 1) M) as [Hd'|Hd'].
        -- replace (depth it + 1)%nat with (S (depth it)) in *  by lia.
           rewrite (path_of_snoc T K (S (depth it))) in * by lia.
           replace (S (depth it) + 1)%nat with (S (S (depth it))) by lia.
           apply (valid_path_store _ _ empty_node_ptr) in Hv.
           apply valid_path_app in Hv. apply Hv.
        -- rewrite (path_of_top T K (depth it + 1 + 1)) by lia. exact I.
      * lia.
    + cbn [fst]. symmetry.
      apply prune_at_stop; [assumption|apply path_of_digits_ok|assumption].
Qed.

Lemma erase_elem_spec root it (K : Z) :
  well_formed M root = true -> denotes T root it K ->
  exists it',
    erase_elem T root it = (erase_rec root (path_of T K 0), it', true).
Proof.
  intros Hwf (Ht & Hd & Hnum & Hp & _).
  pose proof (MAX_DEPTH_ge_2 T) as HM.
  unfold erase_elem.
  destruct (Nat.eqb_spec (depth it) 0) as [_|]; [|contradiction].
  rewrite (present_target T root it Ht Hd), Hnum, Hp.
  assert (Hslot : target_slot root it 0 = at_path (path_of T K 0)).
  { rewrite (tracked_target_slot T root it 0 Ht) by lia. rewrite Hnum.
    apply (walk_valid root []). apply valid_path_of_present; assumption. }
  rewrite Hslot. cbn [assign].
  pose proof Ht as (_ & _ & _ & _ & Hst).
  assert (Hst' : forall j, (depth it <= j < M)%nat ->
            stack it !!! j = at_path (path_of T K (j + 1))).
  { intros j Hj. rewrite Hst by assumption. rewrite Hnum.
    apply slot_of_present; assumption. }
  assert (Hv : valid_path (store root (path_of T K 0) empty_node_ptr)
                 (path_of T K (depth it + 1))).
  { assert (Hfull : valid_path (store root (path_of T K 0) empty_node_ptr)
                      (path_of T K 0))
      by (apply valid_path_store, valid_path_of_present; assumption).
    rewrite (path_of_split T K (depth it + 1)) in Hfull at 2 by lia.
    apply valid_path_app in Hfull. apply Hfull. }
  pose proof (erase_elem_loop_spec K M _ it Hst' Hv ltac:(lia)) as Hloop.
  destruct (erase_elem_loop T M (store root (path_of T K 0) empty_node_ptr) it)
    as [root' it'].
  cbn [fst] in Hloop. exists it'. rewrite Hloop.
  destruct (Nat.ltb_spec (depth it) M); [|lia].
  rewrite Hd. change (0 + 1)%nat with 1%nat.
  rewrite (path_of_snoc T K 0) by lia.
  rewrite erase_rec_prune_at; [reflexivity|].
  rewrite <- (path_of_snoc T K 0) by lia.
  apply valid_path_of_present; assumption.
Qed.

(** *** The content of the trie after an insertion or a deletion *)

Lemma path_of_neq (K K' : Z) :
  0 <= K < key_space T -> 0 <= K' < key_space T -> K <> K' ->
  path_of T K 0 <> path_of T K' 0.
Proof. intros HK HK' Hne E. apply Hne. apply (path_of_inj T); assumption. Qed.

Lemma leaf_add_rec_same root (K : Z) (x : ptr_t mapped_type) :
  well_formed M root = true ->
  leaf T (add_rec root (path_of T K 0) x) K = x.
Proof.
  intros Hwf. unfold leaf. apply (load_add_rec_same M);
    [rewrite path_of_length; lia|assumption|apply path_of_digits_ok].
Qed.

Lemma leaf_add_rec_other root (K K' : Z) (x : ptr_t mapped_type) :
  well_formed M root = true ->
  0 <= K < key_space T -> 0 <= K' < key_space T -> K <> K' ->
  leaf T (add_rec root (path_of T K 0) x) K' = leaf T root K'.
Proof.
  intros Hwf HK HK' Hne. unfold leaf. apply (load_add_rec_other M);
    try (rewrite path_of_length; lia); try assumption.
  - apply path_of_neq; assumption.
  - apply path_of_digits_ok.
Qed.

Lemma leaf_erase_rec_same root (K : Z) :
  well_formed M root = true ->
  leaf T (erase_rec root (path_of T K 0)) K = empty_node_ptr.
Proof.
  intros Hwf. unfold leaf. apply (load_erase_rec_same M);
    [rewrite path_of_length; lia|assumption|apply path_of_digits_ok].
Qed.

Lemma leaf_erase_rec_other root (K K' : Z) :
  well_formed M root = true ->
  0 <= K < key_space T -> 0 <= K' < key_space T -> K <> K' ->
  leaf T (erase_rec root (path_of T K 0)) K' = leaf T root K'.
Proof.
  intros Hwf HK HK' Hne. unfold leaf. apply (load_erase_rec_other M);
    try (rewrite path_of_length; lia); try assumption;
    try apply path_of_digits_ok.
  apply path_of_neq; assumption.
Qed.

Lemma leaf_well_formed root (K : Z) :
  well_formed M root = true ->
  leaf T root K = empty_node_ptr \/ exists v, leaf T root K = val v.
Proof.
  intros Hwf. apply well_formed_0_inv. unfold leaf.
  apply well_formed_load. rewrite path_of_length.
  replace (M - 0 + 0)%nat with M by lia. assumption.
Qed.

End Engine.

(** ** The public operations *)

Section Facade.
Context {mapped_type : Type}.
Variable T : key_type.
Implicit Types (root : ptr_t mapped_type) (it : iterator_base)
  (m : arraymap mapped_type).

Local Abbreviation M := (MAX_DEPTH T).
Local Abbreviation W := (key_size T).

Lemma invariant_spec m :
  invariant T m = true <->
  well_formed M (root m) = true /\ pruned M (root m) = true
  /\ element_count m = leaf_count M (root m) /\ element_count m < 2 ^ 64.
Proof.
  unfold invariant. rewrite !andb_true_iff, Z.eqb_eq, Z.ltb_lt. tauto.
Qed.

Lemma radix_of_range (k : Z) : 0 <= radix_of T k < key_space T.
Proof. rewrite key_space_bits. apply radix_of_bound. Qed.

(** *** Iterators built from a key *)

Lemma iterator_key_present root (key : Z) (findNext : bool) :
  representable T key ->
  present T root (to_unsigned (bit_width T) key) = true ->
  denotes T root (iterator_key T root key findNext)
    (to_unsigned (bit_width T) key).
Proof.
  intros Hk Hp. unfold iterator_key.
  destruct (iterator_base_key_found T root key Hk Hp) as (Hden & Hv & _).
  rewrite Hv. exact Hden.
Qed.

Lemma iterator_base_key_absent root (key : Z) :
  present T root (to_unsigned (bit_width T) key) = false ->
  tracks T root (iterator_base_key T root key)
  /\ le_num (key_bytes (iterator_base_key T root key))
     = to_unsigned (bit_width T) key
  /\ (depth (iterator_base_key T root key) < M)%nat
  /\ target_valid root (iterator_base_key T root key) = false.
Proof.
  intros Hp.
  destruct (iterator_base_key_spec T root key)
    as (it0 & Ht & Hnum & Hd & Hd0 & Hrun & Hkb).
  cbv zeta in *.
  assert (Hv : target_valid root it0 = false).
  { rewrite (target_valid_present T) by (rewrite ?Hnum; assumption).
    rewrite Hnum. assumption. }
  rewrite Hrun, Hv. auto.
Qed.

Lemma iterator_key_absent_find root (key : Z) :
  present T root (to_unsigned (bit_width T) key) = false ->
  key_bytes (iterator_key T root key false) = replicate W 0 ++ [1].
Proof.
  intros Hp. unfold iterator_key.
  destruct (iterator_base_key_absent root key Hp) as ((Hl & _) & _ & _ & Hv).
  rewrite Hv. cbn [negb key_bytes set_key_bytes set_depth].
  apply memset_edge. assumption.
Qed.

Lemma iterator_key_absent_next root (key : Z) :
  let K := to_unsigned (bit_width T) key in
  present T root K = false -> (forall d, (d < M)%nat -> aligned Up K d) ->
  (forall K', first_from T root Up K K' ->
              denotes T root (iterator_key T root key true) K')
  /\ (none_from T root Up K ->
      key_bytes (iterator_key T root key true) = replicate W 0 ++ [1]).
Proof.
  cbv zeta. intros Hp Hal. unfold iterator_key.
  destruct (iterator_base_key_absent root key Hp) as (Ht & Hnum & Hd & Hv).
  rewrite Hv. cbn [negb].
  destruct (increment_from T root _ Ht Hd
              ltac:(rewrite Hnum; apply Hal; assumption))
    as [Hf Hn].
  cbv zeta in *. rewrite Hnum in Hf, Hn. split.
  - intros K' HK'. apply Hf. apply bound_settle_first; [|assumption].
    intros _. assumption.
  - intros Hnone. apply Hn. apply bound_settle_none. assumption.
Qed.

Lemma reverse_iterator_key_present root (key : Z) (findNext : bool) :
  representable T key ->
  present T root (to_unsigned (bit_width T) key) = true ->
  denotes T root (reverse_iterator_key T root key findNext)
    (to_unsigned (bit_width T) key).
Proof.
  intros Hk Hp. unfold reverse_iterator_key.
  destruct (iterator_base_key_found T root key Hk Hp) as (Hden & Hv & _).
  rewrite Hv. exact Hden.
Qed.

Lemma reverse_iterator_key_absent_next root (key : Z) :
  let K := to_unsigned (bit_width T) key in
  present T root K = false -> (forall d, (d < M)%nat -> aligned Down K d) ->
  (forall K', first_from T root Down K K' ->
              denotes T root (reverse_iterator_key T root key true) K')
  /\ (none_from T root Down K ->
      key_bytes (reverse_iterator_key T root key true)
      = replicate W 0 ++ [0xFF]).
Proof.
  cbv zeta. intros Hp Hal. unfold reverse_iterator_key.
  destruct (iterator_base_key_absent root key Hp) as (Ht & Hnum & Hd & Hv).
  rewrite Hv. cbn [negb].
  destruct (decrement_from T root _ Ht Hd
              ltac:(rewrite Hnum; apply Hal; assumption))
    as [Hf Hn].
  cbv zeta in *. rewrite Hnum in Hf, Hn. split.
  - intros K' HK'. apply Hf. apply bound_settle_first; [|assumption].
    intros _. assumption.
  - intros Hnone. apply Hn. apply bound_settle_none. assumption.
Qed.

(** *** [begin], [end], [rbegin], [rend] *)

Lemma memset_fresh (c : Z) : memset (replicate W 0) c W = replicate W c.
Proof.
  unfold memset. rewrite drop_ge by (rewrite length_replicate; lia).
  apply app_nil_r.
Qed.

Lemma replicate_bytes (c : Z) :
  is_byte c -> length (replicate W c) = W /\ Forall is_byte (replicate W c).
Proof.
  intros Hc. split; [apply length_replicate|apply Forall_replicate; assumption].
Qed.

Lemma begin_key :
  representable T (of_bytes T (replicate W 0))
  /\ to_unsigned (bit_width T) (of_bytes T (replicate W 0)) = 0.
Proof.
  destruct (replicate_bytes 0) as [Hl Hb]; [unfold is_byte; lia|].
  split; [apply of_bytes_representable; assumption|].
  rewrite of_bytes_unsigned by assumption. apply le_num_replicate_0.
Qed.

Lemma rbegin_key :
  representable T (of_bytes T (replicate W 255))
  /\ to_unsigned (bit_width T) (of_bytes T (replicate W 255))
     = key_space T - 1.
Proof.
  destruct (replicate_bytes 255) as [Hl Hb]; [unfold is_byte; lia|].
  split; [apply of_bytes_representable; assumption|].
  rewrite of_bytes_unsigned by assumption.
  rewrite le_num_replicate_255, key_space_eq. reflexivity.
Qed.

Lemma end_key_bytes m : key_bytes (end_ T m) = replicate W 0 ++ [1].
Proof.
  unfold end_, iterator_root. cbn [key_bytes set_key_bytes set_depth].
  apply memset_edge. simpl. apply length_replicate.
Qed.

Lemma rend_key_bytes m : key_bytes (rend T m) = replicate W 0 ++ [0xFF].
Proof.
  unfold rend, reverse_iterator_root. cbn [key_bytes set_key_bytes set_depth].
  apply memset_edge. simpl. apply length_replicate.
Qed.

Lemma begin_spec m :
  (forall K', first_from T (root m) Up 0 K' -> denotes T (root m) (begin T m) K')
  /\ (none_from T (root m) Up 0 -> key_bytes (begin T m) = replicate W 0 ++ [1]).
Proof.
  unfold begin. rewrite memset_fresh.
  destruct begin_key as [Hrep Hnum].
  destruct (present T (root m) 0) eqn:Hp.
  - split.
    + intros K' HK'.
      assert (K' = 0).
      { apply (first_from_here T (root m) Up); try assumption.
        pose proof (key_space_pos T). lia. }
      subst K'.
      pose proof (iterator_key_present (root m) _ true Hrep) as H.
      rewrite Hnum in H. apply H. assumption.
    + intros Hn. exfalso.
      apply (none_from_here T (root m) Up 0); try assumption.
      pose proof (key_space_pos T). lia.
  - pose proof (iterator_key_absent_next (root m) (of_bytes T (replicate W 0)))
      as H.
    cbv zeta in H. rewrite Hnum in H.
    apply H; [assumption|]. intros d _. apply aligned_zero_up.
Qed.

Lemma rbegin_spec m :
  (forall K', first_from T (root m) Down (key_space T - 1) K' ->
              denotes T (root m) (rbegin T m) K')
  /\ (none_from T (root m) Down (key_space T - 1) ->
      key_bytes (rbegin T m) = replicate W 0 ++ [0xFF]).
Proof.
  unfold rbegin. rewrite memset_fresh.
  destruct rbegin_key as [Hrep Hnum].
  pose proof (key_space_pos T) as Hks.
  destruct (present T (root m) (key_space T - 1)) eqn:Hp.
  - split.
    + intros K' HK'.
      assert (K' = key_space T - 1).
      { apply (first_from_here T (root m) Down); try assumption. lia. }
      subst K'.
      pose proof (reverse_iterator_key_present (root m) _ true Hrep) as H.
      rewrite Hnum in H. apply H. assumption.
    + intros Hn. exfalso.
      apply (none_from_here T (root m) Down (key_space T - 1)); try assumption.
      lia.
  - pose proof (reverse_iterator_key_absent_next (root m)
                  (of_bytes T (replicate W 255))) as H.
    cbv zeta in H. rewrite Hnum in H.
    apply H; [assumption|]. intros d Hd. apply aligned_top_down. lia.
Qed.


(** *** Comparing iterators *)

Lemma memcmp_refl (a : list Z) (n : nat) : memcmp a a n = 0.
Proof.
  revert a. induction n as [|n IH]; intros [|x a]; simpl; try reflexivity.
  rewrite Z.ltb_irrefl. apply IH.
Qed.

Lemma memcmp_differ (a b : list Z) (n i : nat) :
  (i < n)%nat -> (i < length a)%nat -> (i < length b)%nat ->
  a !!! i <> b !!! i -> memcmp a b n <> 0.
Proof.
  revert a b i. induction n as [|n IH]; intros [|x a] [|y b] i Hn Ha Hb Hne;
    simpl in *; try lia.
  destruct (Z.ltb_spec x y) as [H1|H1]; [discriminate|].
  destruct (Z.ltb_spec y x) as [H2|H2]; [discriminate|].
  destruct i as [|i].
  - exfalso. apply Hne. change (x = y). lia.
  - apply (IH a b i); try lia. exact Hne.
Qed.

Lemma iterator_eqb_same (a b : iterator_base) :
  key_bytes a = key_bytes b -> iterator_eqb T a b = true.
Proof.
  intros E. unfold iterator_eqb. rewrite E, memcmp_refl. reflexivity.
Qed.

Lemma iterator_eqb_overflow (a b : iterator_base) :
  length (key_bytes a) = (W + 1)%nat -> length (key_bytes b) = (W + 1)%nat ->
  key_bytes a !!! W <> key_bytes b !!! W ->
  iterator_eqb T a b = false.
Proof.
  intros Ha Hb Hne. unfold iterator_eqb. apply Z.eqb_neq.
  apply memcmp_differ with W; lia.
Qed.

Lemma denotes_not_end root m' it (K : Z) :
  denotes T root it K -> iterator_eqb T it (end_ T m') = false.
Proof.
  intros ((Hl & _ & Hov & _) & _).
  destruct (edge_buffer T 0 1) as ([Hl1 _] & Hov1 & _); [unfold is_byte; lia..|].
  apply iterator_eqb_overflow; rewrite ?end_key_bytes; try assumption.
  rewrite Hov, Hov1. lia.
Qed.

Lemma denotes_not_rend root m' it (K : Z) :
  denotes T root it K -> iterator_eqb T it (rend T m') = false.
Proof.
  intros ((Hl & _ & Hov & _) & _).
  destruct (edge_buffer T 0 255) as ([Hl1 _] & Hov1 & _); [unfold is_byte; lia..|].
  apply iterator_eqb_overflow; rewrite ?rend_key_bytes; try assumption.
  rewrite Hov, Hov1. lia.
Qed.

(** *** Lookup, insertion and deletion *)

Lemma present_leaf root (K : Z) :
  present T root K = negb (is_empty_node (leaf T root K)).
Proof. reflexivity. Qed.

Lemma find_present m (k : Z) :
  representable T k -> present T (root m) (radix_of T k) = true ->
  denotes T (root m) (find T m k) (radix_of T k).
Proof.
  intros Hk Hp. unfold find.
  apply (iterator_key_present (root m) (ordering_default.apply T k) false);
    [apply apply_representable; assumption|exact Hp].
Qed.

Lemma find_absent m (k : Z) :
  present T (root m) (radix_of T k) = false ->
  key_bytes (find T m k) = key_bytes (end_ T m).
Proof.
  intros Hp. unfold find. rewrite end_key_bytes.
  apply iterator_key_absent_find. exact Hp.
Qed.

Lemma contains_present m (k : Z) :
  contains T m k = present T (root m) (radix_of T k).
Proof. unfold contains. rewrite element_fast_find_leaf. reflexivity. Qed.

(** The state after a successful insertion of [v] under radix key [K]. *)
Lemma inserted_invariant m (K : Z) (v : mapped_type) :
  invariant T m = true -> 0 <= K < key_space T ->
  leaf T (root m) K = empty_node_ptr ->
  element_count m + 1 < 2 ^ 64 ->
  invariant T
    {| root := add_rec (root m) (path_of T K 0) (val v);
       element_count := size_type (element_count m + 1) |} = true
  /\ size_type (element_count m + 1) = element_count m + 1.
Proof.
  intros Hinv HK Hleaf Hroom.
  apply invariant_spec in Hinv. destruct Hinv as (Hwf & Hpr & Hcnt & Hlt).
  assert (Hsz : size_type (element_count m + 1) = element_count m + 1).
  { unfold size_type, to_unsigned. apply Z.mod_small.
    pose proof (leaf_count_nonneg M (root m)). lia. }
  split; [|exact Hsz].
  apply invariant_spec. cbn [root element_count].
  assert (Hlen : length (path_of T K 0) = M)
    by (rewrite path_of_length; lia).
  split; [apply add_rec_well_formed; auto|].
  split; [apply pruned_add_rec; auto using path_of_digits_ok|].
  split; [|rewrite Hsz; exact Hroom].
  rewrite Hsz, Hcnt. symmetry.
  apply leaf_count_add_rec; auto using path_of_digits_ok.
Qed.

Lemma insert_absent m (k : Z) (v : mapped_type) :
  invariant T m = true -> representable T k ->
  leaf T (root m) (radix_of T k) = empty_node_ptr ->
  let m' := {| root := add_rec (root m) (path_of T (radix_of T k) 0) (val v);
               element_count := size_type (element_count m + 1) |} in
  insert T m (k, v)
  = (m', (iterator_key T (root m') (ordering_default.apply T k) false, true)).
Proof.
  intros Hinv Hk Hleaf. cbv zeta.
  apply invariant_spec in Hinv. destruct Hinv as (Hwf & _).
  unfold insert. cbn [fst snd].
  rewrite element_fast_find_leaf. fold (radix_of T k). rewrite Hleaf.
  cbn [is_empty_node].
  rewrite element_fast_add_spec by assumption. fold (radix_of T k).
  reflexivity.
Qed.

Lemma insert_present m (k : Z) (v : mapped_type) :
  is_empty_node (leaf T (root m) (radix_of T k)) = false ->
  insert T m (k, v)
  = (m, (iterator_key T (root m) (ordering_default.apply T k) false, false)).
Proof.
  intros Hleaf. unfold insert. cbn [fst snd].
  rewrite element_fast_find_leaf. fold (radix_of T k). rewrite Hleaf.
  reflexivity.
Qed.

Lemma try_emplace_insert m (k : Z) (v : mapped_type) :
  try_emplace T m k v = insert T m (k, v).
Proof. reflexivity. Qed.

Lemma emplace_insert m (k : Z) (v : mapped_type) :
  emplace T m k v = insert T m (k, v).
Proof. reflexivity. Qed.

Lemma index_absent (dv : mapped_type) m (k : Z) :
  invariant T m = true ->
  leaf T (root m) (radix_of T k) = empty_node_ptr ->
  index T dv m k
  = ({| root := add_rec (root m) (path_of T (radix_of T k) 0) (val dv);
        element_count := size_type (element_count m + 1) |}, val dv).
Proof.
  intros Hinv Hleaf.
  apply invariant_spec in Hinv. destruct Hinv as (Hwf & _).
  unfold index.
  rewrite element_fast_find_leaf. fold (radix_of T k). rewrite Hleaf.
  cbn [is_empty_node].
  rewrite element_fast_add_spec by assumption. fold (radix_of T k).
  reflexivity.
Qed.

Lemma index_present (dv : mapped_type) m (k : Z) :
  is_empty_node (leaf T (root m) (radix_of T k)) = false ->
  index T dv m k = (m, leaf T (root m) (radix_of T k)).
Proof.
  intros Hleaf. unfold index.
  rewrite element_fast_find_leaf. fold (radix_of T k). rewrite Hleaf.
  reflexivity.
Qed.

(** The state after the deletion of the element with radix key [K]. *)
Lemma erased_invariant m (K : Z) :
  invariant T m = true -> present T (root m) K = true ->
  invariant T
    {| root := erase_rec (root m) (path_of T K 0);
       element_count := size_type (element_count m - 1) |} = true
  /\ size_type (element_count m - 1) = element_count m - 1.
Proof.
  intros Hinv Hp.
  apply invariant_spec in Hinv. destruct Hinv as (Hwf & Hpr & Hcnt & Hlt).
  assert (Hlen : length (path_of T K 0) = M)
    by (rewrite path_of_length; lia).
  assert (Hne : is_empty_node (load (root m) (path_of T K 0)) = false).
  { unfold present, leaf in Hp. apply negb_true_iff in Hp. exact Hp. }
  pose proof (leaf_count_erase_rec M (root m) (path_of T K 0) Hlen Hwf
                (path_of_digits_ok T K 0) Hne) as Hdec.
  pose proof (leaf_count_nonneg M (erase_rec (root m) (path_of T K 0))).
  assert (Hsz : size_type (element_count m - 1) = element_count m - 1).
  { unfold size_type, to_unsigned. apply Z.mod_small. lia. }
  split; [|exact Hsz].
  apply invariant_spec. cbn [root element_count].
  split; [apply erase_rec_well_formed; auto|].
  split; [apply pruned_erase_rec; auto|].
  rewrite Hsz. lia.
Qed.

Lemma erase_present m (k : Z) :
  invariant T m = true -> representable T k ->
  present T (root m) (radix_of T k) = true ->
  erase T m k
  = ({| root := erase_rec (root m) (path_of T (radix_of T k) 0);
        element_count := size_type (element_count m - 1) |}, 1).
Proof.
  intros Hinv Hk Hp. pose proof (find_present m k Hk Hp) as Hden.
  apply invariant_spec in Hinv. destruct Hinv as (Hwf & _).
  unfold erase. unfold find in Hden.
  rewrite (denotes_not_end _ m _ _ Hden). cbn [negb].
  destruct (erase_elem_spec T (root m) _ _ Hwf Hden) as (it' & Hrun).
  rewrite Hrun. reflexivity.
Qed.

Lemma erase_absent m (k : Z) :
  present T (root m) (radix_of T k) = false -> erase T m k = (m, 0).
Proof.
  intros Hp. unfold erase.
  rewrite iterator_eqb_same; [reflexivity|].
  apply (find_absent m k Hp).
Qed.

Lemma erase_pos_spec m (pos : iterator_base) (K : Z) :
  invariant T m = true -> denotes T (root m) pos K ->
  fst (erase_pos T m pos)
  = {| root := erase_rec (root m) (path_of T K 0);
       element_count := size_type (element_count m - 1) |}.
Proof.
  intros Hinv Hden.
  apply invariant_spec in Hinv. destruct Hinv as (Hwf & _).
  unfold erase_pos.
  destruct (erase_elem_spec T (root m) _ _ Hwf Hden) as (it' & Hrun).
  rewrite Hrun. reflexivity.
Qed.

Lemma clear_invariant m : invariant T (clear T m) = true.
Proof.
  unfold clear, invariant. cbn [root element_count].
  rewrite well_formed_empty, pruned_empty, leaf_count_empty. reflexivity.
Qed.

Lemma empty_map_invariant : invariant T (@empty_map mapped_type) = true.
Proof.
  unfold empty_map, invariant. cbn [root element_count].
  rewrite well_formed_empty, pruned_empty, leaf_count_empty. reflexivity.
Qed.

End Facade.

(** ** The native order of floating-point keys *)

Lemma compare_cont_Eq (p q : positive) :
  Pos.compare_cont Eq p q = (Z.pos p ?= Z.pos q).
Proof. reflexivity. Qed.

Lemma compare_to_pos (x y : Z) :
  0 < x -> 0 < y -> (Z.pos (Z.to_pos x) ?= Z.pos (Z.to_pos y)) = (x ?= y).
Proof. intros Hx Hy. rewrite !Z2Pos.id by assumption. reflexivity. Qed.

(** The three fields of a bit pattern: with [P = 2 ^ mw] and
    [E = 2 ^ ew], the pattern is [sign * (P * E) + e * P + f]. *)
Lemma split_fields (P E a : Z) :
  0 < P -> 0 < E -> 0 <= a < 2 * (P * E) ->
  0 <= (a / P) mod E < E /\ 0 <= a mod P < P
  /\ a = (if P * E <=? a then P * E else 0) + (a / P) mod E * P + a mod P.
Proof.
  intros HP HE Ha.
  split; [apply Z.mod_pos_bound; lia|]. split; [apply Z.mod_pos_bound; lia|].
  pose proof (Z.div_mod a P ltac:(lia)) as E1.
  pose proof (Z.div_mod (a / P) E ltac:(lia)) as E2.
  rewrite Z.div_div in E2 by lia.
  assert (Hq : a / (P * E) = if P * E <=? a then 1 else 0).
  { destruct (Z.leb_spec (P * E) a).
    - symmetry. apply Z.div_unique with (r := a - P * E); lia.
    - apply Z.div_small. lia. }
  rewrite Hq in E2. destruct (P * E <=? a); nia.
Qed.

Lemma scale_order (P e1 e2 : Z) :
  0 < P -> 0 <= e1 -> 0 <= e2 ->
  (e1 < e2 -> e1 * P + P <= e2 * P) /\ 0 <= e1 * P
  /\ (0 < e1 -> P <= e1 * P).
Proof. intros. repeat split; nia. Qed.

Lemma decode_order (mw ew a b : Z) :
  0 < mw -> 0 < ew ->
  0 <= a < 2 ^ (mw + ew + 1) -> 0 <= b < 2 ^ (mw + ew + 1) ->
  IEEE.is_nan (IEEE.decode mw ew a) = false ->
  IEEE.is_nan (IEEE.decode mw ew b) = false ->
  SFltb (IEEE.decode mw ew a) (IEEE.decode mw ew b)
  = (flip_float (mw + ew) a <? flip_float (mw + ew) b)
    && negb (IEEE.is_zero (IEEE.decode mw ew a)
             && IEEE.is_zero (IEEE.decode mw ew b)).
Proof.
  intros Hmw Hew Ha Hb. unfold IEEE.decode, flip_float.
  rewrite !(testbit_top _ (mw + ew)) by lia.
  rewrite (Z.pow_add_r 2 (mw + ew) 1), (Z.pow_add_r 2 mw ew) in * by lia.
  change (2 ^ 1) with 2 in *.
  assert (HP : 0 < 2 ^ mw) by (apply Z.pow_pos_nonneg; lia).
  assert (HE : 0 < 2 ^ ew) by (apply Z.pow_pos_nonneg; lia).
  destruct (split_fields (2 ^ mw) (2 ^ ew) a HP HE ltac:(lia))
    as (Hea & Hfa & Eqa).
  destruct (split_fields (2 ^ mw) (2 ^ ew) b HP HE ltac:(lia))
    as (Heb & Hfb & Eqb).
  set (ea := (a / 2 ^ mw) mod 2 ^ ew) in *. set (fa := a mod 2 ^ mw) in *.
  set (eb := (b / 2 ^ mw) mod 2 ^ ew) in *. set (fb := b mod 2 ^ mw) in *.
  destruct (scale_order (2 ^ mw) ea eb HP) as (Hab & Hua & Hpa); [lia..|].
  destruct (scale_order (2 ^ mw) eb ea HP) as (Hba & Hub & Hpb); [lia..|].
  destruct (scale_order (2 ^ mw) ea (2 ^ ew) HP) as (Hta & _); [lia..|].
  destruct (scale_order (2 ^ mw) eb (2 ^ ew) HP) as (Htb & _); [lia..|].
  rewrite (Z.mul_comm (2 ^ ew) (2 ^ mw)) in Hta, Htb.
  assert (Hsame : ea = eb -> ea * 2 ^ mw = eb * 2 ^ mw) by (intros ->; reflexivity).
  assert (Hza : ea = 0 -> ea * 2 ^ mw = 0) by (intros ->; reflexivity).
  assert (Hzb : eb = 0 -> eb * 2 ^ mw = 0) by (intros ->; reflexivity).
  set (bias := 2 ^ (ew - 1) - 1).
  clearbody ea fa eb fb bias.
  generalize dependent (ea * 2 ^ mw). intros ua; intros.
  generalize dependent (eb * 2 ^ mw). intros ub; intros.
  generalize dependent (2 ^ mw * 2 ^ ew). intros Q; intros.
  generalize dependent (2 ^ ew). intros E; intros.
  generalize dependent (2 ^ mw). intros P; intros.
  revert H H0.
  destruct (Z.eqb_spec ea 0) as [Ea0|Ea0];
  destruct (Z.eqb_spec fa 0) as [Fa0|Fa0];
  destruct (Z.eqb_spec ea (E - 1)) as [Ea1|Ea1];
  destruct (Z.eqb_spec eb 0) as [Eb0|Eb0];
  destruct (Z.eqb_spec fb 0) as [Fb0|Fb0];
  destruct (Z.eqb_spec eb (E - 1)) as [Eb1|Eb1];
  cbn [IEEE.is_nan IEEE.is_zero]; try discriminate; intros _ _;
  destruct (Z.leb_spec Q a) as [Sa|Sa];
  destruct (Z.leb_spec Q b) as [Sb|Sb];
  destruct (Z.ltb_spec a Q) as [Sa'|Sa']; try lia;
  destruct (Z.ltb_spec b Q) as [Sb'|Sb']; try lia;
  unfold SFltb, SFcompare; cbn [andb negb];
  rewrite ?compare_cont_Eq, ?compare_to_pos by lia;
  repeat match goal with
  | |- context [Z.compare ?x ?y] => destruct (Z.compare_spec x y)
  end; cbn [CompOpp]; rewrite ?andb_true_r, ?andb_false_r; try reflexivity;
  match goal with
  | |- true = (?x <? ?y) => symmetry; apply Z.ltb_lt; lia
  | |- false = (?x <? ?y) => symmetry; apply Z.ltb_ge; lia
  end.
Qed.

Lemma decode_zero (mw ew a : Z) :
  0 < mw -> 0 < ew -> 0 <= a < 2 ^ (mw + ew + 1) ->
  IEEE.is_zero (IEEE.decode mw ew a) = true -> a = 0 \/ a = 2 ^ (mw + ew).
Proof.
  intros Hmw Hew Ha. unfold IEEE.decode.
  rewrite (Z.pow_add_r 2 (mw + ew) 1), (Z.pow_add_r 2 mw ew) in * by lia.
  change (2 ^ 1) with 2 in *.
  assert (HP : 0 < 2 ^ mw) by (apply Z.pow_pos_nonneg; lia).
  assert (HE : 0 < 2 ^ ew) by (apply Z.pow_pos_nonneg; lia).
  destruct (split_fields (2 ^ mw) (2 ^ ew) a HP HE ltac:(lia))
    as (_ & _ & Eqa).
  destruct (Z.eqb_spec ((a / 2 ^ mw) mod 2 ^ ew) 0) as [E0|E0].
  - destruct (Z.eqb_spec (a mod 2 ^ mw) 0) as [F0|F0]; [|discriminate].
    intros _. rewrite E0, F0 in Eqa.
    destruct (2 ^ mw * 2 ^ ew <=? a); lia.
  - destruct (_ =? _); [destruct (_ =? _)|]; discriminate.
Qed.

Section NativeOrder.
Variable T : key_type.

Lemma float_fields :
  is_integer T = false ->
  exists mw ew, 0 < mw /\ 0 < ew /\ bit_width T = mw + ew + 1
    /\ forall k, float_value T k = IEEE.decode mw ew k.
Proof.
  intros HT. destruct T; try discriminate.
  - exists 23, 8. repeat split; lia.
  - exists 52, 11. repeat split; lia.
Qed.

Lemma native_ltb_integer (a b : Z) :
  is_integer T = true -> representable T a -> representable T b ->
  native_ltb T a b = (radix_of T a <? radix_of T b).
Proof.
  intros HT Ha Hb. unfold native_ltb. rewrite HT.
  rewrite !radix_of_integer by assumption.
  destruct (Z.ltb_spec a b); symmetry; [apply Z.ltb_lt|apply Z.ltb_ge]; lia.
Qed.

Lemma native_ltb_float (a b : Z) :
  is_integer T = false -> representable T a -> representable T b ->
  IEEE.is_nan (float_value T a) = false ->
  IEEE.is_nan (float_value T b) = false ->
  native_ltb T a b
  = (radix_of T a <? radix_of T b)
    && negb (IEEE.is_zero (float_value T a) && IEEE.is_zero (float_value T b)).
Proof.
  intros HT Ha Hb Hna Hnb. unfold native_ltb. rewrite HT.
  rewrite !radix_of_float by assumption.
  destruct (float_fields HT) as (mw & ew & Hmw & Hew & Hw & Hdec).
  unfold representable in Ha, Hb. rewrite HT, Hw in Ha, Hb.
  rewrite !Hdec in *. unfold sign_pos. rewrite Hw.
  replace (mw + ew + 1 - 1) with (mw + ew) by lia.
  apply decode_order; assumption.
Qed.

Lemma float_zero_bits (a : Z) :
  is_integer T = false -> representable T a ->
  IEEE.is_zero (float_value T a) = true -> a = 0 \/ a = 2 ^ sign_pos T.
Proof.
  intros HT Ha.
  destruct (float_fields HT) as (mw & ew & Hmw & Hew & Hw & Hdec).
  unfold representable in Ha. rewrite HT, Hw in Ha.
  rewrite Hdec. unfold sign_pos. rewrite Hw.
  replace (mw + ew + 1 - 1) with (mw + ew) by lia.
  apply decode_zero; assumption.
Qed.

Lemma nan_not_less (a b : Z) :
  is_integer T = false -> native_ltb T a b = true ->
  IEEE.is_nan (float_value T a) = false
  /\ IEEE.is_nan (float_value T b) = false.
Proof.
  intros HT. unfold native_ltb. rewrite HT. unfold SFltb, SFcompare.
  destruct (float_value T a), (float_value T b); try discriminate; auto.
Qed.

(** The native order is contained in the order of the radix keys. *)
Lemma native_ltb_radix (a b : Z) :
  representable T a -> representable T b ->
  native_ltb T a b = true -> radix_of T a < radix_of T b.
Proof.
  intros Ha Hb Hlt. destruct (is_integer T) eqn:HT.
  - rewrite native_ltb_integer in Hlt by assumption. apply Z.ltb_lt, Hlt.
  - destruct (nan_not_less a b HT Hlt) as [Hna Hnb].
    rewrite native_ltb_float in Hlt by assumption.
    apply andb_true_iff in Hlt. apply Z.ltb_lt, Hlt.
Qed.

(** The converse, away from NaN and from the pair (-0.0, +0.0). *)
Lemma radix_native_ltb (a b : Z) :
  representable T a -> representable T b ->
  (is_integer T = false ->
   IEEE.is_nan (float_value T a) = false
   /\ IEEE.is_nan (float_value T b) = false
   /\ ~ (a = 2 ^ sign_pos T /\ b = 0)) ->
  radix_of T a < radix_of T b -> native_ltb T a b = true.
Proof.
  intros Ha Hb Hor Hlt. destruct (is_integer T) eqn:HT.
  - rewrite native_ltb_integer by assumption. apply Z.ltb_lt, Hlt.
  - destruct (Hor eq_refl) as (Hna & Hnb & Hz).
    rewrite native_ltb_float by assumption.
    apply andb_true_iff. split; [apply Z.ltb_lt, Hlt|].
    apply negb_true_iff, andb_false_iff.
    destruct (IEEE.is_zero (float_value T a)) eqn:Za; [|auto].
    destruct (IEEE.is_zero (float_value T b)) eqn:Zb; [|auto].
    exfalso.
    rewrite !radix_of_float in Hlt by assumption.
    assert (0 < 2 ^ sign_pos T)
      by (apply Z.pow_pos_nonneg; [lia|destruct T; discriminate]).
    destruct (float_zero_bits a HT Ha Za) as [->| ->];
      destruct (float_zero_bits b HT Hb Zb) as [->| ->];
      try (apply Hz; split; reflexivity);
      unfold flip_float in Hlt;
      repeat match type of Hlt with
             | context [?x <? ?y] => destruct (Z.ltb_spec x y)
             end; lia.
Qed.

Lemma radix_ltb_apply (a b : Z) :
  radix_ltb T (ordering_default.apply T a) (ordering_default.apply T b)
  = (radix_of T a <? radix_of T b).
Proof. apply radix_ltb_unsigned. Qed.

End NativeOrder.

(** ** Traversals *)

Section Traversal.
Context {mapped_type : Type}.
Variable T : key_type.
Implicit Types (root : ptr_t mapped_type) (it : iterator_base)
  (m : arraymap mapped_type).

Local Abbreviation M := (MAX_DEPTH T).
Local Abbreviation W := (key_size T).

Lemma advance_from (dir : direction) m it (K : Z) :
  denotes T (root m) it K ->
  (forall K', first_from T (root m) dir (K + sgn dir) K' ->
              denotes T (root m) (advance T dir m it) K')
  /\ (none_from T (root m) dir (K + sgn dir) ->
      key_bytes (advance T dir m it) = replicate W 0 ++ [exit_byte dir]).
Proof.
  intros (Ht & Hd & Hnum & _). pose proof (MAX_DEPTH_ge_2 T) as HM.
  assert (Hlt : (depth it < M)%nat) by lia.
  assert (HL : forall d', bound_of d' (le_num (key_bytes it)) (depth it)
                          = K + sgn d').
  { intros d'. rewrite Hd, Hnum. reflexivity. }
  destruct dir; unfold advance, iterator_incr, reverse_iterator_incr.
  - destruct (increment_from T (root m) it Ht Hlt) as [Hf Hn].
    { rewrite Hd. apply aligned_0. }
    cbv zeta in Hf, Hn. rewrite HL in Hf, Hn.
    split; [exact Hf|]. intros H. apply Hn, H.
  - destruct (decrement_from T (root m) it Ht Hlt) as [Hf Hn].
    { rewrite Hd. apply aligned_0. }
    cbv zeta in Hf, Hn. rewrite HL in Hf, Hn.
    split; [exact Hf|]. intros H. apply Hn, H.
Qed.

Lemma start_spec (dir : direction) m :
  (forall K', first_from T (root m) dir (origin T dir) K' ->
              denotes T (root m) (start T dir m) K')
  /\ (none_from T (root m) dir (origin T dir) ->
      key_bytes (start T dir m) = replicate W 0 ++ [exit_byte dir]).
Proof. destruct dir; [apply begin_spec|apply rbegin_spec]. Qed.

Lemma past_end_bytes (dir : direction) m :
  key_bytes (past_end T dir m) = replicate W 0 ++ [exit_byte dir].
Proof. destruct dir; [apply end_key_bytes|apply rend_key_bytes]. Qed.

Lemma denotes_not_past (dir : direction) root m' it (K : Z) :
  denotes T root it K -> iterator_eqb T it (past_end T dir m') = false.
Proof.
  intros Hden. destruct dir;
    [eapply denotes_not_end|eapply denotes_not_rend]; eassumption.
Qed.

(** The key an iterator yields is the native key of its position. *)
Lemma restored_key_native it root (K : Z) :
  tracks T root it -> le_num (key_bytes it) = K ->
  restored_key T it = native_of T K.
Proof.
  intros (Hl & Hb & Hov & _) Hnum. unfold restored_key, native_of.
  assert (E : key_bytes it = take W (key_bytes it) ++ [0]).
  { rewrite <- Hov.
    rewrite <- (take_drop W (key_bytes it)) at 1. f_equal.
    rewrite (drop_S _ (key_bytes it !!! W) W).
    - rewrite drop_ge by lia. reflexivity.
    - apply list_lookup_lookup_total_lt. lia. }
  assert (Hlt : length (take W (key_bytes it)) = W)
    by (rewrite length_take; lia).
  assert (Hbt : Forall is_byte (take W (key_bytes it)))
    by (apply Forall_take; assumption).
  rewrite E, le_num_app in Hnum. simpl (le_num [0]) in Hnum.
  rewrite Z.mul_0_r, Z.add_0_r in Hnum.
  pose proof (le_bytes_le_num _ Hbt) as Hrt. rewrite Hlt, Hnum in Hrt.
  rewrite Hrt. reflexivity.
Qed.

Lemma deref_denotes m it (K : Z) :
  denotes T (root m) it K -> iterator_deref m it = entry T m K.
Proof.
  intros (Ht & Hd & Hnum & Hp & Hcv). pose proof (MAX_DEPTH_ge_2 T) as HM.
  unfold iterator_deref, entry. rewrite Hcv. cbn [fst snd].
  rewrite (restored_key_native it (root m) K Ht Hnum).
  change (deref (root m) (target_slot (root m) it 0))
    with (target (root m) it 0).
  rewrite (tracked_target T (root m) it 0 Ht) by lia.
  rewrite Hnum. reflexivity.
Qed.

Lemma traverse_step (dir : direction) m it (K : Z) (out : list visited) :
  denotes T (root m) it K ->
  traverse_body T m (advance T dir) (past_end T dir m) (it, out)
  = inl (advance T dir m it, out ++ [entry T m K]).
Proof.
  intros Hden. unfold traverse_body.
  rewrite (denotes_not_past dir (root m) m it K Hden).
  rewrite (deref_denotes m it K Hden). reflexivity.
Qed.

Lemma traverse_stop (dir : direction) m it (out : list visited) :
  key_bytes it = replicate W 0 ++ [exit_byte dir] ->
  traverse_body T m (advance T dir) (past_end T dir m) (it, out) = inr out.
Proof.
  intros E. unfold traverse_body. rewrite iterator_eqb_same; [reflexivity|].
  rewrite past_end_bytes. exact E.
Qed.

Lemma traverse_nat (dir : direction) m (ks : list Z) :
  forall (K : Z) it (out : list visited) (extra : nat),
  denotes T (root m) it K ->
  enumerates T (root m) dir (K + sgn dir) ks ->
  while_nat (traverse_body T m (advance T dir) (past_end T dir m))
    (length ks + 2 + extra) (it, out)
  = inr (out ++ map (entry T m) (K :: ks)).
Proof.
  induction ks as [|K' ks IH]; intros K it out extra Hden Hen;
    destruct (advance_from dir m it K Hden) as [Hf Hn];
    cbn [length Nat.add while_nat]; rewrite (traverse_step dir m it K out Hden).
  - cbn [enumerates] in Hen. rewrite traverse_stop by (apply Hn, Hen).
    reflexivity.
  - destruct Hen as [HK' Hen].
    change (S (length ks + 1 + extra)) with (S (length ks) + 1 + extra)%nat.
    replace (S (length ks) + 1 + extra)%nat
      with (length ks + 2 + extra)%nat by lia.
    rewrite (IH K' _ _ extra (Hf K' HK') Hen).
    cbn [map]. rewrite <- app_assoc. reflexivity.
Qed.

Lemma first_from_remaining (dir : direction) root (L K : Z) :
  first_from T root dir L K ->
  (S (remaining T dir (K + sgn dir)) <= remaining T dir L)%nat.
Proof.
  intros (_ & Hr & Ha & _). unfold remaining.
  destruct dir; simpl in *; lia.
Qed.

Lemma enumerates_length (dir : direction) root (ks : list Z) :
  forall L, enumerates T root dir L ks ->
            (length ks <= remaining T dir L)%nat.
Proof.
  induction ks as [|K ks IH]; intros L Hen; cbn [length]; [lia|].
  destruct Hen as [HK Hen].
  pose proof (first_from_remaining dir root L K HK).
  pose proof (IH _ Hen). lia.
Qed.

Lemma enumerates_exists (dir : direction) root (L : Z) :
  exists ks, enumerates T root dir L ks.
Proof.
  remember (remaining T dir L) as n eqn:Hn. revert L Hn.
  induction n as [n IH] using lt_wf_ind. intros L Hn.
  destruct (first_or_none T root dir L) as [(K & HK)|Hnone].
  - pose proof (first_from_remaining dir root L K HK) as Hlt.
    destruct (IH (remaining T dir (K + sgn dir)) ltac:(lia) _ eq_refl)
      as (ks & Hks).
    exists (K :: ks). split; assumption.
  - exists []. exact Hnone.
Qed.

Lemma remaining_origin (dir : direction) :
  remaining T dir (origin T dir) = Z.to_nat (key_space T).
Proof. destruct dir; unfold remaining, origin; f_equal; lia. Qed.

Lemma traverse_bound_nat :
  Pos.to_nat (traverse_bound T) = S (Z.to_nat (key_space T)).
Proof.
  unfold traverse_bound. rewrite <- (key_space_bits T).
  pose proof (key_space_pos T). lia.
Qed.

(** A traversal yields the stored elements in the order of their radix
    keys, and it ends. *)
Lemma traverse_spec (dir : direction) m (ks : list Z) :
  enumerates T (root m) dir (origin T dir) ks ->
  traverse T m (advance T dir) (start T dir m) (past_end T dir m)
  = inr (map (entry T m) ks).
Proof.
  intros Hen. unfold traverse. rewrite while_loop_nat, traverse_bound_nat.
  destruct (start_spec dir m) as [Hf Hn].
  pose proof (enumerates_length dir (root m) ks _ Hen) as Hlen.
  rewrite remaining_origin in Hlen.
  destruct ks as [|K ks].
  - cbn [while_nat]. rewrite traverse_stop by (apply Hn, Hen). reflexivity.
  - destruct Hen as [HK Hen]. cbn [length] in Hlen.
    replace (S (Z.to_nat (key_space T)))
      with (length ks + 2 + (Z.to_nat (key_space T) - S (length ks)))%nat
      by lia.
    apply (traverse_nat dir m ks K _ [] _ (Hf K HK) Hen).
Qed.

Lemma forward_spec m (ks : list Z) :
  enumerates T (root m) Up 0 ks -> forward T m = inr (map (entry T m) ks).
Proof. apply (traverse_spec Up). Qed.

Lemma backward_spec m (ks : list Z) :
  enumerates T (root m) Down (key_space T - 1) ks ->
  backward T m = inr (map (entry T m) ks).
Proof. apply (traverse_spec Down). Qed.

End Traversal.

(** ** The content of a container *)

Section Content.
Context {mapped_type : Type}.
Variable T : key_type.
Implicit Types (root : ptr_t mapped_type) (it : iterator_base)
  (m : arraymap mapped_type).

Local Abbreviation M := (MAX_DEPTH T).
Local Abbreviation W := (key_size T).

(** *** Native keys and radix keys *)

Lemma representableb_spec (k : Z) :
  representableb T k = true <-> representable T k.
Proof.
  unfold representableb, representable. destruct (is_integer T);
    rewrite andb_true_iff, Z.leb_le, Z.ltb_lt; tauto.
Qed.

Lemma native_radix (k : Z) :
  representable T k -> native_of T (radix_of T k) = k.
Proof.
  intros Hk. unfold native_of, radix_of.
  change (le_bytes W (to_unsigned (bit_width T) (ordering_default.apply T k)))
    with (to_bytes T (ordering_default.apply T k)).
  rewrite of_bytes_to_bytes by (apply apply_representable; assumption).
  apply restore_apply. assumption.
Qed.

Lemma native_representable (K : Z) : representable T (native_of T K).
Proof.
  unfold native_of. apply restore_representable.
  apply (of_bytes_representable T);
    [apply le_bytes_length|apply le_bytes_bytes].
Qed.

Lemma radix_native (K : Z) :
  0 <= K < key_space T -> radix_of T (native_of T K) = K.
Proof.
  intros HK. unfold native_of, radix_of.
  rewrite apply_restore
    by (apply (of_bytes_representable T);
        [apply le_bytes_length|apply le_bytes_bytes]).
  rewrite (of_bytes_unsigned T)
    by first [apply le_bytes_length|apply le_bytes_bytes].
  rewrite le_num_le_bytes, <- (key_space_eq T). apply Z.mod_small, HK.
Qed.

Lemma entry_radix m (k : Z) :
  representable T k -> entry T m (radix_of T k) = (Some k, lookup T m k).
Proof. intros Hk. unfold entry, lookup. rewrite native_radix; auto. Qed.

(** *** Enumerations *)

Lemma ahead_trans (dir : direction) (L K k : Z) :
  ahead dir L K -> ahead dir (K + sgn dir) k -> ahead dir L k.
Proof. destruct dir; simpl; lia. Qed.

Lemma enumerates_In (dir : direction) root (ks : list Z) :
  forall L, enumerates T root dir L ks ->
  forall K, In K ks <->
            present T root K = true /\ 0 <= K < key_space T /\ ahead dir L K.
Proof.
  induction ks as [|K0 ks IH]; intros L Hen K.
  - cbn [enumerates] in Hen. split; [intros []|].
    intros (Hp & Hr & Ha). rewrite (Hen K Hr Ha) in Hp. discriminate.
  - destruct Hen as [(Hp0 & Hr0 & Ha0 & Hmin) Hen]. split.
    + intros [<-|Hin]; [auto|].
      apply (IH _ Hen) in Hin. destruct Hin as (Hp & Hr & Ha).
      split; [assumption|]. split; [assumption|].
      apply ahead_trans with K0; assumption.
    + intros (Hp & Hr & Ha). destruct (Z.eq_dec K K0) as [->|Hne];
        [left; reflexivity|right].
      apply (IH _ Hen). split; [assumption|]. split; [assumption|].
      apply ahead_strict; [|assumption]. apply Hmin; assumption.
Qed.

Lemma enumerates_sorted (dir : direction) root (ks : list Z) :
  forall L, enumerates T root dir L ks ->
  StronglySorted (fun a b => ahead dir (a + sgn dir) b) ks.
Proof.
  induction ks as [|K0 ks IH]; intros L Hen; [constructor|].
  destruct Hen as [_ Hen]. constructor; [apply (IH _ Hen)|].
  apply Forall_forall. intros K HK. apply list_elem_of_In in HK.
  apply (enumerates_In dir root ks _ Hen) in HK. apply HK.
Qed.

Lemma in_range_ahead (dir : direction) (K : Z) :
  0 <= K < key_space T -> ahead dir (origin T dir) K.
Proof. destruct dir; simpl; lia. Qed.

(** *** One insertion *)

Lemma insert_root m (k : Z) (v : mapped_type) :
  well_formed M (root m) = true ->
  root (fst (insert T m (k, v)))
  = if is_empty_node (leaf T (root m) (radix_of T k))
    then add_rec (root m) (path_of T (radix_of T k) 0) (val v)
    else root m.
Proof.
  intros Hwf. unfold insert. cbn [fst snd].
  rewrite element_fast_find_leaf. fold (radix_of T k).
  destruct (is_empty_node (leaf T (root m) (radix_of T k))); [|reflexivity].
  rewrite element_fast_add_spec by assumption. reflexivity.
Qed.

Lemma well_formed_insert m (k : Z) (v : mapped_type) :
  well_formed M (root m) = true ->
  well_formed M (root (fst (insert T m (k, v)))) = true.
Proof.
  intros Hwf. rewrite insert_root by assumption.
  destruct (is_empty_node _); [|assumption].
  apply add_rec_well_formed; [rewrite path_of_length; lia|assumption|].
  reflexivity.
Qed.

Lemma leaf_insert m (k : Z) (v : mapped_type) (K : Z) :
  well_formed M (root m) = true -> 0 <= K < key_space T ->
  leaf T (root (fst (insert T m (k, v)))) K
  = if (radix_of T k =? K) && is_empty_node (leaf T (root m) K)
    then val v else leaf T (root m) K.
Proof.
  intros Hwf HK. rewrite insert_root by assumption.
  destruct (Z.eqb_spec (radix_of T k) K) as [->|Hne]; cbn [andb].
  - destruct (is_empty_node (leaf T (root m) K)); [|reflexivity].
    apply leaf_add_rec_same. assumption.
  - destruct (is_empty_node _); [|reflexivity].
    apply leaf_add_rec_other; try assumption. apply radix_of_range.
Qed.

(** *** A list of insertions *)

Lemma insert_list_cons m (kv : Z * mapped_type) (kvs : list (Z * mapped_type)) :
  insert_list T m (kv :: kvs) = insert_list T (fst (insert T m kv)) kvs.
Proof. reflexivity. Qed.

Lemma well_formed_insert_list (kvs : list (Z * mapped_type)) :
  forall m, well_formed M (root m) = true ->
            well_formed M (root (insert_list T m kvs)) = true.
Proof.
  induction kvs as [|[k v] kvs IH]; intros m Hwf; [assumption|].
  rewrite insert_list_cons. apply IH, well_formed_insert, Hwf.
Qed.

Lemma leaf_kept (kvs : list (Z * mapped_type)) (K : Z) :
  0 <= K < key_space T ->
  forall m, well_formed M (root m) = true ->
            is_empty_node (leaf T (root m) K) = false ->
            leaf T (root (insert_list T m kvs)) K = leaf T (root m) K.
Proof.
  intros HK. induction kvs as [|[k v] kvs IH]; intros m Hwf Hne;
    [reflexivity|].
  rewrite insert_list_cons.
  assert (E : leaf T (root (fst (insert T m (k, v)))) K = leaf T (root m) K).
  { rewrite leaf_insert, Hne, andb_false_r by assumption. reflexivity. }
  rewrite IH; [exact E|apply well_formed_insert, Hwf|rewrite E; exact Hne].
Qed.

Lemma present_insert_list (kvs : list (Z * mapped_type)) (K : Z) :
  0 <= K < key_space T ->
  forall m, well_formed M (root m) = true ->
  present T (root (insert_list T m kvs)) K
  = present T (root m) K
    || existsb (fun kv => radix_of T (fst kv) =? K) kvs.
Proof.
  intros HK. induction kvs as [|[k v] kvs IH]; intros m Hwf.
  - cbn [existsb]. rewrite orb_false_r. reflexivity.
  - rewrite insert_list_cons, IH by (apply well_formed_insert, Hwf).
    cbn [existsb fst]. unfold present at 1.
    rewrite leaf_insert by assumption. unfold present.
    destruct (Z.eqb_spec (radix_of T k) K);
      destruct (is_empty_node (leaf T (root m) K)) eqn:E;
      cbn [andb orb negb]; rewrite ?E; reflexivity.
Qed.

Lemma leaf_insert_list (kvs : list (Z * mapped_type)) (k : Z) (v : mapped_type) :
  NoDup (map (fun kv => radix_of T (fst kv)) kvs) -> In (k, v) kvs ->
  forall m, well_formed M (root m) = true ->
            leaf T (root m) (radix_of T k) = empty_node_ptr ->
            leaf T (root (insert_list T m kvs)) (radix_of T k) = val v.
Proof.
  induction kvs as [|[k0 v0] kvs IH]; intros Hnd Hin m Hwf He; [destruct Hin|].
  rewrite insert_list_cons. apply NoDup_cons in Hnd. destruct Hnd as [Hni Hnd].
  pose proof (radix_of_range T k) as Hr.
  pose proof (well_formed_insert m k0 v0 Hwf) as Hwf1.
  destruct Hin as [E|Hin].
  - inversion E; subst k0 v0.
    assert (E1 : leaf T (root (fst (insert T m (k, v)))) (radix_of T k) = val v).
    { rewrite leaf_insert, He, Z.eqb_refl by assumption. reflexivity. }
    rewrite leaf_kept; [exact E1|assumption..|rewrite E1; reflexivity].
  - apply IH; try assumption.
    rewrite leaf_insert by assumption.
    destruct (Z.eqb_spec (radix_of T k0) (radix_of T k)) as [E|_];
      [|exact He].
    exfalso. apply Hni. cbn [fst]. rewrite E.
    apply list_elem_of_In.
    apply (in_map (fun kv => radix_of T (fst kv)) kvs (k, v)), Hin.
Qed.

Lemma present_empty (K : Z) :
  present T (@empty_node_ptr mapped_type) K = false.
Proof. unfold present, leaf. rewrite load_empty. reflexivity. Qed.

End Content.

(** ** Traversing what was inserted *)

Section SortedLists.
Context {A B : Type}.

Lemma sorted_map (R : A -> A -> Prop) (R' : B -> B -> Prop) (f : A -> B)
    (l : list A) :
  (forall a b, In a l -> In b l -> R a b -> R' (f a) (f b)) ->
  StronglySorted R l -> StronglySorted R' (map f l).
Proof.
  intros Hf Hs. induction Hs as [|a l Hs IH Hall]; cbn [map]; [constructor|].
  constructor.
  - apply IH. intros x y Hx Hy. apply Hf; right; assumption.
  - apply Forall_forall. intros y Hy. apply list_elem_of_In, in_map_iff in Hy.
    destruct Hy as (x & <- & Hx). apply Hf; [left; reflexivity|right; exact Hx|].
    rewrite Forall_forall in Hall. apply Hall, list_elem_of_In, Hx.
Qed.

Lemma sorted_NoDup (R : A -> A -> Prop) (l : list A) :
  (forall a, ~ R a a) -> StronglySorted R l -> NoDup l.
Proof.
  intros Hirr Hs. induction Hs as [|a l Hs IH Hall]; constructor; [|exact IH].
  intros Hin. rewrite Forall_forall in Hall. apply (Hirr a), Hall, Hin.
Qed.

Lemma NoDup_map_on (f : A -> B) (l : list A) :
  (forall a b, In a l -> In b l -> f a = f b -> a = b) ->
  NoDup l -> NoDup (map f l).
Proof.
  intros Hinj Hnd. induction Hnd as [|a l Hni Hnd IH]; cbn [map]; constructor.
  - intros Hin. apply list_elem_of_In, in_map_iff in Hin.
    destruct Hin as (x & E & Hx). apply Hni, list_elem_of_In.
    rewrite (Hinj a x); [exact Hx|left; reflexivity|right; exact Hx|].
    symmetry. exact E.
  - apply IH. intros x y Hx Hy. apply Hinj; right; assumption.
Qed.

End SortedLists.

Section Ordered.
Context {mapped_type : Type}.
Variable T : key_type.
Implicit Types (root : ptr_t mapped_type) (m : arraymap mapped_type)
  (kvs : list (Z * mapped_type)).

Local Abbreviation M := (MAX_DEPTH T).
Local Abbreviation W := (key_size T).

Lemma native_ltb_irrefl (k : Z) : representable T k -> native_ltb T k k = false.
Proof.
  intros Hk. destruct (native_ltb T k k) eqn:E; [|reflexivity].
  pose proof (native_ltb_radix T k k Hk Hk E). lia.
Qed.

Lemma pairwise_ordered_spec (l : list Z) :
  Forall (representable T) l -> pairwise_ordered T l = true ->
  NoDup l
  /\ forall a b, In a l -> In b l -> a <> b ->
                 native_ltb T a b = true \/ native_ltb T b a = true.
Proof.
  induction 1 as [|k l Hk Hl IH]; cbn [pairwise_ordered]; intros Hd.
  - split; [constructor|]. intros a b [].
  - apply andb_true_iff in Hd. destruct Hd as [Hall Hd].
    destruct (IH Hd) as [Hnd Hcmp]. rewrite forallb_forall in Hall.
    split.
    + constructor; [|exact Hnd]. intros Hin. apply list_elem_of_In in Hin.
      specialize (Hall k Hin). rewrite native_ltb_irrefl in Hall by assumption.
      discriminate.
    + intros a b [<-|Ha] [<-|Hb] Hne.
      * contradiction.
      * apply orb_true_iff, Hall, Hb.
      * apply or_comm, orb_true_iff, Hall, Ha.
      * apply Hcmp; assumption.
Qed.

Lemma radix_of_inj (a b : Z) :
  representable T a -> representable T b ->
  radix_of T a = radix_of T b -> a = b.
Proof.
  intros Ha Hb E. rewrite <- (native_radix T a Ha), <- (native_radix T b Hb), E.
  reflexivity.
Qed.

(** Of two distinct keys, the one with the smaller radix key is the
    smaller one. *)
Lemma distinct_precedes (dir : direction) (a b : Z) :
  representable T a -> representable T b ->
  native_ltb T a b = true \/ native_ltb T b a = true ->
  ahead dir (radix_of T a + sgn dir) (radix_of T b) -> precedes T dir a b.
Proof.
  intros Ha Hb Hcmp Hah. destruct dir; simpl in *.
  - destruct Hcmp as [H|H]; [exact H|].
    pose proof (native_ltb_radix T b a Hb Ha H). lia.
  - destruct Hcmp as [H|H]; [|exact H].
    pose proof (native_ltb_radix T a b Ha Hb H). lia.
Qed.

Lemma stored_keys kvs (K : Z) :
  0 <= K < key_space T ->
  present T (root (insert_list T empty_map kvs)) K = true
  <-> exists k, In k (map fst kvs) /\ radix_of T k = K.
Proof.
  intros HK. rewrite present_insert_list
    by first [assumption|apply well_formed_empty].
  cbn [root empty_map]. rewrite present_empty. cbn [orb].
  rewrite existsb_exists. split.
  - intros ([k v] & Hin & E). exists k. split; [|apply Z.eqb_eq, E].
    apply (in_map fst kvs (k, v)), Hin.
  - intros (k & Hin & E). apply in_map_iff in Hin.
    destruct Hin as ([k' v] & <- & Hin). exists (k', v).
    split; [exact Hin|apply Z.eqb_eq, E].
Qed.

Lemma stored_values kvs (k : Z) (v : mapped_type) :
  Forall (representable T) (map fst kvs) ->
  pairwise_ordered T (map fst kvs) = true -> In (k, v) kvs ->
  lookup T (insert_list T empty_map kvs) k = Some v.
Proof.
  intros Hrep Hd Hin. destruct (pairwise_ordered_spec _ Hrep Hd) as [Hnd _].
  unfold lookup. rewrite (leaf_insert_list T kvs k v); try reflexivity.
  - rewrite <- (map_map fst (radix_of T)). apply NoDup_map_on; [|exact Hnd].
    rewrite Forall_forall in Hrep.
    intros a b Ha Hb. apply radix_of_inj; apply Hrep, list_elem_of_In; assumption.
  - exact Hin.
  - apply well_formed_empty.
  - unfold leaf. apply load_empty.
Qed.

(** A traversal of a container built by insertions yields the inserted
    keys, each once, in the order of the direction of travel. *)
Lemma traverse_insert_list (dir : direction) kvs :
  Forall (representable T) (map fst kvs) ->
  pairwise_ordered T (map fst kvs) = true ->
  let m := insert_list T empty_map kvs in
  exists ks : list Z,
    traverse T m (advance T dir) (start T dir m) (past_end T dir m)
    = inr (map (fun k => (Some k, lookup T m k)) ks)
    /\ StronglySorted (precedes T dir) ks
    /\ Permutation ks (map fst kvs).
Proof.
  intros Hrep Hd m. destruct (pairwise_ordered_spec _ Hrep Hd) as [Hnd Hcmp].
  destruct (enumerates_exists T dir (root m) (origin T dir)) as (Ks & HKs).
  pose proof (enumerates_In T dir (root m) Ks _ HKs) as HIn.
  pose proof (enumerates_sorted T dir (root m) Ks _ HKs) as Hsort.
  assert (Hrep' : forall k, In k (map fst kvs) -> representable T k).
  { intros k Hk. rewrite Forall_forall in Hrep.
    apply Hrep, list_elem_of_In, Hk. }
  assert (Hstored : forall K, In K Ks ->
            0 <= K < key_space T
            /\ In (native_of T K) (map fst kvs)
            /\ radix_of T (native_of T K) = K).
  { intros K HK. apply HIn in HK. destruct HK as (Hp & Hr & _).
    split; [exact Hr|]. apply (stored_keys kvs K Hr) in Hp.
    destruct Hp as (k & Hk & <-).
    rewrite native_radix by (apply Hrep', Hk). split; [exact Hk|reflexivity]. }
  exists (map (native_of T) Ks). split; [|split].
  - rewrite (traverse_spec T dir m Ks HKs), map_map. f_equal.
    apply map_ext_in. intros K HK. destruct (Hstored K HK) as (Hr & _ & E).
    unfold entry, lookup. rewrite E. reflexivity.
  - apply (sorted_map (fun a b => ahead dir (a + sgn dir) b)); [|exact Hsort].
    intros K1 K2 H1 H2 Hah.
    destruct (Hstored K1 H1) as (_ & Hk1 & E1).
    destruct (Hstored K2 H2) as (_ & Hk2 & E2).
    apply distinct_precedes; try (apply Hrep'; assumption).
    + apply Hcmp; try assumption. intros E. rewrite E, E2 in E1. subst K2.
      destruct dir; simpl in Hah; lia.
    + rewrite E1, E2. exact Hah.
  - apply NoDup_Permutation; [|exact Hnd|].
    + apply NoDup_map_on.
      * intros K1 K2 H1 H2 E.
        destruct (Hstored K1 H1) as (_ & _ & E1).
        destruct (Hstored K2 H2) as (_ & _ & E2).
        rewrite <- E1, <- E2, E. reflexivity.
      * apply (sorted_NoDup (fun a b => ahead dir (a + sgn dir) b));
          [|exact Hsort].
        intros a. destruct dir; simpl; lia.
    + intros k. rewrite !list_elem_of_In. split.
      * intros Hk. apply in_map_iff in Hk. destruct Hk as (K & <- & HK).
        apply (Hstored K HK).
      * intros Hk. apply in_map_iff. exists (radix_of T k).
        split; [apply native_radix, Hrep', Hk|].
        apply HIn. pose proof (radix_of_range T k) as Hr.
        split; [|split; [exact Hr|apply in_range_ahead, Hr]].
        apply (stored_keys kvs _ Hr). exists k. split; [exact Hk|reflexivity].
Qed.

End Ordered.

(** ** Counting the elements *)

(** Every sequence of digits is the path of a key. *)
Lemma digits_key (ds : list nat) :
  digits_ok ds ->
  exists K, 0 <= K < 16 ^ Z.of_nat (length ds)
            /\ map (digit K) (rev (seq 0 (length ds))) = ds.
Proof.
  induction 1 as [|d ds Hd Hds (K' & HK' & E)].
  - exists 0. split; [simpl; lia|reflexivity].
  - set (n := length ds) in *. pose proof (pow_pos_16 n) as Hp.
    exists (Z.of_nat d * 16 ^ Z.of_nat n + K'). split.
    + cbn [length]. fold n. rewrite Nat2Z.inj_succ, Z.pow_succ_r by lia.
      assert (Z.of_nat d * 16 ^ Z.of_nat n <= 15 * 16 ^ Z.of_nat n)
        by (apply Z.mul_le_mono_nonneg_r; lia).
      assert (0 <= Z.of_nat d * 16 ^ Z.of_nat n)
        by (apply Z.mul_nonneg_nonneg; lia).
      lia.
    + cbn [length]. fold n. rewrite seq_S, rev_app_distr.
      change (0 + n)%nat with n. cbn [rev app map].
      f_equal.
      * unfold digit. rewrite Z.div_add_l, Z.div_small by lia.
        rewrite Z.add_0_r, Z.mod_small by lia. apply Nat2Z.id.
      * transitivity (map (digit K') (rev (seq 0 n))); [|exact E].
        apply map_ext_in. intros i Hi.
        apply in_rev, in_seq in Hi. unfold digit. f_equal.
        replace (Z.of_nat n) with (Z.of_nat (S (n - S i)) + Z.of_nat i) by lia.
        rewrite Z.pow_add_r, Z.mul_assoc, Z.div_add_l by lia.
        pose proof (pow_pos_16 i).
        rewrite Nat2Z.inj_succ, Z.pow_succ_r by lia.
        rewrite Z.add_comm.
        replace (Z.of_nat d * (16 * 16 ^ Z.of_nat (n - S i)))
          with (Z.of_nat d * 16 ^ Z.of_nat (n - S i) * 16) by lia.
        apply Z.mod_add. lia.
Qed.

Lemma sum_nonneg {A} (f : A -> Z) (l : list A) :
  (forall a, 0 <= f a) -> 0 <= fold_right Z.add 0 (map f l).
Proof.
  intros Hf. induction l as [|a l IH]; simpl; [lia|]. specialize (Hf a). lia.
Qed.

Lemma sum_zero_inv {A} (f : A -> Z) (l : list A) :
  (forall a, 0 <= f a) -> fold_right Z.add 0 (map f l) = 0 ->
  Forall (fun a => f a = 0) l.
Proof.
  intros Hf. induction l as [|a l IH]; cbn [map fold_right]; intros E;
    constructor; pose proof (sum_nonneg f l Hf); pose proof (Hf a);
    [|apply IH]; lia.
Qed.

Section Counting.
Context {mapped_type : Type}.
Implicit Types (p root : ptr_t mapped_type) (m : arraymap mapped_type).

(** A subtree holds no leaf exactly when every path through it ends in
    the sentinel. *)
Lemma leaf_count_zero (d : nat) :
  forall p, well_formed d p = true ->
  (leaf_count d p = 0
   <-> forall ds, length ds = d -> digits_ok ds ->
                  is_empty_node (load p ds) = true).
Proof.
  induction d as [|d IH]; intros p Hwf.
  - destruct (well_formed_0_inv p Hwf) as [->|(v & ->)]; split.
    + intros _ ds Hl _. destruct ds; [reflexivity|discriminate].
    + reflexivity.
    + discriminate.
    + intros H. specialize (H [] eq_refl ltac:(constructor)). discriminate.
  - destruct (well_formed_S_inv d p Hwf) as [->|(arr & -> & Hlen & Hall)].
    + split; [|reflexivity]. intros _ ds _ _. rewrite load_empty. reflexivity.
    + rewrite leaf_count_next. split.
      * intros E [|i ds] Hl Hok; [discriminate|]. cbn [load next_at].
        apply sum_zero_inv in E; [|apply leaf_count_nonneg].
        inversion Hok; subst.
        apply (IH (arr !!! i)).
        -- apply (Forall_lookup_total_default
                    (fun c => well_formed d c = true));
             [apply well_formed_empty|assumption].
        -- apply (Forall_lookup_total_default (fun c => leaf_count d c = 0));
             [apply leaf_count_empty|assumption].
        -- cbn [length] in Hl. lia.
        -- assumption.
      * intros H. apply sum_map_zero. apply Forall_lookup. intros i c Hi.
        pose proof (lookup_lt_Some _ _ _ Hi) as Hlt.
        apply list_lookup_total_correct in Hi. subst c.
        apply IH.
        -- apply (Forall_lookup_total_default
                    (fun c => well_formed d c = true));
             [apply well_formed_empty|assumption].
        -- intros ds Hl Hok.
           apply (H (i :: ds)); [cbn [length]; lia|].
           constructor; [lia|assumption].
Qed.

Variable T : key_type.
Local Abbreviation M := (MAX_DEPTH T).
Local Abbreviation W := (key_size T).

Lemma path_of_onto (ds : list nat) :
  length ds = M -> digits_ok ds ->
  exists K, 0 <= K < key_space T /\ path_of T K 0 = ds.
Proof.
  intros Hl Hok. destruct (digits_key ds Hok) as (K & HK & E).
  rewrite Hl in HK, E. exists K. split; [exact HK|].
  unfold path_of. rewrite Nat.sub_0_r. exact E.
Qed.

(** [empty()] holds exactly when no key is stored. *)
Lemma empty_spec m :
  invariant T m = true ->
  (empty m = true
   <-> forall K, 0 <= K < key_space T -> present T (root m) K = false).
Proof.
  intros Hinv. apply invariant_spec in Hinv.
  destruct Hinv as (Hwf & _ & Hcnt & _).
  unfold empty. rewrite Z.eqb_eq, Hcnt, (leaf_count_zero M _ Hwf). split.
  - intros H K _. unfold present, leaf. rewrite H; [reflexivity| |].
    + rewrite path_of_length. lia.
    + apply path_of_digits_ok.
  - intros H ds Hl Hok. destruct (path_of_onto ds Hl Hok) as (K & HK & <-).
    specialize (H K HK). unfold present, leaf in H.
    apply negb_false_iff, H.
Qed.

End Counting.

(** ** The invariant along the operations *)

Section Steps.
Context {mapped_type : Type}.
Variable T : key_type.
Variable default_value : mapped_type.
Implicit Types (root : ptr_t mapped_type) (it : iterator_base)
  (m : arraymap mapped_type).

Local Abbreviation M := (MAX_DEPTH T).
Local Abbreviation W := (key_size T).

Lemma invariant_well_formed m :
  invariant T m = true -> well_formed M (root m) = true.
Proof. intros H. apply invariant_spec in H. apply H. Qed.

Lemma insert_invariant m (k : Z) (v : mapped_type) :
  invariant T m = true -> representable T k ->
  element_count m + 1 < 2 ^ 64 ->
  invariant T (fst (insert T m (k, v))) = true.
Proof.
  intros Hinv Hk Hroom. pose proof (invariant_well_formed m Hinv) as Hwf.
  destruct (leaf_well_formed T (root m) (radix_of T k) Hwf) as [He|(v0 & Hv)].
  - rewrite (insert_absent T m k v Hinv Hk He). cbn [fst].
    apply inserted_invariant; try assumption. apply radix_of_range.
  - rewrite insert_present by (rewrite Hv; reflexivity). exact Hinv.
Qed.

Lemma index_invariant m (k : Z) :
  invariant T m = true -> element_count m + 1 < 2 ^ 64 ->
  invariant T (fst (index T default_value m k)) = true.
Proof.
  intros Hinv Hroom. pose proof (invariant_well_formed m Hinv) as Hwf.
  destruct (leaf_well_formed T (root m) (radix_of T k) Hwf) as [He|(v0 & Hv)].
  - rewrite (index_absent T default_value m k Hinv He). cbn [fst].
    apply inserted_invariant; try assumption. apply radix_of_range.
  - rewrite index_present by (rewrite Hv; reflexivity). exact Hinv.
Qed.

Lemma erase_invariant m (k : Z) :
  invariant T m = true -> representable T k ->
  invariant T (fst (erase T m k)) = true.
Proof.
  intros Hinv Hk. destruct (present T (root m) (radix_of T k)) eqn:Hp.
  - rewrite (erase_present T m k Hinv Hk Hp). cbn [fst].
    apply erased_invariant; assumption.
  - rewrite (erase_absent T m k Hp). exact Hinv.
Qed.

Lemma erase_pos_invariant m (pos : iterator_base) (K : Z) :
  invariant T m = true -> denotes T (root m) pos K ->
  invariant T (fst (erase_pos T m pos)) = true.
Proof.
  intros Hinv Hden. rewrite (erase_pos_spec T m pos K Hinv Hden).
  apply erased_invariant; [assumption|apply Hden].
Qed.

Lemma run_invariant m (op : operation mapped_type) :
  invariant T m = true -> admissible T m op ->
  invariant T (run T default_value m op) = true.
Proof.
  intros Hinv Hop. destruct op as [k v|k v|k v|k|k|pos|]; cbn [run admissible] in *.
  - destruct Hop. apply insert_invariant; assumption.
  - destruct Hop. rewrite emplace_insert. apply insert_invariant; assumption.
  - destruct Hop. rewrite try_emplace_insert.
    apply insert_invariant; assumption.
  - destruct Hop. apply index_invariant; assumption.
  - apply erase_invariant; assumption.
  - destruct Hop as (K & HK). apply erase_pos_invariant with K; assumption.
  - apply clear_invariant.
Qed.

Lemma reachable_invariant m :
  reachable T default_value m -> invariant T m = true.
Proof.
  induction 1 as [|m op _ IH Hop]; [apply empty_map_invariant|].
  apply run_invariant; assumption.
Qed.

(** *** Stepping back from the end *)

Lemma end_position m :
  key_bytes (end_ T m) = replicate W 0 ++ [1]
  /\ (M <= depth (end_ T m))%nat
  /\ length (stack (end_ T m)) = M
  /\ stack (end_ T m) !!! (M - 1)%nat = at_path [].
Proof.
  pose proof (MAX_DEPTH_ge_2 T) as HM.
  split; [apply end_key_bytes|].
  unfold end_, iterator_root, iterator_base_root.
  cbn [depth stack set_depth set_key_bytes].
  split; [lia|]. split.
  - rewrite length_insert, length_replicate. reflexivity.
  - apply list_lookup_total_insert_eq. rewrite length_replicate. lia.
Qed.

Lemma decrement_end m :
  (forall K', first_from T (root m) Down (key_space T - 1) K' ->
              denotes T (root m) (iterator_decr T m (end_ T m)) K')
  /\ (none_from T (root m) Down (key_space T - 1) ->
      key_bytes (iterator_decr T m (end_ T m)) = replicate W 0 ++ [0xFF]).
Proof.
  destruct (end_position m) as (Hkb & Hd & Hl & Htop).
  destruct (decrement_from_end T (root m) (end_ T m) Hkb Hd Hl Htop)
    as [Hf Hn].
  split; [exact Hf|]. intros H. apply Hn, H.
Qed.

(** *** Bounds of a stored key *)

Lemma lower_bound_present m (k : Z) :
  representable T k -> present T (root m) (radix_of T k) = true ->
  denotes T (root m) (lower_bound T m k) (radix_of T k).
Proof.
  intros Hk Hp. unfold lower_bound.
  apply (iterator_key_present T (root m) (ordering_default.apply T k) true);
    [apply apply_representable; assumption|exact Hp].
Qed.

Lemma upper_bound_present m (k : Z) :
  representable T k -> present T (root m) (radix_of T k) = true ->
  (forall K', first_from T (root m) Up (radix_of T k + 1) K' ->
              denotes T (root m) (upper_bound T m k) K')
  /\ (none_from T (root m) Up (radix_of T k + 1) ->
      key_bytes (upper_bound T m k) = key_bytes (end_ T m)).
Proof.
  intros Hk Hp. pose proof (find_present T m k Hk Hp) as Hden.
  unfold upper_bound. unfold find in Hden.
  rewrite (denotes_not_end T (root m) m _ _ Hden).
  rewrite end_key_bytes.
  apply (advance_from T Up m _ _ Hden).
Qed.

End Steps.

(** * The claims of the specification *)

(** ** The ordering transform *)

(** C3.  For every key [k] of a supported key type,
    [restore(apply(k))] is [k], bit for bit, and [apply(restore(k))]
    is [k] as well: the two functions of [ordering_default] are mutual
    inverses.  (An integer key is its value, a floating-point key its
    bit pattern, so equality here is equality of all bits.) *)
Theorem restore_apply_inverse (T : key_type) (k : Z) :
  representable T k ->
  ordering_default.restore T (ordering_default.apply T k) = k
  /\ ordering_default.apply T (ordering_default.restore T k) = k.
Proof.
  intros Hk. split; [apply restore_apply|apply apply_restore]; assumption.
Qed.

Lemma restore_apply_inverse_witness :
  ordering_default.restore double (ordering_default.apply double 13830554455654793216)
  = 13830554455654793216
  /\ ordering_default.apply double
       (ordering_default.restore double 13830554455654793216)
     = 13830554455654793216.
Proof.
  apply (restore_apply_inverse double 13830554455654793216).
  unfold representable, bit_width. simpl. lia.
Defined.

(** C2, as the specification states it, fails on floating-point keys.
    The bit patterns of -0.0 and +0.0 are transformed to 0x7FFFFFFF and
    0x80000000, so [apply(-0.0)] is byte-wise less than [apply(+0.0)],
    while -0.0 is not less than +0.0 under the comparison of [float].
    And [apply(1.0)] is byte-wise less than [apply(NaN)] (0x7FC00000),
    while nothing is less than a NaN. *)
Lemma apply_order_counterexample :
  (representable float 2147483648 /\ representable float 0
   /\ ~ (radix_ltb float (ordering_default.apply float 2147483648)
                         (ordering_default.apply float 0) = true
         <-> native_ltb float 2147483648 0 = true))
  /\ (representable float 1065353216 /\ representable float 2143289344
      /\ ~ (radix_ltb float (ordering_default.apply float 1065353216)
                            (ordering_default.apply float 2143289344) = true
            <-> native_ltb float 1065353216 2143289344 = true)).
Proof.
  split; (split; [unfold representable, bit_width; simpl; lia|]);
    (split; [unfold representable, bit_width; simpl; lia|]);
    intros [H _]; specialize (H eq_refl); vm_compute in H; discriminate H.
Qed.

(** C2, amended.  For all keys [a] and [b] of a supported key type
    (signed integers of 8, 16, 32 and 64 bits, [float] and [double]):
    if [a < b] under the native comparison of the key type, then
    [apply(a)] is less than [apply(b)] under unsigned byte-wise
    comparison, most significant byte first; and the two are
    equivalent for the integer types and, for the floating-point types,
    whenever neither key is a NaN and [(a, b)] is not [(-0.0, +0.0)]. *)
Theorem apply_preserves_order (T : key_type) (a b : Z) :
  representable T a -> representable T b ->
  (native_ltb T a b = true ->
   radix_ltb T (ordering_default.apply T a) (ordering_default.apply T b) = true)
  /\ (order_preserved T a b = true ->
      (radix_ltb T (ordering_default.apply T a) (ordering_default.apply T b)
       = true
       <-> native_ltb T a b = true)).
Proof.
  intros Ha Hb. rewrite radix_ltb_apply, Z.ltb_lt.
  split; [apply native_ltb_radix; assumption|]. intros Hop. split.
  - apply radix_native_ltb; try assumption. intros HT.
    unfold order_preserved in Hop. rewrite HT in Hop. cbn [orb] in Hop.
    apply andb_true_iff in Hop. destruct Hop as [Hop Hz].
    apply andb_true_iff in Hop. destruct Hop as [Hna Hnb].
    apply negb_true_iff in Hna, Hnb, Hz.
    split; [exact Hna|]. split; [exact Hnb|].
    intros [-> ->]. rewrite !Z.eqb_refl in Hz. discriminate.
  - apply native_ltb_radix; assumption.
Qed.

Lemma apply_preserves_order_witness :
  radix_ltb float (ordering_default.apply float 3212836864)
                  (ordering_default.apply float 1065353216) = true
  <-> native_ltb float 3212836864 1065353216 = true.
Proof.
  refine (proj2 (apply_preserves_order float 3212836864 1065353216 _ _) _).
  - unfold representable, bit_width. simpl. lia.
  - unfold representable, bit_width. simpl. lia.
  - vm_compute. reflexivity.
Defined.

(** ** The two zeros *)

(** C4, as the specification states it, fails: after -0.0 and +0.0
    have been inserted into an empty [arraymap<float, V>], the container
    holds two elements, not one. *)
Lemma two_zeros_counterexample :
  size (insert_list float empty_map [(2147483648, 1); (0, 2)]) <> 1
  /\ size (insert_list float empty_map [(0, 2); (2147483648, 1)]) <> 1.
Proof. split; vm_compute; discriminate. Qed.

(** C4, amended.  For a floating-point key type under
    [ordering_default], inserting -0.0 and +0.0, in either order, into
    an empty container results in a container holding exactly two
    elements: the two zeros have different radix keys, and a traversal
    meets -0.0 first and +0.0 next. *)
Theorem two_zeros_two_elements {mapped_type : Type} (T : key_type)
    (v1 v2 : mapped_type) :
  is_integer T = false ->
  let minus_zero := 2 ^ sign_pos T in
  let m12 := insert_list T empty_map [(minus_zero, v1); (0, v2)] in
  let m21 := insert_list T empty_map [(0, v2); (minus_zero, v1)] in
  size m12 = 2 /\ size m21 = 2
  /\ radix_of T minus_zero + 1 = radix_of T 0
  /\ forward T m12 = inr [(Some minus_zero, Some v1); (Some 0, Some v2)]
  /\ forward T m21 = inr [(Some minus_zero, Some v1); (Some 0, Some v2)].
Proof.
  intros HT. destruct T; try discriminate; vm_compute; repeat split.
Qed.

Lemma two_zeros_two_elements_witness :
  size (insert_list float empty_map [(2 ^ sign_pos float, 1); (0, 2)]) = 2
  /\ size (insert_list float empty_map [(0, 2); (2 ^ sign_pos float, 1)]) = 2
  /\ radix_of float (2 ^ sign_pos float) + 1 = radix_of float 0
  /\ forward float
       (insert_list float empty_map [(2 ^ sign_pos float, 1); (0, 2)])
     = inr [(Some (2 ^ sign_pos float), Some 1); (Some 0, Some 2)]
  /\ forward float
       (insert_list float empty_map [(0, 2); (2 ^ sign_pos float, 1)])
     = inr [(Some (2 ^ sign_pos float), Some 1); (Some 0, Some 2)].
Proof.
  apply (two_zeros_two_elements float 1 2). reflexivity.
Defined.

(** ** Bounds *)

(** The example the specification gives: with the elements -5, 0 and 5,
    [lower_bound(0)] denotes the element with key 0 and
    [upper_bound(0)] the element with key 5. *)
Lemma bounds_example :
  let m := insert_list int32_t empty_map [(-5, 1); (0, 2); (5, 3)] in
  iterator_deref m (lower_bound int32_t m 0) = (Some 0, Some 2)
  /\ iterator_deref m (upper_bound int32_t m 0) = (Some 5, Some 3).
Proof. vm_compute. split; reflexivity. Qed.

(** C6 does not hold of the code.  In an [arraymap<int16_t, V>] whose
    only element has the key 1, [lower_bound(-1)] and [upper_bound(-1)]
    return [end()], although the radix key of 1 is greater than the
    radix key of -1.  (The constructor leaves the iterator at the depth
    where the path of the key leaves the trie; [increment] then raises
    the digit of that depth through [incrQuartet] and keeps the digits
    below it, so the keys of the next block that are smaller than those
    digits are passed over.  The search loop of [increment] is left
    through its condition, with [depth] at [MAX_DEPTH].) *)
Theorem lower_bound_passes_over_element :
  let m := fst (insert int16_t empty_map (1, 7)) in
  let it := iterator_base_key int16_t (root m)
              (ordering_default.apply int16_t (-1)) in
  contains int16_t m 1 = true
  /\ radix_ltb int16_t (ordering_default.apply int16_t (-1))
                       (ordering_default.apply int16_t 1) = true
  /\ depth it = 2%nat
  /\ (exists it',
        while_loop (seek_body int16_t (incrQuartet int16_t) (root m))
          (seek_bound int16_t) it = inr (it', false)
        /\ depth it' = MAX_DEPTH int16_t)
  /\ iterator_eqb int16_t (lower_bound int16_t m (-1)) (end_ int16_t m) = true
  /\ iterator_eqb int16_t (upper_bound int16_t m (-1)) (end_ int16_t m) = true.
Proof.
  vm_compute. repeat split. eexists. split; reflexivity.
Qed.

(** ** [at] *)

(** C9 does not hold of the code.  [at] returns [*result->val], where
    [result] is a [ptr_t], a union value: the expression has no type,
    and the member function cannot be instantiated.  [operator[]]
    returns [*result.val], which is a [mapped_type]. *)
Theorem at_return_ill_formed :
  type_of at_return = None /\ type_of index_return = Some ty_mapped_type.
Proof. split; reflexivity. Qed.

(** ** The container *)

(** C1, as the specification states it, fails on floating-point keys
    that the native comparison does not order.  The keys 1.0 and NaN
    (0x7FC00000) are distinct, and the forward traversal yields 1.0 and
    then NaN, which is not ascending: 1.0 is not less than NaN.
    Likewise -0.0 and +0.0 are stored as two keys and yielded in this
    order, and -0.0 is not less than +0.0. *)
Lemma traversal_order_counterexample :
  (forward float (insert_list float empty_map [(1065353216, 1); (2143289344, 2)])
   = inr [(Some 1065353216, Some 1); (Some 2143289344, Some 2)]
   /\ 1065353216 <> 2143289344
   /\ ~ StronglySorted (fun a b => native_ltb float a b = true)
          [1065353216; 2143289344])
  /\ (forward float (insert_list float empty_map [(0, 1); (2147483648, 2)])
      = inr [(Some 2147483648, Some 2); (Some 0, Some 1)]
      /\ 2147483648 <> 0
      /\ ~ StronglySorted (fun a b => native_ltb float a b = true)
             [2147483648; 0]).
Proof.
  split; (split; [vm_compute; reflexivity|]); (split; [lia|]);
    intros H; inversion H as [|? ? _ Hall]; subst;
    inversion Hall as [|? ? Hlt _]; subst; vm_compute in Hlt; discriminate Hlt.
Qed.

Section Claims.
Context {mapped_type : Type}.
Variable T : key_type.
Implicit Types (m : arraymap mapped_type) (kvs : list (Z * mapped_type)).

Local Abbreviation M := (MAX_DEPTH T).
Local Abbreviation W := (key_size T).

Lemma lookup_none m (k : Z) :
  well_formed M (root m) = true ->
  lookup T m k = None -> leaf T (root m) (radix_of T k) = empty_node_ptr.
Proof.
  intros Hwf. unfold lookup.
  destruct (leaf_well_formed T (root m) (radix_of T k) Hwf) as [->|(v & ->)];
    [reflexivity|discriminate].
Qed.

Lemma lookup_some m (k : Z) (v : mapped_type) :
  lookup T m k = Some v -> leaf T (root m) (radix_of T k) = val v.
Proof.
  unfold lookup. destruct (leaf T (root m) (radix_of T k)); try discriminate.
  intros E. inversion E. reflexivity.
Qed.

Lemma radix_of_neq (k k' : Z) :
  representable T k -> representable T k' -> k' <> k ->
  radix_of T k <> radix_of T k'.
Proof. intros Hk Hk' Hne E. apply Hne, (radix_of_inj T); auto. Qed.

(** C1, amended.  For every list of keys that the native comparison
    orders pairwise (of any two of them, one is less than the other:
    distinct integers; floating-point keys without a NaN next to another
    key and without -0.0 together with +0.0), inserted with arbitrary
    values into an empty container: iterating forward from [begin()] to
    [end()] ends and yields exactly the inserted keys, in strictly
    ascending native order; iterating from [rbegin()] to [rend()] ends
    and yields them in strictly descending native order; each traversal
    visits every inserted key exactly once (the keys it yields are a
    permutation of the inserted ones), together with the value inserted
    with it. *)
Theorem traversal_sorted kvs :
  forallb (representableb T) (map fst kvs) = true ->
  pairwise_ordered T (map fst kvs) = true ->
  let m := insert_list T empty_map kvs in
  exists up down : list Z,
    forward T m = inr (map (fun k => (Some k, lookup T m k)) up)
    /\ backward T m = inr (map (fun k => (Some k, lookup T m k)) down)
    /\ StronglySorted (fun a b => native_ltb T a b = true) up
    /\ StronglySorted (fun a b => native_ltb T b a = true) down
    /\ Permutation up (map fst kvs)
    /\ Permutation down (map fst kvs)
    /\ forall k v, In (k, v) kvs -> lookup T m k = Some v.
Proof.
  intros Hrep Hd m.
  assert (Hrep' : Forall (representable T) (map fst kvs)).
  { apply forallb_Forall in Hrep. eapply Forall_impl; [exact Hrep|].
    intros k. apply representableb_spec. }
  destruct (traverse_insert_list T Up kvs Hrep' Hd) as (up & Hup & Hsu & Hpu).
  destruct (traverse_insert_list T Down kvs Hrep' Hd)
    as (down & Hdown & Hsd & Hpd).
  exists up, down. split; [exact Hup|]. split; [exact Hdown|].
  split; [exact Hsu|]. split; [exact Hsd|]. split; [exact Hpu|].
  split; [exact Hpd|]. intros k v. apply stored_values; assumption.
Qed.

(** C5.  After every public mutating operation ([insert], [emplace],
    [try_emplace], [operator[]], [erase] by key, [erase] by iterator,
    [clear]) that starts from a reachable container state,
    [element_count] equals the number of leaf slots reachable from the
    root, and every internal node reachable from the root has a child
    that is not the sentinel. *)
Theorem operations_keep_invariant (default_value : mapped_type) m
    (op : operation mapped_type) :
  reachable T default_value m -> admissible T m op ->
  let m' := run T default_value m op in
  element_count m' = leaf_count M (root m')
  /\ pruned M (root m') = true.
Proof.
  intros Hm Hop m'.
  pose proof (run_invariant T default_value m op
                (reachable_invariant T default_value m Hm) Hop) as Hinv.
  apply invariant_spec in Hinv. fold m' in Hinv.
  destruct Hinv as (_ & Hpr & Hcnt & _). split; assumption.
Qed.

(** C7.  For every container state and every key [k]: when [k] is
    present with mapped value [v0], [insert], [emplace] and
    [try_emplace] with key [k] return the container as it was -- the
    mapped value [v0], the element count and every other element are
    unchanged -- together with the position of [k] and [false]; when
    [k] is absent they store the new value under [k], leave every other
    key as it was, count one element more and return the position of
    [k] and [true]. *)
Theorem insert_only_if_absent m (k : Z) (v : mapped_type) :
  invariant T m = true -> representable T k ->
  (forall v0, lookup T m k = Some v0 ->
     insert T m (k, v) = (m, (find T m k, false))
     /\ emplace T m k v = (m, (find T m k, false))
     /\ try_emplace T m k v = (m, (find T m k, false)))
  /\ (lookup T m k = None ->
      exists m',
        insert T m (k, v) = (m', (find T m' k, true))
        /\ emplace T m k v = (m', (find T m' k, true))
        /\ try_emplace T m k v = (m', (find T m' k, true))
        /\ lookup T m' k = Some v
        /\ (forall k', representable T k' -> k' <> k ->
                       lookup T m' k' = lookup T m k')
        /\ element_count m' = size_type (element_count m + 1)).
Proof.
  intros Hinv Hk. pose proof (invariant_well_formed T m Hinv) as Hwf. split.
  - intros v0 Hv0. apply lookup_some in Hv0.
    rewrite emplace_insert, try_emplace_insert.
    rewrite (insert_present T m k v) by (rewrite Hv0; reflexivity).
    repeat split.
  - intros Hnone. apply (lookup_none m k Hwf) in Hnone.
    rewrite emplace_insert, try_emplace_insert.
    rewrite (insert_absent T m k v Hinv Hk Hnone). cbv zeta.
    eexists. split; [reflexivity|]. split; [reflexivity|].
    split; [reflexivity|]. cbn [element_count]. unfold lookup. cbn [root].
    split; [|split; [|reflexivity]].
    + rewrite leaf_add_rec_same by assumption. reflexivity.
    + intros k' Hk' Hne.
      rewrite leaf_add_rec_other; try assumption; try apply radix_of_range.
      * reflexivity.
      * apply radix_of_neq; assumption.
Qed.

(** C8.  For every container state and every key [k]: [erase(k)]
    returns 1 and removes the element when [k] is present -- every
    other key keeps its value and the count drops by one -- and returns
    0 when [k] is absent, in which case the container is unchanged. *)
Theorem erase_by_key m (k : Z) :
  invariant T m = true -> representable T k ->
  (forall v0, lookup T m k = Some v0 ->
     exists m',
       erase T m k = (m', 1)
       /\ lookup T m' k = None /\ contains T m' k = false
       /\ (forall k', representable T k' -> k' <> k ->
                      lookup T m' k' = lookup T m k')
       /\ element_count m' = element_count m - 1)
  /\ (lookup T m k = None -> erase T m k = (m, 0)).
Proof.
  intros Hinv Hk. pose proof (invariant_well_formed T m Hinv) as Hwf. split.
  - intros v0 Hv0. apply lookup_some in Hv0.
    assert (Hp : present T (root m) (radix_of T k) = true)
      by (unfold present; rewrite Hv0; reflexivity).
    rewrite (erase_present T m k Hinv Hk Hp).
    destruct (erased_invariant T m (radix_of T k) Hinv Hp) as [_ Hsz].
    eexists. split; [reflexivity|]. rewrite contains_present.
    unfold lookup, present. cbn [root element_count].
    rewrite leaf_erase_rec_same by assumption.
    split; [reflexivity|]. split; [reflexivity|]. split; [|exact Hsz].
    intros k' Hk' Hne.
    rewrite leaf_erase_rec_other; try assumption; try apply radix_of_range.
    + reflexivity.
    + apply radix_of_neq; assumption.
  - intros Hnone. apply (lookup_none m k Hwf) in Hnone.
    apply erase_absent. unfold present. rewrite Hnone. reflexivity.
Qed.

(** C10.  For every non-empty container, decrementing a copy of the
    past-the-end iterator [end()] yields a valid iterator that denotes
    the element with the greatest key: no stored key has a greater
    radix key, and none is greater under the native comparison.  On an
    empty container it yields the before-begin position, with the
    overflow byte 0xFF, which is [rend()]. *)
Theorem decrement_end_greatest m :
  invariant T m = true ->
  let it := iterator_decr T m (end_ T m) in
  (empty m = false ->
   exists kmax,
     representable T kmax /\ contains T m kmax = true
     /\ denotes T (root m) it (radix_of T kmax)
     /\ target_valid (root m) it = true
     /\ iterator_deref m it = (Some kmax, lookup T m kmax)
     /\ forall k, representable T k -> contains T m k = true ->
                  radix_of T k <= radix_of T kmax
                  /\ native_ltb T kmax k = false)
  /\ (empty m = true ->
      key_bytes it = replicate W 0 ++ [0xFF]
      /\ key_bytes it !!! W = 0xFF
      /\ iterator_eqb T it (rend T m) = true).
Proof.
  intros Hinv it. destruct (decrement_end T m) as [Hf Hn]. fold it in Hf, Hn.
  pose proof (empty_spec T m Hinv) as Hempty. split.
  - intros Hne.
    destruct (first_or_none T (root m) Down (key_space T - 1))
      as [(K & HK)|Hnone].
    + pose proof (Hf K HK) as Hden.
      destruct HK as (Hp & Hr & _ & Hmax).
      pose proof (radix_native T K Hr) as EK.
      pose proof (native_representable T K) as Hrep.
      exists (native_of T K). rewrite EK, contains_present, EK.
      split; [exact Hrep|]. split; [exact Hp|]. split; [exact Hden|].
      split; [|split].
      * destruct Hden as (Ht & Hd & Hnum & _).
        rewrite (target_valid_present T) by (rewrite ?Hnum; auto).
        rewrite Hnum. exact Hp.
      * rewrite (deref_denotes T m it K Hden). unfold entry, lookup.
        rewrite EK. reflexivity.
      * intros k Hk Hc. rewrite contains_present in Hc.
        pose proof (radix_of_range T k) as Hrk.
        assert (Hle : radix_of T k <= K).
        { apply (Hmax (radix_of T k)); [exact Hrk|exact Hc|simpl; lia]. }
        split; [exact Hle|].
        destruct (native_ltb T (native_of T K) k) eqn:E; [|reflexivity].
        pose proof (native_ltb_radix T _ _ Hrep Hk E) as Hlt.
        rewrite EK in Hlt. lia.
    + exfalso. assert (He : empty m = true); [|congruence].
      apply Hempty. intros K HK. apply Hnone; [exact HK|simpl; lia].
  - intros He. assert (Hnone : none_from T (root m) Down (key_space T - 1)).
    { intros K HK _. apply Hempty; assumption. }
    specialize (Hn Hnone). split; [exact Hn|]. split.
    + rewrite Hn. destruct (edge_buffer T 0 255) as (_ & Hov & _);
        [unfold is_byte; lia..|]. exact Hov.
    + apply iterator_eqb_same. rewrite rend_key_bytes. exact Hn.
Qed.

End Claims.

Lemma traversal_sorted_witness :
  let m := insert_list int8_t empty_map [(5, 30); (-5, 10); (0, 20)] in
  exists up down : list Z,
    forward int8_t m = inr (map (fun k => (Some k, lookup int8_t m k)) up)
    /\ backward int8_t m
       = inr (map (fun k => (Some k, lookup int8_t m k)) down)
    /\ StronglySorted (fun a b => native_ltb int8_t a b = true) up
    /\ StronglySorted (fun a b => native_ltb int8_t b a = true) down
    /\ Permutation up (map fst [(5, 30); (-5, 10); (0, 20)])
    /\ Permutation down (map fst [(5, 30); (-5, 10); (0, 20)])
    /\ forall k v, In (k, v) [(5, 30); (-5, 10); (0, 20)] ->
                   lookup int8_t m k = Some v.
Proof.
  apply (traversal_sorted int8_t [(5, 30); (-5, 10); (0, 20)]); reflexivity.
Defined.

Lemma operations_keep_invariant_witness :
  let m' := run int8_t 0 (run int8_t 0 empty_map (op_insert 5 30)) (op_erase 5) in
  element_count m' = leaf_count (MAX_DEPTH int8_t) (root m')
  /\ pruned (MAX_DEPTH int8_t) (root m') = true.
Proof.
  apply (operations_keep_invariant int8_t 0
           (run int8_t 0 empty_map (op_insert 5 30)) (op_erase 5)).
  - apply reachable_run; [apply reachable_new|].
    split; [unfold representable, bit_width; simpl; lia|simpl; lia].
  - unfold admissible, representable, bit_width. simpl. lia.
Defined.

Lemma insert_only_if_absent_witness :
  let m := insert_list int8_t empty_map [(5, 30)] in
  insert int8_t m (5, 77) = (m, (find int8_t m 5, false))
  /\ emplace int8_t m 5 77 = (m, (find int8_t m 5, false))
  /\ try_emplace int8_t m 5 77 = (m, (find int8_t m 5, false)).
Proof.
  refine (proj1 (insert_only_if_absent int8_t
                   (insert_list int8_t empty_map [(5, 30)]) 5 77 _ _) 30 _).
  - vm_compute. reflexivity.
  - unfold representable, bit_width. simpl. lia.
  - vm_compute. reflexivity.
Defined.

Lemma erase_by_key_witness :
  let m := insert_list int8_t empty_map [(5, 30)] in
  erase int8_t m 7 = (m, 0).
Proof.
  refine (proj2 (erase_by_key int8_t
                   (insert_list int8_t empty_map [(5, 30)]) 7 _ _) _).
  - vm_compute. reflexivity.
  - unfold representable, bit_width. simpl. lia.
  - vm_compute. reflexivity.
Defined.

Lemma decrement_end_greatest_witness :
  let m := insert_list int8_t empty_map [(5, 30); (-5, 10)] in
  let it := iterator_decr int8_t m (end_ int8_t m) in
  exists kmax,
    representable int8_t kmax /\ contains int8_t m kmax = true
    /\ denotes int8_t (root m) it (radix_of int8_t kmax)
    /\ target_valid (root m) it = true
    /\ iterator_deref m it = (Some kmax, lookup int8_t m kmax)
    /\ forall k, representable int8_t k -> contains int8_t m k = true ->
                 radix_of int8_t k <= radix_of int8_t kmax
                 /\ native_ltb int8_t kmax k = false.
Proof.
  refine (proj1 (decrement_end_greatest int8_t
                   (insert_list int8_t empty_map [(5, 30); (-5, 10)]) _) _).
  - vm_compute. reflexivity.
  - vm_compute. reflexivity.
Defined.

(** * Further properties of the code *)

(** ** Sorted lists *)

Lemma sorted_app {A} (R : A -> A -> Prop) (l1 l2 : list A) :
  StronglySorted R l1 -> StronglySorted R l2 ->
  (forall a b, In a l1 -> In b l2 -> R a b) ->
  StronglySorted R (l1 ++ l2).
Proof.
  intros H1 H2 H12. induction H1 as [|a l1 H1 IH Hall]; cbn [app]; [exact H2|].
  constructor.
  - apply IH. intros x y Hx Hy. apply H12; [right; exact Hx|exact Hy].
  - apply Forall_app. split; [exact Hall|].
    apply Forall_forall. intros y Hy. apply H12; [left; reflexivity|].
    apply list_elem_of_In, Hy.
Qed.

Lemma sorted_rev {A} (R : A -> A -> Prop) (l : list A) :
  StronglySorted R l -> StronglySorted (fun a b => R b a) (rev l).
Proof.
  induction 1 as [|a l Hs IH Hall]; cbn [rev]; [constructor|].
  apply sorted_app; [exact IH|repeat constructor|].
  intros x y Hx [<-|[]]. rewrite Forall_forall in Hall.
  apply Hall, list_elem_of_In, in_rev, Hx.
Qed.

Lemma sorted_flat_map {I A} (Ri : I -> I -> Prop) (R : A -> A -> Prop)
    (f : I -> list A) (l : list I) :
  StronglySorted Ri l ->
  (forall i, In i l -> StronglySorted R (f i)) ->
  (forall i j a b, Ri i j -> In a (f i) -> In b (f j) -> R a b) ->
  StronglySorted R (flat_map f l).
Proof.
  intros Hl Hf Hcross. induction Hl as [|i l Hl IH Hall]; cbn [flat_map];
    [constructor|].
  apply sorted_app.
  - apply Hf. left. reflexivity.
  - apply IH. intros j Hj. apply Hf. right. exact Hj.
  - intros a b Ha Hb. apply in_flat_map in Hb. destruct Hb as (j & Hj & Hb).
    rewrite Forall_forall in Hall.
    apply (Hcross i j); [apply Hall, list_elem_of_In, Hj|exact Ha|exact Hb].
Qed.

Lemma sorted_seq (a n : nat) : StronglySorted lt (seq a n).
Proof.
  revert a. induction n as [|n IH]; intros a; cbn [seq]; constructor.
  - apply IH.
  - apply Forall_forall. intros x Hx. apply list_elem_of_In, in_seq in Hx. lia.
Qed.

Lemma sorted_weaken {A} (R R' : A -> A -> Prop) (l : list A) :
  (forall a b, R a b -> R' a b) -> StronglySorted R l -> StronglySorted R' l.
Proof.
  intros HR. induction 1 as [|a l Hs IH Hall]; constructor; [exact IH|].
  eapply Forall_impl; [exact Hall|]. intros b. apply HR.
Qed.

(** ** Enumerations, characterised *)

Section Enumerations.
Context {mapped_type : Type}.
Variable T : key_type.
Implicit Types (root : ptr_t mapped_type) (m : arraymap mapped_type).

Local Abbreviation M := (MAX_DEPTH T).
Local Abbreviation W := (key_size T).

Lemma enumerates_intro (dir : direction) root (ks : list Z) :
  forall L,
  StronglySorted (fun a b => ahead dir (a + sgn dir) b) ks ->
  (forall K, In K ks <->
             present T root K = true /\ 0 <= K < key_space T /\ ahead dir L K) ->
  enumerates T root dir L ks.
Proof.
  induction ks as [|K0 ks IH]; intros L Hs Hin; cbn [enumerates].
  - intros k Hk Ha. destruct (present T root k) eqn:Hp; [|reflexivity].
    exfalso. apply (proj2 (Hin k)). auto.
  - inversion Hs as [|? ? Hs' Hall]; subst. rewrite Forall_forall in Hall.
    destruct (proj1 (Hin K0) ltac:(left; reflexivity)) as (Hp0 & Hr0 & Ha0).
    split.
    + split; [exact Hp0|]. split; [exact Hr0|]. split; [exact Ha0|].
      intros k Hk Hp Ha. destruct (proj2 (Hin k)) as [<-|Hk']; [auto| |].
      * apply ahead_refl.
      * apply ahead_weaken, Hall, list_elem_of_In, Hk'.
    + apply IH; [exact Hs'|]. intros K. split.
      * intros HK. destruct (proj1 (Hin K) ltac:(right; exact HK))
          as (Hp & Hr & _).
        split; [exact Hp|]. split; [exact Hr|].
        apply Hall, list_elem_of_In, HK.
      * intros (Hp & Hr & Ha).
        destruct (proj2 (Hin K)) as [->|HK]; [|exfalso|exact HK].
        -- split; [exact Hp|]. split; [exact Hr|].
           apply ahead_trans with K0; assumption.
        -- destruct dir; simpl in Ha; lia.
Qed.

Lemma first_from_unique (dir : direction) root (L K1 K2 : Z) :
  first_from T root dir L K1 -> first_from T root dir L K2 -> K1 = K2.
Proof.
  intros (Hp1 & Hr1 & Ha1 & Hm1) (Hp2 & Hr2 & Ha2 & Hm2).
  apply (ahead_antisym dir); [apply Hm1|apply Hm2]; assumption.
Qed.

Lemma enumerates_unique (dir : direction) root (ks1 : list Z) :
  forall ks2 L, enumerates T root dir L ks1 -> enumerates T root dir L ks2 ->
                ks1 = ks2.
Proof.
  induction ks1 as [|K1 ks1 IH]; intros [|K2 ks2] L H1 H2; cbn [enumerates] in *.
  - reflexivity.
  - exfalso. destruct H2 as [(Hp & Hr & Ha & _) _].
    rewrite (H1 K2 Hr Ha) in Hp. discriminate.
  - exfalso. destruct H1 as [(Hp & Hr & Ha & _) _].
    rewrite (H2 K1 Hr Ha) in Hp. discriminate.
  - destruct H1 as [Hf1 H1], H2 as [Hf2 H2].
    pose proof (first_from_unique dir root L K1 K2 Hf1 Hf2). subst K2.
    f_equal. apply (IH ks2 _ H1 H2).
Qed.

(** The keys a backward traversal meets are those of the forward
    traversal, in the opposite order. *)
Lemma enumerates_rev root (ks : list Z) :
  enumerates T root Up 0 ks -> enumerates T root Down (key_space T - 1) (rev ks).
Proof.
  intros Hen. apply enumerates_intro.
  - pose proof (enumerates_sorted T Up root ks _ Hen) as Hs.
    apply sorted_rev in Hs. eapply sorted_weaken; [|exact Hs].
    intros a b. simpl. lia.
  - intros K. rewrite <- in_rev, (enumerates_In T Up root ks _ Hen K).
    simpl. split; intros (Hp & Hr & _); (split; [exact Hp|split; [exact Hr|lia]]).
Qed.

End Enumerations.

(** ** The elements in the order of the trie *)

Section InOrder.
Context {mapped_type : Type}.
Implicit Types (p root : ptr_t mapped_type) (m : arraymap mapped_type).

(** [free_node_tree] destroys the values in the order of their keys. *)
Lemma free_node_tree_in_order (d : nat) :
  forall p (base : Z), free_node_tree p d = map snd (in_order d p base).
Proof.
  induction d as [|d IH]; intros p base.
  - destruct p; reflexivity.
  - destruct p as [|arr|v]; cbn [free_node_tree is_empty_node in_order].
    + reflexivity.
    + induction (seq 0 16) as [|i l IHl]; cbn [flat_map next_at];
        [reflexivity|].
      rewrite map_app, <- IHl. f_equal. apply IH.
    + cbn [map]. induction (seq 0 16) as [|i l IHl]; [reflexivity|].
      cbn [flat_map]. rewrite IHl. cbn [next_at]. destruct d; reflexivity.
Qed.

Lemma slots_map {B} (f : ptr_t mapped_type -> B)
    (arr : list (ptr_t mapped_type)) :
  map (fun i => f (arr !!! i)) (seq 0 (length arr)) = map f arr.
Proof.
  assert (Hs : forall (l pre : list (ptr_t mapped_type)),
             map (fun i => f ((pre ++ l) !!! i)) (seq (length pre) (length l))
             = map f l).
  { induction l as [|c l IHl]; intros pre; [reflexivity|].
    cbn [length seq map]. f_equal.
    - rewrite lookup_total_app_r by lia. rewrite Nat.sub_diag. reflexivity.
    - replace (pre ++ c :: l) with ((pre ++ [c]) ++ l)
        by (rewrite <- app_assoc; reflexivity).
      rewrite <- (IHl (pre ++ [c])). rewrite length_app. cbn [length].
      replace (length pre + 1)%nat with (S (length pre)) by lia.
      reflexivity. }
  apply (Hs arr []).
Qed.

Lemma in_order_length (d : nat) :
  forall p (base : Z),
  well_formed d p = true ->
  Z.of_nat (length (in_order d p base)) = leaf_count d p.
Proof.
  induction d as [|d IH]; intros p base Hwf.
  - destruct p; reflexivity.
  - destruct (well_formed_S_inv d p Hwf) as [->|(arr & -> & Hl & Hall)];
      [reflexivity|].
    cbn [in_order]. rewrite leaf_count_next, <- (slots_map (leaf_count d)), Hl.
    assert (Hgen : forall (l : list nat) (g : nat -> Z),
      Z.of_nat (length (flat_map (fun i => in_order d (arr !!! i) (g i)) l))
      = fold_right Z.add 0 (map (fun i => leaf_count d (arr !!! i)) l)).
    { induction l as [|i l IHl]; intros g; cbn [flat_map map fold_right];
        [reflexivity|].
      rewrite length_app, Nat2Z.inj_add, IHl, IH; [reflexivity|].
      apply (Forall_lookup_total_default (fun c => well_formed d c = true));
        [apply well_formed_empty|assumption]. }
    apply (Hgen (seq 0 16) (fun i => 16 * base + Z.of_nat i)).
Qed.

End InOrder.

Lemma rel_path_S (K : Z) (d : nat) :
  rel_path K (S d) = digit K d :: rel_path K d.
Proof. unfold rel_path. rewrite seq_S, rev_app_distr. reflexivity. Qed.

Section InOrderFacts.
Context {mapped_type : Type}.
Implicit Types (p root : ptr_t mapped_type) (m : arraymap mapped_type).

Lemma in_order_In (d : nat) :
  forall p (base K : Z) (v : mapped_type),
  well_formed d p = true ->
  (In (K, v) (in_order d p base)
   <-> K / 16 ^ Z.of_nat d = base /\ load p (rel_path K d) = val v).
Proof.
  induction d as [|d IH]; intros p base K v Hwf.
  - change (16 ^ Z.of_nat 0) with 1. rewrite Z.div_1_r. cbn [rel_path load].
    destruct (well_formed_0_inv p Hwf) as [->|(v' & ->)]; cbn [in_order In].
    + split; [intros []|intros [_ H]; discriminate].
    + split.
      * intros [E|[]]. inversion E. auto.
      * intros [-> E]. inversion E. auto.
  - rewrite rel_path_S. cbn [load].
    destruct (well_formed_S_inv d p Hwf) as [->|(arr & -> & Hl & Hall)].
    + cbn [in_order In next_at]. rewrite load_empty.
      split; [intros []|intros [_ H]; discriminate].
    + cbn [in_order next_at]. rewrite in_flat_map, div_pow16_S.
      assert (Hc : forall i, well_formed d (arr !!! i) = true).
      { intros i.
        apply (Forall_lookup_total_default (fun c => well_formed d c = true));
          [apply well_formed_empty|assumption]. }
      pose proof (digit_lt K d) as Hdl. unfold digit in *.
      split.
      * intros (i & Hi & Hin). apply in_seq in Hi.
        apply (IH _ _ _ _ (Hc i)) in Hin. destruct Hin as [E Hload].
        rewrite E. split; [lia|].
        replace (Z.to_nat ((16 * base + Z.of_nat i) mod 16)) with i by lia.
        exact Hload.
      * intros [E Hload].
        exists (Z.to_nat ((K / 16 ^ Z.of_nat d) mod 16)).
        split; [apply in_seq; lia|].
        apply (IH _ _ _ _ (Hc _)). split; [lia|exact Hload].
Qed.

Lemma in_order_sorted (d : nat) :
  forall p (base : Z),
  well_formed d p = true ->
  StronglySorted (fun a b : Z * mapped_type => fst a < fst b)
    (in_order d p base).
Proof.
  induction d as [|d IH]; intros p base Hwf.
  - destruct p; cbn [in_order]; repeat constructor.
  - destruct (well_formed_S_inv d p Hwf) as [->|(arr & -> & Hl & Hall)];
      [constructor|].
    assert (Hc : forall i, well_formed d (arr !!! i) = true).
    { intros i.
      apply (Forall_lookup_total_default (fun c => well_formed d c = true));
        [apply well_formed_empty|assumption]. }
    cbn [in_order]. apply (sorted_flat_map lt); [apply sorted_seq| |].
    + intros i _. apply IH, Hc.
    + intros i j [K1 v1] [K2 v2] Hij H1 H2. cbn [fst].
      apply (in_order_In d _ _ _ _ (Hc i)) in H1.
      apply (in_order_In d _ _ _ _ (Hc j)) in H2.
      destruct H1 as [E1 _], H2 as [E2 _]. pose proof (pow_pos_16 d) as Hp.
      destruct (Z.lt_ge_cases K1 K2) as [Hlt|Hge]; [exact Hlt|].
      pose proof (Z.div_le_mono K2 K1 (16 ^ Z.of_nat d) Hp Hge). lia.
Qed.

Variable T : key_type.
Local Abbreviation M := (MAX_DEPTH T).
Local Abbreviation W := (key_size T).

Lemma rel_path_path_of (K : Z) : rel_path K M = path_of T K 0.
Proof. unfold rel_path, path_of. rewrite Nat.sub_0_r. reflexivity. Qed.

Lemma in_order_stored root (K : Z) (v : mapped_type) :
  well_formed M root = true ->
  (In (K, v) (in_order M root 0)
   <-> 0 <= K < key_space T /\ leaf T root K = val v).
Proof.
  intros Hwf. rewrite (in_order_In M root 0 K v Hwf), rel_path_path_of.
  fold (key_space T). fold (leaf T root K).
  pose proof (key_space_pos T) as Hp.
  rewrite Z.div_small_iff by lia. split; intros [H1 H2]; (split; [lia|exact H2]).
Qed.

Lemma in_order_enumerates root :
  well_formed M root = true ->
  enumerates T root Up 0 (map fst (in_order M root 0)).
Proof.
  intros Hwf. apply enumerates_intro.
  - apply (sorted_map (fun a b : Z * mapped_type => fst a < fst b));
      [|apply in_order_sorted; exact Hwf].
    intros a b _ _ H. simpl. lia.
  - intros K. rewrite in_map_iff. split.
    + intros ([K' v] & E & Hin). cbn [fst] in E. subst K'.
      apply (in_order_stored root K v Hwf) in Hin. destruct Hin as [Hr Hl].
      split; [unfold present; rewrite Hl; reflexivity|].
      split; [exact Hr|simpl; lia].
    + intros (Hp & Hr & _).
      destruct (leaf_well_formed T root K Hwf) as [He|(v & Hv)].
      * unfold present in Hp. rewrite He in Hp. discriminate.
      * exists (K, v). split; [reflexivity|].
        apply (in_order_stored root K v Hwf). auto.
Qed.

(** What a traversal yields for an element of the trie. *)
Lemma entry_in_order m (K : Z) (v : mapped_type) :
  well_formed M (root m) = true -> In (K, v) (in_order M (root m) 0) ->
  entry T m K = (Some (native_of T K), Some v).
Proof.
  intros Hwf Hin. apply (in_order_stored (root m) K v Hwf) in Hin.
  unfold entry. rewrite (proj2 Hin). reflexivity.
Qed.

Lemma forward_in_order m :
  well_formed M (root m) = true ->
  forward T m
  = inr (map (fun kv => (Some (native_of T (fst kv)), Some (snd kv)))
           (in_order M (root m) 0)).
Proof.
  intros Hwf.
  rewrite (forward_spec T m _ (in_order_enumerates (root m) Hwf)), map_map.
  f_equal. apply map_ext_in. intros [K v] Hin.
  apply (entry_in_order m K v Hwf Hin).
Qed.

Lemma backward_in_order m :
  well_formed M (root m) = true ->
  backward T m
  = inr (rev (map (fun kv => (Some (native_of T (fst kv)), Some (snd kv)))
                (in_order M (root m) 0))).
Proof.
  intros Hwf.
  rewrite (backward_spec T m _
             (enumerates_rev T (root m) _ (in_order_enumerates (root m) Hwf))).
  rewrite <- map_rev, <- map_rev, map_map. f_equal. apply map_ext_in.
  intros [K v] Hin. apply in_rev in Hin.
  apply (entry_in_order m K v Hwf Hin).
Qed.

End InOrderFacts.

(** ** Positions outside the elements *)

Section Outside.
Context {mapped_type : Type}.
Variable T : key_type.
Implicit Types (root : ptr_t mapped_type) (it : iterator_base)
  (m : arraymap mapped_type).

Local Abbreviation M := (MAX_DEPTH T).
Local Abbreviation W := (key_size T).

(** The search never touches [stack[MAX_DEPTH - 1]]. *)
Lemma seek_body_rooted (quartet : list Z -> nat -> list Z * nat) root it :
  rooted T it ->
  match seek_body T quartet root it with
  | inl it' => rooted T it'
  | inr (it', _) => rooted T it'
  end.
Proof.
  intros [Hl Htop]. rewrite seek_body_unfold.
  destruct (Nat.ltb_spec (depth it) M) as [Hd|Hd]; [|split; assumption].
  unfold seek_check.
  match goal with
  | |- context [if ?c then set_depth (set_stack _ _) _ else _] => destruct c eqn:Ec
  end.
  - assert (Hr : rooted T
               (set_depth
                  (set_stack it
                     (<[(depth it - 1)%nat := target_slot root it (depth it)]>
                        (stack it))) (depth it - 1))).
    { split; cbn [stack set_depth set_stack].
      - rewrite length_insert. exact Hl.
      - apply andb_true_iff in Ec. destruct Ec as [Ec _].
        apply negb_true_iff, Nat.eqb_neq in Ec.
        rewrite list_lookup_total_insert_ne by lia. exact Htop. }
    match goal with |- context [if ?c then _ else _] => destruct c end;
      exact Hr.
  - match goal with |- context [if ?c then _ else _] => destruct c end;
      split; assumption.
Qed.

Lemma while_nat_rooted (quartet : list Z -> nat -> list Z * nat) root
    (fuel : nat) :
  forall it, rooted T it ->
  match while_nat (seek_body T quartet root) fuel it with
  | inl it' => rooted T it'
  | inr (it', _) => rooted T it'
  end.
Proof.
  induction fuel as [|fuel IH]; intros it Hr; cbn [while_nat]; [exact Hr|].
  pose proof (seek_body_rooted quartet root it Hr) as H.
  destruct (seek_body T quartet root it) as [it'|[it' b]]; [apply IH|]; exact H.
Qed.

Lemma seek_loop_rooted (quartet : list Z -> nat -> list Z * nat) root it :
  rooted T it -> rooted T (fst (seek_loop T quartet root it)).
Proof.
  intros Hr. unfold seek_loop. rewrite while_loop_nat.
  pose proof (while_nat_rooted quartet root (Pos.to_nat (seek_bound T)) it Hr)
    as H.
  destruct (while_nat _ _ it) as [it'|[it' b]]; exact H.
Qed.

Lemma denotes_rooted root it (K : Z) : denotes T root it K -> rooted T it.
Proof.
  intros ((_ & _ & _ & Hl & Hst) & Hd & _). pose proof (MAX_DEPTH_ge_2 T).
  split; [exact Hl|]. rewrite Hst by lia. apply slot_of_top.
Qed.

Lemma end_outside m : outside T Up (end_ T m).
Proof.
  destruct (end_position T m) as (Hkb & Hd & Hl & Htop).
  split; [exact Hkb|]. split; [exact Hd|]. split; assumption.
Qed.

Lemma rend_outside m : outside T Down (rend T m).
Proof.
  pose proof (MAX_DEPTH_ge_2 T) as HM.
  split; [apply rend_key_bytes|].
  unfold rooted, rend, reverse_iterator_root, iterator_base_root.
  cbn [depth stack set_depth set_key_bytes].
  split; [lia|]. split.
  - rewrite length_insert, length_replicate. reflexivity.
  - apply list_lookup_total_insert_eq. rewrite length_replicate. lia.
Qed.

Lemma increment_rec_rooted root (n : nat) :
  forall it, rooted T it -> rooted T (increment_rec T n root it).
Proof.
  induction n as [|n IH]; intros it Hr; cbn [increment_rec];
    pose proof (seek_loop_rooted (incrQuartet T) root it Hr) as H;
    destruct (seek_loop T (incrQuartet T) root it) as [it' [|]];
    cbn [fst] in H; try exact H;
    destruct (key_bytes it' !!! W =? 255); try exact H.
  apply IH. exact H.
Qed.

Lemma decrement_rec_rooted root (n : nat) :
  forall it, rooted T it -> rooted T (decrement_rec T n root it).
Proof.
  induction n as [|n IH]; intros it Hr; cbn [decrement_rec];
    pose proof (seek_loop_rooted (decrQuartet T) root it Hr) as H;
    destruct (seek_loop T (decrQuartet T) root it) as [it' [|]];
    cbn [fst] in H; try exact H;
    destruct (key_bytes it' !!! W =? 1); try exact H.
  apply IH. exact H.
Qed.

Lemma advance_rooted (dir : direction) m it :
  rooted T it -> rooted T (advance T dir m it).
Proof.
  destruct dir; [apply increment_rec_rooted|apply decrement_rec_rooted].
Qed.

(** Incrementing a before-begin position. *)
Lemma increment_from_rend root it :
  key_bytes it = replicate W 0 ++ [0xFF] -> (M <= depth it)%nat ->
  rooted T it ->
  (forall K', first_from T root Up 0 K' ->
              denotes T root (increment T root it) K')
  /\ (none_from T root Up 0 ->
      key_bytes (increment T root it) = replicate W 0 ++ [1]
      /\ (M <= depth (increment T root it))%nat).
Proof.
  intros Hkb Hd [Hs Htop]. pose proof (MAX_DEPTH_ge_2 T) as HM.
  destruct (edge_buffer T 0 255) as ([Hl1 Hb1] & Hov1 & _);
    [unfold is_byte; lia..|].
  unfold increment. cbn [increment_rec].
  change (incrQuartet T) with (quartet_of T Up).
  rewrite seek_loop_exhausted by assumption.
  rewrite Hkb, Hov1. change (255 =? 255) with true. cbn iota.
  cbn [key_bytes set_key_bytes].
  rewrite (memset_after_clear T) by assumption.
  set (it2 := set_depth
                (set_key_bytes
                   (set_key_bytes it (<[W := 0]> (replicate W 0 ++ [255])))
                   (replicate W 0 ++ [0]))
                (M - 1)).
  destruct (edge_buffer T 0 0) as ([Hl2 Hb2] & Hov2 & Hnum2);
    [unfold is_byte; lia..|].
  rewrite le_num_replicate_0, Z.mul_0_r, Z.add_0_r in Hnum2.
  assert (Ht2 : tracks T root it2).
  { split; [exact Hl2|]. split; [exact Hb2|]. split; [exact Hov2|].
    split; [exact Hs|]. intros j Hj. cbn [depth set_depth it2] in Hj.
    replace j with (M - 1)%nat by lia. cbn [stack set_depth set_key_bytes it2].
    rewrite Htop, slot_of_top. reflexivity. }
  assert (Hal2 : aligned Up (le_num (key_bytes it2)) (depth it2)).
  { cbn [key_bytes depth set_depth set_key_bytes it2]. rewrite Hnum2.
    apply aligned_zero_up. }
  assert (HL : bound_of Up (le_num (key_bytes it2)) (depth it2) = 0).
  { cbn [key_bytes depth set_depth set_key_bytes it2]. rewrite Hnum2.
    unfold bound_of. destruct (Nat.eqb_spec (M - 1) 0); [lia|reflexivity]. }
  assert (Hd2 : (depth it2 < M)%nat) by (cbn [depth set_depth it2]; lia).
  split.
  - intros K' HK'. rewrite <- HL in HK'.
    destruct (seek_loop_first T Up root it2 K' Ht2 Hd2 Hal2 HK')
      as (it' & Hrun & Hden).
    rewrite Hrun. exact Hden.
  - intros Hn. rewrite <- HL in Hn.
    destruct (seek_loop_none T Up root it2 Ht2 Hd2 Hal2 Hn)
      as (it' & Hrun & Hd' & [Hl' Hb'] & Hov').
    rewrite Hrun, Hov'. cbn [exit_byte]. change (1 =? 255) with false.
    cbn [key_bytes set_key_bytes depth]. split; [|assumption].
    apply memset_edge. assumption.
Qed.

(** Stepping off the last element in the direction of travel. *)
Lemma step_off (dir : direction) m it (K : Z) :
  denotes T (root m) it K -> none_from T (root m) dir (K + sgn dir) ->
  outside T dir (advance T dir m it).
Proof.
  intros Hden Hn. pose proof (denotes_rooted (root m) it K Hden) as Hr.
  split; [apply (advance_from T dir m it K Hden), Hn|].
  split; [|apply advance_rooted, Hr].
  destruct Hden as (Ht & Hd & Hnum & _). pose proof (MAX_DEPTH_ge_2 T) as HM.
  assert (Hlt : (depth it < M)%nat) by lia.
  assert (HL : forall d', bound_of d' (le_num (key_bytes it)) (depth it)
                          = K + sgn d').
  { intros d'. rewrite Hd, Hnum. reflexivity. }
  destruct dir; unfold advance, iterator_incr, reverse_iterator_incr.
  - destruct (increment_from T (root m) it Ht Hlt) as [_ Hx].
    { rewrite Hd. apply aligned_0. }
    cbv zeta in Hx. rewrite HL in Hx. apply Hx, Hn.
  - destruct (decrement_from T (root m) it Ht Hlt) as [_ Hx].
    { rewrite Hd. apply aligned_0. }
    cbv zeta in Hx. rewrite HL in Hx. apply Hx, Hn.
Qed.

(** Stepping on from a position outside the elements changes nothing
    the comparison of iterators sees. *)
Lemma step_outside (dir : direction) m it :
  outside T dir it -> outside T dir (advance T dir m it).
Proof.
  intros (Hkb & Hd & Hr).
  split; [|split; [|apply advance_rooted, Hr]].
  - destruct (edge_buffer T 0 (exit_byte dir)) as ([Hl1 _] & Hov1 & _);
      [unfold is_byte; destruct dir; simpl; lia..|].
    destruct dir; unfold advance, iterator_incr, reverse_iterator_incr,
      increment, decrement; cbn [increment_rec decrement_rec].
    + change (incrQuartet T) with (quartet_of T Up).
      rewrite seek_loop_exhausted by assumption.
      rewrite Hkb, Hov1. cbn [exit_byte]. change (1 =? 255) with false.
      cbn [key_bytes set_key_bytes]. apply memset_edge. exact Hl1.
    + change (decrQuartet T) with (quartet_of T Down).
      rewrite seek_loop_exhausted by assumption.
      rewrite Hkb, Hov1. cbn [exit_byte]. change (255 =? 1) with false.
      cbn [key_bytes set_key_bytes]. apply memset_edge. exact Hl1.
  - destruct (edge_buffer T 0 (exit_byte dir)) as (_ & Hov1 & _);
      [unfold is_byte; destruct dir; simpl; lia..|].
    destruct dir; unfold advance, iterator_incr, reverse_iterator_incr,
      increment, decrement; cbn [increment_rec decrement_rec].
    + change (incrQuartet T) with (quartet_of T Up).
      rewrite seek_loop_exhausted by assumption.
      rewrite Hkb, Hov1. cbn [exit_byte]. change (1 =? 255) with false.
      cbn [depth set_key_bytes]. exact Hd.
    + change (decrQuartet T) with (quartet_of T Down).
      rewrite seek_loop_exhausted by assumption.
      rewrite Hkb, Hov1. cbn [exit_byte]. change (255 =? 1) with false.
      cbn [depth set_key_bytes]. exact Hd.
Qed.

(** Stepping back from a position outside the elements wraps around to
    the nearest element, if there is one. *)
Lemma step_back (dir : direction) m it :
  outside T dir it ->
  let back := opposite dir in
  (forall K', first_from T (root m) back (origin T back) K' ->
              denotes T (root m) (advance T back m it) K')
  /\ (none_from T (root m) back (origin T back) ->
      outside T back (advance T back m it)).
Proof.
  intros (Hkb & Hd & Hr). cbv zeta.
  pose proof (advance_rooted (opposite dir) m it Hr) as Hr'.
  destruct dir; cbn [opposite origin advance exit_byte] in *;
    unfold iterator_incr, reverse_iterator_incr in *.
  - destruct Hr as [Hl Htop].
    destruct (decrement_from_end T (root m) it Hkb Hd Hl Htop) as [Hf Hn].
    split; [exact Hf|]. intros H. destruct (Hn H) as [H1 H2].
    split; [exact H1|]. split; [exact H2|exact Hr'].
  - destruct (increment_from_rend (root m) it Hkb Hd Hr) as [Hf Hn].
    split; [exact Hf|]. intros H. destruct (Hn H) as [H1 H2].
    split; [exact H1|]. split; [exact H2|exact Hr'].
Qed.

End Outside.

(** ** Comparing positions *)

Lemma memcmp_zero (n : nat) :
  forall a b : list Z,
  (n <= length a)%nat -> (n <= length b)%nat ->
  memcmp a b n = 0 -> take n a = take n b.
Proof.
  induction n as [|n IH]; intros [|x a] [|y b] Ha Hb E; cbn [length] in *;
    try lia; try reflexivity.
  cbn [memcmp] in E.
  destruct (Z.ltb_spec x y); [discriminate|].
  destruct (Z.ltb_spec y x); [discriminate|].
  cbn [take]. f_equal; [lia|]. apply IH; [lia|lia|exact E].
Qed.

Section Positions2.
Context {mapped_type : Type}.
Variable T : key_type.
Implicit Types (root : ptr_t mapped_type) (it : iterator_base)
  (m : arraymap mapped_type).

Local Abbreviation M := (MAX_DEPTH T).
Local Abbreviation W := (key_size T).

Lemma iterator_eqb_spec (a b : iterator_base) :
  length (key_bytes a) = (W + 1)%nat -> length (key_bytes b) = (W + 1)%nat ->
  (iterator_eqb T a b = true <-> key_bytes a = key_bytes b).
Proof.
  intros Ha Hb. split; [|apply iterator_eqb_same].
  unfold iterator_eqb. intros E. apply Z.eqb_eq in E.
  apply memcmp_zero in E; try lia.
  rewrite !firstn_all2 in E by lia. exact E.
Qed.

(** Two positions that denote elements compare equal exactly when they
    denote the same element. *)
Lemma denotes_eqb root root' (a b : iterator_base) (Ka Kb : Z) :
  denotes T root a Ka -> denotes T root' b Kb ->
  iterator_eqb T a b = (Ka =? Kb).
Proof.
  intros ((Hla & Hba & _) & _ & Hna & _) ((Hlb & Hbb & _) & _ & Hnb & _).
  destruct (Z.eqb_spec Ka Kb) as [E|Hne].
  - apply iterator_eqb_same. apply (buffer_eq T); try (split; assumption).
    congruence.
  - destruct (iterator_eqb T a b) eqn:Heq; [|reflexivity].
    apply iterator_eqb_spec in Heq; try assumption. congruence.
Qed.

(** Stepping in one direction and back returns to the same element,
    also across the two ends. *)
Lemma there_and_back (dir : direction) m it (K : Z) :
  denotes T (root m) it K ->
  denotes T (root m) (advance T (opposite dir) m (advance T dir m it)) K.
Proof.
  intros Hden. pose proof Hden as (Ht & _ & Hnum & Hp & _).
  destruct Ht as (Hl & Hb & Hov & _).
  pose proof (buffer_in_range T _ (conj Hl Hb) Hov) as Hr. rewrite Hnum in Hr.
  destruct (first_or_none T (root m) dir (K + sgn dir)) as [(K' & HK')|Hnone].
  - pose proof (proj1 (advance_from T dir m it K Hden) K' HK') as Hden1.
    apply (advance_from T (opposite dir) m _ K' Hden1).
    destruct HK' as (Hp' & Hr' & Ha' & Hmin').
    split; [exact Hp|]. split; [exact Hr|]. split.
    + destruct dir; simpl in *; lia.
    + intros k Hk Hpk Hak.
      destruct dir; simpl in *.
      * destruct (Z.le_gt_cases k K) as [Hle|Hgt]; [exact Hle|].
        specialize (Hmin' k Hk Hpk ltac:(lia)). lia.
      * destruct (Z.le_gt_cases K k) as [Hle|Hgt]; [exact Hle|].
        specialize (Hmin' k Hk Hpk ltac:(lia)). lia.
  - pose proof (step_off T dir m it K Hden Hnone) as Hout.
    apply (step_back T dir m _ Hout).
    split; [exact Hp|]. split; [exact Hr|]. split.
    + destruct dir; simpl; lia.
    + intros k Hk Hpk _.
      destruct dir; simpl in *.
      * destruct (Z.le_gt_cases k K) as [Hle|Hgt]; [exact Hle|].
        rewrite (Hnone k Hk ltac:(simpl; lia)) in Hpk. discriminate.
      * destruct (Z.le_gt_cases K k) as [Hle|Hgt]; [exact Hle|].
        rewrite (Hnone k Hk ltac:(simpl; lia)) in Hpk. discriminate.
Qed.

End Positions2.

(** ** The trie is determined by what it stores *)

Section Canonical.
Context {mapped_type : Type}.
Implicit Types (p q root : ptr_t mapped_type) (m : arraymap mapped_type).

(** A subtree without empty nodes that is not the sentinel holds a
    value. *)
Lemma pruned_has_leaf (d : nat) :
  forall p, well_formed d p = true -> pruned d p = true ->
            is_empty_node p = false ->
  exists ds v, length ds = d /\ digits_ok ds /\ load p ds = val v.
Proof.
  induction d as [|d IH]; intros p Hwf Hpr Hne.
  - destruct (well_formed_0_inv p Hwf) as [->|(v & ->)]; [discriminate|].
    exists [], v. split; [reflexivity|]. split; [constructor|reflexivity].
  - destruct (well_formed_S_inv d p Hwf) as [->|(arr & -> & Hl & Hall)];
      [discriminate|].
    apply pruned_next in Hpr. destruct Hpr as [(c & Hc & Hce) Hprs].
    apply list_elem_of_In, list_elem_of_lookup in Hc. destruct Hc as (i & Hi).
    pose proof (lookup_lt_Some _ _ _ Hi) as Hlt.
    rewrite Forall_lookup in Hall, Hprs.
    destruct (IH c (Hall i c Hi) (Hprs i c Hi) Hce) as (ds & v & Hds & Hok & Hv).
    exists (i :: ds), v. split; [cbn [length]; lia|].
    split; [constructor; [lia|exact Hok]|].
    cbn [load next_at]. rewrite (list_lookup_total_correct _ _ _ Hi). exact Hv.
Qed.

Lemma trie_ext (d : nat) :
  forall p q,
  well_formed d p = true -> well_formed d q = true ->
  pruned d p = true -> pruned d q = true ->
  (forall ds, length ds = d -> digits_ok ds -> load p ds = load q ds) ->
  p = q.
Proof.
  induction d as [|d IH]; intros p q Hwp Hwq Hpp Hpq Hload.
  - apply (Hload [] eq_refl). constructor.
  - assert (Hside : forall p q,
      well_formed (S d) q = true -> pruned (S d) q = true ->
      p = empty_node_ptr ->
      (forall ds, length ds = S d -> digits_ok ds -> load p ds = load q ds) ->
      q = empty_node_ptr).
    { intros p' q' Hw Hp -> Hl.
      destruct (is_empty_node q') eqn:He; [destruct q'; try discriminate; auto|].
      destruct (pruned_has_leaf (S d) q' Hw Hp He) as (ds & v & Hds & Hok & Hv).
      specialize (Hl ds Hds Hok). rewrite load_empty, Hv in Hl. discriminate. }
    destruct (well_formed_S_inv d p Hwp) as [->|(arr & -> & Hl & Hall)].
    + symmetry. apply (Hside empty_node_ptr q Hwq Hpq eq_refl Hload).
    + destruct (well_formed_S_inv d q Hwq) as [->|(arr' & -> & Hl' & Hall')].
      * apply (Hside empty_node_ptr (next arr) Hwp Hpp eq_refl).
        intros ds Hds Hok. symmetry. apply Hload; assumption.
      * f_equal. apply pruned_next in Hpp, Hpq.
        destruct Hpp as [_ Hpp], Hpq as [_ Hpq].
        rewrite Forall_lookup in Hall, Hall', Hpp, Hpq.
        apply (list_eq_same_length _ _ 16%nat Hl' Hl).
        intros i x y Hi Hx Hy.
        apply IH; eauto.
        intros ds Hds Hok.
        specialize (Hload (i :: ds) ltac:(cbn [length]; lia)
                      ltac:(constructor; [lia|exact Hok])).
        cbn [load next_at] in Hload.
        rewrite (list_lookup_total_correct _ _ _ Hx) in Hload.
        rewrite (list_lookup_total_correct _ _ _ Hy) in Hload. exact Hload.
Qed.

Variable T : key_type.
Local Abbreviation M := (MAX_DEPTH T).
Local Abbreviation W := (key_size T).

(** Two containers that store the same values under the same keys are
    the same container, node for node. *)
Lemma arraymap_ext m1 m2 :
  invariant T m1 = true -> invariant T m2 = true ->
  (forall K, 0 <= K < key_space T -> leaf T (root m1) K = leaf T (root m2) K) ->
  m1 = m2.
Proof.
  intros H1 H2 Hleaf. apply invariant_spec in H1, H2.
  destruct H1 as (Hw1 & Hp1 & Hc1 & _), H2 as (Hw2 & Hp2 & Hc2 & _).
  assert (E : root m1 = root m2).
  { apply (trie_ext M); try assumption. intros ds Hds Hok.
    destruct (path_of_onto T ds Hds Hok) as (K & HK & <-).
    apply Hleaf, HK. }
  destruct m1 as [r1 c1], m2 as [r2 c2]. cbn [root element_count] in *.
  subst r2. f_equal. congruence.
Qed.

(** An empty container owns no node. *)
Lemma empty_root m :
  invariant T m = true -> empty m = true -> root m = empty_node_ptr.
Proof.
  intros Hinv He.
  assert (Hi0 : invariant T (@empty_map mapped_type) = true)
    by apply empty_map_invariant.
  pose proof (proj1 (empty_spec T m Hinv) He) as Hnone.
  assert (E : m = empty_map); [|rewrite E; reflexivity].
  apply arraymap_ext; try assumption.
  intros K HK. cbn [root empty_map]. unfold leaf at 2. rewrite load_empty.
  specialize (Hnone K HK). unfold present in Hnone.
  apply negb_false_iff in Hnone.
  destruct (leaf T (root m) K); try discriminate. reflexivity.
Qed.

End Canonical.

(** ** Lists of pairs *)

Section PairLists.
Context {V : Type}.
Implicit Types (l : list (Z * V)).

Lemma first_value_In l (k : Z) (v : V) :
  NoDup (map fst l) -> In (k, v) l -> first_value l k = Some v.
Proof.
  unfold first_value. induction l as [|[k0 v0] l IH]; intros Hnd Hin;
    [destruct Hin|].
  cbn [map fst] in Hnd. apply NoDup_cons in Hnd. destruct Hnd as [Hni Hnd].
  cbn [List.find fst]. destruct (Z.eqb_spec k0 k) as [->|Hne].
  - destruct Hin as [E|Hin]; [inversion E; reflexivity|].
    exfalso. apply Hni, list_elem_of_In.
    apply (in_map fst l (k, v)), Hin.
  - destruct Hin as [E|Hin]; [inversion E; contradiction|]. apply IH; assumption.
Qed.

Lemma first_value_None l (k : Z) :
  ~ In k (map fst l) -> first_value l k = None.
Proof.
  unfold first_value. induction l as [|[k0 v0] l IH]; intros Hni;
    [reflexivity|].
  cbn [List.find fst]. destruct (Z.eqb_spec k0 k) as [->|Hne].
  - exfalso. apply Hni. left. reflexivity.
  - apply IH. intros H. apply Hni. right. exact H.
Qed.

End PairLists.

Lemma sorted_ext {A} (R : A -> A -> Prop) (l1 : list A) :
  (forall a b, R a b -> R b a -> False) ->
  forall l2, StronglySorted R l1 -> StronglySorted R l2 ->
             (forall x, In x l1 <-> In x l2) -> l1 = l2.
Proof.
  intros Hasym. induction l1 as [|a t1 IH]; intros [|b t2] H1 H2 Hin.
  - reflexivity.
  - exfalso. apply (proj2 (Hin b)). left. reflexivity.
  - exfalso. apply (proj1 (Hin a)). left. reflexivity.
  - inversion H1 as [|? ? H1' Ha]; subst. inversion H2 as [|? ? H2' Hb]; subst.
    rewrite Forall_forall in Ha, Hb.
    assert (E : a = b).
    { destruct (proj1 (Hin a) ltac:(left; reflexivity)) as [E|Hat]; [auto|].
      destruct (proj2 (Hin b) ltac:(left; reflexivity)) as [E|Hbt]; [auto|].
      exfalso. apply (Hasym a b); [apply Ha|apply Hb]; apply list_elem_of_In;
        assumption. }
    subst b. f_equal. apply IH; try assumption. intros x. split; intros Hx.
    + destruct (proj1 (Hin x) ltac:(right; exact Hx)) as [<-|H]; [|exact H].
      exfalso. apply (Hasym a a); apply Ha, list_elem_of_In, Hx.
    + destruct (proj2 (Hin x) ltac:(right; exact Hx)) as [<-|H]; [|exact H].
      exfalso. apply (Hasym a a); apply Hb, list_elem_of_In, Hx.
Qed.

Lemma sorted_filter {A} (R : A -> A -> Prop) (f : A -> bool) (l : list A) :
  StronglySorted R l -> StronglySorted R (List.filter f l).
Proof.
  induction 1 as [|a l Hs IH Hall]; cbn [List.filter]; [constructor|].
  destruct (f a); [|exact IH]. constructor; [exact IH|].
  rewrite Forall_forall in *. intros x Hx.
  apply list_elem_of_In, filter_In in Hx. apply Hall, list_elem_of_In, Hx.
Qed.

Lemma filter_map_comm {A B} (f : A -> B) (g : B -> bool) (l : list A) :
  List.filter g (map f l) = map f (List.filter (fun a => g (f a)) l).
Proof.
  induction l as [|a l IH]; cbn [map List.filter]; [reflexivity|].
  destruct (g (f a)); cbn [map]; rewrite IH; reflexivity.
Qed.

(** ** What the operations store *)

Section Stores.
Context {mapped_type : Type}.
Variable T : key_type.
Implicit Types (root : ptr_t mapped_type) (it : iterator_base)
  (m other : arraymap mapped_type) (kvs : list (Z * mapped_type)).

Local Abbreviation M := (MAX_DEPTH T).
Local Abbreviation W := (key_size T).

Lemma radix_eqb (k k' : Z) :
  representable T k -> representable T k' ->
  (radix_of T k =? radix_of T k') = (k =? k').
Proof.
  intros Hk Hk'. destruct (Z.eqb_spec k k') as [->|Hne]; [apply Z.eqb_refl|].
  apply Z.eqb_neq. intros E. apply Hne, (radix_of_inj T); assumption.
Qed.

Lemma lookup_leaf m (k : Z) :
  well_formed M (root m) = true ->
  leaf T (root m) (radix_of T k)
  = match lookup T m k with Some v => val v | None => empty_node_ptr end.
Proof.
  intros Hwf. unfold lookup.
  destruct (leaf_well_formed T (root m) (radix_of T k) Hwf) as [->|(v & ->)];
    reflexivity.
Qed.

Lemma lookup_insert m (k k' : Z) (v : mapped_type) :
  well_formed M (root m) = true ->
  representable T k -> representable T k' ->
  lookup T (fst (insert T m (k, v))) k'
  = match lookup T m k' with
    | Some v' => Some v'
    | None => if k =? k' then Some v else None
    end.
Proof.
  intros Hwf Hk Hk'. unfold lookup at 1.
  rewrite leaf_insert by first [assumption|apply radix_of_range].
  rewrite radix_eqb, (lookup_leaf m k' Hwf) by assumption.
  destruct (lookup T m k') as [v'|]; cbn [is_empty_node];
    [rewrite andb_false_r; reflexivity|].
  rewrite andb_true_r. destruct (k =? k'); reflexivity.
Qed.

(** A list of insertions stores, for each key, the value of its first
    pair, unless the key was there before. *)
Lemma lookup_insert_list kvs (k : Z) :
  Forall (representable T) (map fst kvs) -> representable T k ->
  forall m, well_formed M (root m) = true ->
  lookup T (insert_list T m kvs) k
  = match lookup T m k with
    | Some v => Some v
    | None => first_value kvs k
    end.
Proof.
  intros Hrep Hk. induction kvs as [|[k0 v0] kvs IH]; intros m Hwf.
  - cbn [insert_list fold_left]. unfold first_value. cbn [List.find option_map].
    destruct (lookup T m k); reflexivity.
  - cbn [map fst] in Hrep. apply Forall_cons in Hrep. destruct Hrep as [Hk0 Hrep].
    rewrite insert_list_cons, (IH Hrep) by (apply well_formed_insert, Hwf).
    rewrite lookup_insert by assumption.
    unfold first_value. cbn [List.find fst].
    destruct (lookup T m k); [reflexivity|].
    destruct (k0 =? k); reflexivity.
Qed.

Lemma insert_count m (k : Z) (v : mapped_type) :
  invariant T m = true -> representable T k ->
  element_count m + 1 < 2 ^ 64 ->
  element_count m <= element_count (fst (insert T m (k, v)))
                  <= element_count m + 1.
Proof.
  intros Hinv Hk Hroom. pose proof (invariant_well_formed T m Hinv) as Hwf.
  destruct (leaf_well_formed T (root m) (radix_of T k) Hwf) as [He|(v0 & Hv)].
  - rewrite (insert_absent T m k v Hinv Hk He). cbn [fst element_count].
    destruct (inserted_invariant T m (radix_of T k) v Hinv
                (radix_of_range T k) He Hroom) as [_ ->]. lia.
  - rewrite insert_present by (rewrite Hv; reflexivity). cbn [fst]. lia.
Qed.

Lemma insert_list_invariant kvs :
  Forall (representable T) (map fst kvs) ->
  forall m, invariant T m = true ->
  element_count m + Z.of_nat (length kvs) < 2 ^ 64 ->
  invariant T (insert_list T m kvs) = true.
Proof.
  induction kvs as [|[k v] kvs IH]; intros Hrep m Hinv Hroom; [exact Hinv|].
  cbn [map fst] in Hrep. apply Forall_cons in Hrep. destruct Hrep as [Hk Hrep].
  cbn [length] in Hroom. rewrite insert_list_cons.
  pose proof (insert_count m k v Hinv Hk ltac:(lia)).
  apply IH; [exact Hrep| |lia].
  apply insert_invariant; [assumption|assumption|lia].
Qed.

End Stores.

(** ** Copies *)

Section CopyFacts.
Context {mapped_type : Type}.
Variable T : key_type.
Implicit Types (root : ptr_t mapped_type) (it : iterator_base)
  (m other : arraymap mapped_type) (io : list (Z * mapped_type)).

Local Abbreviation M := (MAX_DEPTH T).
Local Abbreviation W := (key_size T).

(** The pair an iterator yields for an element of the trie. *)
Local Abbreviation yielded :=
  (fun kv : Z * mapped_type => (native_of T (fst kv), snd kv)).

Lemma insert_other_nat other io :
  forall (K : Z) (v : mapped_type) it m (spare : nat),
  denotes T (root other) it K -> leaf T (root other) K = val v ->
  enumerates T (root other) Up (K + 1) (map fst io) ->
  (forall kv, In kv io -> leaf T (root other) (fst kv) = val (snd kv)) ->
  while_nat (insert_other_body T other) (length io + 2 + spare) (it, m)
  = inr (Some (insert_list T m (map yielded ((K, v) :: io)))).
Proof.
  induction io as [|[K' v'] io IH]; intros K v it m spare Hden Hv Hen Hio;
    destruct (advance_from T Up other it K Hden) as [Hf Hn];
    cbn [length Nat.add while_nat]; unfold insert_other_body at 1;
    rewrite (denotes_not_end T (root other) other it K Hden);
    rewrite (deref_denotes T other it K Hden); unfold entry; rewrite Hv.
  - cbn [map enumerates] in Hen. cbn [advance] in Hn.
    unfold insert_other_body.
    rewrite iterator_eqb_same
      by (rewrite end_key_bytes; apply Hn, Hen).
    reflexivity.
  - cbn [map fst enumerates] in Hen. destruct Hen as [HK' Hen].
    change (S (length io + 1 + spare)) with (S (length io) + 1 + spare)%nat.
    replace (S (length io) + 1 + spare)%nat
      with (length io + 2 + spare)%nat by lia.
    cbn [advance] in Hf.
    rewrite (IH K' v' _ _ spare (Hf K' HK')); [reflexivity| |exact Hen|].
    + apply (Hio (K', v')). left. reflexivity.
    + intros kv Hkv. apply Hio. right. exact Hkv.
Qed.

(** The loop inserts the elements of [other] in the order of their
    keys, and it ends. *)
Lemma insert_other_spec m other :
  well_formed M (root other) = true ->
  insert_other T m other
  = Some (insert_list T m (map yielded (in_order M (root other) 0))).
Proof.
  intros Hwf. unfold insert_other.
  rewrite while_loop_nat, traverse_bound_nat.
  pose proof (in_order_enumerates T (root other) Hwf) as Hen.
  pose proof (enumerates_length T Up (root other) _ (origin T Up) Hen) as Hlen.
  rewrite (remaining_origin T Up), length_map in Hlen.
  destruct (begin_spec T other) as [Hf Hn].
  assert (Hio : forall kv, In kv (in_order M (root other) 0) ->
                           leaf T (root other) (fst kv) = val (snd kv)).
  { intros [K v] Hin. apply (in_order_stored T (root other) K v Hwf) in Hin.
    apply Hin. }
  destruct (in_order M (root other) 0) as [|[K v] io] eqn:E.
  - cbn [while_nat]. unfold insert_other_body.
    rewrite iterator_eqb_same
      by (rewrite end_key_bytes; apply Hn, Hen).
    reflexivity.
  - cbn [map fst enumerates] in Hen. destruct Hen as [HK Hen].
    cbn [length] in Hlen.
    replace (S (Z.to_nat (key_space T)))
      with (length io + 2 + (Z.to_nat (key_space T) - S (length io)))%nat
      by lia.
    rewrite (insert_other_nat other io K v _ m _ (Hf K HK)); [reflexivity| | |].
    + apply (Hio (K, v)). left. reflexivity.
    + exact Hen.
    + intros kv Hkv. apply Hio. right. exact Hkv.
Qed.

Lemma yielded_keys other :
  well_formed M (root other) = true ->
  Forall (representable T) (map fst (map yielded (in_order M (root other) 0)))
  /\ NoDup (map fst (map yielded (in_order M (root other) 0))).
Proof.
  intros Hwf. rewrite map_map. cbn [fst]. split.
  - apply Forall_forall. intros k Hk. apply list_elem_of_In, in_map_iff in Hk.
    destruct Hk as (kv & <- & _). apply native_representable.
  - rewrite <- (map_map fst (native_of T)). apply NoDup_map_on.
    + intros K1 K2 H1 H2 E.
      apply in_map_iff in H1, H2.
      destruct H1 as ([K1' v1] & <- & H1), H2 as ([K2' v2] & <- & H2).
      apply (in_order_stored T _ _ _ Hwf) in H1, H2. cbn [fst] in *.
      rewrite <- (radix_native T K1'), <- (radix_native T K2'), E by tauto.
      reflexivity.
    + apply (sorted_NoDup Z.lt); [intros a; lia|].
      apply (sorted_map (fun a b : Z * mapped_type => fst a < fst b));
        [auto|apply in_order_sorted; exact Hwf].
Qed.

Lemma first_value_yielded other (k : Z) :
  well_formed M (root other) = true -> representable T k ->
  first_value (map yielded (in_order M (root other) 0)) k = lookup T other k.
Proof.
  intros Hwf Hk. destruct (yielded_keys other Hwf) as [_ Hnd].
  destruct (lookup T other k) as [v|] eqn:El.
  - apply first_value_In; [exact Hnd|]. apply in_map_iff.
    exists (radix_of T k, v). cbn [fst snd].
    rewrite native_radix by assumption. split; [reflexivity|].
    apply (in_order_stored T _ _ _ Hwf).
    split; [apply radix_of_range|]. rewrite lookup_leaf, El by assumption.
    reflexivity.
  - apply first_value_None. rewrite map_map. cbn [fst]. intros Hin.
    apply in_map_iff in Hin. destruct Hin as ([K v] & E & Hin). cbn [fst] in E.
    apply (in_order_stored T _ _ _ Hwf) in Hin. destruct Hin as [Hr Hl].
    subst k. unfold lookup in El. rewrite radix_native, Hl in El by assumption.
    discriminate.
Qed.

(** [insert(other)] keeps what [*this] stores and adds the elements of
    [other] whose keys it does not have. *)
Lemma insert_other_lookup m other (k : Z) :
  well_formed M (root m) = true -> well_formed M (root other) = true ->
  representable T k ->
  exists m', insert_other T m other = Some m'
    /\ lookup T m' k
       = match lookup T m k with
         | Some v => Some v
         | None => lookup T other k
         end.
Proof.
  intros Hwm Hwo Hk. rewrite (insert_other_spec m other Hwo).
  eexists. split; [reflexivity|].
  rewrite lookup_insert_list, first_value_yielded; try assumption;
    [reflexivity|apply (yielded_keys other Hwo)].
Qed.

Lemma lookup_ext m1 m2 :
  invariant T m1 = true -> invariant T m2 = true ->
  (forall k, representable T k -> lookup T m1 k = lookup T m2 k) -> m1 = m2.
Proof.
  intros H1 H2 Hl. apply (arraymap_ext T); try assumption. intros K HK.
  pose proof (invariant_well_formed T m1 H1) as Hw1.
  pose proof (invariant_well_formed T m2 H2) as Hw2.
  rewrite <- (radix_native T K HK).
  rewrite !lookup_leaf, Hl by first [assumption|apply native_representable].
  reflexivity.
Qed.

(** The copy constructor builds the container it copies, node for
    node. *)
Lemma copy_construct_spec other :
  invariant T other = true -> copy_construct T other = Some other.
Proof.
  intros Hinv. pose proof (invariant_well_formed T other Hinv) as Hwf.
  unfold copy_construct. rewrite (insert_other_spec _ other Hwf). f_equal.
  destruct (yielded_keys other Hwf) as [Hrep _].
  assert (Hi : invariant T (insert_list T empty_map
                 (map yielded (in_order M (root other) 0))) = true).
  { apply insert_list_invariant; [exact Hrep|apply empty_map_invariant|].
    cbn [element_count empty_map]. rewrite length_map.
    rewrite (in_order_length M _ 0 Hwf).
    apply invariant_spec in Hinv. lia. }
  apply lookup_ext; try assumption. intros k Hk.
  rewrite lookup_insert_list, first_value_yielded; try assumption;
    [|apply well_formed_empty].
  unfold lookup at 1, leaf. cbn [root empty_map]. rewrite load_empty.
  reflexivity.
Qed.

End CopyFacts.

(** ** Round trips *)

Section RoundTrips.
Context {mapped_type : Type}.
Variable T : key_type.
Implicit Types (root : ptr_t mapped_type) (it : iterator_base)
  (m : arraymap mapped_type).

Local Abbreviation M := (MAX_DEPTH T).
Local Abbreviation W := (key_size T).

Lemma absent_leaf m (K : Z) :
  well_formed M (root m) = true ->
  present T (root m) K = false -> leaf T (root m) K = empty_node_ptr.
Proof.
  intros Hwf Hp. unfold present in Hp.
  destruct (leaf_well_formed T (root m) K Hwf) as [E|(v & E)]; [exact E|].
  rewrite E in Hp. discriminate.
Qed.

Lemma erase_root m (k : Z) :
  invariant T m = true -> representable T k ->
  root (fst (erase T m k))
  = if present T (root m) (radix_of T k)
    then erase_rec (root m) (path_of T (radix_of T k) 0)
    else root m.
Proof.
  intros Hinv Hk. destruct (present T (root m) (radix_of T k)) eqn:Hp.
  - rewrite erase_present by assumption. reflexivity.
  - rewrite erase_absent by assumption. reflexivity.
Qed.

Lemma leaf_erase m (k K : Z) :
  invariant T m = true -> representable T k -> 0 <= K < key_space T ->
  leaf T (root (fst (erase T m k))) K
  = if radix_of T k =? K then empty_node_ptr else leaf T (root m) K.
Proof.
  intros Hinv Hk HK. pose proof (invariant_well_formed T m Hinv) as Hwf.
  pose proof (radix_of_range T k) as Hr.
  rewrite erase_root by assumption.
  destruct (present T (root m) (radix_of T k)) eqn:Hp;
    destruct (Z.eqb_spec (radix_of T k) K) as [<-|Hne].
  - apply leaf_erase_rec_same. exact Hwf.
  - apply leaf_erase_rec_other; assumption.
  - apply absent_leaf; assumption.
  - reflexivity.
Qed.

Lemma lookup_erase m (k k' : Z) :
  invariant T m = true -> representable T k -> representable T k' ->
  lookup T (fst (erase T m k)) k'
  = if k =? k' then None else lookup T m k'.
Proof.
  intros Hinv Hk Hk'. unfold lookup at 1.
  rewrite leaf_erase by first [assumption|apply radix_of_range].
  rewrite (radix_eqb T k k') by assumption.
  destruct (k =? k'); reflexivity.
Qed.

Lemma lookup_present m (k : Z) :
  well_formed M (root m) = true ->
  present T (root m) (radix_of T k)
  = match lookup T m k with Some _ => true | None => false end.
Proof.
  intros Hwf. unfold present. rewrite lookup_leaf by assumption.
  destruct (lookup T m k); reflexivity.
Qed.

(** Erasing a key just inserted gives back the container as it was. *)
Lemma erase_insert m (k : Z) (v : mapped_type) :
  invariant T m = true -> representable T k ->
  element_count m + 1 < 2 ^ 64 -> lookup T m k = None ->
  erase T (fst (insert T m (k, v))) k = (m, 1).
Proof.
  intros Hinv Hk Hc Hl. pose proof (invariant_well_formed T m Hinv) as Hwf.
  pose proof (insert_invariant T m k v Hinv Hk Hc) as Hi.
  pose proof (invariant_well_formed T _ Hi) as Hwi.
  pose proof (lookup_insert T m k k v Hwf Hk Hk) as Hli.
  rewrite Hl, Z.eqb_refl in Hli.
  assert (Hp : present T (root (fst (insert T m (k, v)))) (radix_of T k) = true).
  { rewrite lookup_present, Hli by assumption. reflexivity. }
  pose proof (erase_invariant T _ k Hi Hk) as He.
  pose proof (lookup_erase (fst (insert T m (k, v))) k) as Hle.
  rewrite erase_present in He, Hle |- * by assumption. cbn [fst] in He, Hle.
  f_equal. apply (lookup_ext T); try assumption. intros k' Hk'.
  rewrite Hle by assumption.
  destruct (Z.eqb_spec k k') as [<-|Hne]; [symmetry; exact Hl|].
  rewrite lookup_insert, (proj2 (Z.eqb_neq k k') Hne) by assumption.
  destruct (lookup T m k'); reflexivity.
Qed.

(** Inserting again what was just erased gives back the container as it
    was. *)
Lemma insert_erase m (k : Z) (v : mapped_type) :
  invariant T m = true -> representable T k -> lookup T m k = Some v ->
  fst (insert T (fst (erase T m k)) (k, v)) = m.
Proof.
  intros Hinv Hk Hl. pose proof (invariant_well_formed T m Hinv) as Hwf.
  pose proof (erase_invariant T m k Hinv Hk) as He.
  pose proof (invariant_well_formed T _ He) as Hwe.
  assert (Hp : present T (root m) (radix_of T k) = true).
  { rewrite lookup_present, Hl by assumption. reflexivity. }
  assert (Hc : element_count (fst (erase T m k)) + 1 < 2 ^ 64).
  { rewrite erase_present by assumption. cbn [fst element_count].
    destruct (erased_invariant T m (radix_of T k) Hinv Hp) as [_ ->].
    apply invariant_spec in Hinv. lia. }
  pose proof (insert_invariant T _ k v He Hk Hc) as Hi.
  apply (lookup_ext T); try assumption. intros k' Hk'.
  rewrite lookup_insert, lookup_erase by assumption.
  destruct (Z.eqb_spec k k') as [<-|Hne]; [symmetry; exact Hl|].
  destruct (lookup T m k'); reflexivity.
Qed.

(** *** Traversals and the element count *)

Lemma in_order_erase m (k : Z) :
  invariant T m = true -> representable T k ->
  in_order M (root (fst (erase T m k))) 0
  = List.filter (fun kv => negb (fst kv =? radix_of T k)) (in_order M (root m) 0).
Proof.
  intros Hinv Hk. pose proof (invariant_well_formed T m Hinv) as Hwf.
  pose proof (erase_invariant T m k Hinv Hk) as He.
  pose proof (invariant_well_formed T _ He) as Hwe.
  apply (sorted_ext (fun a b : Z * mapped_type => fst a < fst b)).
  - intros a b. lia.
  - apply in_order_sorted. exact Hwe.
  - apply sorted_filter, in_order_sorted. exact Hwf.
  - intros [K v]. rewrite filter_In, !(in_order_stored T) by assumption.
    cbn [fst]. split.
    + intros [HK Hv]. rewrite leaf_erase in Hv by assumption.
      destruct (Z.eqb_spec (radix_of T k) K) as [E|Hne]; [discriminate|].
      repeat split; try assumption; lia.
    + intros [[HK Hv] Hne]. apply negb_true_iff, Z.eqb_neq in Hne.
      split; [exact HK|]. rewrite leaf_erase by assumption.
      destruct (Z.eqb_spec (radix_of T k) K) as [E|_]; [congruence|exact Hv].
Qed.

Lemma native_eqb (K k : Z) :
  0 <= K < key_space T -> representable T k ->
  (native_of T K =? k) = (K =? radix_of T k).
Proof.
  intros HK Hk.
  destruct (Z.eqb_spec K (radix_of T k)) as [->|Hne].
  - rewrite native_radix by assumption. apply Z.eqb_refl.
  - apply Z.eqb_neq. intros E. apply Hne. rewrite <- E.
    symmetry. apply radix_native. exact HK.
Qed.

(** [empty()] holds exactly when [begin()] equals [end()]. *)
Lemma empty_begin m :
  invariant T m = true ->
  empty m = iterator_eqb T (begin T m) (end_ T m).
Proof.
  intros Hinv. pose proof (invariant_well_formed T m Hinv) as Hwf.
  destruct (begin_spec T m) as [Hf Hn].
  pose proof (in_order_enumerates T (root m) Hwf) as Hen.
  pose proof (in_order_length M (root m) 0 Hwf) as Hlen.
  apply invariant_spec in Hinv. destruct Hinv as (_ & _ & Hc & _).
  unfold empty. rewrite Hc, <- Hlen.
  destruct (in_order M (root m) 0) as [|[K v] io].
  - cbn [map enumerates] in Hen. cbn [length].
    rewrite iterator_eqb_same by (rewrite end_key_bytes; apply Hn, Hen).
    reflexivity.
  - cbn [map fst enumerates] in Hen. destruct Hen as [HK _].
    rewrite (denotes_not_end T (root m) m _ K (Hf K HK)).
    cbn [length]. apply Z.eqb_neq. lia.
Qed.

(** *** The order of insertion does not matter *)

Lemma first_value_perm (l1 l2 : list (Z * mapped_type)) (k : Z) :
  Permutation l1 l2 -> NoDup (map fst l1) ->
  first_value l1 k = first_value l2 k.
Proof.
  intros Hp Hnd.
  assert (Hnd2 : NoDup (map fst l2)).
  { assert (Hpm : Permutation (map fst l1) (map fst l2)) by (apply Permutation_map; exact Hp).
    rewrite <- Hpm. exact Hnd. }
  destruct (in_dec Z.eq_dec k (map fst l1)) as [Hin|Hnin].
  - apply in_map_iff in Hin. destruct Hin as ([k0 v] & E & Hin).
    cbn [fst] in E. subst k0.
    rewrite (first_value_In l1 k v Hnd Hin).
    symmetry. apply first_value_In; [exact Hnd2|].
    eapply Permutation_in; eassumption.
  - rewrite (first_value_None l1 k Hnin). symmetry. apply first_value_None.
    intros Hin. apply Hnin.
    eapply Permutation_in; [|exact Hin].
    apply Permutation_map, Permutation_sym. exact Hp.
Qed.

End RoundTrips.

(** ** Bounds near a stored key *)

Section Bounds.
Context {mapped_type : Type}.
Variable T : key_type.
Implicit Types (root : ptr_t mapped_type) (it : iterator_base)
  (m : arraymap mapped_type).

Local Abbreviation M := (MAX_DEPTH T).
Local Abbreviation W := (key_size T).

(** The constructor descends to depth 0 when the node of the 256 keys
    around [key] exists. *)
Lemma iterator_base_key_depth root (key : Z) :
  let K := to_unsigned (bit_width T) key in
  is_empty_node (load root (path_of T K 2)) = false ->
  depth (iterator_base_key T root key) = 0%nat.
Proof.
  cbv zeta. intros Hne.
  assert (Hd : seek_depth root
                 (stack (fill_ptr_stack T root
                    (set_key_bytes (iterator_base_root T) (to_bytes T key ++ [0]))))
                 (M - 1) = 0%nat).
  { destruct (key_buffer_of_key T key) as ([Hl Hb] & Hov & Hnum).
    pose proof (MAX_DEPTH_ge_2 T) as HM.
    set (it1 := set_key_bytes (iterator_base_root T) (to_bytes T key ++ [0])).
    assert (Hst0 : stack it1 !!! (M - 1)%nat = at_path []).
    { simpl. apply list_lookup_total_insert_eq. rewrite length_replicate. lia. }
    assert (Hlen0 : length (stack it1) = M).
    { simpl. rewrite length_insert, length_replicate. reflexivity. }
    destruct (fill_ptr_stack_loop_spec root (key_bytes it1) (M - 2)
                (stack it1 !!! (M - 1)%nat) (stack it1) ltac:(lia))
      as (Hlen & Hlow & Hhigh).
    apply seek_depth_0. intros j Hj.
    assert (Hslot : stack (fill_ptr_stack T root it1) !!! j
                    = slot_of T root (le_num (key_bytes it1)) j).
    { unfold fill_ptr_stack. cbn [stack set_stack].
      destruct (decide (j <= M - 2)%nat) as [Hle|Hgt].
      - rewrite Hlow by assumption. rewrite Hst0.
        replace (M - 2 + 1 - j)%nat with (M - (j + 1))%nat by lia.
        rewrite (buffer_path T) by (split; assumption). reflexivity.
      - rewrite Hhigh by lia. replace j with (M - 1)%nat by lia.
        rewrite Hst0, slot_of_top. reflexivity. }
    rewrite Hslot, deref_slot_of.
    change (key_bytes it1) with (to_bytes T key ++ [0]). rewrite Hnum.
    destruct (load root (path_of T (to_unsigned (bit_width T) key) (j + 1)))
      eqn:E; try reflexivity.
    exfalso.
    assert (Hsplit : path_of T (to_unsigned (bit_width T) key) 2
                     = path_of T (to_unsigned (bit_width T) key) (j + 1)
                       ++ map (digit (to_unsigned (bit_width T) key))
                            (rev (seq 2 (j + 1 - 2)))).
    { unfold path_of. rewrite <- map_app, <- rev_app_distr. do 2 f_equal.
      replace (M - 2)%nat with ((j + 1 - 2) + (M - (j + 1)))%nat by lia.
      rewrite seq_app. do 2 f_equal. lia. }
    rewrite Hsplit, load_app, E, load_empty in Hne. discriminate. }
  unfold iterator_base_key. cbv zeta.
  match goal with
  | |- depth (if ?c then _ else _) = _ => destruct c
  end; cbn [depth set_depth set_currentValue]; exact Hd.
Qed.

Lemma iterator_key_near root (key : Z) :
  let K := to_unsigned (bit_width T) key in
  is_empty_node (load root (path_of T K 2)) = false ->
  present T root K = false ->
  (forall K', first_from T root Up K K' ->
              denotes T root (iterator_key T root key true) K')
  /\ (none_from T root Up K ->
      key_bytes (iterator_key T root key true) = replicate W 0 ++ [1]).
Proof.
  cbv zeta. intros Hne Hp. unfold iterator_key.
  destruct (iterator_base_key_absent T root key Hp) as (Ht & Hnum & Hd & Hv).
  pose proof (iterator_base_key_depth root key Hne) as Hd0.
  rewrite Hv. cbn [negb].
  destruct (increment_from T root _ Ht Hd) as [Hf Hn].
  { rewrite Hd0. unfold aligned. cbn. apply Z.mod_1_r. }
  cbv zeta in *. rewrite Hnum in Hf, Hn. split.
  - intros K' HK'. apply Hf. apply bound_settle_first; [|assumption].
    intros _. assumption.
  - intros Hnone. apply Hn. apply bound_settle_none. assumption.
Qed.

Lemma near_node root (K K' : Z) :
  present T root K' = true -> K' / 256 = K / 256 ->
  is_empty_node (load root (path_of T K 2)) = false.
Proof.
  intros Hp E. pose proof (MAX_DEPTH_ge_2 T) as HM.
  rewrite (path_of_block T K K' 2) by (change (16 ^ Z.of_nat 2) with 256; auto).
  destruct (load root (path_of T K' 2)) eqn:El; try reflexivity.
  rewrite (leaf_under_empty T root K' 2) in Hp by (lia || assumption).
  discriminate.
Qed.

(** [lower_bound] and [upper_bound] of a key are right when the node of
    the 256 keys around it exists. *)
Lemma bounds_node m (k : Z) :
  representable T k ->
  is_empty_node (load (root m) (path_of T (radix_of T k) 2)) = false ->
  ((forall K', first_from T (root m) Up (radix_of T k) K' ->
               denotes T (root m) (lower_bound T m k) K')
   /\ (none_from T (root m) Up (radix_of T k) ->
       key_bytes (lower_bound T m k) = key_bytes (end_ T m)))
  /\ ((forall K', first_from T (root m) Up (radix_of T k + 1) K' ->
                  denotes T (root m) (upper_bound T m k) K')
      /\ (none_from T (root m) Up (radix_of T k + 1) ->
          key_bytes (upper_bound T m k) = key_bytes (end_ T m))).
Proof.
  intros Hk Hne. pose proof (radix_of_range T k) as Hr.
  destruct (present T (root m) (radix_of T k)) eqn:Hp.
  - split; [|apply upper_bound_present; assumption].
    pose proof (lower_bound_present T m k Hk Hp) as Hden. split.
    + intros K' HK'.
      rewrite (first_from_here T (root m) Up _ K' Hp Hr HK'). exact Hden.
    + intros Hn. rewrite (Hn (radix_of T k) Hr (Z.le_refl _)) in Hp.
      discriminate.
  - destruct (iterator_key_near (root m) (ordering_default.apply T k) Hne Hp)
      as [Hf Hn].
    fold (radix_of T k) in Hf, Hn.
    rewrite end_key_bytes. split; [split; assumption|].
    unfold upper_bound.
    rewrite iterator_eqb_same
      by (rewrite end_key_bytes; apply iterator_key_absent_find; exact Hp).
    split.
    + intros K' (Hp1 & Hr1 & Ha1 & Hmin). apply Hf. unfold ahead in Ha1.
      split; [exact Hp1|]. split; [exact Hr1|]. split; [unfold ahead; lia|].
      intros j Hj Hpj Ha. unfold ahead in Ha.
      destruct (Z.eq_dec j (radix_of T k)) as [->|Hne']; [congruence|].
      apply Hmin; [exact Hj|exact Hpj|unfold ahead; lia].
    + intros Hnone. apply Hn. intros j Hj Ha. unfold ahead in Ha.
      destruct (Z.eq_dec j (radix_of T k)) as [->|Hne']; [exact Hp|].
      apply Hnone; [exact Hj|unfold ahead; lia].
Qed.

End Bounds.

(** *** Keys of one byte *)

(** A property of the 256 keys of [int8_t], decided key by key. *)
Lemma int8_all (P : Z -> bool) :
  forallb (fun i => P (Z.of_nat i - 128)) (seq 0 256) = true ->
  forall k, representable int8_t k -> P k = true.
Proof.
  intros Hall k Hk. rewrite forallb_forall in Hall.
  unfold representable, bit_width in Hk. simpl in Hk.
  specialize (Hall (Z.to_nat (k + 128)) ltac:(apply in_seq; lia)).
  replace (Z.of_nat (Z.to_nat (k + 128)) - 128) with k in Hall by lia.
  exact Hall.
Qed.

Section Bounds8.
Context {mapped_type : Type}.
Implicit Types (m : arraymap mapped_type).

Lemma bounds_empty8 (k : Z) :
  representable int8_t k ->
  key_bytes (iterator_key int8_t (@empty_node_ptr mapped_type)
               (ordering_default.apply int8_t k) true) = [0; 1].
Proof.
  intros Hk.
  apply (int8_all
           (fun k => bool_decide
              (key_bytes (iterator_key int8_t (@empty_node_ptr mapped_type)
                            (ordering_default.apply int8_t k) true) = [0; 1])))
    in Hk; [|vm_compute; reflexivity].
  apply bool_decide_eq_true in Hk. exact Hk.
Qed.

Lemma bounds8 m (k : Z) :
  well_formed 2 (root m) = true -> representable int8_t k ->
  ((forall K', first_from int8_t (root m) Up (radix_of int8_t k) K' ->
               denotes int8_t (root m) (lower_bound int8_t m k) K')
   /\ (none_from int8_t (root m) Up (radix_of int8_t k) ->
       key_bytes (lower_bound int8_t m k) = key_bytes (end_ int8_t m)))
  /\ ((forall K', first_from int8_t (root m) Up (radix_of int8_t k + 1) K' ->
                  denotes int8_t (root m) (upper_bound int8_t m k) K')
      /\ (none_from int8_t (root m) Up (radix_of int8_t k + 1) ->
          key_bytes (upper_bound int8_t m k) = key_bytes (end_ int8_t m))).
Proof.
  intros Hwf Hk.
  destruct (is_empty_node (root m)) eqn:He.
  - assert (Hroot : root m = empty_node_ptr)
      by (destruct (root m); try discriminate; reflexivity).
    assert (Hnone : forall K, present int8_t (root m) K = false)
      by (intros K; rewrite Hroot; apply present_empty).
    assert (Hno : forall L K', first_from int8_t (root m) Up L K' -> False).
    { intros L K' (Hp & _). rewrite Hnone in Hp. discriminate. }
    assert (Hlb : key_bytes (lower_bound int8_t m k) = key_bytes (end_ int8_t m)).
    { unfold lower_bound. rewrite Hroot. apply bounds_empty8. exact Hk. }
    assert (Hub : key_bytes (upper_bound int8_t m k) = key_bytes (end_ int8_t m)).
    { unfold upper_bound.
      rewrite iterator_eqb_same
        by (rewrite end_key_bytes; apply iterator_key_absent_find, Hnone).
      exact Hlb. }
    split; split; try (intros K' HK'; destruct (Hno _ _ HK')); auto.
  - apply bounds_node; [exact Hk|].
    rewrite path_of_top by (vm_compute; lia). exact He.
Qed.

End Bounds8.

(** ** A container copied onto itself *)

Section SelfCopies.
Context {mapped_type : Type}.
Variable T : key_type.
Implicit Types (it : iterator_base) (m : arraymap mapped_type)
  (io : list (Z * mapped_type)).

Local Abbreviation M := (MAX_DEPTH T).

Lemma insert_self_nat m io :
  forall (K : Z) (v : mapped_type) it (spare : nat),
  denotes T (root m) it K -> 0 <= K < key_space T ->
  leaf T (root m) K = val v ->
  enumerates T (root m) Up (K + 1) (map fst io) ->
  (forall kv, In kv io -> leaf T (root m) (fst kv) = val (snd kv)) ->
  while_nat (insert_self_body T) (length io + 2 + spare) (it, m)
  = inr (Some m).
Proof.
  induction io as [|[K' v'] io IH]; intros K v it spare Hden HK Hv Hen Hio;
    destruct (advance_from T Up m it K Hden) as [Hf Hn];
    cbn [length Nat.add while_nat]; unfold insert_self_body at 1;
    rewrite (denotes_not_end T (root m) m it K Hden);
    rewrite (deref_denotes T m it K Hden); unfold entry; rewrite Hv;
    rewrite insert_present
      by (rewrite radix_native, Hv by assumption; reflexivity);
    cbn [fst].
  - cbn [map enumerates] in Hen. cbn [advance] in Hn.
    unfold insert_self_body.
    rewrite iterator_eqb_same by (rewrite end_key_bytes; apply Hn, Hen).
    reflexivity.
  - cbn [map fst enumerates] in Hen. destruct Hen as [HK' Hen].
    change (S (length io + 1 + spare)) with (S (length io) + 1 + spare)%nat.
    replace (S (length io) + 1 + spare)%nat
      with (length io + 2 + spare)%nat by lia.
    cbn [advance] in Hf.
    apply (IH K' v' _ spare (Hf K' HK')); [apply HK'| |exact Hen|].
    + apply (Hio (K', v')). left. reflexivity.
    + intros kv Hkv. apply Hio. right. exact Hkv.
Qed.

(** [a.insert(a)] ends and leaves [a] as it was. *)
Lemma insert_self_spec m :
  well_formed M (root m) = true -> insert_self T m = Some m.
Proof.
  intros Hwf. unfold insert_self.
  rewrite while_loop_nat, traverse_bound_nat.
  pose proof (in_order_enumerates T (root m) Hwf) as Hen.
  pose proof (enumerates_length T Up (root m) _ (origin T Up) Hen) as Hlen.
  rewrite (remaining_origin T Up), length_map in Hlen.
  destruct (begin_spec T m) as [Hf Hn].
  assert (Hio : forall kv, In kv (in_order M (root m) 0) ->
                           leaf T (root m) (fst kv) = val (snd kv)).
  { intros [K v] Hin. apply (in_order_stored T (root m) K v Hwf) in Hin.
    apply Hin. }
  destruct (in_order M (root m) 0) as [|[K v] io] eqn:E.
  - cbn [while_nat]. unfold insert_self_body.
    rewrite iterator_eqb_same by (rewrite end_key_bytes; apply Hn, Hen).
    reflexivity.
  - cbn [map fst enumerates] in Hen. destruct Hen as [HK Hen].
    cbn [length] in Hlen.
    replace (S (Z.to_nat (key_space T)))
      with (length io + 2 + (Z.to_nat (key_space T) - S (length io)))%nat
      by lia.
    rewrite (insert_self_nat m io K v _ _ (Hf K HK));
      [reflexivity|apply HK| |exact Hen|].
    + apply (Hio (K, v)). left. reflexivity.
    + intros kv Hkv. apply Hio. right. exact Hkv.
Qed.

End SelfCopies.

(** ** The position [erase(iterator)] returns *)

Section ErasePosition.
Context {mapped_type : Type}.
Variable T : key_type.
Implicit Types (root : ptr_t mapped_type) (it pos : iterator_base)
  (m : arraymap mapped_type).

Local Abbreviation M := (MAX_DEPTH T).
Local Abbreviation W := (key_size T).

(** When another key of the same block of 16 keys is stored, the node
    of the erased leaf stays, and [erase_elem] leaves the iterator at
    depth 0. *)
Lemma erase_elem_kept root it (K K2 : Z) :
  well_formed M root = true -> denotes T root it K ->
  present T root K2 = true -> K2 <> K -> K2 / 16 = K / 16 ->
  erase_elem T root it = (store root (path_of T K 0) empty_node_ptr, it, true)
  /\ store root (path_of T K 0) empty_node_ptr = erase_rec root (path_of T K 0)
  /\ tracks T (store root (path_of T K 0) empty_node_ptr) it.
Proof.
  intros Hwf Hden Hp2 Hne E.
  pose proof Hden as (Ht & Hd & Hnum & Hp & _).
  pose proof (MAX_DEPTH_ge_2 T) as HM.
  set (root1 := store root (path_of T K 0) empty_node_ptr).
  assert (Hsn : path_of T K 0 = path_of T K 1 ++ [digit K 0])
    by (apply path_of_snoc; lia).
  assert (Hsn2 : path_of T K2 0 = path_of T K 1 ++ [digit K2 0]).
  { rewrite (path_of_snoc T K2 0) by lia. f_equal.
    apply path_of_block. change (16 ^ Z.of_nat 1) with 16. exact E. }
  assert (Hdig : digit K2 0 <> digit K 0).
  { unfold digit. change (16 ^ Z.of_nat 0) with 1. rewrite !Z.div_1_r.
    pose proof (Z.mod_pos_bound K 16). pose proof (Z.mod_pos_bound K2 16).
    pose proof (Z.div_mod K 16). pose proof (Z.div_mod K2 16). lia. }
  assert (Hval : valid_path root (path_of T K 0))
    by (apply valid_path_of_present; assumption).
  assert (Hval1 : valid_path root1 (path_of T K 0))
    by (apply valid_path_store; exact Hval).
  pose proof Hval as Hv. rewrite Hsn in Hv. apply valid_path_app in Hv.
  destruct Hv as [Hv1 Hv0].
  destruct (load root (path_of T K 1)) as [|arr|v] eqn:Enode;
    cbn [valid_path] in Hv0; try contradiction.
  destruct Hv0 as [Hlt _].
  assert (Hnode1 : load root1 (path_of T K 1)
                   = next (<[digit K 0 := empty_node_ptr]> arr)).
  { unfold root1. rewrite Hsn, store_app, load_store by assumption.
    rewrite Enode. reflexivity. }
  assert (Hkeep : is_node_empty (load root1 (path_of T K 1)) = false).
  { rewrite Hnode1. destruct (is_node_empty _) eqn:Hn; [|reflexivity].
    rewrite is_node_empty_spec in Hn.
    specialize (Hn (digit K2 0) (digit_lt K2 0)). cbn [next_at] in Hn.
    rewrite list_lookup_total_insert_ne in Hn by auto.
    unfold present, leaf in Hp2. rewrite Hsn2, load_app, Enode in Hp2.
    cbn [load next_at] in Hp2. rewrite Hn in Hp2. discriminate. }
  assert (Hslot : target_slot root it 0 = at_path (path_of T K 0)).
  { rewrite (tracked_target_slot T root it 0 Ht) by lia. rewrite Hnum.
    apply (walk_valid root []). exact Hval. }
  pose proof Ht as (Hl & Hb & Hov & Hsl & Hst).
  assert (Hst' : forall j, (j < M)%nat ->
            stack it !!! j = at_path (path_of T K (j + 1))).
  { intros j Hj. rewrite Hst by lia. rewrite Hnum.
    apply slot_of_present; assumption. }
  split; [|split].
  - unfold erase_elem. rewrite Hd. cbn [Nat.eqb].
    rewrite (present_target T root it Ht Hd), Hnum, Hp. cbn [negb].
    rewrite Hslot. cbn [assign]. fold root1.
    replace M with (S (M - 1)) at 1 by lia. cbn [erase_elem_loop].
    rewrite Hd. destruct (Nat.ltb_spec 0 M) as [_|]; [|lia].
    rewrite (Hst' 0%nat) by lia. cbn [deref]. change (0 + 1)%nat with 1%nat.
    rewrite Hkeep. reflexivity.
  - unfold root1. rewrite Hsn at 2.
    rewrite erase_rec_prune_at by (rewrite <- Hsn; exact Hval).
    rewrite <- Hsn. symmetry.
    apply prune_at_stop; [|apply path_of_digits_ok|exact Hkeep].
    rewrite Hsn in Hval1. apply valid_path_app in Hval1. apply Hval1.
  - split; [exact Hl|]. split; [exact Hb|]. split; [exact Hov|].
    split; [exact Hsl|]. intros j Hj. rewrite Hst' by lia. rewrite Hnum.
    symmetry. unfold slot_of. apply (walk_valid root1 []).
    cbn [load]. pose proof Hval1 as Hv.
    rewrite (path_of_split T K (j + 1)) in Hv by lia.
    apply valid_path_app in Hv. apply Hv.
Qed.

(** [erase(pos)] returns the position of the element that followed
    [pos], or [end()], when another key of the block of [pos] is
    stored. *)
Lemma erase_pos_next m pos (K K2 : Z) :
  well_formed M (root m) = true -> denotes T (root m) pos K ->
  present T (root m) K2 = true -> 0 <= K2 < key_space T ->
  K2 <> K -> K2 / 16 = K / 16 ->
  let m' := fst (erase_pos T m pos) in
  let it' := snd (erase_pos T m pos) in
  (forall K', first_from T (root m) Up (K + 1) K' -> denotes T (root m') it' K')
  /\ (none_from T (root m) Up (K + 1) ->
      key_bytes it' = key_bytes (end_ T m')).
Proof.
  intros Hwf Hden Hp2 HK2 Hne E. cbv zeta.
  destruct (erase_elem_kept (root m) pos K K2 Hwf Hden Hp2 Hne E)
    as (Hrun & Hroot & Ht').
  pose proof Hden as (Ht & Hd & Hnum & Hp & _).
  assert (HK : 0 <= K < key_space T).
  { rewrite <- Hnum. destruct Ht as (Hl & Hb & Hov & _).
    apply (buffer_in_range T); [split|]; assumption. }
  unfold erase_pos. rewrite Hrun. cbn [fst snd root].
  unfold iterator_incr. cbn [root].
  set (root1 := store (root m) (path_of T K 0) empty_node_ptr) in *.
  assert (Hsame : forall j, 0 <= j < key_space T -> j <> K ->
                  present T root1 j = present T (root m) j).
  { intros j Hj Hjne. unfold present. rewrite Hroot.
    rewrite leaf_erase_rec_other by auto. reflexivity. }
  pose proof (MAX_DEPTH_ge_2 T) as HM.
  destruct (increment_from T root1 pos Ht' ltac:(lia)) as [Hf Hn].
  { rewrite Hd. unfold aligned. cbn. apply Z.mod_1_r. }
  cbv zeta in Hf, Hn. rewrite Hnum in Hf, Hn. unfold bound_of in Hf, Hn.
  rewrite Hd in Hf, Hn. cbn [Nat.eqb sgn] in Hf, Hn.
  rewrite end_key_bytes. split.
  - intros K' (Hp1 & Hr1 & Ha1 & Hmin). unfold ahead in Ha1. apply Hf.
    split; [rewrite Hsame by lia; exact Hp1|].
    split; [exact Hr1|]. split; [exact Ha1|].
    intros j Hj Hpj Ha. unfold ahead in Ha.
    apply Hmin; [exact Hj| |exact Ha].
    rewrite <- Hsame by lia. exact Hpj.
  - intros Hnone. apply Hn. intros j Hj Ha. unfold ahead in Ha.
    rewrite Hsame by lia. apply Hnone; assumption.
Qed.

(** *** Positions while the container changes *)

(** A position of a stored key is a position of that key in every
    well-formed trie that stores the key: the slots on the path of a
    stored key have the same addresses. *)
Lemma denotes_transfer root root' it (K : Z) :
  well_formed M root = true -> well_formed M root' = true ->
  denotes T root it K -> present T root' K = true ->
  denotes T root' it K.
Proof.
  intros Hwf Hwf' (Ht & Hd & Hnum & Hp & Hcv) Hp'.
  pose proof (MAX_DEPTH_ge_2 T) as HM.
  pose proof Ht as (Hl & Hb & Hov & Hsl & Hst).
  assert (Ht' : tracks T root' it).
  { split; [exact Hl|]. split; [exact Hb|]. split; [exact Hov|].
    split; [exact Hsl|]. intros j Hj. rewrite Hst by assumption.
    rewrite Hnum, !slot_of_present by assumption. reflexivity. }
  split; [exact Ht'|]. split; [exact Hd|]. split; [exact Hnum|].
  split; [exact Hp'|]. rewrite Hcv. do 2 f_equal.
  rewrite !(tracked_target_slot T _ it 0) by (assumption || lia).
  rewrite Hnum, !(walk_valid _ [])
    by (cbn [load]; apply valid_path_of_present; assumption).
  reflexivity.
Qed.

End ErasePosition.

(** * Further properties of the code *)

(** X1.  [tetradeValue(bytes, Nr)] is the base-16 digit number [Nr] of
    the number the bytes hold in little-endian order, for every index
    [Nr] inside the buffer; it is below 16. *)
Theorem tetrade_is_digit (bs : list Z) (Nr : nat) :
  Forall is_byte bs -> (Nr / 2 < length bs)%nat ->
  tetradeValue bs Nr = digit (le_num bs) Nr
  /\ (tetradeValue bs Nr < 16)%nat.
Proof.
  intros Hb Hn. rewrite tetradeValue_digit by assumption.
  split; [reflexivity|apply digit_lt].
Qed.

Lemma tetrade_is_digit_witness :
  tetradeValue [171; 205] 1 = digit (le_num [171; 205]) 1
  /\ (tetradeValue [171; 205]%Z 1 < 16)%nat.
Proof.
  apply (tetrade_is_digit [171; 205] 1).
  - repeat constructor; unfold is_byte; lia.
  - simpl. lia.
Defined.

Section Extremes.
Context {mapped_type : Type}.
Variable T : key_type.
Implicit Types (m : arraymap mapped_type).

Lemma extreme_first (dir : direction) m (k : Z) :
  representable T k -> contains T m k = true ->
  (forall k', representable T k' -> contains T m k' = true ->
              ahead dir (radix_of T k) (radix_of T k')) ->
  first_from T (root m) dir (origin T dir) (radix_of T k).
Proof.
  intros Hk Hc Hmin. pose proof (radix_of_range T k) as Hr.
  rewrite contains_present in Hc.
  split; [exact Hc|]. split; [exact Hr|].
  split; [destruct dir; unfold ahead, origin; lia|].
  intros j Hj Hp _. rewrite <- (radix_native T j Hj).
  apply Hmin; [apply native_representable|].
  rewrite contains_present, radix_native by assumption. exact Hp.
Qed.

Lemma in_order_empty (d : nat) (base : Z) :
  in_order d (@empty_node_ptr mapped_type) base = [].
Proof. destruct d; reflexivity. Qed.

End Extremes.

Section Behaviour.
Context {mapped_type : Type}.
Variable T : key_type.
Implicit Types (root : ptr_t mapped_type) (it pos : iterator_base)
  (m other : arraymap mapped_type).

Local Abbreviation M := (MAX_DEPTH T).
Local Abbreviation W := (key_size T).

(** X2.  [incrQuartet(bytes, q)], on a key buffer whose overflow byte is
    0, adds [16 ^ q] to the number the buffer holds (overflow byte
    included), and returns the number [r] of digits from [q] upwards
    that were 15 and have wrapped to 0; the digit [q + r] was not 15.
    The overflow byte becomes 1 exactly when the carry leaves the
    key. *)
Theorem incrQuartet_adds (bytes : list Z) (q : nat) :
  key_buffer T bytes -> bytes !!! W = 0 -> (q <= M)%nat ->
  exists bytes' r,
    incrQuartet T bytes q = (bytes', r)
    /\ key_buffer T bytes'
    /\ le_num bytes' = le_num bytes + 16 ^ Z.of_nat q
    /\ (forall i, (q <= i < q + r)%nat -> tetradeValue bytes i = 15%nat)
    /\ tetradeValue bytes (q + r) <> 15%nat
    /\ (q + r <= M)%nat
    /\ bytes' !!! W = (if (q + r =? M)%nat then 1 else 0).
Proof.
  intros Hb Hov Hq. unfold incrQuartet.
  apply incrQuartet_rec_spec; try assumption. lia.
Qed.

(** X3.  [decrQuartet(bytes, q)], on a key buffer whose overflow byte is
    0, returns the number [r] of digits from [q] upwards that were 0.
    When a digit that is not 0 is found inside the key, the number in
    the buffer has dropped by [16 ^ q] and the overflow byte is still
    0; when the borrow leaves the key, the overflow byte is 0xFF. *)
Theorem decrQuartet_subtracts (bytes : list Z) (q : nat) :
  key_buffer T bytes -> bytes !!! W = 0 -> (q <= M)%nat ->
  exists bytes' r,
    decrQuartet T bytes q = (bytes', r)
    /\ key_buffer T bytes'
    /\ (forall i, (q <= i < q + r)%nat -> (i < M)%nat ->
                  tetradeValue bytes i = 0%nat)
    /\ (((q + r < M)%nat
         /\ tetradeValue bytes (q + r) <> 0%nat
         /\ le_num bytes' = le_num bytes - 16 ^ Z.of_nat q
         /\ bytes' !!! W = 0)
        \/ ((M <= q + r)%nat /\ bytes' !!! W = 0xFF)).
Proof.
  intros Hb Hov Hq. unfold decrQuartet.
  apply decrQuartet_rec_spec; try assumption. lia.
Qed.

(** X4.  After [element_fast_add(key, value)], [element_fast_find(key)]
    returns the slot of the new value, [element_fast_find] of every
    other key returns what it returned before, and the trie keeps its
    depth discipline. *)
Theorem fast_add_then_find m (key : Z) (v : mapped_type) :
  well_formed M (root m) = true ->
  let m' := fst (element_fast_add T m key v) in
  snd (element_fast_add T m key v) = val v
  /\ element_fast_find T m' key = val v
  /\ (forall key', to_unsigned (bit_width T) key'
                   <> to_unsigned (bit_width T) key ->
                   element_fast_find T m' key' = element_fast_find T m key')
  /\ well_formed M (root m') = true
  /\ element_count m' = element_count m.
Proof.
  intros Hwf. cbv zeta. rewrite element_fast_add_spec by assumption.
  cbn [fst snd]. rewrite !element_fast_find_leaf. cbn [root element_count].
  assert (Hr : forall x, 0 <= to_unsigned (bit_width T) x < key_space T).
  { intros x. rewrite key_space_bits. unfold to_unsigned.
    apply Z.mod_pos_bound. rewrite <- (key_space_bits T). apply key_space_pos. }
  split; [reflexivity|]. split; [apply leaf_add_rec_same; exact Hwf|].
  split; [|split; [|reflexivity]].
  - intros key' Hne. rewrite !element_fast_find_leaf. cbn [root].
    apply leaf_add_rec_other; auto.
  - apply add_rec_well_formed;
      [rewrite path_of_length; lia|exact Hwf|reflexivity].
Qed.

(** X5.  [find(k)] of a stored key is a valid position: dereferencing
    it gives [k] and the value stored under [k], it differs from
    [end()], and [contains(k)] is true.  [find(k)] of a key that is not
    stored equals [end()], and [contains(k)] is false. *)
Theorem find_result m (k : Z) :
  well_formed M (root m) = true -> representable T k ->
  (forall v, lookup T m k = Some v ->
     iterator_deref m (find T m k) = (Some k, Some v)
     /\ iterator_eqb T (find T m k) (end_ T m) = false
     /\ contains T m k = true)
  /\ (lookup T m k = None ->
      iterator_eqb T (find T m k) (end_ T m) = true
      /\ contains T m k = false).
Proof.
  intros Hwf Hk. rewrite contains_present, lookup_present by assumption. split.
  - intros v Hl. rewrite Hl.
    assert (Hp : present T (root m) (radix_of T k) = true)
      by (rewrite lookup_present, Hl by assumption; reflexivity).
    pose proof (find_present T m k Hk Hp) as Hden.
    rewrite (deref_denotes T m _ _ Hden), entry_radix, Hl by assumption.
    rewrite (denotes_not_end T (root m) m _ _ Hden). auto.
  - intros Hl. rewrite Hl. split; [|reflexivity].
    apply iterator_eqb_same, find_absent.
    rewrite lookup_present, Hl by assumption. reflexivity.
Qed.

(** X6.  When [k] is the stored key with the least radix key,
    [begin()] is the position of [k]: it equals [find(k)], and
    dereferencing it gives [k] and the value stored under [k]. *)
Theorem begin_least m (k : Z) :
  representable T k -> contains T m k = true ->
  (forall k', representable T k' -> contains T m k' = true ->
              radix_of T k <= radix_of T k') ->
  iterator_eqb T (begin T m) (find T m k) = true
  /\ iterator_deref m (begin T m) = (Some k, lookup T m k).
Proof.
  intros Hk Hc Hmin.
  pose proof (extreme_first T Up m k Hk Hc Hmin) as Hfirst.
  pose proof (proj1 (begin_spec T m) _ Hfirst) as Hden.
  rewrite contains_present in Hc.
  pose proof (find_present T m k Hk Hc) as Hfind.
  rewrite (denotes_eqb T _ _ _ _ _ _ Hden Hfind), Z.eqb_refl.
  rewrite (deref_denotes T m _ _ Hden), entry_radix by assumption.
  split; reflexivity.
Qed.

(** X7.  When [k] is the stored key with the greatest radix key,
    [rbegin()] is the position of [k]: it equals [find(k)], and
    dereferencing it gives [k] and the value stored under [k]. *)
Theorem rbegin_greatest m (k : Z) :
  representable T k -> contains T m k = true ->
  (forall k', representable T k' -> contains T m k' = true ->
              radix_of T k' <= radix_of T k) ->
  iterator_eqb T (rbegin T m) (find T m k) = true
  /\ iterator_deref m (rbegin T m) = (Some k, lookup T m k).
Proof.
  intros Hk Hc Hmax.
  pose proof (extreme_first T Down m k Hk Hc Hmax) as Hfirst.
  pose proof (proj1 (rbegin_spec T m) _ Hfirst) as Hden.
  rewrite contains_present in Hc.
  pose proof (find_present T m k Hk Hc) as Hfind.
  rewrite (denotes_eqb T _ _ _ _ _ _ Hden Hfind), Z.eqb_refl.
  rewrite (deref_denotes T m _ _ Hden), entry_radix by assumption.
  split; reflexivity.
Qed.

(** X8.  From the position of a stored key [K], [operator++] of an
    iterator moves to the position of the next stored key above [K],
    and to [end()] when there is none; [operator--] moves to the
    position of the next stored key below [K], and to the before-begin
    position [rend()] when there is none.  (The reverse iterators call
    the same [decrement] and [increment].) *)
Theorem step_to_neighbour m it (K : Z) :
  denotes T (root m) it K ->
  ((forall K', first_from T (root m) Up (K + 1) K' ->
               denotes T (root m) (iterator_incr T m it) K')
   /\ (none_from T (root m) Up (K + 1) ->
       iterator_eqb T (iterator_incr T m it) (end_ T m) = true))
  /\ ((forall K', first_from T (root m) Down (K - 1) K' ->
                  denotes T (root m) (iterator_decr T m it) K')
      /\ (none_from T (root m) Down (K - 1) ->
          iterator_eqb T (iterator_decr T m it) (rend T m) = true)).
Proof.
  intros Hden.
  destruct (advance_from T Up m it K Hden) as [Hfu Hnu].
  destruct (advance_from T Down m it K Hden) as [Hfd Hnd].
  split; (split; [assumption|]).
  - intros Hn. apply iterator_eqb_same. rewrite end_key_bytes. apply Hnu, Hn.
  - intros Hn. apply iterator_eqb_same. rewrite rend_key_bytes. apply Hnd, Hn.
Qed.

(** X9.  From the position of a stored key, [--(++it)] and [++(--it)]
    are the position [it] started at, also when the step in between
    reached [end()] or [rend()]: both denote the same element, compare
    equal to [it] and dereference to the same pair. *)
Theorem step_there_and_back m it (K : Z) :
  denotes T (root m) it K ->
  let back := iterator_decr T m (iterator_incr T m it) in
  let forth := iterator_incr T m (iterator_decr T m it) in
  denotes T (root m) back K /\ denotes T (root m) forth K
  /\ iterator_eqb T back it = true /\ iterator_eqb T forth it = true
  /\ iterator_deref m back = iterator_deref m it
  /\ iterator_deref m forth = iterator_deref m it.
Proof.
  intros Hden. cbv zeta.
  pose proof (there_and_back T Up m it K Hden) as Hb.
  pose proof (there_and_back T Down m it K Hden) as Hf.
  cbn [advance opposite] in Hb, Hf.
  change (reverse_iterator_incr T m) with (iterator_decr T m) in Hb, Hf.
  split; [exact Hb|]. split; [exact Hf|].
  rewrite (denotes_eqb T _ _ _ _ _ _ Hb Hden).
  rewrite (denotes_eqb T _ _ _ _ _ _ Hf Hden).
  rewrite !(deref_denotes T m _ K) by assumption.
  rewrite Z.eqb_refl. auto.
Qed.

(** X10.  [operator==] of the iterators compares the key bytes only:
    two positions of stored elements are equal exactly when their keys
    are equal, whichever containers they belong to; and the position of
    a stored element never equals [end()] or [rend()]. *)
Theorem iterator_equality root root' m' (a b : iterator_base) (Ka Kb : Z) :
  denotes T root a Ka -> denotes T root' b Kb ->
  iterator_eqb T a b = (Ka =? Kb)
  /\ iterator_eqb T a (end_ T m') = false
  /\ iterator_eqb T a (rend T m') = false.
Proof.
  intros Ha Hb. split; [apply (denotes_eqb T root root'); assumption|].
  split; [eapply denotes_not_end|eapply denotes_not_rend]; eassumption.
Qed.

(** X11.  The two positions outside the elements absorb further steps
    and lead back in: [++end()] is [end()], a reverse iterator stepped
    beyond [rend()] stays at [rend()], [--end()] is the position
    [rbegin()] starts at, and a reverse iterator stepped back from
    [rend()] is at the position [begin()] starts at. *)
Theorem ends_absorb m :
  iterator_eqb T (iterator_incr T m (end_ T m)) (end_ T m) = true
  /\ iterator_eqb T (reverse_iterator_incr T m (rend T m)) (rend T m) = true
  /\ iterator_eqb T (iterator_decr T m (end_ T m)) (rbegin T m) = true
  /\ iterator_eqb T (reverse_iterator_decr T m (rend T m)) (begin T m) = true.
Proof.
  split; [|split; [|split]].
  - destruct (step_outside T Up m _ (end_outside T m)) as (Hb & _).
    apply iterator_eqb_same. rewrite end_key_bytes. exact Hb.
  - destruct (step_outside T Down m _ (rend_outside T m)) as (Hb & _).
    apply iterator_eqb_same. rewrite rend_key_bytes. exact Hb.
  - destruct (step_back T Up m _ (end_outside T m)) as [Hf Hn].
    destruct (rbegin_spec T m) as [Hf' Hn']. cbn [opposite advance origin] in *.
    unfold iterator_decr, reverse_iterator_incr in *.
    destruct (first_or_none T (root m) Down (key_space T - 1))
      as [(K & HK)|Hnone].
    + rewrite (denotes_eqb T _ _ _ _ _ _ (Hf K HK) (Hf' K HK)).
      apply Z.eqb_refl.
    + destruct (Hn Hnone) as (Hb & _). apply iterator_eqb_same.
      rewrite (Hn' Hnone). exact Hb.
  - destruct (step_back T Down m _ (rend_outside T m)) as [Hf Hn].
    destruct (begin_spec T m) as [Hf' Hn']. cbn [opposite advance origin] in *.
    unfold iterator_incr, reverse_iterator_decr in *.
    destruct (first_or_none T (root m) Up 0) as [(K & HK)|Hnone].
    + rewrite (denotes_eqb T _ _ _ _ _ _ (Hf K HK) (Hf' K HK)).
      apply Z.eqb_refl.
    + destruct (Hn Hnone) as (Hb & _). apply iterator_eqb_same.
      rewrite (Hn' Hnone). exact Hb.
Qed.

(** X12.  [operator[]] with a stored key returns the slot of its value
    and leaves the container as it is; with a key that is not stored it
    leaves the container as [insert] of the key with a
    default-constructed value does, and returns the slot of that
    value. *)
Theorem index_as_insert (default_value : mapped_type) m (k : Z) :
  invariant T m = true ->
  (forall v, lookup T m k = Some v ->
             index T default_value m k = (m, val v))
  /\ (lookup T m k = None ->
      index T default_value m k
      = (fst (insert T m (k, default_value)), val default_value)).
Proof.
  intros Hinv. pose proof (invariant_well_formed T m Hinv) as Hwf.
  pose proof (lookup_leaf T m k Hwf) as Hl. split.
  - intros v Hv. rewrite Hv in Hl. rewrite index_present, Hl by (rewrite Hl; auto).
    reflexivity.
  - intros Hv. rewrite Hv in Hl. rewrite index_absent by assumption.
    unfold insert. cbn [fst snd]. rewrite element_fast_find_leaf.
    fold (radix_of T k). rewrite Hl. cbn [is_empty_node].
    rewrite element_fast_add_spec by assumption. reflexivity.
Qed.

(** X13.  [erase(pos)], for the position [pos] of a stored element,
    leaves the container as [erase(k)] does for the key [k] of that
    element, which returns 1. *)
Theorem erase_pos_as_erase m pos (K : Z) :
  invariant T m = true -> denotes T (root m) pos K ->
  erase T m (native_of T K) = (fst (erase_pos T m pos), 1).
Proof.
  intros Hinv Hden. pose proof Hden as (Ht & _ & Hnum & Hp & _).
  assert (HK : 0 <= K < key_space T).
  { rewrite <- Hnum. destruct Ht as (Hl & Hb & Hov & _).
    apply (buffer_in_range T); [split|]; assumption. }
  rewrite (erase_pos_spec T m pos K Hinv Hden).
  rewrite erase_present;
    rewrite ?radix_native by assumption;
    [reflexivity|exact Hinv|apply native_representable|exact Hp].
Qed.

(** X14.  When another key of the same block of 16 keys is stored (a
    key with the same radix key up to the lowest base-16 digit),
    [erase(pos)] returns the position of the element that followed
    [pos], and [end()] when none followed. *)
Theorem erase_pos_returns_next m pos (K K2 : Z) :
  well_formed M (root m) = true -> denotes T (root m) pos K ->
  present T (root m) K2 = true -> 0 <= K2 < key_space T ->
  K2 <> K -> K2 / 16 = K / 16 ->
  let m' := fst (erase_pos T m pos) in
  let it' := snd (erase_pos T m pos) in
  (forall K', first_from T (root m) Up (K + 1) K' -> denotes T (root m') it' K')
  /\ (none_from T (root m) Up (K + 1) ->
      iterator_eqb T it' (end_ T m') = true).
Proof.
  intros Hwf Hden Hp2 HK2 Hne E. cbv zeta.
  destruct (erase_pos_next T m pos K K2 Hwf Hden Hp2 HK2 Hne E) as [Hf Hn].
  split; [exact Hf|]. intros Hnone. apply iterator_eqb_same, Hn, Hnone.
Qed.

(** X15.  [free_node_tree], which [clear()] and the destructor run on
    the root, destroys the mapped values of exactly the elements a
    forward traversal visits, each once and in the order of the
    traversal; after [clear()] the container is in the state of a
    newly constructed one, and a traversal of it visits nothing. *)
Theorem clear_destroys_each_value_once m :
  well_formed M (root m) = true ->
  exists l,
    forward T m = inr l
    /\ map Some (free_node_tree (root m) M) = map snd l
    /\ clear T m = empty_map
    /\ forward T (clear T m) = inr [].
Proof.
  intros Hwf. eexists. split; [apply forward_in_order; exact Hwf|].
  split; [|split; [reflexivity|]].
  - rewrite (free_node_tree_in_order M (root m) 0), !map_map. reflexivity.
  - rewrite forward_in_order by apply well_formed_empty.
    cbn [clear root]. rewrite in_order_empty. reflexivity.
Qed.

(** X16.  For every container state the operations lead to: the
    forward traversal from [begin()] to [end()] ends; it visits exactly
    the stored keys, each once and with its value, in strictly
    ascending order of their radix keys; the traversal from [rbegin()]
    to [rend()] visits the same elements in the opposite order; and
    [size()] is the number of elements visited. *)
Theorem traversal_complete m :
  invariant T m = true ->
  exists ks,
    forward T m = inr (map (fun k => (Some k, lookup T m k)) ks)
    /\ backward T m = inr (rev (map (fun k => (Some k, lookup T m k)) ks))
    /\ StronglySorted (fun a b => radix_of T a < radix_of T b) ks
    /\ (forall k, representable T k -> (In k ks <-> contains T m k = true))
    /\ Z.of_nat (length ks) = size m.
Proof.
  intros Hinv. pose proof (invariant_well_formed T m Hinv) as Hwf.
  pose proof (in_order_stored T (root m)) as Hst.
  exists (map (fun kv => native_of T (fst kv)) (in_order M (root m) 0)).
  assert (Hmap : map (fun kv : Z * mapped_type =>
                        (Some (native_of T (fst kv)), Some (snd kv)))
                   (in_order M (root m) 0)
                 = map (fun k => (Some k, lookup T m k))
                     (map (fun kv => native_of T (fst kv))
                        (in_order M (root m) 0))).
  { rewrite map_map. apply map_ext_in. intros [K v] Hin.
    apply Hst in Hin; [|exact Hwf]. destruct Hin as [HK Hv]. cbn [fst snd].
    unfold lookup. rewrite radix_native, Hv by assumption. reflexivity. }
  split; [rewrite forward_in_order, Hmap by assumption; reflexivity|].
  split; [rewrite backward_in_order, Hmap by assumption; reflexivity|].
  split; [|split].
  - apply (sorted_map (fun a b : Z * mapped_type => fst a < fst b));
      [|apply in_order_sorted; exact Hwf].
    intros [K1 v1] [K2 v2] H1 H2 Hlt.
    apply Hst in H1, H2; try exact Hwf. cbn [fst] in *.
    rewrite !radix_native by tauto. exact Hlt.
  - intros k Hk. rewrite contains_present, in_map_iff. split.
    + intros ([K v] & <- & Hin). apply Hst in Hin; [|exact Hwf].
      cbn [fst]. unfold present.
      rewrite radix_native by tauto. destruct Hin as [_ ->]. reflexivity.
    + intros Hp. rewrite lookup_present in Hp by assumption.
      destruct (lookup T m k) as [v|] eqn:El; [|discriminate].
      exists (radix_of T k, v). cbn [fst].
      split; [apply native_radix; exact Hk|].
      apply Hst; [exact Hwf|]. split; [apply radix_of_range|].
      rewrite lookup_leaf, El by assumption. reflexivity.
  - rewrite length_map, (in_order_length M _ 0 Hwf).
    apply invariant_spec in Hinv. unfold size. lia.
Qed.

(** X17.  [empty()] is true exactly when [begin()] equals [end()], and
    exactly when [rbegin()] equals [rend()]. *)
Theorem empty_iff_begin_is_end m :
  invariant T m = true ->
  empty m = iterator_eqb T (begin T m) (end_ T m)
  /\ empty m = iterator_eqb T (rbegin T m) (rend T m).
Proof.
  intros Hinv. split; [apply empty_begin; exact Hinv|].
  destruct (rbegin_spec T m) as [Hf Hn].
  pose proof (empty_spec T m Hinv) as He.
  destruct (first_or_none T (root m) Down (key_space T - 1))
    as [(K & HK)|Hnone].
  - rewrite (denotes_not_rend T (root m) m _ K (Hf K HK)).
    destruct (empty m); [|reflexivity].
    destruct HK as (Hp & Hr & _). rewrite (proj1 He eq_refl K Hr) in Hp.
    discriminate.
  - rewrite iterator_eqb_same by (rewrite rend_key_bytes; apply Hn, Hnone).
    apply He. intros K HK. apply Hnone; [exact HK|unfold ahead; lia].
Qed.

(** X18.  A container that has become empty is in the state of a newly
    constructed one: no node is left allocated, the root is the
    sentinel again. *)
Theorem emptied_is_fresh m :
  invariant T m = true -> empty m = true -> m = empty_map.
Proof.
  intros Hinv He. pose proof (empty_root T m Hinv He) as Hroot.
  unfold empty in He. apply Z.eqb_eq in He.
  destruct m as [r c]. cbn [root element_count] in *. subst. reflexivity.
Qed.

(** X19.  [insert(std::initializer_list)] keeps the value of every key
    the container already has; of the pairs of the list with one key,
    the first one is stored. *)
Theorem insert_list_first_wins m (kvs : list (Z * mapped_type)) (k : Z) :
  well_formed M (root m) = true ->
  Forall (representable T) (map fst kvs) -> representable T k ->
  lookup T (insert_list T m kvs) k
  = match lookup T m k with
    | Some v => Some v
    | None => first_value kvs k
    end.
Proof. intros Hwf Hrep Hk. apply lookup_insert_list; assumption. Qed.

(** X20.  The state of the container does not depend on the order of
    insertion: two lists of pairs with distinct keys that are
    permutations of each other, inserted into the same container, give
    the same trie, node for node, and the same element count. *)
Theorem insertion_order_irrelevant m (kvs1 kvs2 : list (Z * mapped_type)) :
  invariant T m = true -> Forall (representable T) (map fst kvs1) ->
  NoDup (map fst kvs1) -> Permutation kvs1 kvs2 ->
  element_count m + Z.of_nat (length kvs1) < 2 ^ 64 ->
  insert_list T m kvs1 = insert_list T m kvs2.
Proof.
  intros Hinv Hrep Hnd Hp Hc. pose proof (invariant_well_formed T m Hinv) as Hwf.
  assert (Hrep2 : Forall (representable T) (map fst kvs2)).
  { eapply Permutation_Forall; [|exact Hrep]. apply Permutation_map. exact Hp. }
  apply (lookup_ext T).
  - apply insert_list_invariant; assumption.
  - apply insert_list_invariant; try assumption.
    rewrite <- (Permutation_length Hp). exact Hc.
  - intros k Hk. rewrite !lookup_insert_list by assumption.
    rewrite (first_value_perm kvs1 kvs2 k Hp Hnd). reflexivity.
Qed.

(** X21.  The copy constructor ends and builds a container equal to the
    one it copies: the same trie, node for node, and the same element
    count. *)
Theorem copy_constructor_copies other :
  invariant T other = true -> copy_construct T other = Some other.
Proof. apply copy_construct_spec. Qed.

(** X22.  The copy assignment [a = b], for [b] an object distinct from
    [a], ends and leaves [a] equal to [b], whatever [a] held before. *)
Theorem copy_assignment_copies m other :
  invariant T other = true -> copy_assign T m other = Some other.
Proof.
  intros Hinv. unfold copy_assign.
  change (clear T m) with (@empty_map mapped_type).
  apply copy_construct_spec. exact Hinv.
Qed.

(** X23.  The copy assignment of a container to itself, [a = a], ends
    and leaves the container empty: [clear()] runs before the loop that
    copies, and there is no test for self-assignment. *)
Theorem self_assignment_empties m :
  copy_assign_self T m = Some empty_map.
Proof.
  unfold copy_assign_self. change (clear T m) with (@empty_map mapped_type).
  apply insert_self_spec. apply well_formed_empty.
Qed.

(** X24.  [insert(const arraymap &other)], for [other] an object
    distinct from [*this], ends; afterwards every key [*this] had keeps
    its value, and every other key has the value [other] stores under
    it, if any.  With [other] being [*this] itself the call ends and
    leaves the container as it was. *)
Theorem insert_other_merges m other (k : Z) :
  well_formed M (root m) = true -> well_formed M (root other) = true ->
  representable T k ->
  (exists m', insert_other T m other = Some m'
     /\ lookup T m' k
        = match lookup T m k with
          | Some v => Some v
          | None => lookup T other k
          end)
  /\ insert_self T m = Some m.
Proof.
  intros Hwm Hwo Hk.
  split; [apply insert_other_lookup; assumption|].
  apply insert_self_spec. exact Hwm.
Qed.

(** X25.  [lower_bound(k)] and [upper_bound(k)] are right whenever some
    stored key agrees with [k] on all but the two lowest base-16 digits
    of the radix key: [lower_bound(k)] is the position of the first
    stored key not below [k], [upper_bound(k)] the position of the
    first stored key above [k], and each is [end()] when there is no
    such key. *)
Theorem bounds_near_stored_key m (k k' : Z) :
  representable T k -> representable T k' -> contains T m k' = true ->
  radix_of T k' / 256 = radix_of T k / 256 ->
  ((forall K', first_from T (root m) Up (radix_of T k) K' ->
               denotes T (root m) (lower_bound T m k) K')
   /\ (none_from T (root m) Up (radix_of T k) ->
       iterator_eqb T (lower_bound T m k) (end_ T m) = true))
  /\ ((forall K', first_from T (root m) Up (radix_of T k + 1) K' ->
                  denotes T (root m) (upper_bound T m k) K')
      /\ (none_from T (root m) Up (radix_of T k + 1) ->
          iterator_eqb T (upper_bound T m k) (end_ T m) = true)).
Proof.
  intros Hk Hk' Hc E. rewrite contains_present in Hc.
  destruct (bounds_node T m k Hk (near_node T (root m) _ _ Hc E))
    as [[Hlf Hln] [Huf Hun]].
  split; (split; [assumption|]); intros Hnone; apply iterator_eqb_same; auto.
Qed.

(** X26.  After [erase(k)] the forward traversal yields what it yielded
    before, in the same order, without the pair of [k]. *)
Theorem traversal_after_erase m (k : Z) :
  invariant T m = true -> representable T k ->
  exists l,
    forward T m = inr l
    /\ forward T (fst (erase T m k))
       = inr (List.filter
                (fun e : option Z * option mapped_type =>
                   match fst e with Some k' => negb (k' =? k) | None => true end)
                l).
Proof.
  intros Hinv Hk. pose proof (invariant_well_formed T m Hinv) as Hwf.
  pose proof (erase_invariant T m k Hinv Hk) as He.
  pose proof (invariant_well_formed T _ He) as Hwe.
  eexists. split; [apply forward_in_order; exact Hwf|].
  rewrite forward_in_order, in_order_erase by assumption. f_equal.
  rewrite filter_map_comm. cbn [fst].
  f_equal. apply filter_ext_in. intros [K v] Hin.
  apply (in_order_stored T _ _ _ Hwf) in Hin. cbn [fst].
  rewrite native_eqb by tauto. reflexivity.
Qed.

(** X27.  [erase(k)] undoes [insert] of a key that was not stored, and
    [insert] of the pair just erased undoes [erase(k)]: in both cases
    the container is back in the state it was in, trie and element
    count. *)
Theorem insert_erase_round_trip m (k : Z) (v : mapped_type) :
  invariant T m = true -> representable T k ->
  (lookup T m k = None -> element_count m + 1 < 2 ^ 64 ->
   erase T (fst (insert T m (k, v))) k = (m, 1))
  /\ (lookup T m k = Some v ->
      fst (insert T (fst (erase T m k)) (k, v)) = m).
Proof.
  intros Hinv Hk. split.
  - intros Hl Hc. apply erase_insert; assumption.
  - intros Hl. apply insert_erase; assumption.
Qed.

(** X28.  Iterators stay valid while other elements come and go: the
    position of a stored key is still the position of that key, with
    the same value, after [insert] of any pair and after [erase] of any
    other key. *)
Theorem positions_survive m it (K k2 : Z) (v2 : mapped_type) :
  invariant T m = true -> element_count m + 1 < 2 ^ 64 ->
  representable T k2 -> denotes T (root m) it K ->
  let inserted := fst (insert T m (k2, v2)) in
  let erased := fst (erase T m k2) in
  (denotes T (root inserted) it K
   /\ iterator_deref inserted it = iterator_deref m it)
  /\ (radix_of T k2 <> K ->
      denotes T (root erased) it K
      /\ iterator_deref erased it = iterator_deref m it).
Proof.
  intros Hinv Hc Hk2 Hden. cbv zeta.
  pose proof (invariant_well_formed T m Hinv) as Hwf.
  pose proof Hden as (Ht & _ & Hnum & Hp & _).
  assert (HK : 0 <= K < key_space T).
  { rewrite <- Hnum. destruct Ht as (Hl & Hb & Hov & _).
    apply (buffer_in_range T); [split|]; assumption. }
  pose proof (well_formed_insert T m k2 v2 Hwf) as Hwi.
  pose proof (invariant_well_formed T _ (erase_invariant T m k2 Hinv Hk2)) as Hwe.
  pose proof (leaf_insert T m k2 v2 K Hwf HK) as Hli.
  pose proof (leaf_erase T m k2 K Hinv Hk2 HK) as Hle.
  unfold present in Hp.
  destruct (is_empty_node (leaf T (root m) K)) eqn:He; [discriminate|].
  rewrite andb_false_r in Hli.
  assert (Hdi : denotes T (root (fst (insert T m (k2, v2)))) it K).
  { apply (denotes_transfer T (root m)); try assumption.
    unfold present. rewrite Hli, He. reflexivity. }
  split.
  - split; [exact Hdi|].
    rewrite (deref_denotes T _ it K Hdi), (deref_denotes T m it K Hden).
    unfold entry. rewrite Hli. reflexivity.
  - intros Hne. destruct (Z.eqb_spec (radix_of T k2) K) as [|_]; [contradiction|].
    assert (Hde : denotes T (root (fst (erase T m k2))) it K).
    { apply (denotes_transfer T (root m)); try assumption.
      unfold present. rewrite Hle, He. reflexivity. }
    split; [exact Hde|].
    rewrite (deref_denotes T _ it K Hde), (deref_denotes T m it K Hden).
    unfold entry. rewrite Hle. reflexivity.
Qed.

End Behaviour.

(** X29.  In an [arraymap<int8_t, V>], [lower_bound(k)] and
    [upper_bound(k)] are right for every key [k]: [lower_bound(k)] is
    the position of the first stored key not below [k],
    [upper_bound(k)] the position of the first stored key above [k],
    and each is [end()] when there is no such key. *)
Theorem bounds_int8 {mapped_type : Type} (m : arraymap mapped_type) (k : Z) :
  well_formed 2 (root m) = true -> representable int8_t k ->
  ((forall K', first_from int8_t (root m) Up (radix_of int8_t k) K' ->
               denotes int8_t (root m) (lower_bound int8_t m k) K')
   /\ (none_from int8_t (root m) Up (radix_of int8_t k) ->
       iterator_eqb int8_t (lower_bound int8_t m k) (end_ int8_t m) = true))
  /\ ((forall K', first_from int8_t (root m) Up (radix_of int8_t k + 1) K' ->
                  denotes int8_t (root m) (upper_bound int8_t m k) K')
      /\ (none_from int8_t (root m) Up (radix_of int8_t k + 1) ->
          iterator_eqb int8_t (upper_bound int8_t m k) (end_ int8_t m) = true)).
Proof.
  intros Hwf Hk.
  destruct (bounds8 m k Hwf Hk) as [[Hlf Hln] [Huf Hun]].
  split; (split; [assumption|]); intros Hnone; apply iterator_eqb_same; auto.
Qed.

(** ** The properties at concrete containers *)

Ltac in_range := unfold representable, bit_width; simpl; lia.

Lemma incrQuartet_adds_witness :
  exists bytes' r,
    incrQuartet int8_t [31; 0] 0 = (bytes', r)
    /\ key_buffer int8_t bytes'
    /\ le_num bytes' = le_num [31; 0] + 16 ^ Z.of_nat 0
    /\ (forall i, (0 <= i < 0 + r)%nat -> tetradeValue [31; 0]%Z i = 15%nat)
    /\ tetradeValue [31; 0]%Z (0 + r) <> 15%nat
    /\ (0 + r <= MAX_DEPTH int8_t)%nat
    /\ bytes' !!! key_size int8_t
       = (if (0 + r =? MAX_DEPTH int8_t)%nat then 1 else 0).
Proof.
  apply (incrQuartet_adds int8_t [31; 0] 0).
  - split; [reflexivity|repeat constructor; unfold is_byte; lia].
  - reflexivity.
  - vm_compute. lia.
Defined.

Lemma decrQuartet_subtracts_witness :
  exists bytes' r,
    decrQuartet int8_t [32; 0] 0 = (bytes', r)
    /\ key_buffer int8_t bytes'
    /\ (forall i, (0 <= i < 0 + r)%nat -> (i < MAX_DEPTH int8_t)%nat ->
                  tetradeValue [32; 0]%Z i = 0%nat)
    /\ (((0 + r < MAX_DEPTH int8_t)%nat
         /\ tetradeValue [32; 0]%Z (0 + r) <> 0%nat
         /\ le_num bytes' = le_num [32; 0] - 16 ^ Z.of_nat 0
         /\ bytes' !!! key_size int8_t = 0)
        \/ ((MAX_DEPTH int8_t <= 0 + r)%nat
            /\ bytes' !!! key_size int8_t = 0xFF)).
Proof.
  apply (decrQuartet_subtracts int8_t [32; 0] 0).
  - split; [reflexivity|repeat constructor; unfold is_byte; lia].
  - reflexivity.
  - vm_compute. lia.
Defined.

Lemma fast_add_then_find_witness :
  let m : arraymap Z := fst (insert int8_t empty_map (7, 40)) in
  let m' := fst (element_fast_add int8_t m 5 30) in
  snd (element_fast_add int8_t m 5 30) = val 30
  /\ element_fast_find int8_t m' 5 = val 30
  /\ (forall key', to_unsigned (bit_width int8_t) key'
                   <> to_unsigned (bit_width int8_t) 5 ->
                   element_fast_find int8_t m' key'
                   = element_fast_find int8_t m key')
  /\ well_formed (MAX_DEPTH int8_t) (root m') = true
  /\ element_count m' = element_count m.
Proof.
  apply (fast_add_then_find int8_t (fst (insert int8_t empty_map (7, 40))) 5 30).
  vm_compute. reflexivity.
Defined.

Lemma find_result_witness :
  let m := insert_list int8_t empty_map [(5, 30); (-5, 10); (7, 40)] in
  iterator_deref m (find int8_t m 5) = (Some 5, Some 30)
  /\ iterator_eqb int8_t (find int8_t m 5) (end_ int8_t m) = false
  /\ contains int8_t m 5 = true.
Proof.
  refine (proj1 (find_result int8_t
                   (insert_list int8_t empty_map [(5, 30); (-5, 10); (7, 40)])
                   5 _ _) 30 _).
  - vm_compute. reflexivity.
  - in_range.
  - vm_compute. reflexivity.
Defined.

Lemma begin_least_witness :
  let m := insert_list int8_t empty_map [(5, 30); (-5, 10); (7, 40)] in
  iterator_eqb int8_t (begin int8_t m) (find int8_t m (-5)) = true
  /\ iterator_deref m (begin int8_t m) = (Some (-5), lookup int8_t m (-5)).
Proof.
  apply (begin_least int8_t
           (insert_list int8_t empty_map [(5, 30); (-5, 10); (7, 40)]) (-5)).
  - in_range.
  - vm_compute. reflexivity.
  - intros k' Hk' Hc.
    apply (int8_all
             (fun k' =>
                implb (contains int8_t
                         (insert_list int8_t empty_map
                            [(5, 30); (-5, 10); (7, 40)]) k')
                      (radix_of int8_t (-5) <=? radix_of int8_t k')))
      in Hk'; [|vm_compute; reflexivity].
    rewrite Hc in Hk'. apply Z.leb_le. exact Hk'.
Defined.

Lemma rbegin_greatest_witness :
  let m := insert_list int8_t empty_map [(5, 30); (-5, 10); (7, 40)] in
  iterator_eqb int8_t (rbegin int8_t m) (find int8_t m 7) = true
  /\ iterator_deref m (rbegin int8_t m) = (Some 7, lookup int8_t m 7).
Proof.
  apply (rbegin_greatest int8_t
           (insert_list int8_t empty_map [(5, 30); (-5, 10); (7, 40)]) 7).
  - in_range.
  - vm_compute. reflexivity.
  - intros k' Hk' Hc.
    apply (int8_all
             (fun k' =>
                implb (contains int8_t
                         (insert_list int8_t empty_map
                            [(5, 30); (-5, 10); (7, 40)]) k')
                      (radix_of int8_t k' <=? radix_of int8_t 7)))
      in Hk'; [|vm_compute; reflexivity].
    rewrite Hc in Hk'. apply Z.leb_le. exact Hk'.
Defined.

Lemma step_to_neighbour_witness :
  let m := insert_list int8_t empty_map [(5, 30); (-5, 10); (7, 40)] in
  let it := find int8_t m 5 in
  ((forall K', first_from int8_t (root m) Up (133 + 1) K' ->
               denotes int8_t (root m) (iterator_incr int8_t m it) K')
   /\ (none_from int8_t (root m) Up (133 + 1) ->
       iterator_eqb int8_t (iterator_incr int8_t m it) (end_ int8_t m) = true))
  /\ ((forall K', first_from int8_t (root m) Down (133 - 1) K' ->
                  denotes int8_t (root m) (iterator_decr int8_t m it) K')
      /\ (none_from int8_t (root m) Down (133 - 1) ->
          iterator_eqb int8_t (iterator_decr int8_t m it) (rend int8_t m)
          = true)).
Proof.
  apply (step_to_neighbour int8_t
           (insert_list int8_t empty_map [(5, 30); (-5, 10); (7, 40)])
           (find int8_t
              (insert_list int8_t empty_map [(5, 30); (-5, 10); (7, 40)]) 5)
           133).
  apply (find_present int8_t
           (insert_list int8_t empty_map [(5, 30); (-5, 10); (7, 40)]) 5).
  - in_range.
  - vm_compute. reflexivity.
Defined.

Lemma step_there_and_back_witness :
  let m := insert_list int8_t empty_map [(5, 30); (-5, 10); (7, 40)] in
  let it := find int8_t m 7 in
  let back := iterator_decr int8_t m (iterator_incr int8_t m it) in
  let forth := iterator_incr int8_t m (iterator_decr int8_t m it) in
  denotes int8_t (root m) back 135 /\ denotes int8_t (root m) forth 135
  /\ iterator_eqb int8_t back it = true /\ iterator_eqb int8_t forth it = true
  /\ iterator_deref m back = iterator_deref m it
  /\ iterator_deref m forth = iterator_deref m it.
Proof.
  apply (step_there_and_back int8_t
           (insert_list int8_t empty_map [(5, 30); (-5, 10); (7, 40)])
           (find int8_t
              (insert_list int8_t empty_map [(5, 30); (-5, 10); (7, 40)]) 7)
           135).
  apply (find_present int8_t
           (insert_list int8_t empty_map [(5, 30); (-5, 10); (7, 40)]) 7).
  - in_range.
  - vm_compute. reflexivity.
Defined.

Lemma iterator_equality_witness :
  let m1 := insert_list int8_t empty_map [(5, 30); (-5, 10)] in
  let m2 := insert_list int8_t empty_map [(5, 99)] in
  iterator_eqb int8_t (find int8_t m1 5) (find int8_t m2 5) = (133 =? 133)
  /\ iterator_eqb int8_t (find int8_t m1 5) (end_ int8_t m2) = false
  /\ iterator_eqb int8_t (find int8_t m1 5) (rend int8_t m2) = false.
Proof.
  apply (iterator_equality int8_t
           (root (insert_list int8_t empty_map [(5, 30); (-5, 10)]))
           (root (insert_list int8_t empty_map [(5, 99)]))
           (insert_list int8_t empty_map [(5, 99)])
           (find int8_t (insert_list int8_t empty_map [(5, 30); (-5, 10)]) 5)
           (find int8_t (insert_list int8_t empty_map [(5, 99)]) 5)
           133 133).
  - apply (find_present int8_t
             (insert_list int8_t empty_map [(5, 30); (-5, 10)]) 5);
      [in_range|vm_compute; reflexivity].
  - apply (find_present int8_t (insert_list int8_t empty_map [(5, 99)]) 5);
      [in_range|vm_compute; reflexivity].
Defined.

Lemma index_as_insert_witness :
  let m := insert_list int8_t empty_map [(5, 30); (-5, 10)] in
  index int8_t 0 m 9 = (fst (insert int8_t m (9, 0)), val 0).
Proof.
  refine (proj2 (index_as_insert int8_t 0
                   (insert_list int8_t empty_map [(5, 30); (-5, 10)]) 9 _) _).
  - vm_compute. reflexivity.
  - vm_compute. reflexivity.
Defined.

Lemma erase_pos_as_erase_witness :
  let m := insert_list int8_t empty_map [(5, 30); (-5, 10)] in
  erase int8_t m (native_of int8_t 133)
  = (fst (erase_pos int8_t m (find int8_t m 5)), 1).
Proof.
  apply (erase_pos_as_erase int8_t
           (insert_list int8_t empty_map [(5, 30); (-5, 10)])
           (find int8_t (insert_list int8_t empty_map [(5, 30); (-5, 10)]) 5)
           133).
  - vm_compute. reflexivity.
  - apply (find_present int8_t
             (insert_list int8_t empty_map [(5, 30); (-5, 10)]) 5);
      [in_range|vm_compute; reflexivity].
Defined.

Lemma erase_pos_returns_next_witness :
  let m := insert_list int8_t empty_map [(5, 30); (-5, 10); (7, 40)] in
  let m' := fst (erase_pos int8_t m (find int8_t m 5)) in
  let it' := snd (erase_pos int8_t m (find int8_t m 5)) in
  (forall K', first_from int8_t (root m) Up (133 + 1) K' ->
              denotes int8_t (root m') it' K')
  /\ (none_from int8_t (root m) Up (133 + 1) ->
      iterator_eqb int8_t it' (end_ int8_t m') = true).
Proof.
  apply (erase_pos_returns_next int8_t
           (insert_list int8_t empty_map [(5, 30); (-5, 10); (7, 40)])
           (find int8_t
              (insert_list int8_t empty_map [(5, 30); (-5, 10); (7, 40)]) 5)
           133 135).
  - vm_compute. reflexivity.
  - apply (find_present int8_t
             (insert_list int8_t empty_map [(5, 30); (-5, 10); (7, 40)]) 5);
      [in_range|vm_compute; reflexivity].
  - vm_compute. reflexivity.
  - vm_compute. split; [discriminate|reflexivity].
  - lia.
  - reflexivity.
Defined.

Lemma clear_destroys_each_value_once_witness :
  let m := insert_list int8_t empty_map [(5, 30); (-5, 10); (7, 40)] in
  exists l,
    forward int8_t m = inr l
    /\ map Some (free_node_tree (root m) (MAX_DEPTH int8_t)) = map snd l
    /\ clear int8_t m = empty_map
    /\ forward int8_t (clear int8_t m) = inr [].
Proof.
  apply (clear_destroys_each_value_once int8_t
           (insert_list int8_t empty_map [(5, 30); (-5, 10); (7, 40)])).
  vm_compute. reflexivity.
Defined.

Lemma traversal_complete_witness :
  let m := insert_list int8_t empty_map [(5, 30); (-5, 10); (7, 40)] in
  exists ks,
    forward int8_t m = inr (map (fun k => (Some k, lookup int8_t m k)) ks)
    /\ backward int8_t m
       = inr (rev (map (fun k => (Some k, lookup int8_t m k)) ks))
    /\ StronglySorted (fun a b => radix_of int8_t a < radix_of int8_t b) ks
    /\ (forall k, representable int8_t k ->
                  (In k ks <-> contains int8_t m k = true))
    /\ Z.of_nat (length ks) = size m.
Proof.
  apply (traversal_complete int8_t
           (insert_list int8_t empty_map [(5, 30); (-5, 10); (7, 40)])).
  vm_compute. reflexivity.
Defined.

Lemma empty_iff_begin_is_end_witness :
  let m := insert_list int8_t empty_map [(5, 30)] in
  empty m = iterator_eqb int8_t (begin int8_t m) (end_ int8_t m)
  /\ empty m = iterator_eqb int8_t (rbegin int8_t m) (rend int8_t m).
Proof.
  apply (empty_iff_begin_is_end int8_t
           (insert_list int8_t empty_map [(5, 30)])).
  vm_compute. reflexivity.
Defined.

Lemma emptied_is_fresh_witness :
  fst (erase int8_t (fst (insert int8_t empty_map (5, 30))) 5)
  = @empty_map Z.
Proof.
  apply (emptied_is_fresh int8_t
           (fst (erase int8_t (fst (insert int8_t empty_map (5, 30))) 5)));
    vm_compute; reflexivity.
Defined.

Lemma insert_list_first_wins_witness :
  let m := insert_list int8_t empty_map [(5, 30)] in
  lookup int8_t (insert_list int8_t m [(7, 1); (5, 2); (7, 3)]) 7
  = match lookup int8_t m 7 with
    | Some v => Some v
    | None => first_value [(7, 1); (5, 2); (7, 3)] 7
    end.
Proof.
  apply (insert_list_first_wins int8_t
           (insert_list int8_t empty_map [(5, 30)])
           [(7, 1); (5, 2); (7, 3)] 7).
  - vm_compute. reflexivity.
  - repeat constructor; in_range.
  - in_range.
Defined.

Lemma insertion_order_irrelevant_witness :
  insert_list int8_t empty_map [(5, 30); (-5, 10)]
  = insert_list int8_t empty_map [(-5, 10); (5, 30)].
Proof.
  apply (insertion_order_irrelevant int8_t empty_map
           [(5, 30); (-5, 10)] [(-5, 10); (5, 30)]).
  - vm_compute. reflexivity.
  - repeat constructor; in_range.
  - apply (bool_decide_unpack _). vm_compute. exact I.
  - apply perm_swap.
  - vm_compute. reflexivity.
Defined.

Lemma copy_constructor_copies_witness :
  let other := insert_list int8_t empty_map [(5, 30); (-5, 10); (7, 40)] in
  copy_construct int8_t other = Some other.
Proof.
  apply (copy_constructor_copies int8_t
           (insert_list int8_t empty_map [(5, 30); (-5, 10); (7, 40)])).
  vm_compute. reflexivity.
Defined.

Lemma copy_assignment_copies_witness :
  let m := insert_list int8_t empty_map [(1, 1); (2, 2)] in
  let other := insert_list int8_t empty_map [(5, 30); (-5, 10)] in
  copy_assign int8_t m other = Some other.
Proof.
  apply (copy_assignment_copies int8_t
           (insert_list int8_t empty_map [(1, 1); (2, 2)])
           (insert_list int8_t empty_map [(5, 30); (-5, 10)])).
  vm_compute. reflexivity.
Defined.

Lemma insert_other_merges_witness :
  let m := insert_list int8_t empty_map [(5, 30); (7, 40)] in
  let other := insert_list int8_t empty_map [(5, 99); (-5, 10)] in
  (exists m', insert_other int8_t m other = Some m'
     /\ lookup int8_t m' 5
        = match lookup int8_t m 5 with
          | Some v => Some v
          | None => lookup int8_t other 5
          end)
  /\ insert_self int8_t m = Some m.
Proof.
  apply (insert_other_merges int8_t
           (insert_list int8_t empty_map [(5, 30); (7, 40)])
           (insert_list int8_t empty_map [(5, 99); (-5, 10)]) 5).
  - vm_compute. reflexivity.
  - vm_compute. reflexivity.
  - in_range.
Defined.

Lemma bounds_near_stored_key_witness :
  let m := insert_list int16_t empty_map [(1, 7); (300, 8)] in
  ((forall K', first_from int16_t (root m) Up (radix_of int16_t 3) K' ->
               denotes int16_t (root m) (lower_bound int16_t m 3) K')
   /\ (none_from int16_t (root m) Up (radix_of int16_t 3) ->
       iterator_eqb int16_t (lower_bound int16_t m 3) (end_ int16_t m) = true))
  /\ ((forall K', first_from int16_t (root m) Up (radix_of int16_t 3 + 1) K' ->
                  denotes int16_t (root m) (upper_bound int16_t m 3) K')
      /\ (none_from int16_t (root m) Up (radix_of int16_t 3 + 1) ->
          iterator_eqb int16_t (upper_bound int16_t m 3) (end_ int16_t m)
          = true)).
Proof.
  apply (bounds_near_stored_key int16_t
           (insert_list int16_t empty_map [(1, 7); (300, 8)]) 3 1).
  - in_range.
  - in_range.
  - vm_compute. reflexivity.
  - vm_compute. reflexivity.
Defined.

Lemma traversal_after_erase_witness :
  let m := insert_list int8_t empty_map [(5, 30); (-5, 10); (7, 40)] in
  exists l,
    forward int8_t m = inr l
    /\ forward int8_t (fst (erase int8_t m 5))
       = inr (List.filter
                (fun e : option Z * option Z =>
                   match fst e with Some k' => negb (k' =? 5) | None => true end)
                l).
Proof.
  apply (traversal_after_erase int8_t
           (insert_list int8_t empty_map [(5, 30); (-5, 10); (7, 40)]) 5).
  - vm_compute. reflexivity.
  - in_range.
Defined.

Lemma insert_erase_round_trip_witness :
  let m := insert_list int8_t empty_map [(5, 30); (-5, 10)] in
  erase int8_t (fst (insert int8_t m (7, 40))) 7 = (m, 1).
Proof.
  refine (proj1 (insert_erase_round_trip int8_t
                   (insert_list int8_t empty_map [(5, 30); (-5, 10)]) 7 40 _ _)
            _ _).
  - vm_compute. reflexivity.
  - in_range.
  - vm_compute. reflexivity.
  - vm_compute. reflexivity.
Defined.

Lemma bounds_int8_witness :
  let m := insert_list int8_t empty_map [(5, 30); (-5, 10); (7, 40)] in
  ((forall K', first_from int8_t (root m) Up (radix_of int8_t 6) K' ->
               denotes int8_t (root m) (lower_bound int8_t m 6) K')
   /\ (none_from int8_t (root m) Up (radix_of int8_t 6) ->
       iterator_eqb int8_t (lower_bound int8_t m 6) (end_ int8_t m) = true))
  /\ ((forall K', first_from int8_t (root m) Up (radix_of int8_t 6 + 1) K' ->
                  denotes int8_t (root m) (upper_bound int8_t m 6) K')
      /\ (none_from int8_t (root m) Up (radix_of int8_t 6 + 1) ->
          iterator_eqb int8_t (upper_bound int8_t m 6) (end_ int8_t m) = true)).
Proof.
  apply (bounds_int8 (insert_list int8_t empty_map [(5, 30); (-5, 10); (7, 40)]) 6).
  - vm_compute. reflexivity.
  - in_range.
Defined.

Lemma positions_survive_witness :
  let m := insert_list int8_t empty_map [(5, 30); (-5, 10)] in
  let it := find int8_t m 5 in
  let inserted := fst (insert int8_t m (7, 40)) in
  let erased := fst (erase int8_t m 7) in
  (denotes int8_t (root inserted) it 133
   /\ iterator_deref inserted it = iterator_deref m it)
  /\ (radix_of int8_t 7 <> 133 ->
      denotes int8_t (root erased) it 133
      /\ iterator_deref erased it = iterator_deref m it).
Proof.
  apply (positions_survive int8_t
           (insert_list int8_t empty_map [(5, 30); (-5, 10)])
           (find int8_t (insert_list int8_t empty_map [(5, 30); (-5, 10)]) 5)
           133 7 40).
  - vm_compute. reflexivity.
  - vm_compute. reflexivity.
  - in_range.
  - apply (find_present int8_t
             (insert_list int8_t empty_map [(5, 30); (-5, 10)]) 5);
      [in_range|vm_compute; reflexivity].
Defined.
